(** * Subagent orchestration core: a shallow embedding and its properties

    Part I follows the TypeScript sources module by module:

    - [Js]: the JavaScript notions the sources rely on (truthiness, [??],
      [String.prototype.trim], insertion-ordered [Map]s, JSON values);
    - [NodeSubscriptions]: [src/gateway/server-node-subscriptions.ts];
    - [Lanes]: what the two lane-queue files share (entries, effects, calls);
    - [CommandQueueReset]: the lane queue with task ids and generations,
      [CommandLaneClearedError] and [resetAllLanes];
    - [CommandQueue]: [src/process/command-queue.ts], the lane queue with an
      active counter;
    - [LaneCallbacks], [CommandQueueResetCallbacks], [CommandQueueCallbacks]:
      the two queues again, with [onWait] callbacks that may throw;
    - [DeliveryContext]: the delivery-context helpers;
    - [Store]: [src/agents/subagent-registry.store.ts];
    - [Announce]: [src/agents/subagent-announce.ts];
    - [Registry]: [src/agents/subagent-registry.ts], and [dedupeChannels] of
      the channel-plugin registry that follows it in that file;
    - [QueueSimulation]: the relation between the states of the two queues.

    Mutable module-level state ([Map]s, counters) is threaded explicitly;
    calls into collaborators that are not part of these sources (gateway
    RPC, session store, embedded-run tracker) are either recorded as effects
    or read from an explicit environment.  The lane queues run on one thread:
    a step of their models is one synchronous call, or the continuation of
    one started task after its [await], and carries the single reading of
    [Date.now()] taken during it; tasks and [onWait] callbacks are taken not
    to call back into the queue synchronously, and numbers are integers.  In
    [CommandQueueReset] and [CommandQueue] the callbacks return; the modules
    after them take what a callback throws as a parameter and agree with the
    first two where nothing is thrown ([LaneCallbacksProofs]).

    Part II holds the properties, in modules of lemmas named after the
    source module they are about. *)

From Stdlib Require Import ZArith String Ascii List Lia.
From stdpp Require Import base gmap sets list strings pretty sorting.

Local Open Scope string_scope.
Local Open Scope Z_scope.
Local Open Scope list_scope.
#[local] Set Warnings "-clear-no-such-hyp,-register-all".

(* ===================================================================== *)
(** * JavaScript prelude                                                  *)
(* ===================================================================== *)

Module Js.

(** Code units stripped by [String.prototype.trim] that fit one byte:
    TAB, LF, VT, FF, CR and SPACE.  Strings are modelled as sequences of
    bytes, so the multi-byte white space of ECMAScript (NBSP, BOM, Zs) is
    left in place; no property below depends on which characters count as
    white space. *)
Definition is_ws (c : ascii) : bool :=
  let n := nat_of_ascii c in
  ((9 <=? n)%nat && (n <=? 13)%nat) || (n =? 32)%nat.

Fixpoint trimStart (s : string) : string :=
  match s with
  | EmptyString => EmptyString
  | String c s' => if is_ws c then trimStart s' else s
  end.

Fixpoint trimEnd (s : string) : string :=
  match s with
  | EmptyString => EmptyString
  | String c s' =>
      match trimEnd s' with
      | EmptyString => if is_ws c then EmptyString else String c EmptyString
      | r => String c r
      end
  end.

Definition trim (s : string) : string := trimEnd (trimStart s).

(** [!s] for a string. *)
Definition str_falsy (s : string) : bool :=
  match s with EmptyString => true | _ => false end.

(** The double quote and the line feed, as one-character strings. *)
Definition dquote : string := String (ascii_of_nat 34) EmptyString.
Definition newline : string := String (ascii_of_nat 10) EmptyString.

(** Truthiness of an optional number ([undefined] and [0] are falsy). *)
Definition num_truthy (n : option Z) : bool :=
  match n with
  | Some z => negb (z =? 0)
  | None => false
  end.

(** Truthiness of an optional boolean. *)
Definition bool_truthy (b : option bool) : bool :=
  match b with
  | Some true => true
  | _ => false
  end.

(** Truthiness of an optional string. *)
Definition ostr_truthy (s : option string) : bool :=
  match s with
  | Some s' => negb (str_falsy s')
  | None => false
  end.

(** A JavaScript [Map<string, V>]: keys are unique and iteration follows
    insertion order; [set] on a present key keeps its position. *)
Fixpoint mapGet {V} (key : string) (m : list (string * V)) : option V :=
  match m with
  | [] => None
  | (k, v) :: m' => if String.eqb k key then Some v else mapGet key m'
  end.

Fixpoint mapSet {V} (key : string) (v : V) (m : list (string * V)) : list (string * V) :=
  match m with
  | [] => [(key, v)]
  | (k, v0) :: m' =>
      if String.eqb k key then (k, v) :: m' else (k, v0) :: mapSet key v m'
  end.

(** Values as [JSON.parse] yields them and as the code passes them around
    under the type [unknown], plus [undefined].  Numbers are integers (all
    the numbers of these sources are epoch milliseconds and thread ids), so
    [NaN], infinities and fractions are outside the model.  The fields of an
    object are listed in enumeration order and carry distinct keys. *)
Inductive JsVal :=
| JUndefined
| JNull
| JBool (b : bool)
| JNum (n : Z)
| JStr (s : string)
| JArr (items : list JsVal)
| JObj (fields : list (string * JsVal)).

(** [Boolean(v)]. *)
Definition truthy (v : JsVal) : bool :=
  match v with
  | JUndefined | JNull => false
  | JBool b => b
  | JNum n => negb (n =? 0)
  | JStr s => negb (str_falsy s)
  | JArr _ | JObj _ => true
  end.

(** [a ?? b]. *)
Definition coalesce (a b : JsVal) : JsVal :=
  match a with
  | JUndefined | JNull => b
  | _ => a
  end.

(** [typeof v === "object"] ([null] included, as in JavaScript). *)
Definition typeof_object (v : JsVal) : bool :=
  match v with
  | JNull | JArr _ | JObj _ => true
  | _ => false
  end.

(** [v.key] for a key that is no array index; reading a property of a
    primitive gives [undefined], which is also what [v?.key] gives on
    [undefined] and [null]. *)
Definition getField (v : JsVal) (key : string) : JsVal :=
  match v with
  | JObj fields => default JUndefined (mapGet key fields)
  | _ => JUndefined
  end.

Definition ofOptStr (s : option string) : JsVal :=
  match s with Some s' => JStr s' | None => JUndefined end.

Definition ofOptNum (n : option Z) : JsVal :=
  match n with Some z => JNum z | None => JUndefined end.

Definition ofOptBool (b : option bool) : JsVal :=
  match b with Some b' => JBool b' | None => JUndefined end.

(** Whether a property key is an array index, that is the canonical decimal
    form of an integer below [2^32 - 1].  An object enumerates such keys
    first, in ascending numeric order, and its other keys after them, in the
    order in which they were created. *)
Definition digitOf (c : ascii) : option N :=
  let n := N_of_ascii c in
  if ((48 <=? n) && (n <=? 57))%N then Some (n - 48)%N else None.

Fixpoint decimal (s : string) (acc : N) : option N :=
  match s with
  | EmptyString => Some acc
  | String c s' =>
      match digitOf c with
      | Some d => decimal s' (10 * acc + d)%N
      | None => None
      end
  end.

Definition arrayIndex (key : string) : option N :=
  match key with
  | EmptyString => None
  | String c rest =>
      if Ascii.eqb c "0" && negb (str_falsy rest) then None
      else
        match decimal key 0 with
        | Some n => if (n <? 4294967295)%N then Some n else None
        | None => None
        end
  end.



(** [obj[key] = v] on an object given by its properties in enumeration
    order: a present key keeps its place, a new array index goes among the
    array indices, any other new key goes last. *)
Fixpoint setProperty {V} (key : string) (v : V) (props : list (string * V))
  : list (string * V) :=
  match props with
  | [] => [(key, v)]
  | (k, v0) :: props' =>
      if String.eqb k key then (k, v) :: props'
      else
        match arrayIndex key, arrayIndex k with
        | Some n, Some m =>
            if (n <? m)%N then (key, v) :: props else (k, v0) :: setProperty key v props'
        | Some _, None => (key, v) :: props
        | None, _ => (k, v0) :: setProperty key v props'
        end
  end.

(** What [JSON.stringify] followed by [JSON.parse] keeps of a value:
    properties whose value is [undefined] vanish, [undefined] array items
    become [null]. *)
Fixpoint jsonClean (v : JsVal) : JsVal :=
  match v with
  | JObj fields =>
      JObj ((fix go (fs : list (string * JsVal)) : list (string * JsVal) :=
               match fs with
               | [] => []
               | (k, JUndefined) :: fs' => go fs'
               | (k, x) :: fs' => (k, jsonClean x) :: go fs'
               end) fields)
  | JArr items =>
      JArr ((fix go (xs : list JsVal) : list JsVal :=
               match xs with
               | [] => []
               | JUndefined :: xs' => JNull :: go xs'
               | x :: xs' => jsonClean x :: go xs'
               end) items)
  | _ => v
  end.

End Js.

(* ===================================================================== *)
(** * Node subscription index                                             *)
(* ===================================================================== *)

Module NodeSubscriptions.
Import Js.

(** The two [Map<string, Set<string>>] closed over by
    [createNodeSubscriptionManager]. *)
Record Manager := mkManager {
  nodeSubscriptions : gmap string (gset string);
  sessionSubscribers : gmap string (gset string);
}.

Definition createNodeSubscriptionManager : Manager :=
  {| nodeSubscriptions := ∅; sessionSubscribers := ∅ |}.

(** [map.get(key)], creating and storing an empty set when absent. *)
Definition getOrCreate (key : string) (mp : gmap string (gset string))
  : gset string * gmap string (gset string) :=
  match mp !! key with
  | Some set => (set, mp)
  | None => (∅, <[key := ∅]> mp)
  end.

(** The idiom [set?.delete(x); if (set?.size === 0) map.delete(key)]. *)
Definition deleteMember (key x : string) (mp : gmap string (gset string))
  : gmap string (gset string) :=
  match mp !! key with
  | Some set =>
      let set' := set ∖ {[x]} in
      if decide (size set' = 0%nat) then delete key mp else <[key := set']> mp
  | None => mp
  end.

Definition subscribe (nodeId sessionKey : string) (m : Manager) : Manager :=
  let normalizedNodeId := trim nodeId in
  let normalizedSessionKey := trim sessionKey in
  if str_falsy normalizedNodeId || str_falsy normalizedSessionKey then m
  else
    let '(nodeSet, nodes1) := getOrCreate normalizedNodeId (nodeSubscriptions m) in
    if decide (normalizedSessionKey ∈ nodeSet) then
      {| nodeSubscriptions := nodes1; sessionSubscribers := sessionSubscribers m |}
    else
      let nodes2 := <[normalizedNodeId := {[normalizedSessionKey]} ∪ nodeSet]> nodes1 in
      let '(sessionSet, sessions1) :=
        getOrCreate normalizedSessionKey (sessionSubscribers m) in
      {| nodeSubscriptions := nodes2;
         sessionSubscribers :=
           <[normalizedSessionKey := {[normalizedNodeId]} ∪ sessionSet]> sessions1 |}.

Definition unsubscribe (nodeId sessionKey : string) (m : Manager) : Manager :=
  let normalizedNodeId := trim nodeId in
  let normalizedSessionKey := trim sessionKey in
  if str_falsy normalizedNodeId || str_falsy normalizedSessionKey then m
  else
    {| nodeSubscriptions :=
         deleteMember normalizedNodeId normalizedSessionKey (nodeSubscriptions m);
       sessionSubscribers :=
         deleteMember normalizedSessionKey normalizedNodeId (sessionSubscribers m) |}.

(** The [for (const sessionKey of nodeSet)] loop runs over the elements of
    the set; its result does not depend on the enumeration order. *)
Definition unsubscribeAll (nodeId : string) (m : Manager) : Manager :=
  let normalizedNodeId := trim nodeId in
  match nodeSubscriptions m !! normalizedNodeId with
  | None => m
  | Some nodeSet =>
      {| nodeSubscriptions := delete normalizedNodeId (nodeSubscriptions m);
         sessionSubscribers :=
           foldl (fun sessions sessionKey =>
                    deleteMember sessionKey normalizedNodeId sessions)
                 (sessionSubscribers m) (elements nodeSet) |}
  end.

Definition clear (m : Manager) : Manager :=
  {| nodeSubscriptions := ∅; sessionSubscribers := ∅ |}.

(** Calls a client can make on the manager's mutating surface. *)
Inductive Op :=
| Subscribe (nodeId sessionKey : string)
| Unsubscribe (nodeId sessionKey : string)
| UnsubscribeAll (nodeId : string).

Definition apply (m : Manager) (op : Op) : Manager :=
  match op with
  | Subscribe n s => subscribe n s m
  | Unsubscribe n s => unsubscribe n s m
  | UnsubscribeAll n => unsubscribeAll n m
  end.

Definition run (ops : list Op) : Manager :=
  foldl apply createNodeSubscriptionManager ops.

(** [x] is in the set stored under [key] ([map.get(key)?.has(x)]). *)
Definition member (mp : gmap string (gset string)) (key x : string) : Prop :=
  ∃ set, mp !! key = Some set ∧ x ∈ set.

Definition memberb (mp : gmap string (gset string)) (key x : string) : bool :=
  match mp !! key with
  | Some set => bool_decide (x ∈ set)
  | None => false
  end.

Definition symmetric (m : Manager) : Prop :=
  ∀ N S, member (nodeSubscriptions m) N S ↔ member (sessionSubscribers m) S N.

Definition no_empty_set (mp : gmap string (gset string)) : Prop :=
  ∀ key set, mp !! key = Some set → set ≠ ∅.

Definition well_formed (m : Manager) : Prop :=
  symmetric m ∧ no_empty_set (nodeSubscriptions m)
  ∧ no_empty_set (sessionSubscribers m).

(** *** Clearing and sending *)

(** All calls that change the manager, [clear] included. *)
Inductive Request :=
| Do (op : Op)
| ClearAll.

Definition serve (m : Manager) (r : Request) : Manager :=
  match r with
  | Do op => apply m op
  | ClearAll => clear m
  end.

Definition serveAll (rs : list Request) : Manager :=
  foldl serve createNodeSubscriptionManager rs.

(** One call of the [sendEvent] callback. *)
Record NodeEvent := mkNodeEvent {
  toNode : string;
  eventName : string;
  payloadJSON : option string;
}.

Section Sending.

(** [JSON.stringify], a built-in, on the payloads handed to it. *)
Variable stringify : JsVal → string.

Definition toPayloadJSON (payload : JsVal) : option string :=
  if truthy payload then Some (stringify payload) else None.



(** [listConnected] is the list the callback of that name returns, [None]
    when no callback was passed. *)
Definition sendToAllConnected (event : string) (payload : JsVal)
    (listConnected : option (list string)) (hasSend : bool) : list NodeEvent :=
  match listConnected with
  | Some connected =>
      if negb hasSend then []
      else
        let payloadJSON := toPayloadJSON payload in
        map (fun nodeId => mkNodeEvent nodeId event payloadJSON) connected
  | None => []
  end.

End Sending.

End NodeSubscriptions.

(* ===================================================================== *)
(** * Lane queues: what the two implementations share                     *)
(* ===================================================================== *)

Module Lanes.
Import Js.

(** Modelled from the spec: [CommandLane.Main] of [./lanes.js], which is not
    among the sources; the spec and the comments of both queue files name the
    default lane ["main"]. *)
Definition CommandLane_Main : string := "main".

(** [lane.trim() || CommandLane.Main]. *)
Definition cleanLane (lane : string) : string :=
  if str_falsy (trim lane) then CommandLane_Main else trim lane.

(** One [enqueueCommandInLane] call creates a task thunk, a promise and its
    [resolve]/[reject] pair; [promise] names all of them.  [onWait] names the
    optional callback. *)
Record QueueEntry := mkEntry {
  promise : nat;
  enqueuedAt : Z;
  warnAfterMs : Z;
  onWait : option nat;
}.

(** How the promise returned by [entry.task()] settles. *)
Inductive TaskOutcome :=
| Returned (value : string)
| Threw (err : string).

(** Rejection reasons: a thrown value (of a task or, in [LaneCallbacks], of
    a callback), or an [Error] object with its [name] and [message]. *)
Inductive Reason :=
| TaskThrew (err : string)
| ErrorObject (name message : string).

(** [new CommandLaneClearedError(lane)]. *)
Definition CommandLaneClearedError (lane : option string) : Reason :=
  ErrorObject "CommandLaneClearedError"
    (match lane with
     | Some l =>
         if str_falsy l then "Command lane cleared"
         else "Command lane " +:+ dquote +:+ l +:+ dquote +:+ " cleared"
     | None => "Command lane cleared"
     end).

(** Everything a queue does that is visible outside it, in program order. *)
Inductive Effect :=
| LogLaneEnqueue (lane : string) (queueSize : Z)
| OnWait (callback : nat) (waitedMs : Z) (queuedAhead : nat)
| DiagWarn (lane : string) (waitedMs : Z) (queueAhead : nat)
| LogLaneDequeue (lane : string) (waitedMs : Z) (queueAhead : nat)
| TaskStarted (lane : string) (promise : nat)
| DiagDebug (lane : string) (durationMs : Z) (active : Z) (queued : nat)
| DiagError (lane : string) (durationMs : Z) (err : string)
| Resolve (promise : nat) (value : string)
| Reject (promise : nat) (reason : Reason).

Definition isProbeLane (lane : string) : bool :=
  String.prefix "auth-probe:" lane || String.prefix "session:probe-" lane.

(** The wait diagnostics of one dequeue whose [onWait] callback, if it has
    one, returns.  (A callback that throws is the subject of [LaneCallbacks]
    and the two modules after it.) *)
Definition waitEffects (lane : string) (e : QueueEntry) (waitedMs : Z)
    (queueAhead : nat) : list Effect :=
  if warnAfterMs e <=? waitedMs then
    match onWait e with
    | Some cb => [OnWait cb waitedMs queueAhead]
    | None => []
    end ++ [DiagWarn lane waitedMs queueAhead]
  else [].

(** A call into a queue, or the settling of a started task's promise.  Every
    step carries the reading of [Date.now()] during it. *)
Inductive Call :=
| EnqueueCommandInLane (lane : string) (warnAfterMs : option Z) (onWait : option nat)
| EnqueueCommand (warnAfterMs : option Z) (onWait : option nat)
| SetCommandLaneConcurrency (lane : string) (maxConcurrent : Z)
| ClearCommandLane (lane : string)
| TaskSettles (promise : nat) (outcome : TaskOutcome).

(** Whether an effect settles the promise [p]. *)
Definition settles (p : nat) (e : Effect) : bool :=
  match e with
  | Resolve q _ | Reject q _ => (q =? p)%nat
  | _ => false
  end.

(** The handles of the tasks started in [lane], in the order in which they
    were started. *)
Definition started (lane : string) (tr : list Effect) : list nat :=
  omap (fun e => match e with
                 | TaskStarted l p => if String.eqb l lane then Some p else None
                 | _ => None
                 end) tr.

(** The handles settled in a record of effects, in order. *)
Definition settled (tr : list Effect) : list nat :=
  omap (fun e => match e with
                 | Resolve p _ | Reject p _ => Some p
                 | _ => None
                 end) tr.

End Lanes.

(* ===================================================================== *)
(** * Lane queue with generations (the file with [resetAllLanes])         *)
(* ===================================================================== *)

Module CommandQueueReset.
Import Js Lanes.

Record LaneState := mkLane {
  lane : string;
  queue : list QueueEntry;
  activeTaskIds : gset nat;
  maxConcurrent : Z;
  draining : bool;
  generation : nat;
}.

(** The pending continuation of one started task: the variables its closure
    captured. *)
Record Running := mkRunning {
  entry : QueueEntry;
  runLane : string;
  startTime : Z;
  taskId : nat;
  taskGeneration : nat;
}.

Record State := mkState {
  lanes : list (string * LaneState);
  nextTaskId : nat;
  nextPromise : nat;
  inflight : list Running;
  trace : list Effect;
}.

Definition init : State :=
  {| lanes := []; nextTaskId := 1; nextPromise := 0; inflight := []; trace := [] |}.

Definition getLaneState (name : string) (ls : list (string * LaneState))
  : LaneState * list (string * LaneState) :=
  match mapGet name ls with
  | Some existing => (existing, ls)
  | None =>
      let created := mkLane name [] ∅ 1 false 0 in
      (created, mapSet name created ls)
  end.

Definition completeTask (st : LaneState) (taskId taskGeneration : nat)
  : bool * LaneState :=
  if negb (taskGeneration =? generation st)%nat then (false, st)
  else (true, mkLane (lane st) (queue st) (activeTaskIds st ∖ {[taskId]})
                 (maxConcurrent st) (draining st) (generation st)).

(** The [while] loop of [pump]: one iteration per dequeued entry. *)
Fixpoint pumpLoop (name : string) (now : Z) (gen : nat) (maxC : Z)
    (q : list QueueEntry) (ids : gset nat) (next : nat)
  : (list QueueEntry * gset nat * nat) * list Running * list Effect :=
  match q with
  | [] => ((q, ids, next), [], [])
  | e :: rest =>
      if Z.of_nat (size ids) <? maxC then
        let waitedMs := now - enqueuedAt e in
        let '(res, rs, es) :=
          pumpLoop name now gen maxC rest ({[next]} ∪ ids) (S next) in
        (res, mkRunning e name now next gen :: rs,
         waitEffects name e waitedMs (length rest)
         ++ [LogLaneDequeue name waitedMs (length rest); TaskStarted name (promise e)]
         ++ es)
      else ((q, ids, next), [], [])
  end.

(** [pump()] on the lane state captured by the closure. *)
Definition pump (name : string) (now : Z) (st : LaneState) (s : State) : State :=
  let '((q, ids, next), rs, es) :=
    pumpLoop name now (generation st) (maxConcurrent st) (queue st)
             (activeTaskIds st) (nextTaskId s) in
  {| lanes := mapSet name (mkLane (lane st) q ids (maxConcurrent st) false (generation st))
                     (lanes s);
     nextTaskId := next;
     nextPromise := nextPromise s;
     inflight := inflight s ++ rs;
     trace := trace s ++ es |}.

Definition withLanes (ls : list (string * LaneState)) (s : State) : State :=
  {| lanes := ls; nextTaskId := nextTaskId s; nextPromise := nextPromise s;
     inflight := inflight s; trace := trace s |}.

(** Appends to the record of visible effects. *)
Definition emit (es : list Effect) (s : State) : State :=
  {| lanes := lanes s; nextTaskId := nextTaskId s; nextPromise := nextPromise s;
     inflight := inflight s; trace := trace s ++ es |}.

Definition drainLane (name : string) (now : Z) (s : State) : State :=
  let '(st, ls) := getLaneState name (lanes s) in
  if draining st then withLanes ls s
  else
    pump name now
         (mkLane (lane st) (queue st) (activeTaskIds st) (maxConcurrent st) true
                 (generation st))
         (withLanes ls s).

Definition setCommandLaneConcurrency (laneArg : string) (maxC : Z) (now : Z)
    (s : State) : State :=
  let cleaned := cleanLane laneArg in
  let '(st, ls) := getLaneState cleaned (lanes s) in
  let st' := mkLane (lane st) (queue st) (activeTaskIds st) (Z.max 1 maxC)
                    (draining st) (generation st) in
  drainLane cleaned now (withLanes (mapSet cleaned st' ls) s).

(** Returns the handle of the promise handed to the caller. *)
Definition enqueueCommandInLane (laneArg : string) (warnAfter : option Z)
    (onWaitCb : option nat) (now : Z) (s : State) : nat * State :=
  let cleaned := cleanLane laneArg in
  let warnAfterMs := default 2000 warnAfter in
  let '(st, ls) := getLaneState cleaned (lanes s) in
  let p := nextPromise s in
  let q := queue st ++ [mkEntry p now warnAfterMs onWaitCb] in
  let st' := mkLane (lane st) q (activeTaskIds st) (maxConcurrent st)
                    (draining st) (generation st) in
  let s1 :=
    {| lanes := mapSet cleaned st' ls;
       nextTaskId := nextTaskId s;
       nextPromise := S p;
       inflight := inflight s;
       trace := trace s
                ++ [LogLaneEnqueue cleaned
                      (Z.of_nat (length q) + Z.of_nat (size (activeTaskIds st)))] |} in
  (p, drainLane cleaned now s1).

Definition enqueueCommand (warnAfter : option Z) (onWaitCb : option nat)
    (now : Z) (s : State) : nat * State :=
  enqueueCommandInLane CommandLane_Main warnAfter onWaitCb now s.

Definition getQueueSize (laneArg : string) (s : State) : Z :=
  match mapGet (cleanLane laneArg) (lanes s) with
  | None => 0
  | Some st => Z.of_nat (length (queue st)) + Z.of_nat (size (activeTaskIds st))
  end.

Definition getTotalQueueSize (s : State) : Z :=
  foldl (fun total '(_, st) =>
           total + (Z.of_nat (length (queue st)) + Z.of_nat (size (activeTaskIds st))))
        0 (lanes s).

Definition getActiveTaskCount (s : State) : Z :=
  foldl (fun total '(_, st) => total + Z.of_nat (size (activeTaskIds st))) 0 (lanes s).

Definition clearCommandLane (laneArg : string) (s : State) : nat * State :=
  let cleaned := cleanLane laneArg in
  match mapGet cleaned (lanes s) with
  | None => (0%nat, s)
  | Some st =>
      let removed := length (queue st) in
      let pending := queue st in
      (removed,
       {| lanes := mapSet cleaned
                     (mkLane (lane st) [] (activeTaskIds st) (maxConcurrent st)
                             (draining st) (generation st))
                     (lanes s);
          nextTaskId := nextTaskId s;
          nextPromise := nextPromise s;
          inflight := inflight s;
          trace := trace s
                   ++ map (fun e => Reject (promise e)
                                      (CommandLaneClearedError (Some cleaned)))
                          pending |})
  end.

Definition resetLane (st : LaneState) : LaneState :=
  mkLane (lane st) (queue st) ∅ (maxConcurrent st) false (S (generation st)).

Definition resetAllLanes (now : Z) (s : State) : State :=
  let lanesToDrain :=
    map (fun kv => lane (snd kv))
        (List.filter (fun kv => (0 <? length (queue (snd kv)))%nat) (lanes s)) in
  foldl (fun s' name => drainLane name now s')
        (withLanes (map (fun kv => (fst kv, resetLane (snd kv))) (lanes s)) s)
        lanesToDrain.

Fixpoint takeRunning (p : nat) (rs : list Running) : option (Running * list Running) :=
  match rs with
  | [] => None
  | r :: rs' =>
      if (promise (entry r) =? p)%nat then Some (r, rs')
      else match takeRunning p rs' with
           | Some (r', rest) => Some (r', r :: rest)
           | None => None
           end
  end.

(** The continuation after [await entry.task()], for the started task whose
    promise handle is [p]. *)
Definition taskSettles (p : nat) (out : TaskOutcome) (now : Z) (s : State) : State :=
  match takeRunning p (inflight s) with
  | None => s
  | Some (r, rest) =>
      match mapGet (runLane r) (lanes s) with
      | None => s
      | Some st =>
          let '(completedCurrentGeneration, st1) :=
            completeTask st (taskId r) (taskGeneration r) in
          let s1 :=
            {| lanes := mapSet (runLane r) st1 (lanes s);
               nextTaskId := nextTaskId s;
               nextPromise := nextPromise s;
               inflight := rest;
               trace := trace s |} in
          match out with
          | Returned value =>
              let s2 :=
                if completedCurrentGeneration then
                  pump (runLane r) now st1
                    (emit [DiagDebug (runLane r) (now - startTime r)
                             (Z.of_nat (size (activeTaskIds st1)))
                             (length (queue st1))] s1)
                else s1 in
              emit [Resolve (promise (entry r)) value] s2
          | Threw err =>
              let s2 :=
                emit (if isProbeLane (runLane r) then []
                      else [DiagError (runLane r) (now - startTime r) err]) s1 in
              let s3 :=
                if completedCurrentGeneration then pump (runLane r) now st1 s2 else s2 in
              emit [Reject (promise (entry r)) (TaskThrew err)] s3
          end
      end
  end.

Definition call (now : Z) (c : Lanes.Call) (s : State) : State :=
  match c with
  | EnqueueCommandInLane l w cb => snd (enqueueCommandInLane l w cb now s)
  | EnqueueCommand w cb => snd (enqueueCommand w cb now s)
  | SetCommandLaneConcurrency l n => setCommandLaneConcurrency l n now s
  | ClearCommandLane l => snd (clearCommandLane l s)
  | TaskSettles p out => taskSettles p out now s
  end.

(** The calls of this file: those it shares with the counter-based queue,
    and [resetAllLanes]. *)
Inductive Call :=
| Shared (c : Lanes.Call)
| ResetAllLanes.

Definition step (s : State) (c : Z * Call) : State :=
  match snd c with
  | Shared c' => call (fst c) c' s
  | ResetAllLanes => resetAllLanes (fst c) s
  end.

Definition run (cs : list (Z * Call)) (s : State) : State := foldl step s cs.

(** *** Invariants of the queue and the vocabulary of its reset property *)

(** Keys are unique, every lane state is stored under its own name, and the
    concurrency cap is at least one. *)
Definition lanes_ok (ls : list (string * LaneState)) : Prop :=
  NoDup (map fst ls)
  ∧ ∀ k st, mapGet k ls = Some st → lane st = k ∧ 1 ≤ maxConcurrent st.

(** No started task carries a generation newer than its lane's. *)
Definition gen_ok (ls : list (string * LaneState)) (rs : list Running) : Prop :=
  ∀ r, r ∈ rs →
    ∃ st, mapGet (runLane r) ls = Some st ∧ (taskGeneration r ≤ generation st)%nat.

Definition wf (s : State) : Prop :=
  lanes_ok (lanes s) ∧ gen_ok (lanes s) (inflight s).

(** Lanes are never removed and generations never decrease. *)
Definition gen_le (ls ls' : list (string * LaneState)) : Prop :=
  ∀ k st, mapGet k ls = Some st →
    ∃ st', mapGet k ls' = Some st' ∧ (generation st ≤ generation st')%nat.

(** A started task whose generation is older than its lane's. *)
Definition stale (ls : list (string * LaneState)) (r : Running) : Prop :=
  ∃ st, mapGet (runLane r) ls = Some st ∧ (taskGeneration r < generation st)%nat.


(** How many entries one [pump] starts: as many as are queued, up to the
    free capacity. *)
Definition startCount (queued : nat) (maxC : Z) (activeCount : nat) : nat :=
  Nat.min queued (Z.to_nat (maxC - Z.of_nat activeCount)).


(** *** Scheduling *)

(** A lane that could not start another task: nothing is queued, or it
    counts as many active tasks (the ids in [activeTaskIds]) as its cap
    allows. *)
Definition saturated (st : LaneState) : Prop :=
  queue st = [] ∨ maxConcurrent st ≤ Z.of_nat (size (activeTaskIds st)).

(** The handles waiting in lane [k], head of the queue first. *)
Definition queuedHandles (k : string) (s : State) : list nat :=
  match mapGet k (lanes s) with
  | Some st => map promise (queue st)
  | None => []
  end.

(** The handles of lane [k], started ones first, then the queued ones, are
    strictly increasing and have all been handed out. *)
Definition inOrder (k : string) (s : State) : Prop :=
  StronglySorted lt (started k (trace s) ++ queuedHandles k s)
  ∧ Forall (fun p => (p < nextPromise s)%nat) (started k (trace s) ++ queuedHandles k s).

(** The state between two parts of a call: every lane is in order and not
    draining, and every lane but those of [D], which are still to be
    drained, is saturated. *)
Definition pendingDrain (D : list string) (s : State) : Prop :=
  ∀ k, inOrder k s
       ∧ ∀ st, mapGet k (lanes s) = Some st →
               draining st = false ∧ (k ∈ D ∨ saturated st).

(** Every lane counts at most as many active tasks (the ids in
    [activeTaskIds]) as its cap allows. *)
Definition withinCap (s : State) : Prop :=
  ∀ k st, mapGet k (lanes s) = Some st →
    Z.of_nat (size (activeTaskIds st)) ≤ maxConcurrent st.

(** Calls other than [setCommandLaneConcurrency]. *)
Definition keepsCap (c : Call) : bool :=
  match c with
  | Shared (SetCommandLaneConcurrency _ _) => false
  | _ => true
  end.

(** *** Promise handles *)

(** The handles of all queued entries, lane by lane. *)
Definition waiting (ls : list (string * LaneState)) : list nat :=
  concat (map (fun kv => map promise (queue (snd kv))) ls).

(** The handles whose [resolve]/[reject] pair the module still references:
    those of queued entries and those of started tasks whose continuation
    has not run. *)
Definition owned (s : State) : list nat :=
  waiting (lanes s) ++ map (fun r => promise (entry r)) (inflight s).

(** From [s] to [s'] the module hands out the next [n] handles and lets go
    of exactly the handles it settles. *)
Definition moves (n : nat) (s s' : State) : Prop :=
  nextPromise s' = (nextPromise s + n)%nat
  ∧ ∃ es, trace s' = trace s ++ es
          ∧ seq (nextPromise s) n ++ owned s ≡ₚ settled es ++ owned s'.

End CommandQueueReset.

(* ===================================================================== *)
(** * Lane queue with an active counter ([src/process/command-queue.ts])  *)
(* ===================================================================== *)

Module CommandQueue.
Import Js Lanes.

Record LaneState := mkLane {
  lane : string;
  queue : list QueueEntry;
  active : Z;
  maxConcurrent : Z;
  draining : bool;
}.

Record Running := mkRunning {
  entry : QueueEntry;
  runLane : string;
  startTime : Z;
}.

Record State := mkState {
  lanes : list (string * LaneState);
  nextPromise : nat;
  inflight : list Running;
  trace : list Effect;
}.

Definition init : State :=
  {| lanes := []; nextPromise := 0; inflight := []; trace := [] |}.

Definition getLaneState (name : string) (ls : list (string * LaneState))
  : LaneState * list (string * LaneState) :=
  match mapGet name ls with
  | Some existing => (existing, ls)
  | None =>
      let created := mkLane name [] 0 1 false in
      (created, mapSet name created ls)
  end.

Fixpoint pumpLoop (name : string) (now : Z) (maxC : Z)
    (q : list QueueEntry) (act : Z)
  : (list QueueEntry * Z) * list Running * list Effect :=
  match q with
  | [] => ((q, act), [], [])
  | e :: rest =>
      if act <? maxC then
        let waitedMs := now - enqueuedAt e in
        let '(res, rs, es) := pumpLoop name now maxC rest (act + 1) in
        (res, mkRunning e name now :: rs,
         waitEffects name e waitedMs (length rest)
         ++ [LogLaneDequeue name waitedMs (length rest); TaskStarted name (promise e)]
         ++ es)
      else ((q, act), [], [])
  end.

Definition pump (name : string) (now : Z) (st : LaneState) (s : State) : State :=
  let '((q, act), rs, es) :=
    pumpLoop name now (maxConcurrent st) (queue st) (active st) in
  {| lanes := mapSet name (mkLane (lane st) q act (maxConcurrent st) false) (lanes s);
     nextPromise := nextPromise s;
     inflight := inflight s ++ rs;
     trace := trace s ++ es |}.

Definition withLanes (ls : list (string * LaneState)) (s : State) : State :=
  {| lanes := ls; nextPromise := nextPromise s; inflight := inflight s;
     trace := trace s |}.

(** Appends to the record of visible effects. *)
Definition emit (es : list Effect) (s : State) : State :=
  {| lanes := lanes s; nextPromise := nextPromise s; inflight := inflight s;
     trace := trace s ++ es |}.

Definition drainLane (name : string) (now : Z) (s : State) : State :=
  let '(st, ls) := getLaneState name (lanes s) in
  if draining st then withLanes ls s
  else
    pump name now (mkLane (lane st) (queue st) (active st) (maxConcurrent st) true)
         (withLanes ls s).

Definition setCommandLaneConcurrency (laneArg : string) (maxC : Z) (now : Z)
    (s : State) : State :=
  let cleaned := cleanLane laneArg in
  let '(st, ls) := getLaneState cleaned (lanes s) in
  let st' := mkLane (lane st) (queue st) (active st) (Z.max 1 maxC) (draining st) in
  drainLane cleaned now (withLanes (mapSet cleaned st' ls) s).

Definition enqueueCommandInLane (laneArg : string) (warnAfter : option Z)
    (onWaitCb : option nat) (now : Z) (s : State) : nat * State :=
  let cleaned := cleanLane laneArg in
  let warnAfterMs := default 2000 warnAfter in
  let '(st, ls) := getLaneState cleaned (lanes s) in
  let p := nextPromise s in
  let q := queue st ++ [mkEntry p now warnAfterMs onWaitCb] in
  let st' := mkLane (lane st) q (active st) (maxConcurrent st) (draining st) in
  let s1 :=
    {| lanes := mapSet cleaned st' ls;
       nextPromise := S p;
       inflight := inflight s;
       trace := trace s ++ [LogLaneEnqueue cleaned (Z.of_nat (length q) + active st)] |} in
  (p, drainLane cleaned now s1).

Definition enqueueCommand (warnAfter : option Z) (onWaitCb : option nat)
    (now : Z) (s : State) : nat * State :=
  enqueueCommandInLane CommandLane_Main warnAfter onWaitCb now s.

Definition getQueueSize (laneArg : string) (s : State) : Z :=
  match mapGet (cleanLane laneArg) (lanes s) with
  | None => 0
  | Some st => Z.of_nat (length (queue st)) + active st
  end.

Definition getTotalQueueSize (s : State) : Z :=
  foldl (fun total '(_, st) => total + (Z.of_nat (length (queue st)) + active st))
        0 (lanes s).

(** [state.queue.length = 0]: the queued entries are dropped; nothing is
    done with their [resolve]/[reject]. *)
Definition clearCommandLane (laneArg : string) (s : State) : nat * State :=
  let cleaned := cleanLane laneArg in
  match mapGet cleaned (lanes s) with
  | None => (0%nat, s)
  | Some st =>
      let removed := length (queue st) in
      (removed,
       withLanes (mapSet cleaned
                    (mkLane (lane st) [] (active st) (maxConcurrent st) (draining st))
                    (lanes s)) s)
  end.

Fixpoint takeRunning (p : nat) (rs : list Running) : option (Running * list Running) :=
  match rs with
  | [] => None
  | r :: rs' =>
      if (promise (entry r) =? p)%nat then Some (r, rs')
      else match takeRunning p rs' with
           | Some (r', rest) => Some (r', r :: rest)
           | None => None
           end
  end.

Definition taskSettles (p : nat) (out : TaskOutcome) (now : Z) (s : State) : State :=
  match takeRunning p (inflight s) with
  | None => s
  | Some (r, rest) =>
      match mapGet (runLane r) (lanes s) with
      | None => s
      | Some st =>
          let st1 := mkLane (lane st) (queue st) (active st - 1) (maxConcurrent st)
                            (draining st) in
          let s1 :=
            {| lanes := mapSet (runLane r) st1 (lanes s);
               nextPromise := nextPromise s;
               inflight := rest;
               trace := trace s |} in
          match out with
          | Returned value =>
              emit [Resolve (promise (entry r)) value]
                (pump (runLane r) now st1
                   (emit [DiagDebug (runLane r) (now - startTime r) (active st1)
                            (length (queue st1))] s1))
          | Threw err =>
              emit [Reject (promise (entry r)) (TaskThrew err)]
                (pump (runLane r) now st1
                   (emit (if isProbeLane (runLane r) then []
                          else [DiagError (runLane r) (now - startTime r) err]) s1))
          end
      end
  end.

Definition step (s : State) (c : Z * Lanes.Call) : State :=
  let now := fst c in
  match snd c with
  | EnqueueCommandInLane l w cb => snd (enqueueCommandInLane l w cb now s)
  | EnqueueCommand w cb => snd (enqueueCommand w cb now s)
  | SetCommandLaneConcurrency l n => setCommandLaneConcurrency l n now s
  | ClearCommandLane l => snd (clearCommandLane l s)
  | TaskSettles p out => taskSettles p out now s
  end.

Definition run (cs : list (Z * Lanes.Call)) (s : State) : State := foldl step s cs.

(** *** The promises the queue can still settle *)

(** The promise handles of the queued entries, lane by lane. *)
Definition queued (ls : list (string * LaneState)) : list nat :=
  concat (map (fun kv => map promise (queue (snd kv))) ls).

(** The handles whose [resolve]/[reject] pair the module still references:
    those of queued entries and of started tasks. *)
Definition held (s : State) : list nat :=
  queued (lanes s) ++ map (fun r => promise (entry r)) (inflight s).

(** Handles are held at most once, and all of them have been handed out. *)
Definition held_ok (s : State) : Prop :=
  NoDup (held s) ∧ ∀ q, q ∈ held s → (q < nextPromise s)%nat.

(** A part of a step that holds the same handles afterwards, hands out
    none and settles nothing. *)
Definition quiet (s s' : State) : Prop :=
  held s' ≡ₚ held s
  ∧ nextPromise s' = nextPromise s
  ∧ ∃ es, trace s' = trace s ++ es ∧ ∀ p e, e ∈ es → settles p e = false.

(** *** The active counter *)

(** The started tasks of lane [k] that have not completed yet. *)
Definition running (k : string) (rs : list Running) : list Running :=
  List.filter (fun r => String.eqb (runLane r) k) rs.

(** Every lane's counter is the number of its started tasks that have not
    completed; a lane that does not exist has none. *)
Definition counted (s : State) : Prop :=
  ∀ k, Z.of_nat (length (running k (inflight s)))
       = match mapGet k (lanes s) with
         | Some st => active st
         | None => 0
         end.

(** No lane is draining, and every lane but the one named in [D], if any,
    has an empty queue or runs as many tasks as its cap allows. *)
Definition restExcept (D : option string) (s : State) : Prop :=
  ∀ k st, mapGet k (lanes s) = Some st →
          draining st = false
          ∧ (Some k = D ∨ queue st = [] ∨ maxConcurrent st ≤ active st).

End CommandQueue.

(* ===================================================================== *)
(** * Lane queues whose [onWait] callbacks may throw                      *)
(* ===================================================================== *)

(** Both files call [entry.onWait] inside [pump] with nothing around it.  A
    callback that throws therefore ends the loop after its entry has been
    shifted off the queue and before [state.draining = false]; the exception
    leaves [drainLane] and the exported function that called it, rejects the
    promise whose executor it interrupts ([enqueueCommandInLane]), or, in the
    continuation of a task, is caught by the [try] around the call of
    [pump].  The modules above take callbacks to return; the three below are
    the same queues, over the same states, with the callbacks' behaviour as
    a parameter. *)

Module LaneCallbacks.
Import Js Lanes.

(** What the [onWait] callbacks do: called with [waitedMs] and
    [queuedAhead], the callback [cb] throws [err] where the answer is
    [Some err], and returns where it is [None]. *)
Definition OnWaitBehaviour : Type := nat → Z → nat → option string.

(** Callbacks that return. *)
Definition returning : OnWaitBehaviour := fun _ _ _ => None.

(** The wait check of one dequeue: the callback it calls and the value that
    callback throws, where it throws. *)
Definition onWaitThrows (behaviour : OnWaitBehaviour) (e : QueueEntry) (waitedMs : Z)
    (queueAhead : nat) : option (nat * string) :=
  if warnAfterMs e <=? waitedMs then
    match onWait e with
    | Some cb =>
        match behaviour cb waitedMs queueAhead with
        | Some err => Some (cb, err)
        | None => None
        end
    | None => None
    end
  else None.

End LaneCallbacks.

Module CommandQueueResetCallbacks.
Import Js Lanes LaneCallbacks CommandQueueReset.

Section WithCallbacks.
Variable behaviour : OnWaitBehaviour.

(** The [while] loop of [pump]; the last component is the value thrown out
    of the loop, if any.  The entry whose callback throws has left the queue
    and is not started. *)
Fixpoint pumpLoop (name : string) (now : Z) (gen : nat) (maxC : Z)
    (q : list QueueEntry) (ids : gset nat) (next : nat)
  : (list QueueEntry * gset nat * nat) * list Running * list Effect * option string :=
  match q with
  | [] => ((q, ids, next), [], [], None)
  | e :: rest =>
      if Z.of_nat (size ids) <? maxC then
        let waitedMs := now - enqueuedAt e in
        match onWaitThrows behaviour e waitedMs (length rest) with
        | Some (cb, err) =>
            ((rest, ids, next), [], [OnWait cb waitedMs (length rest)], Some err)
        | None =>
            let '(res, rs, es, thrown) :=
              pumpLoop name now gen maxC rest ({[next]} ∪ ids) (S next) in
            (res, mkRunning e name now next gen :: rs,
             waitEffects name e waitedMs (length rest)
             ++ [LogLaneDequeue name waitedMs (length rest); TaskStarted name (promise e)]
             ++ es,
             thrown)
        end
      else ((q, ids, next), [], [], None)
  end.

(** [pump()]: [state.draining = false] is reached only where the loop ends
    without an exception. *)
Definition pump (name : string) (now : Z) (st : LaneState) (s : State)
  : State * option string :=
  let '((q, ids, next), rs, es, thrown) :=
    pumpLoop name now (generation st) (maxConcurrent st) (queue st)
             (activeTaskIds st) (nextTaskId s) in
  ({| lanes := mapSet name
                 (mkLane (lane st) q ids (maxConcurrent st)
                         (match thrown with
                          | Some _ => draining st
                          | None => false
                          end)
                         (generation st))
                 (lanes s);
      nextTaskId := next;
      nextPromise := nextPromise s;
      inflight := inflight s ++ rs;
      trace := trace s ++ es |},
   thrown).

Definition drainLane (name : string) (now : Z) (s : State) : State * option string :=
  let '(st, ls) := getLaneState name (lanes s) in
  if draining st then (withLanes ls s, None)
  else
    pump name now
         (mkLane (lane st) (queue st) (activeTaskIds st) (maxConcurrent st) true
                 (generation st))
         (withLanes ls s).

Definition setCommandLaneConcurrency (laneArg : string) (maxC : Z) (now : Z)
    (s : State) : State * option string :=
  let cleaned := cleanLane laneArg in
  let '(st, ls) := getLaneState cleaned (lanes s) in
  let st' := mkLane (lane st) (queue st) (activeTaskIds st) (Z.max 1 maxC)
                    (draining st) (generation st) in
  drainLane cleaned now (withLanes (mapSet cleaned st' ls) s).

(** The push, the log line and [drainLane] run inside the executor of the
    new promise: what [drainLane] throws rejects that promise, and the call
    returns it. *)
Definition enqueueCommandInLane (laneArg : string) (warnAfter : option Z)
    (onWaitCb : option nat) (now : Z) (s : State) : nat * State :=
  let cleaned := cleanLane laneArg in
  let warnAfterMs := default 2000 warnAfter in
  let '(st, ls) := getLaneState cleaned (lanes s) in
  let p := nextPromise s in
  let q := queue st ++ [mkEntry p now warnAfterMs onWaitCb] in
  let st' := mkLane (lane st) q (activeTaskIds st) (maxConcurrent st)
                    (draining st) (generation st) in
  let s1 :=
    {| lanes := mapSet cleaned st' ls;
       nextTaskId := nextTaskId s;
       nextPromise := S p;
       inflight := inflight s;
       trace := trace s
                ++ [LogLaneEnqueue cleaned
                      (Z.of_nat (length q) + Z.of_nat (size (activeTaskIds st)))] |} in
  let '(s2, thrown) := drainLane cleaned now s1 in
  (p, match thrown with
      | Some err => emit [Reject p (TaskThrew err)] s2
      | None => s2
      end).

Definition enqueueCommand (warnAfter : option Z) (onWaitCb : option nat)
    (now : Z) (s : State) : nat * State :=
  enqueueCommandInLane CommandLane_Main warnAfter onWaitCb now s.

(** The second loop stops at the first [drainLane] that throws. *)
Definition resetAllLanes (now : Z) (s : State) : State * option string :=
  let lanesToDrain :=
    map (fun kv => lane (snd kv))
        (List.filter (fun kv => (0 <? length (queue (snd kv)))%nat) (lanes s)) in
  foldl (fun acc name =>
           match snd acc with
           | Some _ => acc
           | None => drainLane name now (fst acc)
           end)
        (withLanes (map (fun kv => (fst kv, resetLane (snd kv))) (lanes s)) s, None)
        lanesToDrain.

(** The [catch] block of a task's continuation, entered with [err]: the
    value the task threw, or the value a callback threw out of the [pump] of
    the [try] block.  What its own [pump] throws is the rejection of the
    continuation, which nothing handles; the caller's promise is then left
    unsettled. *)
Definition catchBlock (r : Running) (err : string) (now : Z) (s : State)
  : State * option string :=
  match mapGet (runLane r) (lanes s) with
  | None => (s, None)
  | Some st =>
      let '(completedCurrentGeneration, st1) :=
        completeTask st (taskId r) (taskGeneration r) in
      let s1 :=
        emit (if isProbeLane (runLane r) then []
              else [DiagError (runLane r) (now - startTime r) err])
             (withLanes (mapSet (runLane r) st1 (lanes s)) s) in
      if completedCurrentGeneration then
        match pump (runLane r) now st1 s1 with
        | (s2, None) => (emit [Reject (promise (entry r)) (TaskThrew err)] s2, None)
        | (s2, Some err') => (s2, Some err')
        end
      else (emit [Reject (promise (entry r)) (TaskThrew err)] s1, None)
  end.

(** The continuation after [await entry.task()]. *)
Definition taskSettles (p : nat) (out : TaskOutcome) (now : Z) (s : State)
  : State * option string :=
  match takeRunning p (inflight s) with
  | None => (s, None)
  | Some (r, rest) =>
      let s0 :=
        {| lanes := lanes s;
           nextTaskId := nextTaskId s;
           nextPromise := nextPromise s;
           inflight := rest;
           trace := trace s |} in
      match mapGet (runLane r) (lanes s) with
      | None => (s, None)
      | Some st =>
          match out with
          | Returned value =>
              let '(completedCurrentGeneration, st1) :=
                completeTask st (taskId r) (taskGeneration r) in
              let s1 := withLanes (mapSet (runLane r) st1 (lanes s)) s0 in
              if completedCurrentGeneration then
                match pump (runLane r) now st1
                        (emit [DiagDebug (runLane r) (now - startTime r)
                                 (Z.of_nat (size (activeTaskIds st1)))
                                 (length (queue st1))] s1) with
                | (s2, None) => (emit [Resolve (promise (entry r)) value] s2, None)
                | (s2, Some err) => catchBlock r err now s2
                end
              else (emit [Resolve (promise (entry r)) value] s1, None)
          | Threw err => catchBlock r err now s0
          end
      end
  end.

(** What a call does to the state, and what it throws: at the caller for an
    exported function, as the unhandled rejection of the continuation for a
    task completion. *)
Definition call (now : Z) (c : Lanes.Call) (s : State) : State * option string :=
  match c with
  | EnqueueCommandInLane l w cb => (snd (enqueueCommandInLane l w cb now s), None)
  | EnqueueCommand w cb => (snd (enqueueCommand w cb now s), None)
  | SetCommandLaneConcurrency l n => setCommandLaneConcurrency l n now s
  | ClearCommandLane l => (snd (clearCommandLane l s), None)
  | TaskSettles p out => taskSettles p out now s
  end.

Definition step (s : State) (c : Z * Call) : State * option string :=
  match snd c with
  | Shared c' => call (fst c) c' s
  | ResetAllLanes => resetAllLanes (fst c) s
  end.

(** The state after a sequence of calls, and what each of them threw. *)
Fixpoint run (cs : list (Z * Call)) (s : State) : State * list (option string) :=
  match cs with
  | [] => (s, [])
  | c :: cs' =>
      let '(s1, thrown) := step s c in
      let '(s2, rest) := run cs' s1 in
      (s2, thrown :: rest)
  end.

End WithCallbacks.

End CommandQueueResetCallbacks.

Module CommandQueueCallbacks.
Import Js Lanes LaneCallbacks CommandQueue.

Section WithCallbacks.
Variable behaviour : OnWaitBehaviour.

Fixpoint pumpLoop (name : string) (now : Z) (maxC : Z)
    (q : list QueueEntry) (act : Z)
  : (list QueueEntry * Z) * list Running * list Effect * option string :=
  match q with
  | [] => ((q, act), [], [], None)
  | e :: rest =>
      if act <? maxC then
        let waitedMs := now - enqueuedAt e in
        match onWaitThrows behaviour e waitedMs (length rest) with
        | Some (cb, err) =>
            ((rest, act), [], [OnWait cb waitedMs (length rest)], Some err)
        | None =>
            let '(res, rs, es, thrown) := pumpLoop name now maxC rest (act + 1) in
            (res, mkRunning e name now :: rs,
             waitEffects name e waitedMs (length rest)
             ++ [LogLaneDequeue name waitedMs (length rest); TaskStarted name (promise e)]
             ++ es,
             thrown)
        end
      else ((q, act), [], [], None)
  end.

Definition pump (name : string) (now : Z) (st : LaneState) (s : State)
  : State * option string :=
  let '((q, act), rs, es, thrown) :=
    pumpLoop name now (maxConcurrent st) (queue st) (active st) in
  ({| lanes := mapSet name
                 (mkLane (lane st) q act (maxConcurrent st)
                         (match thrown with
                          | Some _ => draining st
                          | None => false
                          end))
                 (lanes s);
      nextPromise := nextPromise s;
      inflight := inflight s ++ rs;
      trace := trace s ++ es |},
   thrown).

Definition drainLane (name : string) (now : Z) (s : State) : State * option string :=
  let '(st, ls) := getLaneState name (lanes s) in
  if draining st then (withLanes ls s, None)
  else
    pump name now (mkLane (lane st) (queue st) (active st) (maxConcurrent st) true)
         (withLanes ls s).

Definition setCommandLaneConcurrency (laneArg : string) (maxC : Z) (now : Z)
    (s : State) : State * option string :=
  let cleaned := cleanLane laneArg in
  let '(st, ls) := getLaneState cleaned (lanes s) in
  let st' := mkLane (lane st) (queue st) (active st) (Z.max 1 maxC) (draining st) in
  drainLane cleaned now (withLanes (mapSet cleaned st' ls) s).

Definition enqueueCommandInLane (laneArg : string) (warnAfter : option Z)
    (onWaitCb : option nat) (now : Z) (s : State) : nat * State :=
  let cleaned := cleanLane laneArg in
  let warnAfterMs := default 2000 warnAfter in
  let '(st, ls) := getLaneState cleaned (lanes s) in
  let p := nextPromise s in
  let q := queue st ++ [mkEntry p now warnAfterMs onWaitCb] in
  let st' := mkLane (lane st) q (active st) (maxConcurrent st) (draining st) in
  let s1 :=
    {| lanes := mapSet cleaned st' ls;
       nextPromise := S p;
       inflight := inflight s;
       trace := trace s ++ [LogLaneEnqueue cleaned (Z.of_nat (length q) + active st)] |} in
  let '(s2, thrown) := drainLane cleaned now s1 in
  (p, match thrown with
      | Some err => emit [Reject p (TaskThrew err)] s2
      | None => s2
      end).

Definition enqueueCommand (warnAfter : option Z) (onWaitCb : option nat)
    (now : Z) (s : State) : nat * State :=
  enqueueCommandInLane CommandLane_Main warnAfter onWaitCb now s.

(** The [catch] block of a task's continuation, entered with [err]: it
    decrements [active] whether or not the [try] block has done so
    already. *)
Definition catchBlock (r : Running) (err : string) (now : Z) (s : State)
  : State * option string :=
  match mapGet (runLane r) (lanes s) with
  | None => (s, None)
  | Some st =>
      let st1 := mkLane (lane st) (queue st) (active st - 1) (maxConcurrent st)
                        (draining st) in
      let s1 :=
        emit (if isProbeLane (runLane r) then []
              else [DiagError (runLane r) (now - startTime r) err])
             (withLanes (mapSet (runLane r) st1 (lanes s)) s) in
      match pump (runLane r) now st1 s1 with
      | (s2, None) => (emit [Reject (promise (entry r)) (TaskThrew err)] s2, None)
      | (s2, Some err') => (s2, Some err')
      end
  end.

Definition taskSettles (p : nat) (out : TaskOutcome) (now : Z) (s : State)
  : State * option string :=
  match takeRunning p (inflight s) with
  | None => (s, None)
  | Some (r, rest) =>
      let s0 :=
        {| lanes := lanes s;
           nextPromise := nextPromise s;
           inflight := rest;
           trace := trace s |} in
      match mapGet (runLane r) (lanes s) with
      | None => (s, None)
      | Some st =>
          match out with
          | Returned value =>
              let st1 := mkLane (lane st) (queue st) (active st - 1) (maxConcurrent st)
                                (draining st) in
              let s1 := withLanes (mapSet (runLane r) st1 (lanes s)) s0 in
              match pump (runLane r) now st1
                      (emit [DiagDebug (runLane r) (now - startTime r) (active st1)
                               (length (queue st1))] s1) with
              | (s2, None) => (emit [Resolve (promise (entry r)) value] s2, None)
              | (s2, Some err) => catchBlock r err now s2
              end
          | Threw err => catchBlock r err now s0
          end
      end
  end.

Definition step (s : State) (c : Z * Lanes.Call) : State * option string :=
  let now := fst c in
  match snd c with
  | EnqueueCommandInLane l w cb => (snd (enqueueCommandInLane l w cb now s), None)
  | EnqueueCommand w cb => (snd (enqueueCommand w cb now s), None)
  | SetCommandLaneConcurrency l n => setCommandLaneConcurrency l n now s
  | ClearCommandLane l => (snd (clearCommandLane l s), None)
  | TaskSettles p out => taskSettles p out now s
  end.

Fixpoint run (cs : list (Z * Lanes.Call)) (s : State) : State * list (option string) :=
  match cs with
  | [] => (s, [])
  | c :: cs' =>
      let '(s1, thrown) := step s c in
      let '(s2, rest) := run cs' s1 in
      (s2, thrown :: rest)
  end.

End WithCallbacks.

End CommandQueueCallbacks.

(* ===================================================================== *)
(** * Delivery contexts ([utils/delivery-context])                        *)
(* ===================================================================== *)

Module DeliveryContext.
Import Js.

(** [normalizeMessageChannel] of [./message-channel.js] and
    [normalizeAccountId] of [./account-id.js] are not among the sources; the
    definitions below take them as parameters, and every property holds for
    whatever functions they are. *)
Class Normalizers := {
  normalizeMessageChannel : string → option string;
  normalizeAccountId : JsVal → option string;
}.

Section WithNormalizers.
Context `{Normalizers}.

(** Delivery contexts are handled as plain objects: the registry store hands
    values read from JSON to [normalizeDeliveryContext] as they are. *)
Definition normalizeDeliveryContext (context : JsVal) : JsVal :=
  if negb (truthy context) then JUndefined
  else
    let channel : option string :=
      match getField context "channel" with
      | JStr c => Some (default (trim c) (normalizeMessageChannel c))
      | _ => None
      end in
    let to : option string :=
      match getField context "to" with
      | JStr t => Some (trim t)
      | _ => None
      end in
    let accountId : option string := normalizeAccountId (getField context "accountId") in
    let threadId : JsVal :=
      match getField context "threadId" with
      | JNum n => JNum n
      | JStr t => JStr (trim t)
      | _ => JUndefined
      end in
    let normalizedThreadId : JsVal :=
      match threadId with
      | JStr t => if str_falsy t then JUndefined else JStr t
      | _ => threadId
      end in
    if negb (ostr_truthy channel) && negb (ostr_truthy to)
       && negb (ostr_truthy accountId)
       && match normalizedThreadId with JUndefined | JNull => true | _ => false end
    then JUndefined
    else
      JObj ([("channel", if ostr_truthy channel then ofOptStr channel else JUndefined);
             ("to", if ostr_truthy to then ofOptStr to else JUndefined);
             ("accountId", ofOptStr accountId)]
            ++ match normalizedThreadId with
               | JUndefined | JNull => []
               | t => [("threadId", t)]
               end).

Definition mergeDeliveryContext (primary fallback : JsVal) : JsVal :=
  let normalizedPrimary := normalizeDeliveryContext primary in
  let normalizedFallback := normalizeDeliveryContext fallback in
  if negb (truthy normalizedPrimary) && negb (truthy normalizedFallback) then JUndefined
  else
    normalizeDeliveryContext
      (JObj [("channel", coalesce (getField normalizedPrimary "channel")
                                  (getField normalizedFallback "channel"));
             ("to", coalesce (getField normalizedPrimary "to")
                             (getField normalizedFallback "to"));
             ("accountId", coalesce (getField normalizedPrimary "accountId")
                                    (getField normalizedFallback "accountId"));
             ("threadId", coalesce (getField normalizedPrimary "threadId")
                                   (getField normalizedFallback "threadId"))]).

(** [normalizeSessionDeliveryFields(source).deliveryContext]. *)
Definition normalizeSessionDeliveryFields (source : JsVal) : JsVal :=
  if negb (truthy source) then JUndefined
  else
    mergeDeliveryContext
      (normalizeDeliveryContext
         (JObj [("channel", coalesce (getField source "lastChannel")
                                     (getField source "channel"));
                ("to", getField source "lastTo");
                ("accountId", getField source "lastAccountId");
                ("threadId", getField source "lastThreadId")]))
      (normalizeDeliveryContext (getField source "deliveryContext")).

Definition deliveryContextFromSession (entry : JsVal) : JsVal :=
  if negb (truthy entry) then JUndefined
  else
    normalizeSessionDeliveryFields
      (JObj [("channel", getField entry "channel");
             ("lastChannel", getField entry "lastChannel");
             ("lastTo", getField entry "lastTo");
             ("lastAccountId", getField entry "lastAccountId");
             ("lastThreadId",
              coalesce (getField entry "lastThreadId")
                (coalesce (getField (getField entry "deliveryContext") "threadId")
                          (getField (getField entry "origin") "threadId")));
             ("deliveryContext", getField entry "deliveryContext")]).

End WithNormalizers.

End DeliveryContext.

(* ===================================================================== *)
(** * Registry store ([agents/subagent-registry.store.ts])                *)
(* ===================================================================== *)

Module Store.
Import Js DeliveryContext.

Definition REGISTRY_VERSION : Z := 2.

(** The registry file [<stateDir>/subagents/runs.json]: what parsing it
    yields ([JUndefined] when there is nothing to parse), objects listing
    their properties in enumeration order, and whether writing it
    succeeds. *)
Record Fs := mkFs {
  file : JsVal;
  writable : bool;
}.

(** Modelled from the spec: [loadJsonFile] of [../infra/json-file.js], which
    is not among the sources; a failed read yields no value. *)
Definition loadJsonFile (fs : Fs) : JsVal := file fs.

(** Modelled from the spec: [saveJsonFile] of [../infra/json-file.js], which
    is not among the sources; it stores the JSON text of [out] or throws
    ([None]). *)
Definition saveJsonFile (out : JsVal) (fs : Fs) : option Fs :=
  if writable fs then Some {| file := jsonClean out; writable := true |} else None.

(** The object [serialized] once the loop has copied the [Map] into it, the
    entries of the [Map] being listed in iteration order: a plain object
    enumerates run ids that are array indices first. *)
Definition serialized (runs : list (string * JsVal)) : list (string * JsVal) :=
  foldl (fun acc kv => setProperty (fst kv) (snd kv) acc) [] runs.

(** The [runs] argument lists the entries of the [Map] in iteration order. *)
Definition saveSubagentRegistryToDisk (runs : list (string * JsVal)) (fs : Fs)
  : option Fs :=
  saveJsonFile
    (JObj [("version", JNum REGISTRY_VERSION); ("runs", JObj (serialized runs))]) fs.

(** [Object.entries(v)] of an object or an array. *)
Definition objectEntries (v : JsVal) : list (string * JsVal) :=
  match v with
  | JObj fields => fields
  | JArr items => imap (fun i x => (pretty i, x)) items
  | _ => []
  end.

Definition legacyKeys : list string :=
  ["announceCompletedAt"; "announceHandled"; "requesterChannel"; "requesterAccountId"].

(** The properties left by
    [const { announceCompletedAt, announceHandled, requesterChannel,
             requesterAccountId, ...rest } = typed]. *)
Definition restOf (typed : JsVal) : list (string * JsVal) :=
  match typed with
  | JObj fields =>
      List.filter (fun kv => negb (existsb (String.eqb (fst kv)) legacyKeys)) fields
  | _ => []
  end.

Section WithNormalizers.
Context `{Normalizers}.

(** The record built by one iteration of the loop over the stored runs. *)
Definition migrateRecord (isLegacy : bool) (typed : JsVal) : JsVal :=
  let legacyCompletedAt :=
    match getField typed "announceCompletedAt" with
    | JNum n => if isLegacy then JNum n else JUndefined
    | _ => JUndefined
    end in
  let cleanupCompletedAt :=
    match getField typed "cleanupCompletedAt" with
    | JNum n => JNum n
    | _ => legacyCompletedAt
    end in
  let cleanupHandled :=
    match getField typed "cleanupHandled" with
    | JBool b => JBool b
    | _ =>
        if isLegacy then
          JBool (truthy (coalesce (getField typed "announceHandled") cleanupCompletedAt))
        else JUndefined
    end in
  let requesterOrigin :=
    normalizeDeliveryContext
      (coalesce (getField typed "requesterOrigin")
         (JObj [("channel",
                 match getField typed "requesterChannel" with
                 | JStr c => JStr c
                 | _ => JUndefined
                 end);
                ("accountId",
                 match getField typed "requesterAccountId" with
                 | JStr a => JStr a
                 | _ => JUndefined
                 end)])) in
  JObj (mapSet "cleanupHandled" cleanupHandled
          (mapSet "cleanupCompletedAt" cleanupCompletedAt
             (mapSet "requesterOrigin" requesterOrigin (restOf typed)))).

(** The two [continue] guards of the loop. *)
Definition loadable (entry : JsVal) : bool :=
  truthy entry && typeof_object entry
  && match getField entry "runId" with
     | JStr r => negb (str_falsy r)
     | _ => false
     end.

Definition loadStep (isLegacy : bool) (acc : list (string * JsVal) * bool)
    (kv : string * JsVal) : list (string * JsVal) * bool :=
  if loadable (snd kv) then
    (mapSet (fst kv) (migrateRecord isLegacy (snd kv)) (fst acc),
     if isLegacy then true else snd acc)
  else acc.

(** Returns the loaded [Map] (entries in iteration order) and the file
    system as the call leaves it. *)
Definition loadSubagentRegistryFromDisk (fs : Fs) : list (string * JsVal) * Fs :=
  let raw := loadJsonFile fs in
  if negb (truthy raw) || negb (typeof_object raw) then ([], fs)
  else
    let isLegacy :=
      match getField raw "version" with
      | JNum 1 => Some true
      | JNum 2 => Some false
      | _ => None
      end in
    match isLegacy with
    | None => ([], fs)
    | Some isLegacy =>
        let runsRaw := getField raw "runs" in
        if negb (truthy runsRaw) || negb (typeof_object runsRaw) then ([], fs)
        else
          let '(out, migrated) :=
            foldl (loadStep isLegacy) ([], false) (objectEntries runsRaw) in
          if migrated then
            match saveSubagentRegistryToDisk out fs with
            | Some fs' => (out, fs')
            | None => (out, fs)
            end
          else (out, fs)
    end.

End WithNormalizers.

(** *** A version-1 registry file *)

(** Stand-ins for the two normalisers, for concrete runs. *)
Definition sampleNormalizers : Normalizers :=
  {| normalizeMessageChannel := fun _ => None;
     normalizeAccountId :=
       fun v => match v with
                | JStr a => if str_falsy (trim a) then None else Some (trim a)
                | _ => None
                end |}.

Definition sampleV1Entry : JsVal :=
  JObj [("runId", JStr "run-1"); ("childSessionKey", JStr "agent:main:subagent:1");
        ("announceCompletedAt", JNum 1700); ("requesterChannel", JStr " slack ");
        ("requesterAccountId", JStr "acct")].

Definition sampleV1Disk : Fs :=
  mkFs (JObj [("version", JNum 1); ("runs", JObj [("run-1", sampleV1Entry)])]) true.


End Store.

(* ===================================================================== *)
(** * Announce flow ([agents/subagent-announce.ts])                       *)
(* ===================================================================== *)

Module Announce.
Import Js DeliveryContext.

Inductive Cleanup := Delete | Keep.

Inductive Status := Ok | Error | Timeout | Unknown.

Record SubagentRunOutcome := mkOutcome {
  status : Status;
  error : option string;
}.

Inductive SubagentAnnounceType := SubagentTask | CronJob.

Definition announceTypeText (t : SubagentAnnounceType) : string :=
  match t with
  | SubagentTask => "subagent task"
  | CronJob => "cron job"
  end.

(** The argument of [runSubagentAnnounceFlow]. *)
Record Params := mkParams {
  childSessionKey : string;
  childRunId : string;
  requesterSessionKey : string;
  requesterOrigin : JsVal;
  requesterDisplayKey : string;
  task : string;
  timeoutMs : Z;
  cleanup : Cleanup;
  roundOneReply : option string;
  waitForCompletion : option bool;
  startedAt : option Z;
  endedAt : option Z;
  label : option string;
  outcome : option SubagentRunOutcome;
  announceType : option SubagentAnnounceType;
}.

(** What [agent.wait] answers. *)
Record WaitResponse := mkWait {
  waitStatus : option string;
  waitStartedAt : option Z;
  waitEndedAt : option Z;
  waitError : option string;
}.

Record AnnounceQueueItem := mkItem {
  prompt : string;
  summaryLine : option string;
  enqueuedAt : Z;
  sessionKey : string;
  origin : JsVal;
}.

(** Calls that leave the module.  The first three publish the announcement;
    [idempotencyKey] (a random UUID) is left out. *)
Inductive Effect :=
| Steered (sessionId : JsVal) (text : string)
| EnqueueAnnounce (key : string) (item : AnnounceQueueItem) (mode : string)
| GatewayAgent (sessionKey message : string) (channel accountId to threadId : JsVal)
| GatewayAgentWait (runId : string) (timeoutMs : Z)
| GatewaySessionsPatch (key label : string)
| GatewaySessionsDelete (key : string)
| RuntimeError (what : string).

Definition publishes (e : Effect) : bool :=
  match e with
  | Steered _ _ | EnqueueAnnounce _ _ _ | GatewayAgent _ _ _ _ _ _ => true
  | _ => false
  end.

(** Everything the flow reads from its collaborators, none of which is among
    the sources: the session store, the configuration's queue settings, the
    embedded-run tracker, the gateway and the clock.  Readings that are taken
    at different moments are separate fields. *)
Record Env := mkEnv {
  (* [loadSessionStore(storePath)[key]] for the store of the key's agent *)
  sessionEntryOf : string → JsVal;
  (* [normalizeMainKey(cfg.session?.mainKey)] and [resolveMainSessionKey(cfg)] *)
  mainKey : string;
  mainSessionKey : string;
  resolveAgentIdFromSessionKey : string → string;
  (* [resolveQueueSettings({cfg, channel, sessionEntry}).mode] *)
  queueMode : JsVal → JsVal → string;
  (* [isEmbeddedPiRunActive(sessionId)] of the requester session *)
  requesterRunActive : bool;
  (* whether [queueEmbeddedPiMessage] takes the message *)
  steerAccepted : bool;
  (* [isEmbeddedPiRunActive(childSessionId)]: first, after settling, at the end *)
  childActiveAtStart : bool;
  childSettled : bool;
  childActiveAfterSettle : bool;
  childActiveAtEnd : bool;
  (* the answer of [agent.wait]; [None] when the call throws *)
  agentWait : option WaitResponse;
  (* [readLatestAssistantReply]: after the wait, the second read, and the
     reads of the retry loop before its deadline *)
  replyAfterWait : option string;
  replySecondRead : option string;
  replyRetryReads : list (option string);
  (* [buildSubagentStatsLine({sessionKey, startedAt, endedAt})] *)
  statsLine : string → option Z → option Z → string;
  (* whether the [agent], [sessions.patch] and [sessions.delete] calls return *)
  agentCallOk : bool;
  patchCallOk : bool;
  deleteCallOk : bool;
  now : Z;
}.

Definition resolveRequesterStoreKey (env : Env) (requesterSessionKey : string) : string :=
  let raw := trim requesterSessionKey in
  if str_falsy raw then raw
  else if String.eqb raw "global" || String.eqb raw "unknown" then raw
  else if String.prefix "agent:" raw then raw
  else if String.eqb raw "main" || String.eqb raw (mainKey env) then mainSessionKey env
  else "agent:" +:+ resolveAgentIdFromSessionKey env raw +:+ ":" +:+ raw.

(** [loadRequesterSessionEntry(requesterSessionKey).entry]. *)
Definition loadRequesterSessionEntry (env : Env) (requesterSessionKey : string) : JsVal :=
  sessionEntryOf env (resolveRequesterStoreKey env requesterSessionKey).

Definition loadSessionEntryByKey (env : Env) (sessionKey : string) : JsVal :=
  sessionEntryOf env sessionKey.

Inductive QueueOutcome := QSteered | QQueued | QNone.

Definition blank (reply : option string) : bool :=
  negb (ostr_truthy (trim <$> reply)).

(** The result of the retry loop, given the reads it makes before its
    deadline. *)
Fixpoint firstReply (reads : list (option string)) : option string :=
  match reads with
  | [] => None
  | latest :: reads' => if blank latest then firstReply reads' else latest
  end.

Definition readLatestAssistantReplyWithRetry (env : Env) (initialReply : option string)
    (maxWaitMs : Z) : option string :=
  if negb (blank initialReply) then initialReply
  else if 0 <? Z.max 0 (Z.min maxWaitMs 15000) then firstReply (replyRetryReads env)
  else None.

Definition statusLabel (outcome : SubagentRunOutcome) : string :=
  match status outcome with
  | Ok => "completed successfully"
  | Timeout => "timed out"
  | Error =>
      "failed: " +:+ (if ostr_truthy (error outcome) then default "" (error outcome)
                      else "unknown error")
  | Unknown => "finished with unknown status"
  end.

(** The instruction paragraph for the parent model, as the source has it
    (UTF-8 bytes); its second line is an ordinary string literal, so the
    placeholder in it is not interpolated. *)
Definition instructionLines : list string :=
  ["请为用户自然地总结以下内容。保持简洁（1-2句话）。自然地融入对话流程中。";
   "不需要提及技术细节，例如令牌数量、统计数据或这是一个${announceType}。";
   "如果不需要进行通知（例如，没有用户可见结果的内部任务），你可以用'NO_REPLY'来回应。"].

(** The first line of the trigger message. *)
Definition headline (announceTypeName taskLabel label : string) : string :=
  "A " +:+ announceTypeName +:+ " " +:+ dquote +:+ taskLabel +:+ dquote +:+ " just "
  +:+ label +:+ ".".

Definition triggerLines (announceTypeName taskLabel : string)
    (outcome : SubagentRunOutcome) (reply : option string) (stats : string)
  : list string :=
  [headline announceTypeName taskLabel (statusLabel outcome);
   "";
   "Findings:";
   if ostr_truthy reply then default "" reply else "(no output)";
   "";
   stats;
   ""] ++ instructionLines.

(** [params.announceType ?? "subagent task"] and
    [params.label || params.task || "task"]. *)
Definition announceTypeNameOf (params : Params) : string :=
  announceTypeText (default SubagentTask (announceType params)).

Definition taskLabelOf (params : Params) : string :=
  if ostr_truthy (label params) then default "" (label params)
  else if str_falsy (task params) then "task" else task params.

(** [!reply && params.waitForCompletion !== false], with [reply] still the
    [roundOneReply]: whether the flow asks [agent.wait]. *)
Definition waits (params : Params) : bool :=
  negb (ostr_truthy (roundOneReply params))
  && negb (bool_decide (waitForCompletion params = Some false)).

(** The text a publishing effect carries. *)
Definition messageOf (e : Effect) : option string :=
  match e with
  | Steered _ text => Some text
  | EnqueueAnnounce _ item _ => Some (prompt item)
  | GatewayAgent _ message _ _ _ _ => Some message
  | _ => None
  end.

Definition joinLines (lines : list string) : string := String.concat newline lines.

Section WithNormalizers.
Context `{Normalizers}.

Definition resolveAnnounceOrigin (entry requesterOrigin : JsVal) : JsVal :=
  mergeDeliveryContext requesterOrigin (deliveryContextFromSession entry).

Definition maybeQueueSubagentAnnounce (env : Env) (requesterSessionKey : string)
    (triggerMessage : string) (summary : option string) (requesterOrigin : JsVal)
  : QueueOutcome * list Effect :=
  let entry := loadRequesterSessionEntry env requesterSessionKey in
  let canonicalKey := resolveRequesterStoreKey env requesterSessionKey in
  let sessionId := getField entry "sessionId" in
  if negb (truthy sessionId) then (QNone, [])
  else
    let mode :=
      queueMode env (coalesce (getField entry "channel") (getField entry "lastChannel"))
                entry in
    let isActive := requesterRunActive env in
    let shouldSteer := String.eqb mode "steer" || String.eqb mode "steer-backlog" in
    if shouldSteer && steerAccepted env then (QSteered, [Steered sessionId triggerMessage])
    else
      let shouldFollowup :=
        String.eqb mode "followup" || String.eqb mode "collect"
        || String.eqb mode "steer-backlog" || String.eqb mode "interrupt" in
      if isActive && (shouldFollowup || String.eqb mode "steer") then
        (QQueued,
         [EnqueueAnnounce canonicalKey
            (mkItem triggerMessage summary (now env) canonicalKey
                    (resolveAnnounceOrigin entry requesterOrigin))
            mode])
      else (QNone, []).

(** The [finally] block. *)
Definition finalize (params : Params) (env : Env) (shouldDeleteChildSession : bool)
  : list Effect :=
  (if ostr_truthy (label params) then
     GatewaySessionsPatch (childSessionKey params) (default "" (label params))
     :: (if patchCallOk env then [] else [RuntimeError "Subagent sessions.patch failed"])
   else [])
  ++ (if shouldDeleteChildSession then
        GatewaySessionsDelete (childSessionKey params)
        :: (if deleteCallOk env then [] else [RuntimeError "Subagent sessions.delete failed"])
      else []).

Definition childSessionIdOf (params : Params) (env : Env) : option string :=
  match getField (loadSessionEntryByKey env (childSessionKey params)) "sessionId" with
  | JStr s => if str_falsy (trim s) then None else Some (trim s)
  | _ => None
  end.

(** The outcome after the optional [agent.wait]. *)
Definition outcomeAfterWait (wait : WaitResponse) (outcome : option SubagentRunOutcome)
  : option SubagentRunOutcome :=
  match waitStatus wait with
  | Some st =>
      if String.eqb st "timeout" then Some (mkOutcome Timeout None)
      else if String.eqb st "error" then Some (mkOutcome Error (waitError wait))
      else if String.eqb st "ok" then Some (mkOutcome Ok None)
      else outcome
  | None => outcome
  end.

(** The reply the announcement reports, from the reply in hand. *)
Definition settleReply (params : Params) (env : Env) (reply : option string)
  : option string :=
  let reply2 := if ostr_truthy reply then reply else replySecondRead env in
  if blank reply2 then readLatestAssistantReplyWithRetry env reply2 (timeoutMs params)
  else reply2.

(** From the second reply read to the direct send. *)
Definition announce (params : Params) (env : Env) (reply0 : option string)
    (outcome0 : option SubagentRunOutcome) (started ended : option Z)
  : bool * list Effect :=
  let shouldDeleteChildSession :=
    match cleanup params with Delete => true | Keep => false end in
  let requesterOrigin := normalizeDeliveryContext (requesterOrigin params) in
  let reply := settleReply params env reply0 in
  if blank reply && bool_decide (is_Some (childSessionIdOf params env))
     && childActiveAtEnd env
  then (false, finalize params env false)
  else
    let outcome := default (mkOutcome Unknown None) outcome0 in
    let stats := statsLine env (childSessionKey params) started ended in
    let announceTypeName := announceTypeNameOf params in
    let taskLabel := taskLabelOf params in
    let triggerMessage :=
      joinLines (triggerLines announceTypeName taskLabel outcome reply stats) in
    let '(queued, queueEffects) :=
      maybeQueueSubagentAnnounce env (requesterSessionKey params) triggerMessage
        (Some taskLabel) requesterOrigin in
    match queued with
    | QSteered | QQueued =>
        (true, queueEffects ++ finalize params env shouldDeleteChildSession)
    | QNone =>
        let directOrigin :=
          if truthy requesterOrigin then requesterOrigin
          else deliveryContextFromSession
                 (loadRequesterSessionEntry env (requesterSessionKey params)) in
        let threadId :=
          match getField directOrigin "threadId" with
          | JUndefined | JNull => JUndefined
          | JStr t => if str_falsy t then JUndefined else JStr t
          | JNum n => JStr (pretty n)
          | _ => JUndefined
          end in
        let send :=
          GatewayAgent (requesterSessionKey params) triggerMessage
            (getField directOrigin "channel") (getField directOrigin "accountId")
            (getField directOrigin "to") threadId in
        if agentCallOk env then
          (true, queueEffects ++ [send] ++ finalize params env shouldDeleteChildSession)
        else
          (false,
           queueEffects ++ [send; RuntimeError "Subagent announce failed"]
           ++ finalize params env shouldDeleteChildSession)
    end.

Definition runSubagentAnnounceFlow (params : Params) (env : Env) : bool * list Effect :=
  let shouldDeleteChildSession :=
    match cleanup params with Delete => true | Keep => false end in
  let settleTimeoutMs := Z.min (Z.max (timeoutMs params) 1) 120000 in
  if bool_decide (is_Some (childSessionIdOf params env)) && childActiveAtStart env
     && negb (childSettled env) && childActiveAfterSettle env
  then (false, finalize params env false)
  else if waits params then
    match agentWait env with
    | None =>
        (false,
         [GatewayAgentWait (childRunId params) settleTimeoutMs;
          RuntimeError "Subagent announce failed"]
         ++ finalize params env shouldDeleteChildSession)
    | Some wait =>
        let '(did, effects) :=
          announce params env (replyAfterWait env)
            (outcomeAfterWait wait (outcome params))
            (if num_truthy (startedAt params) then startedAt params
             else match waitStartedAt wait with
                  | Some t => Some t
                  | None => startedAt params
                  end)
            (if num_truthy (endedAt params) then endedAt params
             else match waitEndedAt wait with
                  | Some t => Some t
                  | None => endedAt params
                  end) in
        (did, GatewayAgentWait (childRunId params) settleTimeoutMs :: effects)
    end
  else announce params env (roundOneReply params) (outcome params)
         (startedAt params) (endedAt params).

End WithNormalizers.

(** *** The outcome a flow reports, and a sample run *)

(** The outcome the status label is built from: the caller's, overridden by
    the answer of [agent.wait] when the flow asks it, [unknown] when there is
    neither. *)
Definition resolvedOutcome (params : Params) (env : Env) : SubagentRunOutcome :=
  default (mkOutcome Unknown None)
    (if waits params then
       match agentWait env with
       | Some wait => outcomeAfterWait wait (outcome params)
       | None => outcome params
       end
     else outcome params).

(** A requester session in [collect] mode whose run is active or idle as
    [active] says; the child session is settled and its latest reply is the
    text in [reply]. *)
Definition sampleEnv (active : bool) (reply : string) : Env :=
  mkEnv (fun key => if String.eqb key "agent:main:main"
                    then JObj [("sessionId", JStr "sess-1"); ("channel", JStr "slack")]
                    else JUndefined)
        "main" "agent:main:main" (fun _ => "main") (fun _ _ => "collect")
        active false false true false false None None (Some reply) []
        (fun _ _ _ => "Stats: runtime n/a") true true true 42.

Definition sampleParams : Params :=
  mkParams "agent:main:subagent:1" "run-1" "main" JUndefined "main" "summarise foo"
    30000 Keep None (Some false) (Some 1000) (Some 2000) (Some "foo")
    (Some (mkOutcome Ok None)) None.

(** An idle requester session whose gateway answers [agent.wait] with [wait];
    the child's latest reply is the text in [reply] at every read. *)
Definition sampleWaitEnv (wait : WaitResponse) (reply : string) : Env :=
  mkEnv (fun key => if String.eqb key "agent:main:main"
                    then JObj [("sessionId", JStr "sess-1"); ("channel", JStr "slack")]
                    else JUndefined)
        "main" "agent:main:main" (fun _ => "main") (fun _ _ => "collect")
        false false false true false false (Some wait) (Some reply) (Some reply) []
        (fun _ _ _ => "Stats: runtime n/a") true true true 42.

(** A call of the flow that leaves [waitForCompletion] out and hands in the
    outcome [ok], with [reply] as the child's first-round reply. *)
Definition sampleCall (reply : option string) : Params :=
  mkParams "agent:main:subagent:1" "run-1" "main" JUndefined "main" "summarise foo"
    30000 Keep reply None (Some 1000) (Some 2000) (Some "foo")
    (Some (mkOutcome Ok None)) None.

End Announce.

(* ===================================================================== *)
(** * Subagent registry ([agents/subagent-registry.ts])                   *)
(* ===================================================================== *)

Module Registry.
Import Js DeliveryContext Store.

Record SubagentRunRecord := mkRecord {
  runId : string;
  childSessionKey : string;
  requesterSessionKey : string;
  requesterOrigin : JsVal;
  requesterDisplayKey : string;
  task : string;
  cleanup : Announce.Cleanup;
  label : option string;
  createdAt : Z;
  startedAt : option Z;
  endedAt : option Z;
  outcome : option Announce.SubagentRunOutcome;
  archiveAtMs : option Z;
  cleanupCompletedAt : option Z;
  cleanupHandled : option bool;
}.

Definition setCleanupHandled (b : bool) (e : SubagentRunRecord) : SubagentRunRecord :=
  mkRecord (runId e) (childSessionKey e) (requesterSessionKey e) (requesterOrigin e)
    (requesterDisplayKey e) (task e) (cleanup e) (label e) (createdAt e) (startedAt e)
    (endedAt e) (outcome e) (archiveAtMs e) (cleanupCompletedAt e) (Some b).

Definition setCleanupCompletedAt (t : Z) (e : SubagentRunRecord) : SubagentRunRecord :=
  mkRecord (runId e) (childSessionKey e) (requesterSessionKey e) (requesterOrigin e)
    (requesterDisplayKey e) (task e) (cleanup e) (label e) (createdAt e) (startedAt e)
    (endedAt e) (outcome e) (archiveAtMs e) (Some t) (cleanupHandled e).

Definition setStartedAt (t : Z) (e : SubagentRunRecord) : SubagentRunRecord :=
  mkRecord (runId e) (childSessionKey e) (requesterSessionKey e) (requesterOrigin e)
    (requesterDisplayKey e) (task e) (cleanup e) (label e) (createdAt e) (Some t)
    (endedAt e) (outcome e) (archiveAtMs e) (cleanupCompletedAt e) (cleanupHandled e).

Definition setEnded (t : Z) (o : Announce.SubagentRunOutcome) (e : SubagentRunRecord)
  : SubagentRunRecord :=
  mkRecord (runId e) (childSessionKey e) (requesterSessionKey e) (requesterOrigin e)
    (requesterDisplayKey e) (task e) (cleanup e) (label e) (createdAt e) (startedAt e)
    (Some t) (Some o) (archiveAtMs e) (cleanupCompletedAt e) (cleanupHandled e).

(** The JSON form of a record, as [saveJsonFile] receives it. *)
Definition encodeOutcome (o : option Announce.SubagentRunOutcome) : JsVal :=
  match o with
  | None => JUndefined
  | Some o' =>
      JObj [("status",
             JStr match Announce.status o' with
                  | Announce.Ok => "ok"
                  | Announce.Error => "error"
                  | Announce.Timeout => "timeout"
                  | Announce.Unknown => "unknown"
                  end);
            ("error", ofOptStr (Announce.error o'))]
  end.

Definition encodeRecord (e : SubagentRunRecord) : JsVal :=
  JObj [("runId", JStr (runId e));
        ("childSessionKey", JStr (childSessionKey e));
        ("requesterSessionKey", JStr (requesterSessionKey e));
        ("requesterOrigin", requesterOrigin e);
        ("requesterDisplayKey", JStr (requesterDisplayKey e));
        ("task", JStr (task e));
        ("cleanup", JStr match cleanup e with
                         | Announce.Delete => "delete"
                         | Announce.Keep => "keep"
                         end);
        ("label", ofOptStr (label e));
        ("createdAt", JNum (createdAt e));
        ("startedAt", ofOptNum (startedAt e));
        ("endedAt", ofOptNum (endedAt e));
        ("outcome", encodeOutcome (outcome e));
        ("archiveAtMs", ofOptNum (archiveAtMs e));
        ("cleanupCompletedAt", ofOptNum (cleanupCompletedAt e));
        ("cleanupHandled", ofOptBool (cleanupHandled e))].

Inductive Effect :=
| LaunchAnnounceFlow (params : Announce.Params)
| AgentWait (runId : string) (timeoutMs : Z)
| ConsoleError (what : string).

(** The module-level state: the [subagentRuns] map, [resumedRuns], the
    registry file, the announce flows launched with [void ... .then(...)]
    whose [then] callback has not run yet (run id and the [entry.cleanup]
    the callback will pass on), and what the module did outside itself. *)
Record World := mkWorld {
  subagentRuns : gmap string SubagentRunRecord;
  resumedRuns : gset string;
  fs : Fs;
  pendingFlows : list (string * Announce.Cleanup);
  effects : list Effect;
}.

Definition withRuns (runs : gmap string SubagentRunRecord) (w : World) : World :=
  mkWorld runs (resumedRuns w) (fs w) (pendingFlows w) (effects w).

(** The map's entries are written in the order [map_to_list] lists them;
    nothing below depends on the order of the properties of a JSON object. *)
Definition persistSubagentRuns (w : World) : World :=
  match saveSubagentRegistryToDisk
          (map_to_list (encodeRecord <$> subagentRuns w)) (fs w) with
  | Some fs' => mkWorld (subagentRuns w) (resumedRuns w) fs' (pendingFlows w) (effects w)
  | None =>
      mkWorld (subagentRuns w) (resumedRuns w) (fs w) (pendingFlows w)
        (effects w ++ [ConsoleError "Failed to persist subagent runs"])
  end.

Definition finalizeSubagentCleanup (rid : string) (cleanupArg : Announce.Cleanup)
    (didAnnounce : bool) (now : Z) (w : World) : World :=
  match subagentRuns w !! rid with
  | None => w
  | Some entry =>
      match cleanupArg with
      | Announce.Delete => persistSubagentRuns (withRuns (delete rid (subagentRuns w)) w)
      | Announce.Keep =>
          if negb didAnnounce then
            persistSubagentRuns
              (withRuns (<[rid := setCleanupHandled false entry]> (subagentRuns w)) w)
          else
            persistSubagentRuns
              (withRuns (<[rid := setCleanupCompletedAt now entry]> (subagentRuns w)) w)
      end
  end.

Definition beginSubagentCleanup (rid : string) (w : World) : bool * World :=
  match subagentRuns w !! rid with
  | None => (false, w)
  | Some entry =>
      if num_truthy (cleanupCompletedAt entry) then (false, w)
      else if bool_truthy (cleanupHandled entry) then (false, w)
      else
        (true,
         persistSubagentRuns
           (withRuns (<[rid := setCleanupHandled true entry]> (subagentRuns w)) w))
  end.

Section WithNormalizers.
Context `{Normalizers}.

(** The parameters all three triggers pass to [runSubagentAnnounceFlow]. *)
Definition flowParams (entry : SubagentRunRecord) : Announce.Params :=
  Announce.mkParams (childSessionKey entry) (runId entry) (requesterSessionKey entry)
    (normalizeDeliveryContext (requesterOrigin entry)) (requesterDisplayKey entry)
    (task entry) 30000 (cleanup entry) None (Some false) (startedAt entry)
    (endedAt entry) (label entry) (outcome entry) None.

(** [if (!beginSubagentCleanup(runId)) return; void runSubagentAnnounceFlow(...)
    .then(didAnnounce => finalizeSubagentCleanup(runId, entry.cleanup, didAnnounce))],
    for the record [entry] the caller holds. *)
Definition beginAndLaunch (rid : string) (entry : SubagentRunRecord) (w : World)
  : bool * World :=
  let '(won, w1) := beginSubagentCleanup rid w in
  if won then
    (true,
     mkWorld (subagentRuns w1) (resumedRuns w1) (fs w1)
       (pendingFlows w1 ++ [(rid, cleanup entry)])
       (effects w1 ++ [LaunchAnnounceFlow (flowParams entry)]))
  else (false, w1).

(** An event of the in-process agent-event bus. *)
Record AgentEvent := mkEvent {
  stream : string;
  evRunId : string;
  phase : JsVal;
  evStartedAt : JsVal;
  evEndedAt : JsVal;
  evError : JsVal;
}.

(** The callback [ensureListener] registers with [onAgentEvent]. *)
Definition onLifecycleEvent (evt : AgentEvent) (now : Z) (w : World) : World :=
  if negb (String.eqb (stream evt) "lifecycle") then w
  else
    match subagentRuns w !! evRunId evt with
    | None => w
    | Some entry =>
        match phase evt with
        | JStr ph =>
            if String.eqb ph "start" then
              match evStartedAt evt with
              | JNum t =>
                  if negb (t =? 0) then
                    persistSubagentRuns
                      (withRuns (<[evRunId evt := setStartedAt t entry]> (subagentRuns w)) w)
                  else w
              | _ => w
              end
            else if negb (String.eqb ph "end") && negb (String.eqb ph "error") then w
            else
              let ended := match evEndedAt evt with JNum t => t | _ => now end in
              let out :=
                if String.eqb ph "error" then
                  Announce.mkOutcome Announce.Error
                    match evError evt with JStr e => Some e | _ => None end
                else Announce.mkOutcome Announce.Ok None in
              let entry' := setEnded ended out entry in
              let w1 :=
                persistSubagentRuns
                  (withRuns (<[evRunId evt := entry']> (subagentRuns w)) w) in
              snd (beginAndLaunch (evRunId evt) entry' w1)
        | _ => w
        end
    end.

(** The continuation of [waitForSubagentCompletion] once [agent.wait] has
    answered (a call that throws is swallowed and does nothing). *)
Definition onWaitResolved (rid : string) (wait : Announce.WaitResponse) (now : Z)
    (w : World) : World :=
  let isOk := match Announce.waitStatus wait with
              | Some st => String.eqb st "ok" | None => false end in
  let isError := match Announce.waitStatus wait with
                 | Some st => String.eqb st "error" | None => false end in
  if negb isOk && negb isError then w
  else
    match subagentRuns w !! rid with
    | None => w
    | Some entry =>
        let started := match Announce.waitStartedAt wait with
                       | Some t => Some t | None => startedAt entry end in
        let ended0 := match Announce.waitEndedAt wait with
                      | Some t => Some t | None => endedAt entry end in
        let ended := if num_truthy ended0 then default now ended0 else now in
        let out :=
          if isError then Announce.mkOutcome Announce.Error (Announce.waitError wait)
          else Announce.mkOutcome Announce.Ok None in
        let entry' :=
          mkRecord (runId entry) (childSessionKey entry) (requesterSessionKey entry)
            (requesterOrigin entry) (requesterDisplayKey entry) (task entry)
            (cleanup entry) (label entry) (createdAt entry) started (Some ended)
            (Some out) (archiveAtMs entry) (cleanupCompletedAt entry)
            (cleanupHandled entry) in
        let w1 := persistSubagentRuns (withRuns (<[rid := entry']> (subagentRuns w)) w) in
        snd (beginAndLaunch rid entry' w1)
    end.

(** [resumeSubagentRun]; [waitTimeoutMs] is what
    [resolveSubagentWaitTimeoutMs(cfg, undefined)] gives (configuration code
    that is not among the sources).  The watcher it starts is recorded by its
    [agent.wait] call. *)
Definition resumeSubagentRun (rid : string) (waitTimeoutMs : Z) (w : World) : World :=
  if str_falsy rid || bool_decide (rid ∈ resumedRuns w) then w
  else
    match subagentRuns w !! rid with
    | None => w
    | Some entry =>
        if num_truthy (cleanupCompletedAt entry) then w
        else
          let markResumed (x : World) :=
            mkWorld (subagentRuns x) ({[rid]} ∪ resumedRuns x) (fs x) (pendingFlows x)
              (effects x) in
          match endedAt entry with
          | Some t =>
              if 0 <? t then
                let '(won, w1) := beginAndLaunch rid entry w in
                if won then markResumed w1 else w1
              else
                markResumed
                  (mkWorld (subagentRuns w) (resumedRuns w) (fs w) (pendingFlows w)
                     (effects w ++ [AgentWait rid (Z.max 1 waitTimeoutMs)]))
          | None =>
              markResumed
                (mkWorld (subagentRuns w) (resumedRuns w) (fs w) (pendingFlows w)
                   (effects w ++ [AgentWait rid (Z.max 1 waitTimeoutMs)]))
          end
    end.

Fixpoint takeFlow (rid : string) (flows : list (string * Announce.Cleanup))
  : option (Announce.Cleanup * list (string * Announce.Cleanup)) :=
  match flows with
  | [] => None
  | (r, c) :: flows' =>
      if String.eqb r rid then Some (c, flows')
      else match takeFlow rid flows' with
           | Some (c', rest) => Some (c', (r, c) :: rest)
           | None => None
           end
  end.

(** The [then] callback of a launched flow, run when its promise resolves
    with [didAnnounce]; without a pending flow for [rid] nothing happens. *)
Definition onFlowDone (rid : string) (didAnnounce : bool) (now : Z) (w : World) : World :=
  match takeFlow rid (pendingFlows w) with
  | None => w
  | Some (c, rest) =>
      finalizeSubagentCleanup rid c didAnnounce now
        (mkWorld (subagentRuns w) (resumedRuns w) (fs w) rest (effects w))
  end.

(** What can happen to the registry between two looks at it, as far as the
    cleanup token is concerned. *)
Inductive Trigger :=
| LifecycleEvent (evt : AgentEvent)
| WaitResolved (rid : string) (wait : Announce.WaitResponse)
| Resume (rid : string) (waitTimeoutMs : Z)
| FlowDone (rid : string) (didAnnounce : bool).

Definition step (w : World) (t : Z * Trigger) : World :=
  match snd t with
  | LifecycleEvent evt => onLifecycleEvent evt (fst t) w
  | WaitResolved rid wait => onWaitResolved rid wait (fst t) w
  | Resume rid waitTimeoutMs => resumeSubagentRun rid waitTimeoutMs w
  | FlowDone rid didAnnounce => onFlowDone rid didAnnounce (fst t) w
  end.

Definition run (ts : list (Z * Trigger)) (w : World) : World := foldl step w ts.

End WithNormalizers.

(** *** The cleanup token *)

(** Launched flows of [rid] whose completion callback is still to run. *)
Definition pending (rid : string) (w : World) : nat :=
  length (List.filter (fun f => String.eqb (fst f) rid) (pendingFlows w)).

(** At most one flow per run is in progress, and while one is, the run's
    record holds the token. *)
Definition token_ok (w : World) : Prop :=
  ∀ rid, (pending rid w ≤ 1)%nat
         ∧ (pending rid w = 1%nat →
            ∃ e, subagentRuns w !! rid = Some e ∧ cleanupHandled e = Some true).

Definition sampleRecord (completedAt : option Z) (handled : option bool)
  : SubagentRunRecord :=
  mkRecord "run-1" "agent:main:subagent:1" "main" JUndefined "main" "summarise foo"
    Announce.Keep (Some "foo") 1000 (Some 1000) (Some 2000)
    (Some (Announce.mkOutcome Announce.Ok None)) None completedAt handled.

Definition sampleWorld (e : SubagentRunRecord) : World :=
  mkWorld {["run-1" := e]} ∅ (mkFs JUndefined true) [] [].

Definition sampleFlowWorld (e : SubagentRunRecord) : World :=
  mkWorld {["run-1" := e]} ∅ (mkFs JUndefined true) [("run-1", Announce.Keep)] [].

Definition sampleEndEvent : AgentEvent :=
  mkEvent "lifecycle" "run-1" (JStr "end") JUndefined (JNum 2000) JUndefined.

(** *** Registration, release and listing *)

(** A run whose cleanup is over: no announce flow is in progress for it and
    its record, if it is still registered, carries a completion time. *)
Definition closed (rid : string) (w : World) : Prop :=
  pending rid w = 0%nat
  ∧ ∀ e, subagentRuns w !! rid = Some e → num_truthy (cleanupCompletedAt e) = true.

(** The run a trigger is about. *)
Definition triggerRun (t : Trigger) : string :=
  match t with
  | LifecycleEvent evt => evRunId evt
  | WaitResolved rid _ => rid
  | Resume rid _ => rid
  | FlowDone rid _ => rid
  end.

(** What the registry holds about [rid] is the same in [w] and [w']: its
    record, and the flows in progress for it. *)
Definition untouched (rid : string) (w w' : World) : Prop :=
  subagentRuns w' !! rid = subagentRuns w !! rid ∧ pending rid w' = pending rid w.

(** The rest of the module-level state: whether the [setInterval] sweeper is
    armed ([sweeper] is not [null]) and whether the lifecycle listener has
    been registered. *)
Record Process := mkProcess {
  world : World;
  sweeper : bool;
  listenerStarted : bool;
}.

(** [resolveArchiveAfterMs], from the configured
    [agents.defaults.subagents.archiveAfterMinutes]; numbers being integers,
    its [Number.isFinite] test always passes and [Math.floor] changes
    nothing. *)
Definition resolveArchiveAfterMs (archiveAfterMinutes : option Z) : option Z :=
  let minutes := default 60 archiveAfterMinutes in
  if minutes <=? 0 then None else Some (Z.max 1 minutes * 60000).

Record RegisterParams := mkRegisterParams {
  rpRunId : string;
  rpChildSessionKey : string;
  rpRequesterSessionKey : string;
  rpRequesterOrigin : JsVal;
  rpRequesterDisplayKey : string;
  rpTask : string;
  rpCleanup : Announce.Cleanup;
  rpLabel : option string;
}.

Definition sampleRegisterParams : RegisterParams :=
  mkRegisterParams "run-1" "agent:main:subagent:1" "main" JUndefined "main"
    "summarise foo" Announce.Keep (Some "foo").

Section WithNormalizers.
Context `{Normalizers}.

(** The record [registerSubagentRun] stores. *)
Definition registeredRecord (params : RegisterParams) (archiveAfterMinutes : option Z)
    (now : Z) : SubagentRunRecord :=
  let archiveAfterMs := resolveArchiveAfterMs archiveAfterMinutes in
  let archiveAtMs :=
    if num_truthy archiveAfterMs then (fun a => now + a) <$> archiveAfterMs else None in
  mkRecord (rpRunId params) (rpChildSessionKey params) (rpRequesterSessionKey params)
    (normalizeDeliveryContext (rpRequesterOrigin params)) (rpRequesterDisplayKey params)
    (rpTask params) (rpCleanup params) (rpLabel params) now (Some now) None None
    archiveAtMs None (Some false).

(** [registerSubagentRun]; [waitTimeoutMs] is what
    [resolveSubagentWaitTimeoutMs(cfg, params.runTimeoutSeconds)] gives, and
    the watcher started last is recorded by its [agent.wait] call. *)
Definition registerSubagentRun (params : RegisterParams) (archiveAfterMinutes : option Z)
    (waitTimeoutMs : Z) (now : Z) (p : Process) : Process :=
  let archiveAfterMs := resolveArchiveAfterMs archiveAfterMinutes in
  let entry := registeredRecord params archiveAfterMinutes now in
  let w := world p in
  let w1 :=
    persistSubagentRuns (withRuns (<[rpRunId params := entry]> (subagentRuns w)) w) in
  mkProcess
    (mkWorld (subagentRuns w1) (resumedRuns w1) (fs w1) (pendingFlows w1)
       (effects w1 ++ [AgentWait (rpRunId params) (Z.max 1 waitTimeoutMs)]))
    (sweeper p || num_truthy archiveAfterMs) true.

End WithNormalizers.

Definition releaseSubagentRun (rid : string) (p : Process) : Process :=
  let w := world p in
  let w1 :=
    match subagentRuns w !! rid with
    | Some _ => persistSubagentRuns (withRuns (delete rid (subagentRuns w)) w)
    | None => w
    end in
  mkProcess w1 (if (size (subagentRuns w1) =? 0)%nat then false else sweeper p)
    (listenerStarted p).

(** The records come in the order [map_to_list] lists them, which need not
    be the insertion order the source iterates in; the properties below are
    about membership. *)
Definition listSubagentRunsForRequester (requester : string) (w : World)
  : list SubagentRunRecord :=
  let key := trim requester in
  if str_falsy key then []
  else
    List.filter (fun entry => String.eqb (requesterSessionKey entry) key)
      (snd <$> map_to_list (subagentRuns w)).

(** *** Channel plugins ([dedupeChannels]) *)

Section Channels.
Context {ChannelPlugin : Type} (pluginId : ChannelPlugin → string).

(** [String(plugin.id).trim()]. *)
Definition pluginKey (plugin : ChannelPlugin) : string := trim (pluginId plugin).

(** One turn of the loop, on the pair of [seen] and [resolved]. *)
Definition dedupeStep (acc : gset string * list ChannelPlugin) (plugin : ChannelPlugin)
  : gset string * list ChannelPlugin :=
  let id := pluginKey plugin in
  if str_falsy id || bool_decide (id ∈ fst acc) then acc
  else ({[id]} ∪ fst acc, snd acc ++ [plugin]).

Definition dedupeChannels (channels : list ChannelPlugin) : list ChannelPlugin :=
  snd (foldl dedupeStep (∅, []) channels).

End Channels.

End Registry.

(* ===================================================================== *)
(** * The two lane queues side by side                                    *)
(* ===================================================================== *)

Module QueueSimulation.
Import Js Lanes.
Module V1 := CommandQueue.
Module V2 := CommandQueueReset.

(** A lane of the counter-based queue against the same lane of the
    generation-based one: the counter is the size of the id set, and no
    reset has happened. *)
Definition stR (st1 : V1.LaneState) (st2 : V2.LaneState) : Prop :=
  V1.lane st1 = V2.lane st2
  ∧ V1.queue st1 = V2.queue st2
  ∧ V1.active st1 = Z.of_nat (size (V2.activeTaskIds st2))
  ∧ V1.maxConcurrent st1 = V2.maxConcurrent st2
  ∧ V1.draining st1 = V2.draining st2
  ∧ V2.generation st2 = 0%nat.

Definition laneR (kv1 : string * V1.LaneState) (kv2 : string * V2.LaneState) : Prop :=
  fst kv1 = fst kv2 ∧ stR (snd kv1) (snd kv2).

Definition runR (r1 : V1.Running) (r2 : V2.Running) : Prop :=
  V1.entry r1 = V2.entry r2
  ∧ V1.runLane r1 = V2.runLane r2
  ∧ V1.startTime r1 = V2.startTime r2
  ∧ V2.taskGeneration r2 = 0%nat.

(** What the generation-based queue maintains on its own: task ids in use
    are older than [nextTaskId], every started task's id is in its lane's
    active set, and started tasks have distinct ids. *)
Definition ids_ok (ls : list (string * V2.LaneState)) (next : nat)
    (rs : list V2.Running) : Prop :=
  (∀ k st i, mapGet k ls = Some st → i ∈ V2.activeTaskIds st → (i < next)%nat)
  ∧ (∀ r, r ∈ rs →
       ∃ st, mapGet (V2.runLane r) ls = Some st ∧ V2.taskId r ∈ V2.activeTaskIds st)
  ∧ NoDup (V2.taskId <$> rs).

Definition R (s1 : V1.State) (s2 : V2.State) : Prop :=
  Forall2 laneR (V1.lanes s1) (V2.lanes s2)
  ∧ V1.nextPromise s1 = V2.nextPromise s2
  ∧ Forall2 runR (V1.inflight s1) (V2.inflight s2)
  ∧ V1.trace s1 = V2.trace s2
  ∧ ids_ok (V2.lanes s2) (V2.nextTaskId s2) (V2.inflight s2).

(** Calls that both queues serve alike: everything but [clearCommandLane]. *)
Definition plain (c : Lanes.Call) : bool :=
  match c with
  | ClearCommandLane _ => false
  | _ => true
  end.

End QueueSimulation.

(* ===================================================================== *)
(** * Part II: properties                                                 *)
(* ===================================================================== *)

(* ===================================================================== *)
(** ** Node subscription index                                            *)
(* ===================================================================== *)

Module NodeSubscriptionsProofs.
Import Js NodeSubscriptions.

Lemma memberb_spec mp key x : memberb mp key x = true ↔ member mp key x.
Proof.
  unfold memberb, member. destruct (mp !! key) as [set|] eqn:E.
  - rewrite bool_decide_eq_true. split; [eauto|]. by intros (? & [= <-] & ?).
  - split; [done|]. by intros (? & ? & ?).
Qed.

Lemma member_insert mp k set key x :
  member (<[k := set]> mp) key x ↔ (key = k ∧ x ∈ set) ∨ (key ≠ k ∧ member mp key x).
Proof.
  unfold member. destruct (decide (key = k)) as [->|Hne].
  - rewrite lookup_insert_eq. split.
    + intros (? & [= <-] & ?). by left.
    + intros [[_ ?]|[? _]]; [eauto | done].
  - rewrite lookup_insert_ne by done. split.
    + intros ?. by right.
    + intros [[? _]|[_ ?]]; done.
Qed.

Lemma member_delete mp k key x :
  member (delete k mp) key x ↔ key ≠ k ∧ member mp key x.
Proof.
  unfold member. destruct (decide (key = k)) as [->|Hne].
  - rewrite lookup_delete_eq. split; [by intros (? & ? & ?) | by intros [? _]].
  - rewrite lookup_delete_ne by done. naive_solver.
Qed.

(** Removing one member, whether or not the bucket is dropped. *)
Lemma member_deleteMember mp k y key x :
  member (deleteMember k y mp) key x ↔ member mp key x ∧ ¬ (key = k ∧ x = y).
Proof.
  unfold deleteMember. destruct (mp !! k) as [set|] eqn:E.
  - case_decide as Hsz.
    + apply size_empty_inv in Hsz. rewrite member_delete. unfold member.
      split.
      * intros [Hne Hm]. split; [done|]. by intros [? _].
      * intros [(set' & Hl & Hx) Hn]. split; [|eauto].
        intros ->. rewrite E in Hl. injection Hl as <-.
        apply Hn. split; [done|]. set_solver.
    + rewrite member_insert. unfold member. split.
      * intros [[-> Hx]|[Hne Hm]].
        -- split; [exists set; set_solver | set_solver].
        -- split; [done | by intros [? _]].
      * intros [(set' & Hl & Hx) Hn].
        destruct (decide (key = k)) as [->|Hne]; [left | right; eauto].
        rewrite E in Hl. injection Hl as <-. split; [done|].
        apply elem_of_difference. split; [done|].
        rewrite elem_of_singleton. intros ->. by apply Hn.
  - unfold member. split; [|by intros [? _]].
    intros (set & Hl & Hx). split; [eauto|]. intros [-> _]. congruence.
Qed.

Lemma no_empty_deleteMember mp k y :
  no_empty_set mp → no_empty_set (deleteMember k y mp).
Proof.
  intros Hne key set. unfold deleteMember.
  destruct (mp !! k) as [set0|] eqn:E; [|by apply Hne].
  case_decide as Hsz.
  - intros Hl. apply lookup_delete_Some in Hl as [_ Hl]. by eapply Hne.
  - destruct (decide (k = key)) as [->|Hk].
    + rewrite lookup_insert_eq. intros [= <-] Hempty.
      apply Hsz. rewrite Hempty. apply size_empty.
    + rewrite lookup_insert_ne by done. by apply Hne.
Qed.

Lemma member_foldl_deleteMember (l : list string) y mp key x :
  member (foldl (fun ss k => deleteMember k y ss) mp l) key x
  ↔ member mp key x ∧ ¬ (key ∈ l ∧ x = y).
Proof.
  revert mp. induction l as [|k l IH]; intros mp; simpl.
  - split; [|by intros [? _]]. intros ?. split; [done|].
    intros [Hin _]. by apply elem_of_nil in Hin.
  - rewrite IH, member_deleteMember. rewrite elem_of_cons. naive_solver.
Qed.

Lemma no_empty_foldl_deleteMember (l : list string) y mp :
  no_empty_set mp → no_empty_set (foldl (fun ss k => deleteMember k y ss) mp l).
Proof.
  revert mp. induction l as [|k l IH]; intros mp H; simpl; [done|].
  apply IH. by apply no_empty_deleteMember.
Qed.

Lemma no_empty_insert mp k (set : gset string) :
  set ≠ ∅ → no_empty_set mp → no_empty_set (<[k := set]> mp).
Proof.
  intros Hs Hne key set'. destruct (decide (k = key)) as [->|Hk].
  - rewrite lookup_insert_eq. by intros [= <-].
  - rewrite lookup_insert_ne by done. apply Hne.
Qed.

Lemma well_formed_empty : well_formed createNodeSubscriptionManager.
Proof.
  split; [|split]; simpl.
  - intros N S. unfold member. simpl. split; intros (? & Hl & _); by rewrite lookup_empty in Hl.
  - intros ? ? Hl. by rewrite lookup_empty in Hl.
  - intros ? ? Hl. by rewrite lookup_empty in Hl.
Qed.

Lemma insert_getOrCreate key mp set mp' (X : gset string) :
  getOrCreate key mp = (set, mp') →
  <[key := X]> mp' = <[key := X]> mp ∧ (∀ y, y ∈ set ↔ member mp key y).
Proof.
  unfold getOrCreate, member. destruct (mp !! key) as [s|] eqn:E; intros [= <- <-].
  - split; [done|]. intros y. naive_solver.
  - split; [by rewrite insert_insert_eq|].
    intros y. split; [set_solver|]. by intros (? & ? & ?).
Qed.

Lemma well_formed_subscribe n s m : well_formed m → well_formed (subscribe n s m).
Proof.
  intros (Hsym & Hn & Hs). unfold subscribe.
  destruct (str_falsy (trim n) || str_falsy (trim s)); [done|].
  destruct (getOrCreate (trim n) (nodeSubscriptions m)) as [nodeSet nodes1] eqn:En.
  case_decide as Hin.
  - (* already subscribed: the bucket existed, nothing was created *)
    unfold getOrCreate in En.
    destruct (nodeSubscriptions m !! trim n) eqn:E; injection En as <- <-;
      [done | set_solver].
  - destruct (getOrCreate (trim s) (sessionSubscribers m)) as [sessionSet sessions1] eqn:Es.
    eapply insert_getOrCreate in En as [-> HN].
    eapply insert_getOrCreate in Es as [-> HS].
    split; [|split]; simpl.
    + intros N S. simpl. rewrite !member_insert.
      rewrite !elem_of_union, !elem_of_singleton.
      specialize (Hsym N S).
      destruct (decide (N = trim n)) as [->|], (decide (S = trim s)) as [->|];
        rewrite ?HN, ?HS; naive_solver.
    + apply no_empty_insert; [set_solver | done].
    + apply no_empty_insert; [set_solver | done].
Qed.

Lemma well_formed_unsubscribe n s m : well_formed m → well_formed (unsubscribe n s m).
Proof.
  intros (Hsym & Hn & Hs). unfold unsubscribe.
  destruct (str_falsy (trim n) || str_falsy (trim s)); [done|].
  split; [|split]; simpl.
  - intros N S. simpl. rewrite !member_deleteMember. specialize (Hsym N S). naive_solver.
  - by apply no_empty_deleteMember.
  - by apply no_empty_deleteMember.
Qed.

Lemma well_formed_unsubscribeAll n m : well_formed m → well_formed (unsubscribeAll n m).
Proof.
  intros (Hsym & Hn & Hs). unfold unsubscribeAll.
  destruct (nodeSubscriptions m !! trim n) as [nodeSet|] eqn:E; [|done].
  split; [|split]; simpl.
  - intros N S. simpl. rewrite member_delete, member_foldl_deleteMember.
    rewrite elem_of_elements. specialize (Hsym N S).
    assert (member (nodeSubscriptions m) (trim n) S ↔ S ∈ nodeSet) as HnS.
    { unfold member. rewrite E. naive_solver. }
    destruct (decide (N = trim n)) as [->|]; naive_solver.
  - intros key set Hl. apply lookup_delete_Some in Hl as [_ Hl]. by eapply Hn.
  - by apply no_empty_foldl_deleteMember.
Qed.

Lemma well_formed_run ops : well_formed (run ops).
Proof.
  unfold run. induction ops as [|op ops IH] using rev_ind; simpl.
  - apply well_formed_empty.
  - rewrite foldl_app. simpl. destruct op; simpl.
    + by apply well_formed_subscribe.
    + by apply well_formed_unsubscribe.
    + by apply well_formed_unsubscribeAll.
Qed.

(** C8.  After any sequence of [subscribe], [unsubscribe] and
    [unsubscribeAll] calls on a fresh manager, a session is in the set stored
    for a node exactly when the node is in the set stored for the session,
    and neither map stores an empty set. *)
Theorem node_subscription_symmetry (ops : list Op) :
  (∀ N S, member (nodeSubscriptions (run ops)) N S
          ↔ member (sessionSubscribers (run ops)) S N)
  ∧ (∀ N, nodeSubscriptions (run ops) !! N ≠ Some ∅)
  ∧ (∀ S, sessionSubscribers (run ops) !! S ≠ Some ∅).
Proof.
  destruct (well_formed_run ops) as (Hsym & Hn & Hs).
  split; [exact Hsym|]. split.
  - intros N Hl. by apply (Hn N ∅).
  - intros S Hl. by apply (Hs S ∅).
Qed.

Example node_subscription_trace :
  let m := run [Subscribe " n1 " "s1"; Subscribe "n1" "s2"; Subscribe "n2" "s1";
                Unsubscribe "n1" "s1 "; UnsubscribeAll "n2"] in
  memberb (nodeSubscriptions m) "n1" "s2" = true
  ∧ memberb (sessionSubscribers m) "s2" "n1" = true
  ∧ nodeSubscriptions m !! "n2" = None
  ∧ sessionSubscribers m !! "s1" = None.
Proof. vm_compute. done. Qed.

End NodeSubscriptionsProofs.

(* ===================================================================== *)
(** ** Insertion-ordered maps                                             *)
(* ===================================================================== *)

Module LanesProofs.
Import Js Lanes.

Section OrderedMap.
Context {V : Type}.
Implicit Types (m : list (string * V)) (k : string) (v : V).

Lemma mapGet_mapSet k k' v m :
  mapGet k' (mapSet k v m) = if String.eqb k k' then Some v else mapGet k' m.
Proof.
  induction m as [|[k0 v0] m IH]; simpl.
  - by destruct (String.eqb k k').
  - destruct (String.eqb k0 k) eqn:E0; simpl.
    + apply String.eqb_eq in E0 as ->. by destruct (String.eqb k k').
    + destruct (String.eqb k0 k') eqn:E1; [|done].
      apply String.eqb_eq in E1 as ->. by rewrite String.eqb_sym, E0.
Qed.

Lemma mapGet_mapSet_eq k v m : mapGet k (mapSet k v m) = Some v.
Proof. by rewrite mapGet_mapSet, String.eqb_refl. Qed.

Lemma mapGet_mapSet_ne k k' v m : k ≠ k' → mapGet k' (mapSet k v m) = mapGet k' m.
Proof.
  intros Hne. rewrite mapGet_mapSet.
  destruct (String.eqb k k') eqn:E; [|done]. by apply String.eqb_eq in E.
Qed.

Lemma mapSet_id k v m : mapGet k m = Some v → mapSet k v m = m.
Proof.
  induction m as [|[k0 v0] m IH]; simpl; [done|].
  destruct (String.eqb k0 k); [by intros [= ->] | intros H; by rewrite IH].
Qed.

Lemma mapGet_None k m : mapGet k m = None ↔ k ∉ map fst m.
Proof.
  induction m as [|[k0 v0] m IH]; simpl.
  - split; [intros _; apply not_elem_of_nil | done].
  - rewrite not_elem_of_cons. destruct (String.eqb k0 k) eqn:E.
    + apply String.eqb_eq in E as ->. split; [done | by intros [? _]].
    + apply String.eqb_neq in E. rewrite IH. naive_solver.
Qed.

Lemma mapGet_Some_elem k v m : mapGet k m = Some v → (k, v) ∈ m.
Proof.
  induction m as [|[k0 v0] m IH]; simpl; [done|].
  destruct (String.eqb k0 k) eqn:E.
  - apply String.eqb_eq in E as ->. intros [= ->]. apply elem_of_cons. by left.
  - intros H. apply elem_of_cons. right. by apply IH.
Qed.

Lemma elem_mapGet k v m : NoDup (map fst m) → (k, v) ∈ m → mapGet k m = Some v.
Proof.
  induction m as [|[k0 v0] m IH]; simpl.
  - intros _ H. by apply elem_of_nil in H.
  - intros Hnd Hin. apply NoDup_cons in Hnd as [Hk0 Hnd].
    apply elem_of_cons in Hin as [[= <- <-]|Hin].
    + by rewrite String.eqb_refl.
    + destruct (String.eqb k0 k) eqn:E; [|by apply IH].
      apply String.eqb_eq in E as ->. exfalso. apply Hk0.
      apply list_elem_of_fmap. by exists (k, v).
Qed.

Lemma map_fst_mapSet k v m :
  map fst (mapSet k v m)
  = match mapGet k m with Some _ => map fst m | None => map fst m ++ [k] end.
Proof.
  induction m as [|[k0 v0] m IH]; simpl; [done|].
  destruct (String.eqb k0 k) eqn:E; simpl; [done|].
  rewrite IH. by destruct (mapGet k m).
Qed.

Lemma NoDup_mapSet k v m : NoDup (map fst m) → NoDup (map fst (mapSet k v m)).
Proof.
  intros Hnd. rewrite map_fst_mapSet. destruct (mapGet k m) eqn:E; [done|].
  apply NoDup_app. split; [done|]. split; [|apply NoDup_singleton].
  intros x Hx Hx'. apply list_elem_of_singleton in Hx' as ->.
  by apply mapGet_None in E.
Qed.

End OrderedMap.

Lemma mapGet_map_snd {V W} (f : V → W) k (m : list (string * V)) :
  mapGet k (map (fun kv => (fst kv, f (snd kv))) m) = f <$> mapGet k m.
Proof.
  induction m as [|[k0 v0] m IH]; simpl; [done|].
  by destruct (String.eqb k0 k).
Qed.

Lemma map_fst_map_snd {V W} (f : V → W) (m : list (string * V)) :
  map fst (map (fun kv => (fst kv, f (snd kv))) m) = map fst m.
Proof. induction m as [|[k0 v0] m IH]; simpl; [done|]. by rewrite IH. Qed.

Lemma cleanLane_nonempty l : cleanLane l ≠ "".
Proof.
  unfold cleanLane. by destruct (trim l).
Qed.

End LanesProofs.

(* ===================================================================== *)
(** ** The enumeration order of an object's properties                   *)
(* ===================================================================== *)

Module PropertyOrderProofs.
Import Js Store LanesProofs.













End PropertyOrderProofs.

(* ===================================================================== *)
(** ** Lane queues: callbacks that return                                 *)
(* ===================================================================== *)

(** Where no [onWait] callback throws, the queues of [CommandQueueCallbacks]
    and [CommandQueueResetCallbacks] are those of [CommandQueue] and
    [CommandQueueReset], and no call throws. *)

Module LaneCallbacksProofs.
Import Js Lanes LaneCallbacks.

Section Returning.
Variable behaviour : OnWaitBehaviour.
Hypothesis Hreturn : ∀ cb waitedMs queuedAhead, behaviour cb waitedMs queuedAhead = None.

Lemma onWaitThrows_returning e waitedMs queueAhead :
  onWaitThrows behaviour e waitedMs queueAhead = None.
Proof.
  unfold onWaitThrows. destruct (_ <=? _); [|done].
  destruct (onWait e) as [cb|]; [|done]. by rewrite Hreturn.
Qed.

(** *** The generation-based queue *)

Lemma reset_pumpLoop_returning name now gen maxC q ids next :
  CommandQueueResetCallbacks.pumpLoop behaviour name now gen maxC q ids next
  = (CommandQueueReset.pumpLoop name now gen maxC q ids next, None).
Proof.
  revert ids next. induction q as [|e rest IH]; intros ids next; simpl; [done|].
  destruct (_ <? _); [|done].
  rewrite onWaitThrows_returning, IH.
  by destruct (CommandQueueReset.pumpLoop _ _ _ _ _ _ _) as [[res rs] es].
Qed.

Lemma reset_pump_returning name now st s :
  CommandQueueResetCallbacks.pump behaviour name now st s
  = (CommandQueueReset.pump name now st s, None).
Proof.
  unfold CommandQueueResetCallbacks.pump, CommandQueueReset.pump.
  rewrite reset_pumpLoop_returning.
  by destruct (CommandQueueReset.pumpLoop _ _ _ _ _ _ _) as [[[[q ids] next] rs] es].
Qed.

Lemma reset_drainLane_returning name now s :
  CommandQueueResetCallbacks.drainLane behaviour name now s
  = (CommandQueueReset.drainLane name now s, None).
Proof.
  unfold CommandQueueResetCallbacks.drainLane, CommandQueueReset.drainLane.
  destruct (CommandQueueReset.getLaneState _ _) as [st ls].
  destruct (CommandQueueReset.draining st); [done|]. apply reset_pump_returning.
Qed.

Lemma reset_setCommandLaneConcurrency_returning l n now s :
  CommandQueueResetCallbacks.setCommandLaneConcurrency behaviour l n now s
  = (CommandQueueReset.setCommandLaneConcurrency l n now s, None).
Proof.
  unfold CommandQueueResetCallbacks.setCommandLaneConcurrency,
    CommandQueueReset.setCommandLaneConcurrency.
  destruct (CommandQueueReset.getLaneState _ _) as [st ls].
  apply reset_drainLane_returning.
Qed.

Lemma reset_enqueueCommandInLane_returning l w cb now s :
  CommandQueueResetCallbacks.enqueueCommandInLane behaviour l w cb now s
  = CommandQueueReset.enqueueCommandInLane l w cb now s.
Proof.
  unfold CommandQueueResetCallbacks.enqueueCommandInLane,
    CommandQueueReset.enqueueCommandInLane.
  destruct (CommandQueueReset.getLaneState _ _) as [st ls].
  by rewrite reset_drainLane_returning.
Qed.

Lemma reset_resetAllLanes_returning now s :
  CommandQueueResetCallbacks.resetAllLanes behaviour now s
  = (CommandQueueReset.resetAllLanes now s, None).
Proof.
  unfold CommandQueueResetCallbacks.resetAllLanes, CommandQueueReset.resetAllLanes.
  generalize (CommandQueueReset.withLanes
                (map (fun kv => (fst kv, CommandQueueReset.resetLane (snd kv)))
                   (CommandQueueReset.lanes s)) s).
  induction (map _ _) as [|name names IH]; intros s0; simpl; [done|].
  rewrite reset_drainLane_returning. apply IH.
Qed.

Lemma reset_catchBlock_returning r err now s st :
  mapGet (CommandQueueReset.runLane r) (CommandQueueReset.lanes s) = Some st →
  CommandQueueResetCallbacks.catchBlock behaviour r err now s
  = (let '(completed, st1) :=
       CommandQueueReset.completeTask st (CommandQueueReset.taskId r)
         (CommandQueueReset.taskGeneration r) in
     let s2 :=
       CommandQueueReset.emit
         (if isProbeLane (CommandQueueReset.runLane r) then []
          else [DiagError (CommandQueueReset.runLane r)
                  (now - CommandQueueReset.startTime r) err])
         (CommandQueueReset.withLanes
            (mapSet (CommandQueueReset.runLane r) st1 (CommandQueueReset.lanes s)) s) in
     CommandQueueReset.emit
       [Reject (promise (CommandQueueReset.entry r)) (TaskThrew err)]
       (if completed then CommandQueueReset.pump (CommandQueueReset.runLane r) now st1 s2
        else s2),
     None).
Proof.
  intros Hst. unfold CommandQueueResetCallbacks.catchBlock. rewrite Hst.
  destruct (CommandQueueReset.completeTask _ _ _) as [[] st1]; [|done].
  by rewrite reset_pump_returning.
Qed.

Lemma reset_taskSettles_returning p out now s :
  CommandQueueResetCallbacks.taskSettles behaviour p out now s
  = (CommandQueueReset.taskSettles p out now s, None).
Proof.
  unfold CommandQueueResetCallbacks.taskSettles, CommandQueueReset.taskSettles.
  destruct (CommandQueueReset.takeRunning _ _) as [[r rest]|]; [|done].
  destruct (mapGet _ _) as [st|] eqn:Hst; [|done].
  destruct out as [value|err].
  - destruct (CommandQueueReset.completeTask _ _ _) as [[] st1]; [|done].
    by rewrite reset_pump_returning.
  - rewrite (reset_catchBlock_returning _ _ _ _ st) by done.
    by destruct (CommandQueueReset.completeTask _ _ _) as [[] st1].
Qed.

Lemma reset_step_returning s c :
  CommandQueueResetCallbacks.step behaviour s c = (CommandQueueReset.step s c, None).
Proof.
  destruct c as [now [[l w cb|w cb|l n|l|p out]|]];
    unfold CommandQueueResetCallbacks.step, CommandQueueReset.step,
      CommandQueueResetCallbacks.call, CommandQueueReset.call,
      CommandQueueResetCallbacks.enqueueCommand, CommandQueueReset.enqueueCommand;
    simpl.
  - by rewrite reset_enqueueCommandInLane_returning.
  - by rewrite reset_enqueueCommandInLane_returning.
  - apply reset_setCommandLaneConcurrency_returning.
  - done.
  - apply reset_taskSettles_returning.
  - apply reset_resetAllLanes_returning.
Qed.

Lemma reset_run_returning cs s :
  CommandQueueResetCallbacks.run behaviour cs s
  = (CommandQueueReset.run cs s, map (fun _ => None) cs).
Proof.
  revert s. induction cs as [|c cs IH]; intros s; simpl; [done|].
  by rewrite reset_step_returning, IH.
Qed.

(** *** The counter-based queue *)

Lemma counter_pumpLoop_returning name now maxC q act :
  CommandQueueCallbacks.pumpLoop behaviour name now maxC q act
  = (CommandQueue.pumpLoop name now maxC q act, None).
Proof.
  revert act. induction q as [|e rest IH]; intros act; simpl; [done|].
  destruct (_ <? _); [|done].
  rewrite onWaitThrows_returning, IH.
  by destruct (CommandQueue.pumpLoop _ _ _ _ _) as [[res rs] es].
Qed.

Lemma counter_pump_returning name now st s :
  CommandQueueCallbacks.pump behaviour name now st s
  = (CommandQueue.pump name now st s, None).
Proof.
  unfold CommandQueueCallbacks.pump, CommandQueue.pump.
  rewrite counter_pumpLoop_returning.
  by destruct (CommandQueue.pumpLoop _ _ _ _ _) as [[[q act] rs] es].
Qed.

Lemma counter_drainLane_returning name now s :
  CommandQueueCallbacks.drainLane behaviour name now s
  = (CommandQueue.drainLane name now s, None).
Proof.
  unfold CommandQueueCallbacks.drainLane, CommandQueue.drainLane.
  destruct (CommandQueue.getLaneState _ _) as [st ls].
  destruct (CommandQueue.draining st); [done|]. apply counter_pump_returning.
Qed.

Lemma counter_setCommandLaneConcurrency_returning l n now s :
  CommandQueueCallbacks.setCommandLaneConcurrency behaviour l n now s
  = (CommandQueue.setCommandLaneConcurrency l n now s, None).
Proof.
  unfold CommandQueueCallbacks.setCommandLaneConcurrency,
    CommandQueue.setCommandLaneConcurrency.
  destruct (CommandQueue.getLaneState _ _) as [st ls].
  apply counter_drainLane_returning.
Qed.

Lemma counter_enqueueCommandInLane_returning l w cb now s :
  CommandQueueCallbacks.enqueueCommandInLane behaviour l w cb now s
  = CommandQueue.enqueueCommandInLane l w cb now s.
Proof.
  unfold CommandQueueCallbacks.enqueueCommandInLane, CommandQueue.enqueueCommandInLane.
  destruct (CommandQueue.getLaneState _ _) as [st ls].
  by rewrite counter_drainLane_returning.
Qed.

Lemma counter_taskSettles_returning p out now s :
  CommandQueueCallbacks.taskSettles behaviour p out now s
  = (CommandQueue.taskSettles p out now s, None).
Proof.
  unfold CommandQueueCallbacks.taskSettles, CommandQueue.taskSettles.
  destruct (CommandQueue.takeRunning _ _) as [[r rest]|]; [|done].
  destruct (mapGet _ _) as [st|] eqn:Hst; [|done].
  destruct out as [value|err].
  - by rewrite counter_pump_returning.
  - unfold CommandQueueCallbacks.catchBlock. cbn [CommandQueue.lanes]. rewrite Hst.
    by rewrite counter_pump_returning.
Qed.

Lemma counter_step_returning s c :
  CommandQueueCallbacks.step behaviour s c = (CommandQueue.step s c, None).
Proof.
  destruct c as [now [l w cb|w cb|l n|l|p out]];
    unfold CommandQueueCallbacks.step, CommandQueue.step,
      CommandQueueCallbacks.enqueueCommand, CommandQueue.enqueueCommand; simpl.
  - by rewrite counter_enqueueCommandInLane_returning.
  - by rewrite counter_enqueueCommandInLane_returning.
  - apply counter_setCommandLaneConcurrency_returning.
  - done.
  - apply counter_taskSettles_returning.
Qed.

Lemma counter_run_returning cs s :
  CommandQueueCallbacks.run behaviour cs s
  = (CommandQueue.run cs s, map (fun _ => None) cs).
Proof.
  revert s. induction cs as [|c cs IH]; intros s; simpl; [done|].
  by rewrite counter_step_returning, IH.
Qed.

End Returning.

End LaneCallbacksProofs.

(* ===================================================================== *)
(** ** Lane queue with generations                                        *)
(* ===================================================================== *)

Module CommandQueueResetProofs.
Import Js Lanes LanesProofs CommandQueueReset.

Lemma gen_le_refl ls : gen_le ls ls.
Proof. intros k st H. eauto. Qed.

Lemma gen_le_trans ls1 ls2 ls3 : gen_le ls1 ls2 → gen_le ls2 ls3 → gen_le ls1 ls3.
Proof.
  intros H12 H23 k st H. destruct (H12 _ _ H) as (st2 & H2 & Hle).
  destruct (H23 _ _ H2) as (st3 & H3 & Hle'). exists st3. split; [done | lia].
Qed.

Lemma gen_le_mapSet k st ls :
  (∀ st0, mapGet k ls = Some st0 → (generation st0 ≤ generation st)%nat) →
  gen_le ls (mapSet k st ls).
Proof.
  intros Hk k' st' H. destruct (decide (k = k')) as [<-|Hne].
  - rewrite mapGet_mapSet_eq. eauto.
  - rewrite mapGet_mapSet_ne by done. eauto.
Qed.

Lemma gen_ok_mono ls ls' rs : gen_le ls ls' → gen_ok ls rs → gen_ok ls' rs.
Proof.
  intros Hle Hok r Hr. destruct (Hok r Hr) as (st & Hst & Hg).
  destruct (Hle _ _ Hst) as (st' & Hst' & Hg'). exists st'. split; [done | lia].
Qed.

Lemma lanes_ok_mapSet k st ls :
  lanes_ok ls → lane st = k → 1 ≤ maxConcurrent st → lanes_ok (mapSet k st ls).
Proof.
  intros [Hnd Hall] Hl Hm. split; [by apply NoDup_mapSet|].
  intros k' st'. destruct (decide (k = k')) as [<-|Hne].
  - rewrite mapGet_mapSet_eq. by intros [= <-].
  - rewrite mapGet_mapSet_ne by done. apply Hall.
Qed.

Lemma getLaneState_spec name ls st ls' :
  getLaneState name ls = (st, ls') →
  mapGet name ls' = Some st
  ∧ (∀ k, k ≠ name → mapGet k ls' = mapGet k ls)
  ∧ (mapGet name ls = Some st ∧ ls' = ls
     ∨ mapGet name ls = None ∧ st = mkLane name [] ∅ 1 false 0
       ∧ ls' = mapSet name st ls).
Proof.
  unfold getLaneState. destruct (mapGet name ls) as [existing|] eqn:E;
    intros [= <- <-].
  - split; [done|]. split; [done|]. by left.
  - split; [apply mapGet_mapSet_eq|]. split.
    + intros k Hk. by rewrite mapGet_mapSet_ne.
    + by right.
Qed.

Lemma getLaneState_ok name ls st ls' :
  getLaneState name ls = (st, ls') → lanes_ok ls →
  lanes_ok ls' ∧ gen_le ls ls' ∧ lane st = name ∧ 1 ≤ maxConcurrent st.
Proof.
  intros Hg Hok. apply getLaneState_spec in Hg as (Hget & Hother & [[Hs ->]|(Hn & -> & ->)]).
  - destruct (proj2 Hok _ _ Hs) as [Hl Hm].
    split; [done|]. split; [apply gen_le_refl | done].
  - split; [by apply lanes_ok_mapSet|]. split; [|done].
    apply gen_le_mapSet. intros st0. by rewrite Hn.
Qed.

(** What the loop of [pump] starts carries the lane's name and generation. *)
Lemma pumpLoop_runs name now gen maxC q ids next res rs es :
  pumpLoop name now gen maxC q ids next = (res, rs, es) →
  ∀ r, r ∈ rs → runLane r = name ∧ taskGeneration r = gen.
Proof.
  revert ids next res rs es. induction q as [|e q IH]; intros ids next res rs es; simpl.
  - intros [= <- <- <-] r Hr. by apply elem_of_nil in Hr.
  - destruct (Z.of_nat (size ids) <? maxC).
    + destruct (pumpLoop name now gen maxC q ({[next]} ∪ ids) (S next))
        as [[res' rs'] es'] eqn:E.
      intros [= <- <- <-] r Hr. apply elem_of_cons in Hr as [->|Hr]; [done|].
      by eapply IH.
    + intros [= <- <- <-] r Hr. by apply elem_of_nil in Hr.
Qed.

Lemma pump_wf name now st s :
  lanes_ok (lanes s) → gen_ok (lanes s) (inflight s) →
  lane st = name → 1 ≤ maxConcurrent st →
  (∀ st0, mapGet name (lanes s) = Some st0 → (generation st0 ≤ generation st)%nat) →
  wf (pump name now st s) ∧ gen_le (lanes s) (lanes (pump name now st s)).
Proof.
  intros Hok Hgen Hl Hm Hg. unfold pump.
  destruct (pumpLoop name now (generation st) (maxConcurrent st) (queue st)
              (activeTaskIds st) (nextTaskId s)) as [[[[q ids] next] rs] es] eqn:E.
  assert (gen_le (lanes s)
            (mapSet name (mkLane (lane st) q ids (maxConcurrent st) false (generation st))
               (lanes s))) as Hle by (by apply gen_le_mapSet).
  split; [|done]. split; simpl.
  - by apply lanes_ok_mapSet.
  - intros r Hr. apply elem_of_app in Hr as [Hr|Hr].
    + by apply (gen_ok_mono _ _ _ Hle Hgen).
    + destruct (pumpLoop_runs _ _ _ _ _ _ _ _ _ _ E r Hr) as [-> ->].
      rewrite mapGet_mapSet_eq. eexists. split; [done|]. simpl. lia.
Qed.

Lemma drainLane_wf name now s :
  wf s → wf (drainLane name now s) ∧ gen_le (lanes s) (lanes (drainLane name now s)).
Proof.
  intros [Hok Hgen]. unfold drainLane.
  destruct (getLaneState name (lanes s)) as [st ls] eqn:E.
  pose proof (getLaneState_spec _ _ _ _ E) as (Hget & _ & _).
  destruct (getLaneState_ok _ _ _ _ E Hok) as (Hok' & Hle & Hl & Hm).
  destruct (draining st).
  - split; [|done]. split; simpl; [done|]. by eapply gen_ok_mono.
  - destruct (pump_wf name now
                (mkLane (lane st) (queue st) (activeTaskIds st) (maxConcurrent st) true
                   (generation st)) (withLanes ls s)) as [Hwf Hle']; simpl; try done.
    + by eapply gen_ok_mono.
    + intros st0. rewrite Hget. by intros [= <-].
    + split; [done|]. by eapply gen_le_trans.
Qed.

Lemma setCommandLaneConcurrency_wf l n now s :
  wf s → wf (setCommandLaneConcurrency l n now s)
         ∧ gen_le (lanes s) (lanes (setCommandLaneConcurrency l n now s)).
Proof.
  intros [Hok Hgen]. unfold setCommandLaneConcurrency.
  destruct (getLaneState (cleanLane l) (lanes s)) as [st ls] eqn:E.
  pose proof (getLaneState_spec _ _ _ _ E) as (Hget & _ & _).
  destruct (getLaneState_ok _ _ _ _ E Hok) as (Hok' & Hle & Hl & Hm).
  set (st' := mkLane _ _ _ _ _ _).
  assert (gen_le ls (mapSet (cleanLane l) st' ls)) as Hle2.
  { apply gen_le_mapSet. intros st0. rewrite Hget. by intros [= <-]. }
  destruct (drainLane_wf (cleanLane l) now (withLanes (mapSet (cleanLane l) st' ls) s))
    as [Hwf Hle3].
  - split; simpl.
    + apply lanes_ok_mapSet; [done | done | simpl; lia].
    + eapply gen_ok_mono; [|done]. by eapply gen_le_trans.
  - split; [done|]. simpl in Hle3. eauto using gen_le_trans.
Qed.

Lemma enqueueCommandInLane_wf l w cb now s :
  wf s → wf (snd (enqueueCommandInLane l w cb now s))
         ∧ gen_le (lanes s) (lanes (snd (enqueueCommandInLane l w cb now s))).
Proof.
  intros [Hok Hgen]. unfold enqueueCommandInLane.
  destruct (getLaneState (cleanLane l) (lanes s)) as [st ls] eqn:E.
  pose proof (getLaneState_spec _ _ _ _ E) as (Hget & _ & _).
  destruct (getLaneState_ok _ _ _ _ E Hok) as (Hok' & Hle & Hl & Hm).
  simpl. set (st' := mkLane _ _ _ _ _ _). set (s1 := mkState _ _ _ _ _).
  assert (gen_le ls (mapSet (cleanLane l) st' ls)) as Hle2.
  { apply gen_le_mapSet. intros st0. rewrite Hget. by intros [= <-]. }
  destruct (drainLane_wf (cleanLane l) now s1) as [Hwf Hle3].
  - split; simpl.
    + by apply lanes_ok_mapSet.
    + eapply gen_ok_mono; [|done]. by eapply gen_le_trans.
  - split; [done|]. simpl in Hle3. eauto using gen_le_trans.
Qed.

Lemma clearCommandLane_wf l s :
  wf s → wf (snd (clearCommandLane l s))
         ∧ gen_le (lanes s) (lanes (snd (clearCommandLane l s))).
Proof.
  intros [Hok Hgen]. unfold clearCommandLane.
  destruct (mapGet (cleanLane l) (lanes s)) as [st|] eqn:E; simpl.
  - destruct Hok as [Hnd Hall]. destruct (Hall _ _ E) as [Hl Hm].
    set (st' := mkLane _ _ _ _ _ _).
    assert (gen_le (lanes s) (mapSet (cleanLane l) st' (lanes s))) as Hle.
    { apply gen_le_mapSet. intros st0. rewrite E. by intros [= <-]. }
    split; [|done]. split; simpl.
    + by apply lanes_ok_mapSet.
    + by eapply gen_ok_mono.
  - split; [done | apply gen_le_refl].
Qed.

Lemma takeRunning_Some p rs r rest :
  takeRunning p rs = Some (r, rest) →
  r ∈ rs ∧ promise (entry r) = p ∧ (∀ x, x ∈ rest → x ∈ rs).
Proof.
  revert r rest. induction rs as [|r0 rs IH]; intros r rest; simpl; [done|].
  destruct (promise (entry r0) =? p)%nat eqn:Ep.
  - intros [= <- <-]. apply Nat.eqb_eq in Ep. split; [by left|]. split; [done|].
    intros x Hx. by right.
  - destruct (takeRunning p rs) as [[r' rest']|] eqn:E; [|done].
    intros [= <- <-]. destruct (IH _ _ eq_refl) as (Hin & Hp & Hsub).
    split; [by right|]. split; [done|].
    intros x Hx. apply elem_of_cons in Hx as [->|Hx]; [by left | right; by apply Hsub].
Qed.

Lemma completeTask_fields st tid tgen b st1 :
  completeTask st tid tgen = (b, st1) →
  lane st1 = lane st ∧ maxConcurrent st1 = maxConcurrent st
  ∧ generation st1 = generation st ∧ queue st1 = queue st.
Proof.
  unfold completeTask. destruct (negb (tgen =? generation st)%nat); by intros [= <- <-].
Qed.

Lemma wf_same_lanes s s' :
  lanes s' = lanes s → inflight s' = inflight s → wf s → wf s'.
Proof. intros Hl Hi [H1 H2]. split; by rewrite Hl, ?Hi. Qed.

Lemma taskSettles_wf p out now s :
  wf s → wf (taskSettles p out now s)
         ∧ gen_le (lanes s) (lanes (taskSettles p out now s)).
Proof.
  intros [Hok Hgen]. unfold taskSettles.
  destruct (takeRunning p (inflight s)) as [[r rest]|] eqn:Et;
    [|split; [done | apply gen_le_refl]].
  destruct (mapGet (runLane r) (lanes s)) as [st|] eqn:El;
    [|split; [done | apply gen_le_refl]].
  destruct (completeTask st (taskId r) (taskGeneration r)) as [b st1] eqn:Ec.
  destruct (completeTask_fields _ _ _ _ _ Ec) as (Hl & Hm & Hg & Hq).
  destruct (proj2 Hok _ _ El) as [Hlane Hmax].
  apply takeRunning_Some in Et as (_ & _ & Hsub).
  assert (gen_le (lanes s) (mapSet (runLane r) st1 (lanes s))) as Hle.
  { apply gen_le_mapSet. intros st0. rewrite El. intros [= <-]. lia. }
  assert (lanes_ok (mapSet (runLane r) st1 (lanes s))) as Hok1.
  { apply lanes_ok_mapSet; [done | congruence | lia]. }
  assert (gen_ok (mapSet (runLane r) st1 (lanes s)) rest) as Hgen1.
  { eapply gen_ok_mono; [done|]. intros x Hx. apply Hgen. by apply Hsub. }
  assert (∀ st0, mapGet (runLane r) (mapSet (runLane r) st1 (lanes s)) = Some st0 →
                 (generation st0 ≤ generation st1)%nat) as Hself.
  { intros st0. rewrite mapGet_mapSet_eq. by intros [= <-]. }
  destruct out as [value|err], b; simpl.
  - match goal with |- context [pump ?n ?t ?x ?y] =>
      destruct (pump_wf n t x y) as [Hwf Hle'] end; simpl; try done; try congruence; try lia.
    split; [by eapply wf_same_lanes; [| |exact Hwf] | by eapply gen_le_trans].
  - split; [by split | done].
  - match goal with |- context [pump ?n ?t ?x ?y] =>
      destruct (pump_wf n t x y) as [Hwf Hle'] end; simpl; try done; try congruence; try lia.
    split; [by eapply wf_same_lanes; [| |exact Hwf] | by eapply gen_le_trans].
  - split; [by split | done].
Qed.

Lemma foldl_drainLane_wf now names s :
  wf s →
  wf (foldl (fun s' name => drainLane name now s') s names)
  ∧ gen_le (lanes s) (lanes (foldl (fun s' name => drainLane name now s') s names)).
Proof.
  revert s. induction names as [|d names IH]; intros s Hwf; simpl.
  - split; [done | apply gen_le_refl].
  - destruct (drainLane_wf d now s Hwf) as [Hwf1 Hle1].
    destruct (IH _ Hwf1) as [Hwf2 Hle2]. split; [done | by eapply gen_le_trans].
Qed.

Lemma stale_mono ls ls' r : gen_le ls ls' → stale ls r → stale ls' r.
Proof.
  intros Hle (st & Hst & Hlt). destruct (Hle _ _ Hst) as (st' & Hst' & Hg).
  exists st'. split; [done | lia].
Qed.

Lemma lanes_ok_reset ls :
  lanes_ok ls → lanes_ok (map (fun kv => (fst kv, resetLane (snd kv))) ls).
Proof.
  intros [Hnd Hall]. split; [by rewrite map_fst_map_snd|].
  intros k st. rewrite mapGet_map_snd.
  destruct (mapGet k ls) as [st0|] eqn:E; [|done].
  intros [= <-]. simpl. by apply Hall.
Qed.

Lemma resetAllLanes_wf now s :
  wf s →
  wf (resetAllLanes now s)
  ∧ gen_le (lanes s) (lanes (resetAllLanes now s))
  ∧ ∀ r, r ∈ inflight s → stale (lanes (resetAllLanes now s)) r.
Proof.
  intros [Hok Hgen]. unfold resetAllLanes.
  set (s0 := withLanes _ s). set (names := map _ _).
  assert (∀ r, r ∈ inflight s → stale (lanes s0) r) as Hstale.
  { intros r Hr. destruct (Hgen r Hr) as (st & Hst & Hg).
    exists (resetLane st). simpl. rewrite mapGet_map_snd, Hst. split; [done|].
    simpl. lia. }
  assert (gen_le (lanes s) (lanes s0)) as Hle0.
  { intros k st Hst. exists (resetLane st). simpl.
    rewrite mapGet_map_snd, Hst. split; [done | simpl; lia]. }
  assert (wf s0) as Hwf0.
  { split; simpl; [by apply lanes_ok_reset|]. by eapply gen_ok_mono. }
  destruct (foldl_drainLane_wf now names s0 Hwf0) as [Hwf Hle].
  split; [done|]. split; [by eapply gen_le_trans|].
  intros r Hr. eapply stale_mono; [exact Hle | by apply Hstale].
Qed.

Lemma wf_init : wf init.
Proof.
  split; [split|]; simpl.
  - apply NoDup_nil_2.
  - done.
  - intros r Hr. by apply elem_of_nil in Hr.
Qed.

Lemma step_wf s c : wf s → wf (step s c) ∧ gen_le (lanes s) (lanes (step s c)).
Proof.
  intros Hwf. destruct c as [now [c|]]; unfold step; simpl.
  - destruct c; simpl.
    + by apply enqueueCommandInLane_wf.
    + by apply enqueueCommandInLane_wf.
    + by apply setCommandLaneConcurrency_wf.
    + by apply clearCommandLane_wf.
    + by apply taskSettles_wf.
  - destruct (resetAllLanes_wf now s Hwf) as (? & ? & _). done.
Qed.

Lemma run_wf cs s : wf s → wf (run cs s) ∧ gen_le (lanes s) (lanes (run cs s)).
Proof.
  revert s. induction cs as [|c cs IH]; intros s Hwf; simpl.
  - split; [done | apply gen_le_refl].
  - destruct (step_wf s c Hwf) as [Hwf1 Hle1].
    destruct (IH _ Hwf1) as [Hwf2 Hle2]. split; [done | by eapply gen_le_trans].
Qed.


(** The loop started from task ids that are all older than [next]. *)
Lemma pumpLoop_fresh name now gen maxC q ids next :
  (∀ i, i ∈ ids → (i < next)%nat) →
  let n := startCount (length q) maxC (size ids) in
  ∃ rs es,
    pumpLoop name now gen maxC q ids next
    = ((drop n q, list_to_set (seq next n) ∪ ids, (next + n)%nat), rs, es)
    ∧ map entry rs = take n q
    ∧ map taskId rs = seq next n
    ∧ size (list_to_set (seq next n) ∪ ids : gset nat) = (n + size ids)%nat.
Proof.
  revert ids next. induction q as [|e q IH]; intros ids next Hfresh; simpl.
  - exists [], []. unfold startCount. simpl.
    rewrite Nat.add_0_r, union_empty_l_L. done.
  - unfold startCount. simpl length.
    destruct (Z.of_nat (size ids) <? maxC) eqn:Elt.
    + apply Z.ltb_lt in Elt.
      assert (next ∉ ids) as Hnotin by (intros Hin; apply Hfresh in Hin; lia).
      assert (size ({[next]} ∪ ids) = S (size ids)) as Hsz.
      { rewrite size_union by set_solver. by rewrite size_singleton. }
      destruct (IH ({[next]} ∪ ids) (S next)) as (rs & es & Hp & Hent & Hid & Hsize).
      { intros i. rewrite elem_of_union, elem_of_singleton.
        intros [->|Hi]; [lia | apply Hfresh in Hi; lia]. }
      unfold startCount in Hp, Hent, Hid, Hsize. rewrite Hsz in Hp, Hent, Hid, Hsize.
      replace (Nat.min (S (length q)) (Z.to_nat (maxC - Z.of_nat (size ids))))
        with (S (Nat.min (length q) (Z.to_nat (maxC - Z.of_nat (S (size ids))))))
        by lia.
      set (n' := Nat.min (length q) (Z.to_nat (maxC - Z.of_nat (S (size ids))))) in *.
      rewrite Hp.
      exists (mkRunning e name now next gen :: rs),
             (waitEffects name e (now - enqueuedAt e) (length q)
              ++ [LogLaneDequeue name (now - enqueuedAt e) (length q);
                  TaskStarted name (promise e)] ++ es).
      simpl.
      assert (list_to_set (seq (S next) n') ∪ ({[next]} ∪ ids)
              = {[next]} ∪ list_to_set (seq (S next) n') ∪ ids :> gset nat) as Heq
        by set_solver.
      rewrite <- Heq. replace (next + S n')%nat with (S next + n')%nat by lia.
      split; [done|].
      split; [by rewrite Hent|]. split; [by rewrite Hid|].
      rewrite Hsize. lia.
    + apply Z.ltb_ge in Elt.
      replace (Nat.min (S (length q)) (Z.to_nat (maxC - Z.of_nat (size ids))))
        with 0%nat by lia.
      exists [], []. simpl. rewrite Nat.add_0_r, union_empty_l_L. done.
Qed.







(** The same on a concrete run: two commands queue behind a running one,
    the lanes are reset, and the old task completes afterwards. *)
Example reset_lane_trace :
  let history := [(0, Shared (EnqueueCommand None None));
                  (1, Shared (EnqueueCommand None None));
                  (1, Shared (EnqueueCommand None None))] in
  let s1 := resetAllLanes 5 (run history init) in
  let s2 := taskSettles 0 (Returned "late") 6 s1 in
  map (fun r => (promise (entry r), taskGeneration r)) (inflight s1)
    = [(0, 0); (1, 1)]%nat
  ∧ map (fun kv => (map promise (queue (snd kv)), elements (activeTaskIds (snd kv))))
        (lanes s1) = [([2%nat], [2%nat])]
  ∧ lanes s2 = lanes s1
  ∧ trace s2 = trace s1 ++ [Resolve 0 "late"].
Proof. vm_compute. done. Qed.

(** [clearCommandLane] of this file: the count of queued entries is
    returned, the lane's queue is emptied, every removed entry is rejected
    with a [CommandLaneClearedError] whose message quotes the lane, and
    nothing else changes (active task ids and started tasks included). *)
Theorem clearCommandLane_rejects (l : string) (s : State) (st : LaneState) :
  mapGet (cleanLane l) (lanes s) = Some st →
  clearCommandLane l s
  = (length (queue st),
     mkState
       (mapSet (cleanLane l)
          (mkLane (lane st) [] (activeTaskIds st) (maxConcurrent st) (draining st)
                  (generation st)) (lanes s))
       (nextTaskId s) (nextPromise s) (inflight s)
       (trace s
        ++ map (fun e =>
                  Reject (promise e)
                    (ErrorObject "CommandLaneClearedError"
                       ("Command lane " +:+ dquote +:+ cleanLane l +:+ dquote
                        +:+ " cleared")))
               (queue st))).
Proof.
  intros Hget. unfold clearCommandLane. rewrite Hget.
  do 3 f_equal. unfold CommandLaneClearedError.
  destruct (cleanLane l) eqn:E; [by apply cleanLane_nonempty in E | done].
Qed.

Lemma clearCommandLane_rejects_witness :
  clearCommandLane ""
    (run [(0, Shared (EnqueueCommand None None));
          (1, Shared (EnqueueCommand None None))] init)
  = (1%nat,
     mkState [("main", mkLane "main" [] {[1%nat]} 1 false 0)] 2 2
       [mkRunning (mkEntry 0 0 2000 None) "main" 0 1 0]
       [LogLaneEnqueue "main" 1; LogLaneDequeue "main" 0 0; TaskStarted "main" 0;
        LogLaneEnqueue "main" 2;
        Reject 1 (ErrorObject "CommandLaneClearedError"
                    ("Command lane " +:+ dquote +:+ "main" +:+ dquote +:+ " cleared"))]).
Proof.
  exact (clearCommandLane_rejects ""
           (run [(0, Shared (EnqueueCommand None None));
                 (1, Shared (EnqueueCommand None None))] init)
           (mkLane "main" [mkEntry 1 1 2000 None] {[1%nat]} 1 false 0) eq_refl).
Defined.

End CommandQueueResetProofs.

(* ===================================================================== *)
(** ** The two lane queues agree (without clear and reset)                *)
(* ===================================================================== *)

Module QueueEquivalence.
Import Js Lanes LaneCallbacks LanesProofs LaneCallbacksProofs QueueSimulation.

Lemma mapGet_R ls1 ls2 k :
  Forall2 laneR ls1 ls2 →
  match mapGet k ls1, mapGet k ls2 with
  | Some st1, Some st2 => stR st1 st2
  | None, None => True
  | _, _ => False
  end.
Proof.
  induction 1 as [|[k1 st1] [k2 st2] ls1 ls2 [Hk Hst] _ IH]; simpl; [done|].
  simpl in Hk. subst k2. by destruct (String.eqb k1 k).
Qed.

Lemma mapSet_R ls1 ls2 k st1 st2 :
  Forall2 laneR ls1 ls2 → stR st1 st2 →
  Forall2 laneR (mapSet k st1 ls1) (mapSet k st2 ls2).
Proof.
  intros H Hst. induction H as [|[k1 a1] [k2 a2] ls1 ls2 [Hk Ha] Htl IH]; simpl.
  - constructor; [by split | constructor].
  - simpl in Hk. subst k2. destruct (String.eqb k1 k).
    + constructor; [by split | done].
    + constructor; [by split | done].
Qed.

Lemma getLaneState_R ls1 ls2 name :
  Forall2 laneR ls1 ls2 →
  stR (V1.getLaneState name ls1).1 (V2.getLaneState name ls2).1
  ∧ Forall2 laneR (V1.getLaneState name ls1).2 (V2.getLaneState name ls2).2.
Proof.
  intros H. pose proof (mapGet_R _ _ name H) as Hg.
  unfold V1.getLaneState, V2.getLaneState.
  destruct (mapGet name ls1), (mapGet name ls2); try done; simpl.
  assert (stR (V1.mkLane name [] 0 1 false) (V2.mkLane name [] ∅ 1 false 0)) as Hnew
    by (by repeat split).
  split; [done | by apply mapSet_R].
Qed.

(** The two loops, run from a counter that equals the size of the id set and
    with ids older than [next], dequeue and start the same entries and log
    the same. *)
Lemma pumpLoop_R name now maxC q act ids next :
  act = Z.of_nat (size ids) → (∀ i, i ∈ ids → (i < next)%nat) →
  ∀ q1 act1 rs1 es1 q2 ids2 next2 rs2 es2,
    V1.pumpLoop name now maxC q act = ((q1, act1), rs1, es1) →
    V2.pumpLoop name now 0 maxC q ids next = ((q2, ids2, next2), rs2, es2) →
    q1 = q2 ∧ act1 = Z.of_nat (size ids2) ∧ Forall2 runR rs1 rs2 ∧ es1 = es2.
Proof.
  revert act ids next. induction q as [|e q IH]; intros act ids next Hact Hfresh
    q1 act1 rs1 es1 q2 ids2 next2 rs2 es2; simpl.
  - intros [= <- <- <- <-] [= <- <- <- <- <-]. by repeat split.
  - rewrite Hact. destruct (Z.of_nat (size ids) <? maxC).
    + destruct (V1.pumpLoop name now maxC q (Z.of_nat (size ids) + 1))
        as [[[q1' act1'] rs1'] es1'] eqn:E1.
      destruct (V2.pumpLoop name now 0 maxC q ({[next]} ∪ ids) (S next))
        as [[[[q2' ids2'] next2'] rs2'] es2'] eqn:E2.
      intros [= <- <- <- <-] [= <- <- <- <- <-].
      assert (next ∉ ids) as Hnotin by (intros Hin; apply Hfresh in Hin; lia).
      assert (Z.of_nat (size ids) + 1 = Z.of_nat (size ({[next]} ∪ ids))) as Hsz.
      { rewrite size_union by set_solver. rewrite size_singleton. lia. }
      assert (∀ i, i ∈ {[next]} ∪ ids → (i < S next)%nat) as Hfresh'.
      { intros i. rewrite elem_of_union, elem_of_singleton.
        intros [->|Hi]; [lia | apply Hfresh in Hi; lia]. }
      destruct (IH _ _ _ Hsz Hfresh' _ _ _ _ _ _ _ _ _ E1 E2) as (-> & -> & HR & ->).
      split; [done|]. split; [done|]. split; [|done].
      constructor; [by repeat split | done].
    + intros [= <- <- <- <-] [= <- <- <- <- <-]. by repeat split.
Qed.

Lemma ids_ok_mapSet ls next rs k st' :
  ids_ok ls next rs →
  (∀ i, i ∈ V2.activeTaskIds st' → (i < next)%nat) →
  (∀ r, r ∈ rs → V2.runLane r = k → V2.taskId r ∈ V2.activeTaskIds st') →
  ids_ok (mapSet k st' ls) next rs.
Proof.
  intros (HF & HM & HN) Hf Hm. split; [|split; [|done]].
  - intros k' st i. destruct (decide (k = k')) as [<-|Hne].
    + rewrite mapGet_mapSet_eq. intros [= <-]. apply Hf.
    + rewrite mapGet_mapSet_ne by done. apply HF.
  - intros r Hr. destruct (decide (k = V2.runLane r)) as [Hk|Hne].
    + rewrite <- Hk, mapGet_mapSet_eq. eexists. split; [done|]. by apply Hm.
    + rewrite mapGet_mapSet_ne by done. by apply HM.
Qed.

Lemma ids_ok_stored ls next rs k st :
  ids_ok ls next rs → mapGet k ls = Some st →
  (∀ i, i ∈ V2.activeTaskIds st → (i < next)%nat)
  ∧ (∀ r, r ∈ rs → V2.runLane r = k → V2.taskId r ∈ V2.activeTaskIds st).
Proof.
  intros (HF & HM & _) Hk. split; [intros i; by apply (HF k st)|].
  intros r Hr Hl. destruct (HM r Hr) as (st' & Hst' & Hin).
  rewrite Hl, Hk in Hst'. by injection Hst' as <-.
Qed.

Lemma getLaneState_ids_ok ls next rs name :
  ids_ok ls next rs →
  ids_ok (V2.getLaneState name ls).2 next rs
  ∧ mapGet name (V2.getLaneState name ls).2 = Some (V2.getLaneState name ls).1.
Proof.
  intros Hok. unfold V2.getLaneState.
  destruct (mapGet name ls) as [st|] eqn:E; simpl; [done|].
  split; [|apply mapGet_mapSet_eq].
  apply ids_ok_mapSet; [done | set_solver |].
  intros r Hr Hl. destruct Hok as (_ & HM & _).
  destruct (HM r Hr) as (st' & Hst' & _). congruence.
Qed.

Lemma pump_R name now st1 st2 s1 s2 :
  R s1 s2 → stR st1 st2 →
  (∀ i, i ∈ V2.activeTaskIds st2 → (i < V2.nextTaskId s2)%nat) →
  (∀ r, r ∈ V2.inflight s2 → V2.runLane r = name → V2.taskId r ∈ V2.activeTaskIds st2) →
  R (V1.pump name now st1 s1) (V2.pump name now st2 s2).
Proof.
  intros (HL & HP & HI & HT & HF & HM & HN) (Hl & Hq & Ha & Hm & Hd & Hg) Hfresh Hmine.
  unfold V1.pump, V2.pump. rewrite Hg, <- Hq, <- Hm.
  destruct (V1.pumpLoop name now (V1.maxConcurrent st1) (V1.queue st1) (V1.active st1))
    as [[[q1 act1] rs1] es1] eqn:E1.
  destruct (CommandQueueResetProofs.pumpLoop_fresh name now 0 (V1.maxConcurrent st1)
              (V1.queue st1) (V2.activeTaskIds st2) (V2.nextTaskId s2) Hfresh)
    as (rs2 & es2 & E2 & _ & Hids & _).
  set (n := V2.startCount _ _ _) in *.
  rewrite E2.
  destruct (pumpLoop_R _ _ _ _ _ _ _ Ha Hfresh _ _ _ _ _ _ _ _ _ E1 E2)
    as (-> & -> & HR & ->).
  change (map V2.taskId rs2) with (V2.taskId <$> rs2) in Hids.
  assert (∀ r, r ∈ rs2 → V2.runLane r = name
                         ∧ (V2.nextTaskId s2 ≤ V2.taskId r < V2.nextTaskId s2 + n)%nat)
    as Hnew.
  { intros r Hr. split.
    - by apply (CommandQueueResetProofs.pumpLoop_runs _ _ _ _ _ _ _ _ _ _ E2 r).
    - apply elem_of_seq. rewrite <- Hids. apply list_elem_of_fmap. by exists r. }
  assert (∀ r, r ∈ V2.inflight s2 → (V2.taskId r < V2.nextTaskId s2)%nat) as Hold.
  { intros r Hr. destruct (HM r Hr) as (st & Hst & Hin). by eapply HF. }
  split; [|split; [|split; [|split]]]; simpl.
  - apply mapSet_R; [done|]. by repeat split.
  - done.
  - by apply Forall2_app.
  - by rewrite HT.
  - split; [|split].
    + intros k st i. destruct (decide (name = k)) as [<-|Hne].
      * rewrite mapGet_mapSet_eq. intros [= <-]. simpl.
        rewrite elem_of_union, elem_of_list_to_set, elem_of_seq.
        intros [?|Hi]; [lia | apply Hfresh in Hi; lia].
      * rewrite mapGet_mapSet_ne by done. intros Hk Hi.
        pose proof (HF _ _ _ Hk Hi). lia.
    + intros r Hr. apply elem_of_app in Hr as [Hr|Hr].
      * destruct (decide (name = V2.runLane r)) as [Hk|Hne].
        -- rewrite <- Hk, mapGet_mapSet_eq. eexists. split; [done|]. simpl.
           apply elem_of_union_r. by apply Hmine.
        -- rewrite mapGet_mapSet_ne by done. by apply HM.
      * destruct (Hnew r Hr) as [-> Hrange]. rewrite mapGet_mapSet_eq.
        eexists. split; [done|]. simpl.
        apply elem_of_union_l, elem_of_list_to_set, elem_of_seq. lia.
    + rewrite fmap_app. apply NoDup_app. split; [done|]. split.
      * intros i Hi Hi'. apply list_elem_of_fmap in Hi as (r & -> & Hr).
        apply list_elem_of_fmap in Hi' as (r' & Heq & Hr').
        apply Hold in Hr. apply Hnew in Hr' as [_ ?]. lia.
      * rewrite Hids. apply NoDup_seq.
Qed.

Lemma drainLane_R name now s1 s2 :
  R s1 s2 → R (V1.drainLane name now s1) (V2.drainLane name now s2).
Proof.
  intros HR. pose proof HR as (HL & HP & HI & HT & Hok).
  unfold V1.drainLane, V2.drainLane.
  destruct (getLaneState_R _ _ name HL) as [Hst HL'].
  destruct (getLaneState_ids_ok _ _ _ name Hok) as [Hok' Hget].
  destruct (V1.getLaneState name (V1.lanes s1)) as [st1 ls1].
  destruct (V2.getLaneState name (V2.lanes s2)) as [st2 ls2]. simpl in *.
  assert (R (V1.withLanes ls1 s1) (V2.withLanes ls2 s2)) as HR'.
  { unfold R. simpl. by do 4 (split; [done|]). }
  pose proof Hst as (Hl & Hq & Ha & Hm & Hd & Hg). rewrite <- Hd.
  destruct (V1.draining st1); [done|].
  destruct (ids_ok_stored _ _ _ _ _ Hok' Hget) as [Hf Hmine].
  apply pump_R; [done | | done | done].
  unfold stR. simpl. by do 5 (split; [done|]).
Qed.

Lemma setCommandLaneConcurrency_R l n now s1 s2 :
  R s1 s2 →
  R (V1.setCommandLaneConcurrency l n now s1) (V2.setCommandLaneConcurrency l n now s2).
Proof.
  intros HR. pose proof HR as (HL & HP & HI & HT & Hok).
  unfold V1.setCommandLaneConcurrency, V2.setCommandLaneConcurrency.
  destruct (getLaneState_R _ _ (cleanLane l) HL) as [Hst HL'].
  destruct (getLaneState_ids_ok _ _ _ (cleanLane l) Hok) as [Hok' Hget].
  destruct (V1.getLaneState (cleanLane l) (V1.lanes s1)) as [st1 ls1].
  destruct (V2.getLaneState (cleanLane l) (V2.lanes s2)) as [st2 ls2]. simpl in *.
  pose proof Hst as (Hl & Hq & Ha & Hm & Hd & Hg).
  destruct (ids_ok_stored _ _ _ _ _ Hok' Hget) as [Hf Hmine].
  apply drainLane_R. split; [|split; [|split; [|split]]]; simpl; try done.
  - apply mapSet_R; [done|]. by repeat split.
  - by apply ids_ok_mapSet.
Qed.

Lemma enqueueCommandInLane_R l w cb now s1 s2 :
  R s1 s2 →
  (V1.enqueueCommandInLane l w cb now s1).1 = (V2.enqueueCommandInLane l w cb now s2).1
  ∧ R (V1.enqueueCommandInLane l w cb now s1).2 (V2.enqueueCommandInLane l w cb now s2).2.
Proof.
  intros HR. pose proof HR as (HL & HP & HI & HT & Hok).
  unfold V1.enqueueCommandInLane, V2.enqueueCommandInLane.
  destruct (getLaneState_R _ _ (cleanLane l) HL) as [Hst HL'].
  destruct (getLaneState_ids_ok _ _ _ (cleanLane l) Hok) as [Hok' Hget].
  destruct (V1.getLaneState (cleanLane l) (V1.lanes s1)) as [st1 ls1].
  destruct (V2.getLaneState (cleanLane l) (V2.lanes s2)) as [st2 ls2]. simpl in *.
  pose proof Hst as (Hl & Hq & Ha & Hm & Hd & Hg).
  destruct (ids_ok_stored _ _ _ _ _ Hok' Hget) as [Hf Hmine].
  split; [done|].
  apply drainLane_R. split; [|split; [|split; [|split]]]; simpl; try done.
  - apply mapSet_R; [done|]. repeat split; simpl; try done. by rewrite Hq, HP.
  - by rewrite HP.
  - by rewrite HT, Hq, Ha, HP.
  - by apply ids_ok_mapSet.
Qed.

Lemma R_emit es s1 s2 : R s1 s2 → R (V1.emit es s1) (V2.emit es s2).
Proof.
  intros (HL & HP & HI & HT & Hok). unfold R. simpl.
  do 3 (split; [done|]). split; [by rewrite HT | done].
Qed.

Lemma takeRunning_R p rs1 rs2 :
  Forall2 runR rs1 rs2 →
  match V1.takeRunning p rs1, V2.takeRunning p rs2 with
  | Some (r1, rest1), Some (r2, rest2) => runR r1 r2 ∧ Forall2 runR rest1 rest2
  | None, None => True
  | _, _ => False
  end.
Proof.
  induction 1 as [|r1 r2 rs1 rs2 Hr Htl IH]; simpl; [done|].
  pose proof Hr as (He & Hrest). rewrite He.
  destruct (promise (V2.entry r2) =? p)%nat; [done|].
  destruct (V1.takeRunning p rs1) as [[a1 b1]|], (V2.takeRunning p rs2) as [[a2 b2]|];
    try done.
  destruct IH as [Ha Hb]. split; [done|]. by constructor.
Qed.

Lemma takeRunning_split p rs r rest :
  V2.takeRunning p rs = Some (r, rest) →
  ∃ pre post, rs = pre ++ r :: post ∧ rest = pre ++ post.
Proof.
  revert r rest. induction rs as [|r0 rs IH]; intros r rest; simpl; [done|].
  destruct (promise (V2.entry r0) =? p)%nat.
  - intros [= <- <-]. by exists [], rs.
  - destruct (V2.takeRunning p rs) as [[r' rest']|]; [|done].
    intros [= <- <-]. destruct (IH _ _ eq_refl) as (pre & post & -> & ->).
    by exists (r0 :: pre), post.
Qed.

(** Dropping a started task from the bookkeeping. *)
Lemma ids_ok_remove ls next pre r post k st :
  ids_ok ls next (pre ++ r :: post) →
  mapGet k ls = Some st → V2.runLane r = k →
  V2.taskId r ∈ V2.activeTaskIds st
  ∧ ids_ok (mapSet k
              (V2.mkLane (V2.lane st) (V2.queue st)
                 (V2.activeTaskIds st ∖ {[V2.taskId r]}) (V2.maxConcurrent st)
                 (V2.draining st) (V2.generation st)) ls)
           next (pre ++ post).
Proof.
  intros Hok Hk Hl. pose proof Hok as (HF & HM & HN).
  destruct (ids_ok_stored _ _ _ _ _ Hok Hk) as [Hf Hmine].
  assert (V2.taskId r ∈ V2.activeTaskIds st) as Hin.
  { apply Hmine; [|done]. apply elem_of_app. right. by left. }
  split; [done|].
  rewrite fmap_app, fmap_cons in HN.
  apply NoDup_app in HN as (Hpre & Hdisj & Hpost).
  apply NoDup_cons in Hpost as [Hr Hpost].
  apply ids_ok_mapSet.
  - split; [done|]. split.
    + intros x Hx. apply HM. apply elem_of_app in Hx as [?|?]; apply elem_of_app;
        [by left | right; by right].
    + rewrite fmap_app. apply NoDup_app. split; [done|]. split; [|done].
      intros i Hi Hi'. apply (Hdisj i Hi). by right.
  - simpl. intros i Hi. apply Hf. set_solver.
  - simpl. intros x Hx Hxl. apply elem_of_difference. split.
    + apply Hmine; [|done]. apply elem_of_app in Hx as [?|?]; apply elem_of_app;
        [by left | right; by right].
    + rewrite elem_of_singleton. intros Heq. apply elem_of_app in Hx as [Hx|Hx].
      * apply (Hdisj (V2.taskId x)); [apply list_elem_of_fmap; by exists x|].
        rewrite Heq. by left.
      * apply Hr. rewrite <- Heq. apply list_elem_of_fmap. by exists x.
Qed.

Lemma taskSettles_R p out now s1 s2 :
  R s1 s2 → R (V1.taskSettles p out now s1) (V2.taskSettles p out now s2).
Proof.
  intros HR. pose proof HR as (HL & HP & HI & HT & Hok).
  unfold V1.taskSettles, V2.taskSettles.
  pose proof (takeRunning_R p _ _ HI) as Htake.
  destruct (V1.takeRunning p (V1.inflight s1)) as [[r1 rest1]|];
    destruct (V2.takeRunning p (V2.inflight s2)) as [[r2 rest2]|] eqn:E2; try done.
  destruct Htake as [(He & Hlane & Hstart & Hgen) Hrest].
  rewrite Hlane, He, Hstart.
  pose proof (mapGet_R _ _ (V2.runLane r2) HL) as Hget.
  destruct (mapGet (V2.runLane r2) (V1.lanes s1)) as [st1|];
    destruct (mapGet (V2.runLane r2) (V2.lanes s2)) as [st2|] eqn:El; try done.
  pose proof Hget as (Hl & Hq & Ha & Hm & Hd & Hg).
  unfold V2.completeTask. rewrite Hgen, Hg. simpl negb. cbv iota.
  apply takeRunning_split in E2 as (pre & post & Hsplit & ->).
  rewrite Hsplit in Hok.
  destruct (ids_ok_remove _ _ _ _ _ _ _ Hok El eq_refl) as [Hin Hok'].
  rewrite Hg in Hok'.
  set (st1' := V1.mkLane _ _ _ _ _). set (st2' := V2.mkLane _ _ _ _ _ _).
  assert (stR st1' st2') as Hst'.
  { unfold stR. simpl. do 2 (split; [done|]). split; [|done].
    rewrite Ha. rewrite (union_difference_singleton_L _ _ Hin) at 1.
    rewrite size_union by set_solver. rewrite size_singleton. lia. }
  set (x1 := V1.mkState _ _ _ _). set (x2 := V2.mkState _ _ _ _ _).
  assert (R x1 x2) as Hx.
  { unfold R. simpl. split; [by apply mapSet_R|]. by do 3 (split; [done|]). }
  assert (mapGet (V2.runLane r2) (V2.lanes x2) = Some st2') as Hstored
    by apply mapGet_mapSet_eq.
  destruct out as [value|err].
  - apply R_emit.
    replace (V1.active st1') with (Z.of_nat (size (V2.activeTaskIds st2')))
      by (by destruct Hst' as (_ & _ & <- & _)).
    replace (V1.queue st1') with (V2.queue st2')
      by (by destruct Hst' as (_ & <- & _)).
    set (es := [DiagDebug _ _ _ _]).
    destruct (ids_ok_stored _ _ _ _ _ (proj2 (proj2 (proj2 (proj2 (R_emit es _ _ Hx)))))
                Hstored) as [Hf Hmine].
    apply pump_R; [by apply R_emit | done | done | done].
  - apply R_emit. set (es := if isProbeLane _ then _ else _).
    destruct (ids_ok_stored _ _ _ _ _ (proj2 (proj2 (proj2 (proj2 (R_emit es _ _ Hx)))))
                Hstored) as [Hf Hmine].
    apply pump_R; [by apply R_emit | done | done | done].
Qed.

Lemma R_init : R V1.init V2.init.
Proof.
  unfold R. simpl. do 2 (split; [done|]). split; [done|]. split; [done|].
  split; [done|]. split; [|apply NoDup_nil_2].
  intros r Hr. by apply elem_of_nil in Hr.
Qed.

Lemma step_R s1 s2 c :
  R s1 s2 → plain (snd c) = true →
  R (V1.step s1 c) (V2.step s2 (fst c, V2.Shared (snd c))).
Proof.
  intros HR Hp. destruct c as [now c]. unfold V1.step, V2.step, V2.call. simpl in *.
  destruct c; try done.
  - by apply enqueueCommandInLane_R.
  - by apply enqueueCommandInLane_R.
  - by apply setCommandLaneConcurrency_R.
  - by apply taskSettles_R.
Qed.

Lemma run_R cs s1 s2 :
  R s1 s2 → forallb (fun c => plain (snd c)) cs = true →
  R (V1.run cs s1) (V2.run (map (fun c => (fst c, V2.Shared (snd c))) cs) s2).
Proof.
  revert s1 s2. induction cs as [|c cs IH]; intros s1 s2 HR Hall; simpl; [done|].
  simpl in Hall. apply andb_true_iff in Hall as [Hc Hall].
  apply IH; [by apply step_R | done].
Qed.

Lemma getTotalQueueSize_R ls1 ls2 acc :
  Forall2 laneR ls1 ls2 →
  foldl (fun total '(_, st) =>
           total + (Z.of_nat (length (V1.queue st)) + V1.active st)) acc ls1
  = foldl (fun total '(_, st) =>
             total + (Z.of_nat (length (V2.queue st))
                      + Z.of_nat (size (V2.activeTaskIds st)))) acc ls2.
Proof.
  intros H. revert acc.
  induction H as [|[k1 st1] [k2 st2] ls1 ls2 [_ Hst] _ IH]; intros acc; simpl; [done|].
  simpl in Hst. destruct Hst as (_ & -> & -> & _). apply IH.
Qed.

(** With callbacks that return, the two queues produce the same record of
    visible effects, hand out the same promise handles and report the same
    sizes after every sequence of calls without [clearCommandLane]. *)
Lemma returning_queues_equivalent (cs : list (Z * Lanes.Call)) :
  forallb (fun c => plain (snd c)) cs = true →
  let s1 := V1.run cs V1.init in
  let s2 := V2.run (map (fun c => (fst c, V2.Shared (snd c))) cs) V2.init in
  V1.trace s1 = V2.trace s2
  ∧ V1.nextPromise s1 = V2.nextPromise s2
  ∧ (∀ l, V1.getQueueSize l s1 = V2.getQueueSize l s2)
  ∧ V1.getTotalQueueSize s1 = V2.getTotalQueueSize s2.
Proof.
  intros Hall s1 s2.
  destruct (run_R cs _ _ R_init Hall) as (HL & HP & HI & HT & Hok).
  fold s1 s2 in HL, HP, HT. split; [done|]. split; [done|]. split.
  - intros l. unfold V1.getQueueSize, V2.getQueueSize.
    pose proof (mapGet_R _ _ (cleanLane l) HL) as Hg.
    destruct (mapGet (cleanLane l) (V1.lanes s1)), (mapGet (cleanLane l) (V2.lanes s2));
      try done.
    by destruct Hg as (_ & -> & -> & _).
  - by apply getTotalQueueSize_R.
Qed.

(** C10 (amended).  Provided no [onWait] callback throws: fed the same
    sequence of [enqueueCommandInLane], [enqueueCommand] and
    [setCommandLaneConcurrency] calls and task completions (no
    [clearCommandLane]; the counter-based file has no [resetAllLanes]), the
    two queue implementations produce the same record of visible effects -
    the same dequeues and task starts in the same order, the same promise
    settlements, the same diagnostics - hand out the same promise handles,
    report the same [getQueueSize] for every lane and the same
    [getTotalQueueSize], and no call of either throws. *)
Theorem lane_queues_equivalent (behaviour : OnWaitBehaviour)
    (cs : list (Z * Lanes.Call)) :
  (∀ cb waitedMs queuedAhead, behaviour cb waitedMs queuedAhead = None) →
  forallb (fun c => plain (snd c)) cs = true →
  let r1 := CommandQueueCallbacks.run behaviour cs V1.init in
  let r2 := CommandQueueResetCallbacks.run behaviour
              (map (fun c => (fst c, V2.Shared (snd c))) cs) V2.init in
  V1.trace r1.1 = V2.trace r2.1
  ∧ V1.nextPromise r1.1 = V2.nextPromise r2.1
  ∧ (∀ l, V1.getQueueSize l r1.1 = V2.getQueueSize l r2.1)
  ∧ V1.getTotalQueueSize r1.1 = V2.getTotalQueueSize r2.1
  ∧ r1.2 = map (fun _ => None) cs
  ∧ r2.2 = map (fun _ => None) cs.
Proof.
  intros Hreturn Hall. cbv zeta.
  rewrite (counter_run_returning behaviour Hreturn),
    (reset_run_returning behaviour Hreturn).
  cbn [fst snd].
  destruct (returning_queues_equivalent cs Hall) as (Ht & Hp & Hq & Htotal).
  do 4 (split; [done|]). split; [done|]. by rewrite map_map.
Qed.

Lemma lane_queues_equivalent_witness :
  let cs := [(0, EnqueueCommand None None);
             (1, EnqueueCommandInLane " main " (Some 5) (Some 7%nat));
             (2, EnqueueCommandInLane "cron" None None);
             (3, SetCommandLaneConcurrency "cron" 2);
             (4, EnqueueCommandInLane "cron" None None);
             (10, TaskSettles 0 (Returned "a"));
             (20, TaskSettles 1 (Threw "boom"))] in
  let r1 := CommandQueueCallbacks.run returning cs V1.init in
  let r2 := CommandQueueResetCallbacks.run returning
              (map (fun c => (fst c, V2.Shared (snd c))) cs) V2.init in
  V1.trace r1.1 = V2.trace r2.1
  ∧ V1.nextPromise r1.1 = V2.nextPromise r2.1
  ∧ (∀ l, V1.getQueueSize l r1.1 = V2.getQueueSize l r2.1)
  ∧ V1.getTotalQueueSize r1.1 = V2.getTotalQueueSize r2.1
  ∧ r1.2 = map (fun _ => None) cs
  ∧ r2.2 = map (fun _ => None) cs.
Proof.
  exact (lane_queues_equivalent returning
           [(0, EnqueueCommand None None);
            (1, EnqueueCommandInLane " main " (Some 5) (Some 7%nat));
            (2, EnqueueCommandInLane "cron" None None);
            (3, SetCommandLaneConcurrency "cron" 2);
            (4, EnqueueCommandInLane "cron" None None);
            (10, TaskSettles 0 (Returned "a"));
            (20, TaskSettles 1 (Threw "boom"))] (fun _ _ _ => eq_refl) eq_refl).
Defined.

(** C10 as stated fails when an [onWait] callback throws.  The lane has cap
    1; command 0 runs, command 1 waits with a callback that throws and a
    threshold of 5 ms, command 2 waits behind it.  When command 0 returns,
    the [pump] of its continuation shifts command 1 and the callback throws
    inside the [try]; the [catch] block runs the completion a second time.
    The counter-based file decrements [active] twice, so command 3, enqueued
    next, starts beside command 2 and [getQueueSize] is 1; in the
    generation-based file the second [delete] of the task id changes
    nothing, command 3 stays queued and [getQueueSize] is 2. *)
Lemma throwing_callback_tells_the_queues_apart :
  let behaviour : OnWaitBehaviour :=
    fun cb _ _ => if (cb =? 7)%nat then Some "boom" else None in
  let cs := [(0, EnqueueCommand None None);
             (1, EnqueueCommand (Some 5) (Some 7%nat));
             (2, EnqueueCommand None None);
             (10, TaskSettles 0 (Returned "a"));
             (11, EnqueueCommand None None)] in
  let r1 := CommandQueueCallbacks.run behaviour cs V1.init in
  let r2 := CommandQueueResetCallbacks.run behaviour
              (map (fun c => (fst c, V2.Shared (snd c))) cs) V2.init in
  forallb (fun c => plain (snd c)) cs = true
  ∧ V1.getQueueSize "main" r1.1 = 1
  ∧ V2.getQueueSize "main" r2.1 = 2
  ∧ V1.getTotalQueueSize r1.1 = 1
  ∧ V2.getTotalQueueSize r2.1 = 2
  ∧ started "main" (V1.trace r1.1) = [0; 2; 3]%nat
  ∧ started "main" (V2.trace r2.1) = [0; 2]%nat
  ∧ V1.trace r1.1
    = [LogLaneEnqueue "main" 1; LogLaneDequeue "main" 0 0; TaskStarted "main" 0;
       LogLaneEnqueue "main" 2; LogLaneEnqueue "main" 3;
       DiagDebug "main" 10 0 2; OnWait 7 9 1; DiagError "main" 10 "boom";
       LogLaneDequeue "main" 8 0; TaskStarted "main" 2; Reject 0 (TaskThrew "boom");
       LogLaneEnqueue "main" 1; LogLaneDequeue "main" 0 0; TaskStarted "main" 3]
  ∧ V2.trace r2.1
    = [LogLaneEnqueue "main" 1; LogLaneDequeue "main" 0 0; TaskStarted "main" 0;
       LogLaneEnqueue "main" 2; LogLaneEnqueue "main" 3;
       DiagDebug "main" 10 0 2; OnWait 7 9 1; DiagError "main" 10 "boom";
       LogLaneDequeue "main" 8 0; TaskStarted "main" 2; Reject 0 (TaskThrew "boom");
       LogLaneEnqueue "main" 2].
Proof. by vm_compute. Qed.

(** With [clearCommandLane] the two files part ways: the counter-based one
    drops the queued entries silently, the other rejects them. *)
Example clear_tells_the_queues_apart :
  let cs := [(0, EnqueueCommand None None); (1, EnqueueCommand None None);
             (2, ClearCommandLane "main")] in
  V1.trace (V1.run cs V1.init)
  = [LogLaneEnqueue "main" 1; LogLaneDequeue "main" 0 0; TaskStarted "main" 0;
     LogLaneEnqueue "main" 2]
  ∧ V2.trace (V2.run (map (fun c => (fst c, V2.Shared (snd c))) cs) V2.init)
    = V1.trace (V1.run cs V1.init)
      ++ [Reject 1 (CommandLaneClearedError (Some "main"))].
Proof. vm_compute. done. Qed.

End QueueEquivalence.

(* ===================================================================== *)
(** ** Subagent registry: the cleanup token                               *)
(* ===================================================================== *)

Module RegistryProofs.
Import Js DeliveryContext Store Registry.

(** Persisting touches the file (or the console) only. *)
Lemma persist_runs w : subagentRuns (persistSubagentRuns w) = subagentRuns w.
Proof. unfold persistSubagentRuns. by destruct (saveSubagentRegistryToDisk _ _). Qed.

Lemma persist_flows w : pendingFlows (persistSubagentRuns w) = pendingFlows w.
Proof. unfold persistSubagentRuns. by destruct (saveSubagentRegistryToDisk _ _). Qed.

Lemma persist_resumed w : resumedRuns (persistSubagentRuns w) = resumedRuns w.
Proof. unfold persistSubagentRuns. by destruct (saveSubagentRegistryToDisk _ _). Qed.

(** When the file can be written, persisting leaves in it the version-2
    envelope of the current map. *)
Lemma persist_file w :
  writable (fs w) = true →
  file (fs (persistSubagentRuns w))
  = jsonClean (JObj [("version", JNum 2);
                     ("runs",
                      JObj (serialized (map_to_list (encodeRecord <$> subagentRuns w))))]).
Proof.
  intros Hw. unfold persistSubagentRuns, saveSubagentRegistryToDisk, saveJsonFile.
  by rewrite Hw.
Qed.

Lemma begin_true rid w :
  (beginSubagentCleanup rid w).1 = true ↔
  ∃ e, subagentRuns w !! rid = Some e
       ∧ (cleanupCompletedAt e = None ∨ cleanupCompletedAt e = Some 0)
       ∧ cleanupHandled e ≠ Some true.
Proof.
  unfold beginSubagentCleanup. destruct (subagentRuns w !! rid) as [e|] eqn:E.
  - destruct (cleanupCompletedAt e) as [t|] eqn:Ec; simpl.
    + destruct (Z.eqb_spec t 0) as [->|Hne]; simpl.
      * destruct (cleanupHandled e) as [[|]|] eqn:Eh; simpl.
        -- split; [done|]. intros (e' & [= <-] & _ & Hh). by rewrite Eh in Hh.
        -- split; [|done]. intros _. exists e. rewrite Ec, Eh. by eauto.
        -- split; [|done]. intros _. exists e. rewrite Ec, Eh. by eauto.
      * split; [done|]. intros (e' & [= <-] & [Hc|Hc] & _); rewrite Ec in Hc;
          [done | congruence].
    + destruct (cleanupHandled e) as [[|]|] eqn:Eh; simpl.
      * split; [done|]. intros (e' & [= <-] & _ & Hh). by rewrite Eh in Hh.
      * split; [|done]. intros _. exists e. rewrite Ec, Eh. by eauto.
      * split; [|done]. intros _. exists e. rewrite Ec, Eh. by eauto.
  - split; [done|]. by intros (e' & ? & _).
Qed.

Lemma begin_won rid w :
  (beginSubagentCleanup rid w).1 = true →
  ∃ e, subagentRuns w !! rid = Some e
       ∧ (beginSubagentCleanup rid w).2
         = persistSubagentRuns
             (withRuns (<[rid := setCleanupHandled true e]> (subagentRuns w)) w).
Proof.
  unfold beginSubagentCleanup. destruct (subagentRuns w !! rid) as [e|]; [|done].
  destruct (num_truthy _); [done|]. destruct (bool_truthy _); [done|]. eauto.
Qed.

Lemma begin_lost rid w :
  (beginSubagentCleanup rid w).1 = false → (beginSubagentCleanup rid w).2 = w.
Proof.
  unfold beginSubagentCleanup. destruct (subagentRuns w !! rid) as [e|]; [|done].
  destruct (num_truthy _); [done|]. by destruct (bool_truthy _).
Qed.

(** Once the token is taken, a further call fails for as long as the
    record, if it is still registered, keeps [cleanupHandled = true]. *)
Lemma begin_again rid w :
  (∀ e, subagentRuns w !! rid = Some e → cleanupHandled e = Some true) →
  beginSubagentCleanup rid w = (false, w).
Proof.
  intros Hh. unfold beginSubagentCleanup.
  destruct (subagentRuns w !! rid) as [e|] eqn:E; [|done].
  rewrite (Hh e eq_refl). simpl. by destruct (num_truthy _).
Qed.

Lemma token_ok_same w w' :
  token_ok w → pendingFlows w' = pendingFlows w →
  (∀ rid e, subagentRuns w !! rid = Some e → cleanupHandled e = Some true →
            ∃ e', subagentRuns w' !! rid = Some e' ∧ cleanupHandled e' = Some true) →
  token_ok w'.
Proof.
  intros Hok Hp Hr rid. destruct (Hok rid) as [Hle Hone]. unfold pending in *.
  rewrite Hp. split; [done|]. intros H1. destruct (Hone H1) as (e & He & Hh). eauto.
Qed.

Lemma token_ok_persist w : token_ok w → token_ok (persistSubagentRuns w).
Proof.
  intros Hok. eapply token_ok_same; [done | apply persist_flows |].
  intros rid e He Hh. rewrite persist_runs. eauto.
Qed.

(** Rewriting a record without touching its [cleanupHandled]. *)
Lemma token_ok_update rid e e' w :
  token_ok w → subagentRuns w !! rid = Some e → cleanupHandled e' = cleanupHandled e →
  token_ok (withRuns (<[rid := e']> (subagentRuns w)) w).
Proof.
  intros Hok He Hh. eapply token_ok_same; [done | done |].
  intros rid' x Hx Hxh. simpl. destruct (decide (rid = rid')) as [<-|Hne].
  - rewrite lookup_insert_eq. exists e'. split; [done|]. congruence.
  - rewrite lookup_insert_ne by done. eauto.
Qed.

Section WithNormalizers.
Context `{Normalizers}.

Lemma token_ok_beginAndLaunch rid entry w :
  token_ok w → token_ok (beginAndLaunch rid entry w).2.
Proof.
  intros Hok. unfold beginAndLaunch.
  destruct (beginSubagentCleanup rid w) as [won w1] eqn:Eb.
  destruct won; simpl.
  - pose proof (proj1 (begin_true rid w)) as Hpre. rewrite Eb in Hpre.
    destruct (Hpre eq_refl) as (e & He & _ & Hnh).
    pose proof (begin_won rid w) as Hwon. rewrite Eb in Hwon.
    destruct (Hwon eq_refl) as (e0 & He0 & Hw1). simpl in Hw1.
    rewrite He in He0. injection He0 as <-.
    assert (pending rid w = 0%nat) as Hzero.
    { destruct (Hok rid) as [Hle Hone].
      destruct (pending rid w) as [|[|n]] eqn:Ep; [done| |lia].
      destruct (Hone eq_refl) as (e' & He' & Hh). congruence. }
    intros rid'. unfold pending. simpl. rewrite List.filter_app, length_app. simpl.
    subst w1. rewrite persist_flows, persist_runs. simpl.
    destruct (String.eqb_spec rid rid') as [<-|Hne]; simpl.
    + fold (pending rid w). rewrite Hzero. split; [lia|]. intros _.
      rewrite lookup_insert_eq. eauto.
    + fold (pending rid' w). rewrite Nat.add_0_r. destruct (Hok rid') as [Hle Hone].
      split; [done|]. intros H1. rewrite lookup_insert_ne by done. by apply Hone.
  - pose proof (begin_lost rid w) as Hl. rewrite Eb in Hl. simpl in Hl.
    by rewrite (Hl eq_refl).
Qed.

Lemma token_ok_lifecycle evt now w : token_ok w → token_ok (onLifecycleEvent evt now w).
Proof.
  intros Hok. unfold onLifecycleEvent.
  destruct (negb (String.eqb (stream evt) "lifecycle")); [done|].
  destruct (subagentRuns w !! evRunId evt) as [entry|] eqn:E; [|done].
  destruct (phase evt) as [| | | |ph| |]; try done.
  destruct (String.eqb ph "start").
  - destruct (evStartedAt evt) as [| | |t| | |]; try done.
    destruct (negb (t =? 0)); [|done].
    by apply token_ok_persist, (token_ok_update _ entry).
  - destruct (negb (String.eqb ph "end") && negb (String.eqb ph "error")); [done|].
    by apply token_ok_beginAndLaunch, token_ok_persist, (token_ok_update _ entry).
Qed.

Lemma token_ok_wait rid wait now w : token_ok w → token_ok (onWaitResolved rid wait now w).
Proof.
  intros Hok. unfold onWaitResolved.
  destruct (negb _ && negb _); [done|].
  destruct (subagentRuns w !! rid) as [entry|] eqn:E; [|done].
  by apply token_ok_beginAndLaunch, token_ok_persist, (token_ok_update _ entry).
Qed.

Lemma token_ok_flows w flows resumed eff :
  token_ok w → flows = pendingFlows w →
  token_ok (mkWorld (subagentRuns w) resumed (fs w) flows eff).
Proof. intros Hok ->. eapply token_ok_same; [done | done | eauto]. Qed.

Lemma token_ok_resume rid t w : token_ok w → token_ok (resumeSubagentRun rid t w).
Proof.
  intros Hok. unfold resumeSubagentRun.
  destruct (str_falsy rid || bool_decide (rid ∈ resumedRuns w)); [done|].
  destruct (subagentRuns w !! rid) as [entry|] eqn:E; [|done].
  destruct (num_truthy (cleanupCompletedAt entry)); [done|].
  destruct (endedAt entry) as [t0|]; [destruct (0 <? t0)|].
  - pose proof (token_ok_beginAndLaunch rid entry w Hok) as Hok'.
    destruct (beginAndLaunch rid entry w) as [won w1]. simpl in Hok'.
    destruct won; [by apply token_ok_flows | done].
  - by apply token_ok_flows.
  - by apply token_ok_flows.
Qed.

Lemma takeFlow_pending rid flows :
  match takeFlow rid flows with
  | Some (c, rest) =>
      ∀ rid', length (List.filter (fun f => String.eqb (fst f) rid') flows)
              = ((if String.eqb rid rid' then 1 else 0)
                 + length (List.filter (fun f => String.eqb (fst f) rid') rest))%nat
  | None => True
  end.
Proof.
  induction flows as [|[r c] flows IH]; simpl; [done|].
  destruct (String.eqb_spec r rid) as [->|Hne].
  - intros rid'. simpl. by destruct (String.eqb rid rid').
  - destruct (takeFlow rid flows) as [[c' rest]|]; [|done].
    intros rid'. simpl. specialize (IH rid').
    destruct (String.eqb r rid'); simpl; lia.
Qed.

Lemma token_ok_flowDone rid did now w : token_ok w → token_ok (onFlowDone rid did now w).
Proof.
  intros Hok. unfold onFlowDone.
  pose proof (takeFlow_pending rid (pendingFlows w)) as Htake.
  destruct (takeFlow rid (pendingFlows w)) as [[c rest]|]; [|done].
  set (w0 := mkWorld _ _ _ rest _).
  assert (∀ rid', pending rid' w
                  = ((if String.eqb rid rid' then 1 else 0) + pending rid' w0)%nat)
    as Hcount by apply Htake.
  assert (pending rid w0 = 0%nat) as Hzero.
  { specialize (Hcount rid). rewrite String.eqb_refl in Hcount.
    destruct (Hok rid) as [Hle _]. lia. }
  assert (∀ w', pendingFlows w' = rest →
                (∀ rid', rid' ≠ rid → subagentRuns w' !! rid' = subagentRuns w !! rid') →
                token_ok w') as Hgen.
  { intros w' Hp Hr rid'. unfold pending. rewrite Hp.
    change (length (List.filter (fun f => String.eqb (fst f) rid') rest))
      with (pending rid' w0).
    destruct (decide (rid' = rid)) as [->|Hne]; [rewrite Hzero; split; [lia | done]|].
    specialize (Hcount rid'). destruct (String.eqb_spec rid rid'); [done|].
    simpl in Hcount. rewrite <- Hcount, (Hr _ Hne). apply Hok. }
  unfold finalizeSubagentCleanup. simpl.
  destruct (subagentRuns w !! rid) as [entry|]; [|by apply Hgen].
  destruct c; [|destruct (negb did)]; apply Hgen;
    rewrite ?persist_flows, ?persist_runs; simpl; try done.
  - intros rid' Hne. by rewrite lookup_delete_ne.
  - intros rid' Hne. by rewrite lookup_insert_ne.
  - intros rid' Hne. by rewrite lookup_insert_ne.
Qed.

Lemma token_ok_run ts w : token_ok w → token_ok (run ts w).
Proof.
  revert w. induction ts as [|[now t] ts IH]; intros w Hok; simpl; [done|].
  apply IH. destruct t; simpl.
  - by apply token_ok_lifecycle.
  - by apply token_ok_wait.
  - by apply token_ok_resume.
  - by apply token_ok_flowDone.
Qed.

(** C1 (amended).  [beginSubagentCleanup(runId)] returns [true] exactly when
    the record exists, its [cleanupCompletedAt] is unset or [0] (the guard
    tests truthiness) and its [cleanupHandled] is not already [true]; a
    successful call stores [cleanupHandled = true] in the record and persists
    before returning, so the next call fails, and so does any later call made
    while the record, if still registered, keeps the flag; hence, however
    lifecycle events, [agent.wait] resolutions, resumes and flow completions
    interleave, at most one announce flow per run is in progress. *)
Theorem cleanup_token_at_most_once :
  (∀ rid w,
     (beginSubagentCleanup rid w).1 = true ↔
     ∃ e, subagentRuns w !! rid = Some e
          ∧ (cleanupCompletedAt e = None ∨ cleanupCompletedAt e = Some 0)
          ∧ cleanupHandled e ≠ Some true)
  ∧ (∀ rid w,
       (beginSubagentCleanup rid w).1 = true →
       (∃ e, subagentRuns w !! rid = Some e
             ∧ (beginSubagentCleanup rid w).2
               = persistSubagentRuns
                   (withRuns (<[rid := setCleanupHandled true e]> (subagentRuns w)) w))
       ∧ (beginSubagentCleanup rid (beginSubagentCleanup rid w).2).1 = false)
  ∧ (∀ rid w,
       (∀ e, subagentRuns w !! rid = Some e → cleanupHandled e = Some true) →
       (beginSubagentCleanup rid w).1 = false)
  ∧ (∀ runs resumed disk ts rid,
       (pending rid (run ts (mkWorld runs resumed disk [] [])) ≤ 1)%nat).
Proof.
  split; [apply begin_true|]. split; [|split].
  - intros rid w Hwon. destruct (begin_won rid w Hwon) as (e & He & Hw).
    split; [eauto|]. rewrite Hw, begin_again; [done|].
    intros e'. rewrite persist_runs. simpl. rewrite lookup_insert_eq. by intros [= <-].
  - intros rid w Hh. by rewrite begin_again.
  - intros runs resumed disk ts rid.
    apply (token_ok_run ts (mkWorld runs resumed disk [] [])).
    intros rid'. unfold pending. simpl. split; [lia | done].
Qed.

End WithNormalizers.

(** C1 as stated fails for a record whose [cleanupCompletedAt] is set to
    [0]: the call still returns [true]. *)
Lemma cleanup_token_zero_timestamp :
  let e := sampleRecord (Some 0) (Some false) in
  subagentRuns (sampleWorld e) !! "run-1" = Some e
  ∧ cleanupCompletedAt e = Some 0
  ∧ cleanupCompletedAt e ≠ None
  ∧ cleanupHandled e = Some false
  ∧ (beginSubagentCleanup "run-1" (sampleWorld e)).1 = true.
Proof.
  simpl. split; [apply lookup_singleton_eq|]. do 3 (split; [done|]).
  unfold beginSubagentCleanup, sampleWorld. simpl. by rewrite lookup_singleton_eq.
Qed.

(** C3 (amended).  On a registered run, [finalizeSubagentCleanup] does one
    of three things, each followed by persisting: with [cleanup = delete] it
    removes the record; otherwise, when the announce failed, it resets the
    record's [cleanupHandled] to [false] and does not touch
    [cleanupCompletedAt], which stays as it was - unset where it was unset,
    and [0] where it was [0]; otherwise it sets [cleanupCompletedAt] to the
    current time.  Other records are not touched, and where the file is
    writable it holds the version-2 envelope of the new map afterwards. *)
Theorem finalize_postconditions (rid : string) (entry : SubagentRunRecord)
    (cleanupArg : Announce.Cleanup) (didAnnounce : bool) (now : Z) (w : World) :
  subagentRuns w !! rid = Some entry →
  let w' := finalizeSubagentCleanup rid cleanupArg didAnnounce now w in
  match cleanupArg, didAnnounce with
  | Announce.Delete, _ => subagentRuns w' !! rid = None
  | Announce.Keep, false =>
      ∃ e', subagentRuns w' !! rid = Some e'
            ∧ e' = setCleanupHandled false entry
            ∧ cleanupHandled e' = Some false
            ∧ cleanupCompletedAt e' = cleanupCompletedAt entry
            ∧ (cleanupCompletedAt entry = None → cleanupCompletedAt e' = None)
  | Announce.Keep, true =>
      ∃ e', subagentRuns w' !! rid = Some e'
            ∧ e' = setCleanupCompletedAt now entry
            ∧ cleanupCompletedAt e' = Some now
            ∧ cleanupHandled e' = cleanupHandled entry
  end
  ∧ (∀ rid', rid' ≠ rid → subagentRuns w' !! rid' = subagentRuns w !! rid')
  ∧ w' = persistSubagentRuns (withRuns (subagentRuns w') w)
  ∧ (writable (fs w) = true →
     file (fs w')
     = jsonClean (JObj [("version", JNum 2);
                        ("runs",
                         JObj (serialized
                                 (map_to_list (encodeRecord <$> subagentRuns w'))))])).
Proof.
  intros He w'. subst w'. unfold finalizeSubagentCleanup. rewrite He.
  destruct cleanupArg; [|destruct didAnnounce]; simpl;
    rewrite ?persist_runs; simpl.
  - split; [apply lookup_delete_eq|]. split; [intros; by rewrite lookup_delete_ne|].
    split; [done|]. intros Hw. by rewrite persist_file.
  - split; [exists (setCleanupCompletedAt now entry); by rewrite lookup_insert_eq|].
    split; [intros; by rewrite lookup_insert_ne|].
    split; [done|]. intros Hw. by rewrite persist_file.
  - split; [exists (setCleanupHandled false entry); by rewrite lookup_insert_eq|].
    split; [intros; by rewrite lookup_insert_ne|].
    split; [done|]. intros Hw. by rewrite persist_file.
Qed.

Lemma finalize_postconditions_witness :
  let entry := sampleRecord None (Some true) in
  let w := sampleWorld entry in
  let w' := finalizeSubagentCleanup "run-1" Announce.Keep false 5000 w in
  (∃ e', subagentRuns w' !! "run-1" = Some e'
         ∧ e' = setCleanupHandled false entry
         ∧ cleanupHandled e' = Some false
         ∧ cleanupCompletedAt e' = cleanupCompletedAt entry
         ∧ (cleanupCompletedAt entry = None → cleanupCompletedAt e' = None))
  ∧ (∀ rid', rid' ≠ "run-1" → subagentRuns w' !! rid' = subagentRuns w !! rid')
  ∧ w' = persistSubagentRuns (withRuns (subagentRuns w') w)
  ∧ (writable (fs w) = true →
     file (fs w')
     = jsonClean (JObj [("version", JNum 2);
                        ("runs",
                         JObj (serialized
                                 (map_to_list (encodeRecord <$> subagentRuns w'))))])).
Proof.
  apply (finalize_postconditions "run-1" (sampleRecord None (Some true)) Announce.Keep
           false 5000 (sampleWorld (sampleRecord None (Some true)))).
  apply lookup_singleton_eq.
Defined.

(** C3 as stated fails for a record whose [cleanupCompletedAt] is [0]:
    [beginSubagentCleanup] hands out the token for it, and after the failed
    announce its [cleanupHandled] is [false] again while [cleanupCompletedAt]
    is still [0], not unset. *)
Lemma finalize_keeps_zero_timestamp :
  let e := sampleRecord (Some 0) (Some false) in
  let w := (beginSubagentCleanup "run-1" (sampleWorld e)).2 in
  let w' := finalizeSubagentCleanup "run-1" Announce.Keep false 5000 w in
  (beginSubagentCleanup "run-1" (sampleWorld e)).1 = true
  ∧ subagentRuns w !! "run-1" = Some (setCleanupHandled true e)
  ∧ subagentRuns w' !! "run-1" = Some (setCleanupHandled false e)
  ∧ cleanupCompletedAt (setCleanupHandled false e) = Some 0
  ∧ cleanupCompletedAt (setCleanupHandled false e) ≠ None.
Proof.
  cbv zeta.
  assert (beginSubagentCleanup "run-1" (sampleWorld (sampleRecord (Some 0) (Some false)))
          = (true,
             persistSubagentRuns
               (withRuns (<["run-1" := setCleanupHandled true
                                         (sampleRecord (Some 0) (Some false))]>
                            (subagentRuns
                               (sampleWorld (sampleRecord (Some 0) (Some false)))))
                  (sampleWorld (sampleRecord (Some 0) (Some false)))))) as ->.
  { unfold beginSubagentCleanup, sampleWorld. simpl. by rewrite lookup_singleton_eq. }
  cbn [fst snd]. split; [done|].
  unfold finalizeSubagentCleanup.
  rewrite !persist_runs. cbn [subagentRuns withRuns]. rewrite lookup_insert_eq.
  split; [done|]. cbn [negb]. rewrite !persist_runs. cbn [subagentRuns withRuns].
  rewrite lookup_insert_eq. by repeat split.
Qed.

End RegistryProofs.

(* ===================================================================== *)
(** ** Registry store: migration of version-1 files                       *)
(* ===================================================================== *)

Module StoreProofs.
Import Js LanesProofs DeliveryContext Store.

Lemma mapGet_rest_legacy (fields : list (string * JsVal)) k :
  existsb (String.eqb k) legacyKeys = true →
  mapGet k
    (List.filter (fun kv => negb (existsb (String.eqb (fst kv)) legacyKeys)) fields)
  = None.
Proof.
  intros Hk. induction fields as [|[k0 v0] fields IH]; [done|].
  cbn [List.filter fst]. destruct (existsb (String.eqb k0) legacyKeys) eqn:E0; simpl.
  - done.
  - destruct (String.eqb_spec k0 k) as [->|Hne]; [congruence | done].
Qed.

Section WithNormalizers.
Context `{Normalizers}.

(** The three properties the loop sets, read back from the migrated record. *)
Lemma migrateRecord_fields isLegacy typed :
  ∃ fields,
    migrateRecord isLegacy typed = JObj fields
    ∧ mapGet "cleanupCompletedAt" fields
      = Some match getField typed "cleanupCompletedAt" with
             | JNum n => JNum n
             | _ => match getField typed "announceCompletedAt" with
                    | JNum n => if isLegacy then JNum n else JUndefined
                    | _ => JUndefined
                    end
             end
    ∧ mapGet "cleanupHandled" fields
      = Some match getField typed "cleanupHandled" with
             | JBool b => JBool b
             | _ =>
                 if isLegacy then
                   JBool (truthy
                            (coalesce (getField typed "announceHandled")
                               (default JUndefined (mapGet "cleanupCompletedAt" fields))))
                 else JUndefined
             end
    ∧ mapGet "requesterOrigin" fields
      = Some (normalizeDeliveryContext
                (coalesce (getField typed "requesterOrigin")
                   (JObj [("channel",
                           match getField typed "requesterChannel" with
                           | JStr c => JStr c
                           | _ => JUndefined
                           end);
                          ("accountId",
                           match getField typed "requesterAccountId" with
                           | JStr a => JStr a
                           | _ => JUndefined
                           end)])))
    ∧ (∀ k, existsb (String.eqb k) legacyKeys = true → mapGet k fields = None).
Proof.
  unfold migrateRecord. eexists. split; [done|].
  rewrite !mapGet_mapSet. simpl String.eqb. cbv iota.
  split; [done|]. split; [done|]. split; [done|].
  intros k Hk. rewrite !mapGet_mapSet.
  assert (k = "announceCompletedAt" ∨ k = "announceHandled" ∨ k = "requesterChannel"
          ∨ k = "requesterAccountId") as Hcases.
  { simpl in Hk. repeat (apply orb_prop in Hk as [Hk|Hk]);
      try (apply String.eqb_eq in Hk; subst; tauto). done. }
  destruct typed; simpl; try (by destruct Hcases as [-> | [-> | [-> | ->]]]).
  destruct Hcases as [-> | [-> | [-> | ->]]]; simpl; by apply mapGet_rest_legacy.
Qed.

Lemma foldl_loadStep isLegacy entries acc :
  NoDup (map fst entries) →
  let res := foldl (loadStep isLegacy) acc entries in
  (∀ rid typed, (rid, typed) ∈ entries → loadable typed = true →
     mapGet rid res.1 = Some (migrateRecord isLegacy typed))
  ∧ (∀ rid, rid ∉ map fst entries → mapGet rid res.1 = mapGet rid acc.1)
  ∧ res.2 = acc.2 || (isLegacy && existsb (fun kv => loadable (snd kv)) entries).
Proof.
  revert acc. induction entries as [|[k v] entries IH]; intros acc Hnd; simpl.
  - split; [intros ? ? Hin; by apply elem_of_nil in Hin|]. split; [done|].
    by rewrite andb_false_r, orb_false_r.
  - apply NoDup_cons in Hnd as [Hk Hnd]. simpl in Hk.
    destruct (IH (loadStep isLegacy acc (k, v)) Hnd) as (IH1 & IH2 & IH3).
    split; [|split].
    + intros rid typed Hin Hl. apply elem_of_cons in Hin as [Heq|Hin];
        [|by apply IH1].
      injection Heq as -> ->. rewrite (IH2 _ Hk). unfold loadStep. simpl. rewrite Hl. simpl.
      apply mapGet_mapSet_eq.
    + intros rid Hnotin. apply not_elem_of_cons in Hnotin as [Hne Hnotin].
      rewrite (IH2 _ Hnotin). unfold loadStep. simpl.
      destruct (loadable v); [|done]. simpl. by rewrite mapGet_mapSet_ne.
    + rewrite IH3. unfold loadStep. simpl.
      destruct (loadable v), isLegacy, (snd acc); simpl; try done.
Qed.

(** A file whose version is neither 1 nor 2 loads as the empty registry
    and is left as it is. *)
Lemma load_unknown_version (disk : Fs) :
  getField (file disk) "version" ≠ JNum 1 →
  getField (file disk) "version" ≠ JNum 2 →
  loadSubagentRegistryFromDisk disk = ([], disk).
Proof.
  intros H1 H2. unfold loadSubagentRegistryFromDisk, loadJsonFile.
  destruct (negb (truthy (file disk)) || negb (typeof_object (file disk))); [done|].
  destruct (getField (file disk) "version") as [| |b|n|s|xs|fs]; try done.
  destruct n as [|n|n]; try done.
  destruct n as [n|n|]; try done; destruct n; done.
Qed.

Lemma foldl_loadStep_none isLegacy entries acc :
  existsb (fun kv => loadable (snd kv)) entries = false →
  foldl (loadStep isLegacy) acc entries = acc.
Proof.
  revert acc. induction entries as [|[k v] entries IH]; intros acc; simpl; [done|].
  intros Hex. apply orb_false_iff in Hex as [Hl Hex].
  rewrite IH by done. unfold loadStep. simpl. by rewrite Hl.
Qed.

(** C7 (amended).  Loading a version-1 registry file yields, for every
    stored entry that is an object with a non-empty string [runId], a record
    in which: [cleanupCompletedAt] is the entry's own numeric
    [cleanupCompletedAt] if it has one and else its [announceCompletedAt]
    when that is a number; [cleanupHandled] is the entry's own boolean
    [cleanupHandled] if it has one and else
    [Boolean(announceHandled ?? cleanupCompletedAt)] with the migrated
    [cleanupCompletedAt]; [requesterOrigin] is the normalised
    [requesterOrigin] of the entry or, when that is absent,
    the normalised context built from [requesterChannel] and
    [requesterAccountId] (where strings); the four legacy properties are
    gone.  When at least one entry was loaded and the file is writable, it
    holds the version-2 envelope of the loaded map afterwards; a version-1
    file with no loadable entry - [runs] missing, no object, empty, or
    holding only entries the loop skips - is returned empty and left as it
    is. *)
Theorem load_v1_migrates (disk : Fs) (root entries : list (string * JsVal)) :
  file disk = JObj root →
  getField (JObj root) "version" = JNum 1 →
  objectEntries (getField (JObj root) "runs") = entries →
  NoDup (map fst entries) →
  (∀ rid typed,
     (rid, typed) ∈ entries → loadable typed = true →
     ∃ fields,
       mapGet rid (loadSubagentRegistryFromDisk disk).1 = Some (JObj fields)
       ∧ mapGet "cleanupCompletedAt" fields
         = Some match getField typed "cleanupCompletedAt" with
                | JNum n => JNum n
                | _ => match getField typed "announceCompletedAt" with
                       | JNum n => JNum n
                       | _ => JUndefined
                       end
                end
       ∧ mapGet "cleanupHandled" fields
         = Some match getField typed "cleanupHandled" with
                | JBool b => JBool b
                | _ =>
                    JBool (truthy
                             (coalesce (getField typed "announceHandled")
                                (default JUndefined
                                   (mapGet "cleanupCompletedAt" fields))))
                end
       ∧ mapGet "requesterOrigin" fields
         = Some (normalizeDeliveryContext
                   (coalesce (getField typed "requesterOrigin")
                      (JObj [("channel",
                              match getField typed "requesterChannel" with
                              | JStr c => JStr c
                              | _ => JUndefined
                              end);
                             ("accountId",
                              match getField typed "requesterAccountId" with
                              | JStr a => JStr a
                              | _ => JUndefined
                              end)])))
       ∧ (∀ k, k ∈ legacyKeys → mapGet k fields = None))
  ∧ (existsb (fun kv => loadable (snd kv)) entries = true →
     writable disk = true →
     file (loadSubagentRegistryFromDisk disk).2
     = jsonClean (JObj [("version", JNum 2);
                        ("runs",
                         JObj (serialized (loadSubagentRegistryFromDisk disk).1))]))
  ∧ (existsb (fun kv => loadable (snd kv)) entries = false →
     loadSubagentRegistryFromDisk disk = ([], disk)).
Proof.
  intros Hfile Hver Hruns Hnd.
  unfold loadSubagentRegistryFromDisk, loadJsonFile. rewrite Hfile.
  cbn [truthy typeof_object negb orb]. rewrite Hver.
  destruct (negb (truthy (getField (JObj root) "runs"))
            || negb (typeof_object (getField (JObj root) "runs"))) eqn:Hguard.
  { assert (entries = []) as ->.
    { rewrite <- Hruns. by destruct (getField (JObj root) "runs"). }
    split; [intros rid typed Hin; by apply elem_of_nil in Hin | done]. }
  rewrite Hruns.
  destruct (foldl_loadStep true entries ([], false) Hnd) as (H1 & _ & H3).
  pose proof (foldl_loadStep_none true entries ([], false)) as Hnone.
  destruct (foldl (loadStep true) ([], false) entries) as [out migrated] eqn:Ef.
  simpl in H1, H3. split; [|split].
  - intros rid typed Hin Hload.
    assert (migrated = true) as ->.
    { rewrite H3. apply existsb_exists. exists (rid, typed).
      split; [by apply list_elem_of_In | done]. }
    destruct (migrateRecord_fields true typed)
      as (fields & Hrec & Hc & Hh & Ho & Hlegacy).
    exists fields.
    assert (mapGet rid out = Some (JObj fields)) as Hout
      by (rewrite <- Hrec; by apply H1).
    assert (∀ k, k ∈ legacyKeys → mapGet k fields = None) as Hgone.
    { intros k Hk. apply Hlegacy, existsb_exists. exists k.
      split; [by apply list_elem_of_In | apply String.eqb_refl]. }
    by destruct (saveSubagentRegistryToDisk out disk).
  - intros Hex Hw. rewrite H3, Hex.
    unfold saveSubagentRegistryToDisk, saveJsonFile. by rewrite Hw.
  - intros Hex. rewrite H3, Hex. specialize (Hnone Hex). by injection Hnone as <- _.
Qed.

End WithNormalizers.

Lemma load_v1_migrates_witness :
  loadSubagentRegistryFromDisk (H := sampleNormalizers) sampleV1Disk
  = ([("run-1",
       JObj [("runId", JStr "run-1"); ("childSessionKey", JStr "agent:main:subagent:1");
             ("requesterOrigin",
              JObj [("channel", JStr "slack"); ("to", JUndefined);
                    ("accountId", JStr "acct")]);
             ("cleanupCompletedAt", JNum 1700); ("cleanupHandled", JBool true)])],
     mkFs (JObj [("version", JNum 2);
                 ("runs",
                  JObj [("run-1",
                         JObj [("runId", JStr "run-1");
                               ("childSessionKey", JStr "agent:main:subagent:1");
                               ("requesterOrigin",
                                JObj [("channel", JStr "slack"); ("accountId", JStr "acct")]);
                               ("cleanupCompletedAt", JNum 1700);
                               ("cleanupHandled", JBool true)])])]) true)
  ∧ (∃ fields,
       mapGet "run-1" (loadSubagentRegistryFromDisk (H := sampleNormalizers) sampleV1Disk).1
       = Some (JObj fields)
       ∧ mapGet "cleanupCompletedAt" fields = Some (JNum 1700)
       ∧ mapGet "cleanupHandled" fields = Some (JBool true))
  ∧ file (loadSubagentRegistryFromDisk (H := sampleNormalizers) sampleV1Disk).2
    = jsonClean
        (JObj [("version", JNum 2);
               ("runs",
                JObj (serialized
                        (loadSubagentRegistryFromDisk (H := sampleNormalizers)
                           sampleV1Disk).1))]).
Proof.
  split; [by vm_compute|].
  destruct (load_v1_migrates (H := sampleNormalizers) sampleV1Disk
              [("version", JNum 1); ("runs", JObj [("run-1", sampleV1Entry)])]
              [("run-1", sampleV1Entry)] eq_refl eq_refl eq_refl
              ltac:(apply NoDup_singleton))
    as (Hentry & Hsaved & _).
  split; [|exact (Hsaved eq_refl eq_refl)].
  destruct (Hentry "run-1" sampleV1Entry
              ltac:(apply list_elem_of_singleton; reflexivity) eq_refl)
    as (fields & Hget & Hc & Hh & _).
  exists fields. split; [exact Hget|]. split; [exact Hc|].
  rewrite Hh, Hc. reflexivity.
Defined.

Lemma load_unknown_version_witness :
  let disk := mkFs (JObj [("version", JNum 3);
                          ("runs", JObj [("run-1", sampleV1Entry)])]) true in
  loadSubagentRegistryFromDisk (H := sampleNormalizers) disk = ([], disk).
Proof.
  exact (load_unknown_version (H := sampleNormalizers)
           (mkFs (JObj [("version", JNum 3);
                        ("runs", JObj [("run-1", sampleV1Entry)])]) true)
           ltac:(discriminate) ltac:(discriminate)).
Defined.

(** C7 as stated fails twice: a version-1 file without runs is returned
    empty and stays a version-1 file on disk, and an entry that already
    carries a numeric [cleanupCompletedAt] keeps it instead of taking
    [announceCompletedAt]. *)
Lemma load_v1_not_always_resaved :
  let emptyV1 := mkFs (JObj [("version", JNum 1); ("runs", JObj [])]) true in
  let mixed :=
    mkFs (JObj [("version", JNum 1);
                ("runs",
                 JObj [("r", JObj [("runId", JStr "r"); ("announceCompletedAt", JNum 5);
                                   ("cleanupCompletedAt", JNum 7)])])]) true in
  loadSubagentRegistryFromDisk (H := sampleNormalizers) emptyV1 = ([], emptyV1)
  ∧ getField (file (loadSubagentRegistryFromDisk (H := sampleNormalizers) emptyV1).2)
             "version" = JNum 1
  ∧ getField
      (default JUndefined
         (mapGet "r" (loadSubagentRegistryFromDisk (H := sampleNormalizers) mixed).1))
      "cleanupCompletedAt" = JNum 7.
Proof. by vm_compute. Qed.

End StoreProofs.

(* ===================================================================== *)
(** ** Announce flow                                                      *)
(* ===================================================================== *)

Module AnnounceProofs.
Import Js DeliveryContext Announce.

Section WithNormalizers.
Context `{Normalizers}.

Lemma finalize_silent params env b e :
  e ∈ finalize params env b → messageOf e = None.
Proof.
  unfold finalize. intros He. apply elem_of_app in He as [He|He].
  - destruct (ostr_truthy (label params)); [|by apply elem_of_nil in He].
    apply elem_of_cons in He as [->|He]; [done|].
    destruct (patchCallOk env); [by apply elem_of_nil in He|].
    by apply list_elem_of_singleton in He as ->.
  - destruct b; [|by apply elem_of_nil in He].
    apply elem_of_cons in He as [->|He]; [done|].
    destruct (deleteCallOk env); [by apply elem_of_nil in He|].
    by apply list_elem_of_singleton in He as ->.
Qed.

Lemma maybeQueue_messages env key msg summary origin e :
  e ∈ (maybeQueueSubagentAnnounce env key msg summary origin).2 →
  messageOf e = Some msg.
Proof.
  unfold maybeQueueSubagentAnnounce.
  destruct (negb (truthy _)); [intros He; by apply elem_of_nil in He|].
  destruct (_ && steerAccepted env);
    [intros He; by apply list_elem_of_singleton in He as ->|].
  destruct (requesterRunActive env && _); simpl.
  - intros He. by apply list_elem_of_singleton in He as ->.
  - intros He. by apply elem_of_nil in He.
Qed.

(** Every message [announce] publishes is the trigger message built from
    the outcome it was given. *)
Lemma announce_messages params env reply0 outcome0 started ended e msg :
  e ∈ (announce params env reply0 outcome0 started ended).2 →
  messageOf e = Some msg →
  msg = joinLines
          (triggerLines (announceTypeNameOf params) (taskLabelOf params)
             (default (mkOutcome Unknown None) outcome0)
             (settleReply params env reply0)
             (statsLine env (childSessionKey params) started ended)).
Proof.
  unfold announce.
  destruct (blank _ && _ && childActiveAtEnd env).
  { intros He Hm. apply finalize_silent in He. congruence. }
  set (text := joinLines _).
  pose proof (maybeQueue_messages env (requesterSessionKey params) text
                (Some (taskLabelOf params))
                (normalizeDeliveryContext (requesterOrigin params))) as Hq.
  destruct (maybeQueueSubagentAnnounce _ _ _ _ _) as [queued qeffects].
  simpl in Hq.
  assert (∀ b, e ∈ qeffects ++ finalize params env b → messageOf e = Some msg →
               msg = text) as Hsimple.
  { intros b He Hm. apply elem_of_app in He as [He|He].
    - apply Hq in He. congruence.
    - apply finalize_silent in He. congruence. }
  destruct queued; simpl; try apply Hsimple.
  destruct (agentCallOk env); simpl; intros He Hm.
  - apply elem_of_app in He as [He|He]; [apply Hq in He; congruence|].
    apply elem_of_cons in He as [->|He]; [simpl in Hm; congruence|].
    apply finalize_silent in He. congruence.
  - apply elem_of_app in He as [He|He]; [apply Hq in He; congruence|].
    apply elem_of_cons in He as [->|He]; [simpl in Hm; congruence|].
    apply elem_of_cons in He as [->|He]; [done|].
    apply finalize_silent in He. congruence.
Qed.

Lemma flow_messages params env e msg :
  e ∈ (runSubagentAnnounceFlow params env).2 →
  messageOf e = Some msg →
  ∃ reply stats,
    msg = joinLines
            (triggerLines (announceTypeNameOf params) (taskLabelOf params)
               (resolvedOutcome params env) reply stats).
Proof.
  unfold runSubagentAnnounceFlow, resolvedOutcome.
  destruct (_ && _ && _ && childActiveAfterSettle env).
  { intros He Hm. apply finalize_silent in He. congruence. }
  destruct (waits params).
  - destruct (agentWait env) as [wait|].
    + destruct (announce _ _ _ _ _ _) as [did effects] eqn:Ea. simpl.
      intros He Hm. apply elem_of_cons in He as [->|He]; [done|].
      eexists _, _. eapply announce_messages; [|done]. by rewrite Ea.
    + simpl. intros He Hm.
      apply elem_of_cons in He as [->|He]; [done|].
      apply elem_of_cons in He as [->|He]; [done|].
      apply finalize_silent in He. congruence.
  - intros He Hm. eexists _, _. by eapply announce_messages.
Qed.

Lemma append_assoc (a b c : string) : (a +:+ b) +:+ c = a +:+ b +:+ c.
Proof. induction a as [|ch a IH]; [done|]. change (String ch ((a +:+ b) +:+ c) = String ch (a +:+ b +:+ c)). by rewrite IH. Qed.

(** The trigger message, character by character up to the end of its first
    line. *)
Lemma trigger_text announceTypeName taskLabel outcome reply stats :
  ∃ rest,
    joinLines (triggerLines announceTypeName taskLabel outcome reply stats)
    = "A " +:+ announceTypeName +:+ " " +:+ dquote +:+ taskLabel +:+ dquote
      +:+ " just " +:+ statusLabel outcome +:+ "." +:+ newline +:+ rest.
Proof.
  unfold triggerLines, headline, joinLines. cbn [app String.concat].
  eexists. rewrite !append_assoc. reflexivity.
Qed.

(** C9 (amended).  Every message the announce flow publishes reads
    [A <type> "<label>" just <phrase>.] on its first line, where the phrase
    is "completed successfully", "timed out", "failed: " followed by the
    error (or "unknown error"), or "finished with unknown status", by the
    status of the outcome the flow resolves.  That outcome is the caller's
    ([unknown] when absent) where the flow does not ask [agent.wait], that
    is where the first-round reply is not empty or [waitForCompletion] is
    [false]; where it asks, a [timeout], [error] or [ok] answer replaces the
    caller's outcome.  So two executions with the same caller's outcome, the
    same decision to ask and, where they ask, the same status and error in
    the answer, publish the same phrase, whatever the replies read back,
    statistics, session states and delivery results are: the first-round
    reply counts only through being empty or not. *)
Theorem status_label_from_outcome_only (p1 p2 : Params) (env1 env2 : Env)
    (e1 e2 : Effect) (m1 m2 : string) :
  let asks (p : Params) :=
    negb (ostr_truthy (roundOneReply p))
    && negb (bool_decide (waitForCompletion p = Some false)) in
  e1 ∈ (runSubagentAnnounceFlow p1 env1).2 → messageOf e1 = Some m1 →
  e2 ∈ (runSubagentAnnounceFlow p2 env2).2 → messageOf e2 = Some m2 →
  outcome p1 = outcome p2 →
  asks p1 = asks p2 →
  (asks p1 = true →
   (waitStatus <$> agentWait env1) = (waitStatus <$> agentWait env2)
   ∧ (waitError <$> agentWait env1) = (waitError <$> agentWait env2)) →
  ∃ o phrase rest1 rest2,
    (if asks p1 then
       ∃ wait, agentWait env1 = Some wait
               ∧ o = default (mkOutcome Unknown None)
                       (match waitStatus wait with
                        | Some st =>
                            if String.eqb st "timeout" then Some (mkOutcome Timeout None)
                            else if String.eqb st "error"
                                 then Some (mkOutcome Error (waitError wait))
                            else if String.eqb st "ok" then Some (mkOutcome Ok None)
                            else outcome p1
                        | None => outcome p1
                        end)
     else o = default (mkOutcome Unknown None) (outcome p1))
    ∧ phrase
      = match status o with
        | Ok => "completed successfully"
        | Timeout => "timed out"
        | Error =>
            "failed: " +:+ match error o with
                           | Some err => if str_falsy err then "unknown error" else err
                           | None => "unknown error"
                           end
        | Unknown => "finished with unknown status"
        end
    ∧ m1 = "A " +:+ announceTypeNameOf p1 +:+ " " +:+ dquote +:+ taskLabelOf p1
           +:+ dquote +:+ " just " +:+ phrase +:+ "." +:+ newline +:+ rest1
    ∧ m2 = "A " +:+ announceTypeNameOf p2 +:+ " " +:+ dquote +:+ taskLabelOf p2
           +:+ dquote +:+ " just " +:+ phrase +:+ "." +:+ newline +:+ rest2.
Proof.
  intros asks. change asks with waits. clear asks.
  intros He1 Hm1 He2 Hm2 Hout Hwaits Hanswer.
  assert (resolvedOutcome p1 env1 = resolvedOutcome p2 env2) as Hsame.
  { unfold resolvedOutcome. rewrite <- Hwaits, <- Hout.
    destruct (waits p1); [|done]. destruct Hanswer as [Hst Herr]; [done|].
    destruct (agentWait env1) as [w1|], (agentWait env2) as [w2|];
      simpl in Hst, Herr; try done.
    unfold outcomeAfterWait. injection Hst as ->. by injection Herr as ->. }
  assert (if waits p1 then
            ∃ wait, agentWait env1 = Some wait
                    ∧ resolvedOutcome p1 env1
                      = default (mkOutcome Unknown None)
                          (outcomeAfterWait wait (outcome p1))
          else resolvedOutcome p1 env1 = default (mkOutcome Unknown None) (outcome p1))
    as Hwhich.
  { revert He1 Hm1. unfold runSubagentAnnounceFlow, resolvedOutcome.
    destruct (_ && _ && _ && childActiveAfterSettle env1).
    { intros He Hm. apply finalize_silent in He. congruence. }
    destruct (waits p1); [|done].
    destruct (agentWait env1) as [wait|]; [by eexists|].
    simpl. intros He Hm.
    apply elem_of_cons in He as [->|He]; [done|].
    apply elem_of_cons in He as [->|He]; [done|].
    apply finalize_silent in He. congruence. }
  destruct (flow_messages p1 env1 e1 m1 He1 Hm1) as (r1 & s1 & ->).
  destruct (flow_messages p2 env2 e2 m2 He2 Hm2) as (r2 & s2 & ->).
  rewrite <- Hsame.
  destruct (trigger_text (announceTypeNameOf p1) (taskLabelOf p1)
              (resolvedOutcome p1 env1) r1 s1) as [rest1 ->].
  destruct (trigger_text (announceTypeNameOf p2) (taskLabelOf p2)
              (resolvedOutcome p1 env1) r2 s2) as [rest2 ->].
  exists (resolvedOutcome p1 env1), (statusLabel (resolvedOutcome p1 env1)), rest1, rest2.
  split; [|split; [|done]].
  - destruct (waits p1); [|done]. destruct Hwhich as (wait & Hw & Ho). by exists wait.
  - unfold statusLabel. destruct (status (resolvedOutcome p1 env1)); try done.
    by destruct (error (resolvedOutcome p1 env1)) as [[|c err]|].
Qed.

(** The registry calls the flow with [waitForCompletion = false]: there the
    outcome is the one handed in, whatever the environment answers. *)
Lemma resolvedOutcome_no_wait params env :
  waitForCompletion params = Some false →
  resolvedOutcome params env = default (mkOutcome Unknown None) (outcome params).
Proof.
  intros Hw. unfold resolvedOutcome, waits. rewrite Hw.
  rewrite bool_decide_eq_true_2 by done. by rewrite andb_false_r.
Qed.



(** C4 (amended).  In [collect] mode, for a requester session that has a
    session id, the completion message is enqueued exactly when the
    requester's run is active at that moment; when it is not,
    [maybeQueueSubagentAnnounce] returns "none" and enqueues nothing. *)
Theorem collect_mode_queues_while_active (env : Env) (key text : string)
    (summary : option string) (origin : JsVal) :
  let entry := loadRequesterSessionEntry env key in
  truthy (getField entry "sessionId") = true →
  queueMode env (coalesce (getField entry "channel") (getField entry "lastChannel")) entry
  = "collect" →
  maybeQueueSubagentAnnounce env key text summary origin
  = if requesterRunActive env then
      (QQueued,
       [EnqueueAnnounce (resolveRequesterStoreKey env key)
          (mkItem text summary (now env) (resolveRequesterStoreKey env key)
             (resolveAnnounceOrigin entry origin))
          "collect"])
    else (QNone, []).
Proof.
  intros entry Hid Hmode. unfold maybeQueueSubagentAnnounce.
  fold entry. rewrite Hid, Hmode. simpl. by destruct (requesterRunActive env).
Qed.

End WithNormalizers.

Lemma collect_mode_queues_while_active_witness :
  maybeQueueSubagentAnnounce (H := Store.sampleNormalizers)
    (sampleEnv true "done") "main" "text" (Some "foo") JUndefined
  = (QQueued,
     [EnqueueAnnounce "agent:main:main"
        (mkItem "text" (Some "foo") 42 "agent:main:main"
           (resolveAnnounceOrigin (H := Store.sampleNormalizers)
              (loadRequesterSessionEntry (sampleEnv true "done") "main") JUndefined))
        "collect"]).
Proof.
  exact (collect_mode_queues_while_active (H := Store.sampleNormalizers)
           (sampleEnv true "done") "main" "text" (Some "foo") JUndefined
           eq_refl eq_refl).
Defined.

(** C4 as stated fails when the requester's run is idle: nothing is
    enqueued and the answer is "none". *)
Lemma collect_mode_idle_not_queued :
  let env := sampleEnv false "done" in
  truthy (getField (loadRequesterSessionEntry env "main") "sessionId") = true
  ∧ queueMode env JUndefined JUndefined = "collect"
  ∧ maybeQueueSubagentAnnounce (H := Store.sampleNormalizers) env "main" "text"
      (Some "foo") JUndefined
    = (QNone, []).
Proof. by vm_compute. Qed.


(** The same run, effect by effect: the gateway's [agent] method is called
    with [deliver = true] for the requester session, then the child's label
    is patched. *)
Example announce_skip_trace :
  runSubagentAnnounceFlow (H := Store.sampleNormalizers) sampleParams
    (sampleEnv false "ANNOUNCE_SKIP")
  = (true,
     [GatewayAgent "main"
        (joinLines (triggerLines "subagent task" "foo" (mkOutcome Ok None)
                      (Some "ANNOUNCE_SKIP") "Stats: runtime n/a"))
        (JStr "slack") JUndefined JUndefined JUndefined;
      GatewaySessionsPatch "agent:main:subagent:1" "foo"]).
Proof. by vm_compute. Qed.

Lemma status_label_from_outcome_only_witness :
  let p2 := mkParams "agent:main:subagent:2" "run-2" "main" JUndefined "main" "other task"
              30000 Keep (Some "success") (Some false) None None None
              (Some (mkOutcome Error (Some "boom"))) None in
  let p1 := mkParams "agent:main:subagent:1" "run-1" "main" JUndefined "main" "summarise foo"
              30000 Keep None (Some false) (Some 1000) (Some 2000) (Some "foo")
              (Some (mkOutcome Error (Some "boom"))) None in
  let m1 := joinLines (triggerLines "subagent task" "foo" (mkOutcome Error (Some "boom"))
                         (Some "it went well") "Stats: runtime n/a") in
  let m2 := joinLines (triggerLines "subagent task" "other task"
                         (mkOutcome Error (Some "boom"))
                         (Some "success") "Stats: runtime n/a") in
  ∃ o phrase rest1 rest2,
    o = mkOutcome Error (Some "boom")
    ∧ phrase = "failed: boom"
    ∧ m1 = "A subagent task " +:+ dquote +:+ "foo" +:+ dquote
           +:+ " just " +:+ phrase +:+ "." +:+ newline +:+ rest1
    ∧ m2 = "A subagent task " +:+ dquote +:+ "other task" +:+ dquote
           +:+ " just " +:+ phrase +:+ "." +:+ newline +:+ rest2.
Proof.
  cbv zeta.
  destruct (status_label_from_outcome_only (H := Store.sampleNormalizers)
           (mkParams "agent:main:subagent:1" "run-1" "main" JUndefined "main"
              "summarise foo" 30000 Keep None (Some false) (Some 1000) (Some 2000)
              (Some "foo") (Some (mkOutcome Error (Some "boom"))) None)
           (mkParams "agent:main:subagent:2" "run-2" "main" JUndefined "main" "other task"
              30000 Keep (Some "success") (Some false) None None None
              (Some (mkOutcome Error (Some "boom"))) None)
           (sampleEnv false "it went well") (sampleEnv false "ignored")
           (GatewayAgent "main"
              (joinLines (triggerLines "subagent task" "foo"
                            (mkOutcome Error (Some "boom"))
                            (Some "it went well") "Stats: runtime n/a"))
              (JStr "slack") JUndefined JUndefined JUndefined)
           (GatewayAgent "main"
              (joinLines (triggerLines "subagent task" "other task"
                            (mkOutcome Error (Some "boom"))
                            (Some "success") "Stats: runtime n/a"))
              (JStr "slack") JUndefined JUndefined JUndefined)
           _ _
           ltac:(vm_compute; by left) eq_refl ltac:(vm_compute; by left) eq_refl
           eq_refl eq_refl ltac:(discriminate))
    as (o & phrase & rest1 & rest2 & Ho & Hphrase & Hm1 & Hm2).
  simpl in Ho. rewrite Ho in Hphrase. simpl in Hphrase.
  exists o, phrase, rest1, rest2. repeat split; [exact Ho|exact Hphrase|exact Hm1|exact Hm2].
Defined.

(** C9 as stated fails where the flow may ask [agent.wait]: two executions
    that carry the same outcome [ok] in the same environment, and differ only
    in the child's first-round reply, publish different status phrases.  With
    the reply "all good" the flow does not ask and reports "completed
    successfully"; with an empty reply it asks, the gateway answers
    [timeout], and it reports "timed out". *)
Lemma status_phrase_depends_on_reply :
  let env := sampleWaitEnv (mkWait (Some "timeout") None None None) "late answer" in
  let rest reply :=
    joinLines (["";
                "Findings:";
                reply;
                "";
                "Stats: runtime n/a";
                ""] ++ instructionLines) in
  outcome (sampleCall (Some "all good")) = outcome (sampleCall (Some ""))
  ∧ runSubagentAnnounceFlow (H := Store.sampleNormalizers) (sampleCall (Some "all good")) env
    = (true,
       [GatewayAgent "main"
          ("A subagent task " +:+ dquote +:+ "foo" +:+ dquote
           +:+ " just completed successfully." +:+ newline +:+ rest "all good")
          (JStr "slack") JUndefined JUndefined JUndefined;
        GatewaySessionsPatch "agent:main:subagent:1" "foo"])
  ∧ runSubagentAnnounceFlow (H := Store.sampleNormalizers) (sampleCall (Some "")) env
    = (true,
       [GatewayAgentWait "run-1" 30000;
        GatewayAgent "main"
          ("A subagent task " +:+ dquote +:+ "foo" +:+ dquote
           +:+ " just timed out." +:+ newline +:+ rest "late answer")
          (JStr "slack") JUndefined JUndefined JUndefined;
        GatewaySessionsPatch "agent:main:subagent:1" "foo"]).
Proof. by vm_compute. Qed.

End AnnounceProofs.

(* ===================================================================== *)
(** ** Lane queue with an active counter: clearing a lane                 *)
(* ===================================================================== *)

Module CommandQueueProofs.
Import Js Lanes LanesProofs CommandQueue.

Lemma queued_mapSet_None k v ls :
  mapGet k ls = None → queued (mapSet k v ls) = queued ls ++ map promise (queue v).
Proof.
  unfold queued. induction ls as [|[k0 v0] ls IH]; simpl.
  - intros _. by rewrite app_nil_r.
  - destruct (String.eqb k0 k); [done|]. intros Hn. simpl.
    by rewrite IH, app_assoc.
Qed.

Lemma queued_mapSet_Some k v st ls :
  mapGet k ls = Some st →
  ∃ l1 l2, queued ls = l1 ++ map promise (queue st) ++ l2
           ∧ queued (mapSet k v ls) = l1 ++ map promise (queue v) ++ l2.
Proof.
  unfold queued. induction ls as [|[k0 v0] ls IH]; simpl; [done|].
  destruct (String.eqb k0 k).
  - intros [= ->]. by exists [], (concat (map (fun kv => map promise (queue (snd kv))) ls)).
  - intros Hg. destruct (IH Hg) as (l1 & l2 & E1 & E2). simpl.
    exists (map promise (queue v0) ++ l1), l2. rewrite E1, E2.
    by rewrite <- !app_assoc.
Qed.

Lemma queued_mapSet_same k v st ls :
  mapGet k ls = Some st → queue v = queue st → queued (mapSet k v ls) = queued ls.
Proof.
  intros Hg Hq. destruct (queued_mapSet_Some k v st ls Hg) as (l1 & l2 & -> & ->).
  by rewrite Hq.
Qed.

Lemma getLaneState_stored name ls :
  mapGet name (getLaneState name ls).2 = Some (getLaneState name ls).1
  ∧ queued (getLaneState name ls).2 = queued ls.
Proof.
  unfold getLaneState. destruct (mapGet name ls) as [st|] eqn:E; simpl; [done|].
  split; [apply mapGet_mapSet_eq|]. rewrite queued_mapSet_None by done.
  apply app_nil_r.
Qed.

(** The loop only moves entries from the head of the queue to the started
    tasks, and settles nothing. *)
Lemma pumpLoop_moves name now maxC q act :
  q = map entry (pumpLoop name now maxC q act).1.2 ++ (pumpLoop name now maxC q act).1.1.1
  ∧ ∀ p e, e ∈ (pumpLoop name now maxC q act).2 → settles p e = false.
Proof.
  revert act. induction q as [|e0 q IH]; intros act; simpl.
  - split; [done|]. intros p e He. by apply elem_of_nil in He.
  - destruct (act <? maxC); simpl.
    + specialize (IH (act + 1)).
      destruct (pumpLoop name now maxC q (act + 1)) as [[res rs] es]. simpl in *.
      destruct IH as [Hq Hes]. split; [by rewrite <- Hq|].
      intros p e He. apply elem_of_app in He as [He|He].
      * unfold waitEffects in He. destruct (_ <=? _); [|by apply elem_of_nil in He].
        apply elem_of_app in He as [He|He].
        -- destruct (onWait e0); [|by apply elem_of_nil in He].
           by apply list_elem_of_singleton in He as ->.
        -- by apply list_elem_of_singleton in He as ->.
      * apply elem_of_cons in He as [->|He]; [done|].
        apply elem_of_cons in He as [->|He]; [done|]. by apply Hes.
    + split; [done|]. intros p e He. by apply elem_of_nil in He.
Qed.

Lemma quiet_refl s : quiet s s.
Proof.
  split; [done|]. split; [done|]. exists []. split; [by rewrite app_nil_r|].
  intros p e He. by apply elem_of_nil in He.
Qed.

Lemma quiet_trans s1 s2 s3 : quiet s1 s2 → quiet s2 s3 → quiet s1 s3.
Proof.
  intros (Hh & Hn & es & Ht & Hq) (Hh' & Hn' & es' & Ht' & Hq').
  split; [by etrans|]. split; [congruence|]. exists (es ++ es').
  split; [by rewrite Ht', Ht, app_assoc|].
  intros p e He. apply elem_of_app in He as [He|He]; eauto.
Qed.

Lemma pump_quiet name now st st0 s :
  mapGet name (lanes s) = Some st0 → queue st0 = queue st →
  quiet s (pump name now st s).
Proof.
  intros Hg Hq. unfold pump.
  destruct (pumpLoop_moves name now (maxConcurrent st) (queue st) (active st))
    as [Hmove Hes].
  destruct (pumpLoop _ _ _ _ _) as [[[q' act'] rs] es]. simpl in *.
  split; [|split; [done|by exists es]].
  unfold held. simpl.
  destruct (queued_mapSet_Some name
              (mkLane (lane st) q' act' (maxConcurrent st) false) st0 (lanes s) Hg)
    as (l1 & l2 & -> & ->). simpl.
  rewrite Hq, Hmove, !map_app, map_map, <- !app_assoc.
  apply Permutation_app_head.
  rewrite (Permutation_app_comm (map (fun r => promise (entry r)) rs)).
  by rewrite <- !app_assoc.
Qed.

Lemma withLanes_quiet ls s : queued ls = queued (lanes s) → quiet s (withLanes ls s).
Proof.
  intros Hq. split; [unfold held; simpl; by rewrite Hq|]. split; [done|].
  exists []. split; [simpl; by rewrite app_nil_r|].
  intros p e He. by apply elem_of_nil in He.
Qed.

Lemma drainLane_quiet name now s : quiet s (drainLane name now s).
Proof.
  unfold drainLane.
  destruct (getLaneState_stored name (lanes s)) as [Hst Hq].
  destruct (getLaneState name (lanes s)) as [st ls]. simpl in *.
  pose proof (withLanes_quiet ls s Hq) as H0.
  destruct (draining st); [done|].
  eapply quiet_trans; [exact H0|]. by eapply pump_quiet.
Qed.

Lemma setCommandLaneConcurrency_quiet l maxC now s :
  quiet s (setCommandLaneConcurrency l maxC now s).
Proof.
  unfold setCommandLaneConcurrency.
  destruct (getLaneState_stored (cleanLane l) (lanes s)) as [Hst Hq].
  destruct (getLaneState (cleanLane l) (lanes s)) as [st ls]. simpl in *.
  eapply quiet_trans; [|apply drainLane_quiet].
  apply withLanes_quiet. rewrite <- Hq. by eapply queued_mapSet_same.
Qed.


Lemma enqueueCommandInLane_held l w cb now s :
  held (enqueueCommandInLane l w cb now s).2 ≡ₚ nextPromise s :: held s
  ∧ nextPromise (enqueueCommandInLane l w cb now s).2 = S (nextPromise s)
  ∧ ∃ es, trace (enqueueCommandInLane l w cb now s).2 = trace s ++ es
          ∧ ∀ p e, e ∈ es → settles p e = false.
Proof.
  unfold enqueueCommandInLane.
  destruct (getLaneState_stored (cleanLane l) (lanes s)) as [Hst Hq].
  destruct (getLaneState (cleanLane l) (lanes s)) as [st ls]. simpl in *.
  match goal with |- context [drainLane _ _ ?s1] => set (pushed := s1) end.
  destruct (drainLane_quiet (cleanLane l) now pushed) as (Hh & Hn & es & Ht & Hes).
  split; [|split; [by rewrite Hn|]].
  - rewrite Hh. unfold held, pushed. simpl.
    destruct (queued_mapSet_Some (cleanLane l)
                (mkLane (lane st) (queue st ++ [mkEntry (nextPromise s) now (default 2000 w) cb])
                   (active st) (maxConcurrent st) (draining st)) st ls Hst)
      as (l1 & l2 & E1 & ->). simpl.
    rewrite <- Hq, E1, map_app, <- !app_assoc. simpl.
    by do 2 rewrite <- Permutation_middle.
  - exists (LogLaneEnqueue (cleanLane l)
              (Z.of_nat (length (queue st ++ [mkEntry (nextPromise s) now (default 2000 w) cb]))
               + active st) :: es).
    split; [rewrite Ht; unfold pushed; simpl; by rewrite <- app_assoc|].
    intros p e He. apply elem_of_cons in He as [->|He]; [done | by apply Hes].
Qed.

Lemma clearCommandLane_held l s st :
  mapGet (cleanLane l) (lanes s) = Some st →
  held s ≡ₚ map promise (queue st) ++ held (clearCommandLane l s).2
  ∧ nextPromise (clearCommandLane l s).2 = nextPromise s
  ∧ trace (clearCommandLane l s).2 = trace s.
Proof.
  intros Hg. unfold clearCommandLane. rewrite Hg. simpl.
  split; [|done]. unfold held. simpl.
  destruct (queued_mapSet_Some (cleanLane l)
              (mkLane (lane st) [] (active st) (maxConcurrent st) (draining st))
              st (lanes s) Hg) as (l1 & l2 & -> & ->). simpl.
  rewrite <- !app_assoc. apply Permutation_app_swap_app.
Qed.

Lemma takeRunning_removes p rs r rest :
  takeRunning p rs = Some (r, rest) → promise (entry r) = p ∧ rs ≡ₚ r :: rest.
Proof.
  revert r rest. induction rs as [|r0 rs IH]; intros r rest; simpl; [done|].
  destruct (Nat.eqb_spec (promise (entry r0)) p) as [Hp|Hp].
  - by intros [= <- <-].
  - destruct (takeRunning p rs) as [[r' rest']|]; [|done].
    intros [= <- <-]. destruct (IH r' rest' eq_refl) as [Hr Hperm].
    split; [done|]. rewrite Hperm. apply perm_swap.
Qed.

Lemma emit_trace es s : trace (emit es s) = trace s ++ es.
Proof. done. Qed.

(** The completion of a started task settles that task's promise and no
    other, and the module lets go of its handle. *)
Lemma taskSettles_held p out now s :
  taskSettles p out now s = s
  ∨ held s ≡ₚ p :: held (taskSettles p out now s)
    ∧ nextPromise (taskSettles p out now s) = nextPromise s
    ∧ ∃ es, trace (taskSettles p out now s) = trace s ++ es
            ∧ ∀ q e, e ∈ es → settles q e = true → q = p.
Proof.
  unfold taskSettles.
  destruct (takeRunning p (inflight s)) as [[r rest]|] eqn:Et; [|by left].
  destruct (mapGet (runLane r) (lanes s)) as [st|] eqn:Eg; [|by left].
  right. apply takeRunning_removes in Et as [Hp Hperm].
  set (st1 := mkLane (lane st) (queue st) (active st - 1) (maxConcurrent st) (draining st)).
  set (s1 := mkState (mapSet (runLane r) st1 (lanes s)) (nextPromise s) rest (trace s)).
  assert (held s ≡ₚ p :: held s1) as Hs1.
  { unfold held, s1. simpl. rewrite (queued_mapSet_same _ st1 st) by done.
    rewrite Hperm. simpl. rewrite Hp. by rewrite <- Permutation_middle. }
  assert (∀ es0, (∀ q e, e ∈ es0 → settles q e = false) →
            quiet s1 (pump (runLane r) now st1 (emit es0 s1))) as Hpump.
  { intros es0 Hes0. apply (quiet_trans _ (emit es0 s1)).
    - split; [done|]. split; [done|]. by exists es0.
    - eapply (pump_quiet _ _ st1 st1); [apply mapGet_mapSet_eq | done]. }
  destruct out as [value|err].
  - destruct (Hpump [DiagDebug (runLane r) (now - startTime r) (active st1)
                       (length (queue st1))]) as (Hh & Hn & es & Ht & Hes).
    { intros q e He. by apply list_elem_of_singleton in He as ->. }
    split; [by rewrite Hs1, <- Hh|]. split; [done|].
    exists (es ++ [Resolve (promise (entry r)) value]).
    split; [rewrite emit_trace, Ht; by rewrite <- app_assoc|].
    intros q e He Hq. apply elem_of_app in He as [He|He];
      [by rewrite (Hes q e He) in Hq|].
    apply list_elem_of_singleton in He as ->. simpl in Hq.
    apply Nat.eqb_eq in Hq. congruence.
  - destruct (Hpump (if isProbeLane (runLane r) then []
                     else [DiagError (runLane r) (now - startTime r) err]))
      as (Hh & Hn & es & Ht & Hes).
    { intros q e He. destruct (isProbeLane (runLane r)); [by apply elem_of_nil in He|].
      by apply list_elem_of_singleton in He as ->. }
    split; [by rewrite Hs1, <- Hh|]. split; [done|].
    exists (es ++ [Reject (promise (entry r)) (TaskThrew err)]).
    split; [rewrite emit_trace, Ht; by rewrite <- app_assoc|].
    intros q e He Hq. apply elem_of_app in He as [He|He];
      [by rewrite (Hes q e He) in Hq|].
    apply list_elem_of_singleton in He as ->. simpl in Hq.
    apply Nat.eqb_eq in Hq. congruence.
Qed.

(** One step, as far as promise handles go: it may hand out the next
    handle ([fresh]) and let go of some ([gone]); whatever it settles, it
    lets go of. *)
Lemma step_held s c :
  ∃ fresh gone es,
    fresh ++ held s ≡ₚ gone ++ held (step s c)
    ∧ (fresh = [] ∧ nextPromise (step s c) = nextPromise s
       ∨ fresh = [nextPromise s] ∧ nextPromise (step s c) = S (nextPromise s))
    ∧ trace (step s c) = trace s ++ es
    ∧ ∀ q e, e ∈ es → settles q e = true → q ∈ gone.
Proof.
  destruct c as [now [l w cb|w cb|l maxC|l|p out]]; unfold step; simpl.
  - destruct (enqueueCommandInLane_held l w cb now s) as (Hh & Hn & es & Ht & Hes).
    exists [nextPromise s], [], es. simpl. rewrite Hh. split; [done|].
    split; [by right|]. split; [done|]. intros q e He Hq. by rewrite (Hes q e He) in Hq.
  - destruct (enqueueCommandInLane_held CommandLane_Main w cb now s)
      as (Hh & Hn & es & Ht & Hes).
    exists [nextPromise s], [], es. unfold enqueueCommand. simpl. rewrite Hh.
    split; [done|]. split; [by right|]. split; [done|].
    intros q e He Hq. by rewrite (Hes q e He) in Hq.
  - destruct (setCommandLaneConcurrency_quiet l maxC now s) as (Hh & Hn & es & Ht & Hes).
    exists [], [], es. simpl. rewrite Hh. split; [done|]. split; [by left|].
    split; [done|]. intros q e He Hq. by rewrite (Hes q e He) in Hq.
  - destruct (mapGet (cleanLane l) (lanes s)) as [st|] eqn:Eg.
    + destruct (clearCommandLane_held l s st Eg) as (Hh & Hn & Ht).
      exists [], (map promise (queue st)), []. simpl. rewrite <- Hh.
      split; [done|]. split; [by left|]. split; [by rewrite Ht, app_nil_r|].
      intros q e He. by apply elem_of_nil in He.
    + unfold clearCommandLane. rewrite Eg. simpl.
      exists [], [], []. simpl. split; [done|]. split; [by left|].
      split; [by rewrite app_nil_r|]. intros q e He. by apply elem_of_nil in He.
  - destruct (taskSettles_held p out now s) as [->|(Hh & Hn & es & Ht & Hes)].
    + exists [], [], []. simpl. split; [done|]. split; [by left|].
      split; [by rewrite app_nil_r|]. intros q e He. by apply elem_of_nil in He.
    + exists [], [p], es. simpl. rewrite <- Hh. split; [done|]. split; [by left|].
      split; [done|]. intros q e He Hq. apply list_elem_of_singleton. eauto.
Qed.

Lemma step_held_ok s c : held_ok s → held_ok (step s c).
Proof.
  intros [Hnd Hlt]. destruct (step_held s c) as (fresh & gone & es & Hp & Hf & _).
  assert (NoDup (fresh ++ held s)) as Hnd'.
  { destruct Hf as [[-> _]|[-> _]]; simpl; [done|].
    apply NoDup_cons. split; [|done]. intros Hin. apply Hlt in Hin. lia. }
  rewrite Hp in Hnd'. apply NoDup_app in Hnd' as (_ & _ & Hnd').
  split; [done|]. intros q Hq.
  assert (q ∈ fresh ++ held s) as Hq'
    by (rewrite Hp; apply elem_of_app; by right).
  destruct Hf as [[-> ->]|[-> ->]]; simpl in Hq'.
  - by apply Hlt.
  - apply elem_of_cons in Hq' as [->|Hq']; [lia|]. apply Hlt in Hq'. lia.
Qed.

Lemma run_held_ok cs s : held_ok s → held_ok (run cs s).
Proof.
  revert s. induction cs as [|c cs IH]; intros s Hok; simpl; [done|].
  by apply IH, step_held_ok.
Qed.

(** A handle that was handed out and is no longer held is never held
    again, and no later step settles it. *)
Lemma step_forgotten p s c :
  p ∉ held s → (p < nextPromise s)%nat →
  (p ∉ held (step s c)) ∧ (p < nextPromise (step s c))%nat
  ∧ ∃ es, trace (step s c) = trace s ++ es ∧ ∀ e, e ∈ es → settles p e = false.
Proof.
  intros Hp Hlt. destruct (step_held s c) as (fresh & gone & es & Hperm & Hf & Ht & Hes).
  assert (p ∉ gone ++ held (step s c)) as Hnot.
  { rewrite <- Hperm. destruct Hf as [[-> _]|[-> _]]; simpl; [done|].
    apply not_elem_of_cons. split; [lia | done]. }
  apply not_elem_of_app in Hnot as [Hgone Hheld].
  split; [done|]. split; [destruct Hf as [[_ ->]|[_ ->]]; lia|].
  exists es. split; [done|]. intros e He.
  destruct (settles p e) eqn:E; [|done]. exfalso. apply Hgone. eauto.
Qed.

Lemma run_forgotten p cs s :
  p ∉ held s → (p < nextPromise s)%nat →
  ∃ es, trace (run cs s) = trace s ++ es ∧ ∀ e, e ∈ es → settles p e = false.
Proof.
  revert s. induction cs as [|c cs IH]; intros s Hp Hlt; simpl.
  - exists []. split; [by rewrite app_nil_r|]. intros e He. by apply elem_of_nil in He.
  - destruct (step_forgotten p s c Hp Hlt) as (Hp' & Hlt' & es & Ht & Hes).
    destruct (IH _ Hp' Hlt') as (es' & Ht' & Hes').
    exists (es ++ es'). split; [by rewrite Ht', Ht, app_assoc|].
    intros e He. apply elem_of_app in He as [He|He]; eauto.
Qed.

Lemma held_ok_init : held_ok init.
Proof.
  split; [apply NoDup_nil_2|]. intros q Hq. by apply elem_of_nil in Hq.
Qed.

(** C5, as [src/process/command-queue.ts] has it.  In any state the queue
    can reach, [clearCommandLane] counts and drops the queued entries of the
    lane and returns the count; the started tasks and the active counter
    stay as they are.  But no promise is rejected: the record of effects is
    unchanged by the call, and whatever is called afterwards, the promise of
    a dropped entry is neither resolved nor rejected. *)
Theorem clearCommandLane_drops_silently (history later : list (Z * Lanes.Call))
    (l : string) (st : LaneState) (e : QueueEntry) :
  let s := run history init in
  mapGet (cleanLane l) (lanes s) = Some st →
  e ∈ queue st →
  clearCommandLane l s
  = (length (queue st),
     mkState
       (mapSet (cleanLane l)
          (mkLane (lane st) [] (active st) (maxConcurrent st) (draining st)) (lanes s))
       (nextPromise s) (inflight s) (trace s))
  ∧ ∃ es, trace (run later (clearCommandLane l s).2) = trace s ++ es
          ∧ ∀ eff, eff ∈ es → settles (promise e) eff = false.
Proof.
  intros s Hget He.
  split; [unfold clearCommandLane; by rewrite Hget|].
  destruct (run_held_ok history init held_ok_init) as [Hnd Hlt]. fold s in Hnd, Hlt.
  destruct (clearCommandLane_held l s st Hget) as (Hh & Hn & Ht).
  assert (promise e ∈ map promise (queue st)) as Hin
    by (apply list_elem_of_fmap; eauto).
  rewrite <- Ht. apply run_forgotten.
  - rewrite Hh in Hnd. apply NoDup_app in Hnd as (_ & Hdisj & _). by apply Hdisj.
  - rewrite Hn. apply Hlt. rewrite Hh. apply elem_of_app. by left.
Qed.

Lemma clearCommandLane_drops_silently_witness :
  let s := run [(0, EnqueueCommand None None); (1, EnqueueCommand None None)] init in
  let later := [(5, TaskSettles 0 (Returned "done")); (6, EnqueueCommand None None);
                (7, TaskSettles 1 (Returned "never ran"))] in
  trace s
  = [LogLaneEnqueue "main" 1; LogLaneDequeue "main" 0 0; TaskStarted "main" 0;
     LogLaneEnqueue "main" 2]
  ∧ clearCommandLane "main" s
    = (1%nat,
       mkState [("main", mkLane "main" [] 1 1 false)] 2
         [mkRunning (mkEntry 0 0 2000 None) "main" 0] (trace s))
  ∧ ∃ es, trace (run later (clearCommandLane "main" s).2) = trace s ++ es
          ∧ ∀ eff, eff ∈ es → settles 1 eff = false.
Proof.
  split; [by vm_compute|].
  exact (clearCommandLane_drops_silently
           [(0, EnqueueCommand None None); (1, EnqueueCommand None None)]
           [(5, TaskSettles 0 (Returned "done")); (6, EnqueueCommand None None);
            (7, TaskSettles 1 (Returned "never ran"))]
           "main" (mkLane "main" [mkEntry 1 1 2000 None] 1 1 false)
           (mkEntry 1 1 2000 None) eq_refl ltac:(by left)).
Defined.

(** The run of the witness, effect by effect: the first task completes, a
    third command is queued and started, and the second command's promise
    (handle 1) never shows up again. *)
Example cleared_entry_trace :
  let s := run [(0, EnqueueCommand None None); (1, EnqueueCommand None None)] init in
  let later := [(5, TaskSettles 0 (Returned "done")); (6, EnqueueCommand None None);
                (7, TaskSettles 1 (Returned "never ran"))] in
  trace (run later (clearCommandLane "main" s).2)
  = trace s
    ++ [DiagDebug "main" 5 0 0; Resolve 0 "done"; LogLaneEnqueue "main" 1;
        LogLaneDequeue "main" 0 0; TaskStarted "main" 2].
Proof. by vm_compute. Qed.

End CommandQueueProofs.

(* ===================================================================== *)
(** ** Node subscription index: the calls one by one, and the senders     *)
(* ===================================================================== *)

Module NodeSubscriptionsSending.
Import Js NodeSubscriptions NodeSubscriptionsProofs.

Lemma well_formed_serveAll rs : well_formed (serveAll rs).
Proof.
  unfold serveAll. induction rs as [|r rs IH] using rev_ind; simpl.
  - apply well_formed_empty.
  - rewrite foldl_app. simpl. destruct r as [[n s|n s|n]|]; simpl.
    + by apply well_formed_subscribe.
    + by apply well_formed_unsubscribe.
    + by apply well_formed_unsubscribeAll.
    + apply well_formed_empty.
Qed.

Lemma subscribe_nodes n s m N S :
  member (nodeSubscriptions (subscribe n s m)) N S
  ↔ member (nodeSubscriptions m) N S
    ∨ (trim n ≠ "" ∧ trim s ≠ "" ∧ N = trim n ∧ S = trim s).
Proof.
  unfold subscribe.
  destruct (trim n) as [|c1 n'] eqn:En; simpl; [naive_solver|].
  destruct (trim s) as [|c2 s'] eqn:Es; simpl; [naive_solver|].
  destruct (getOrCreate (String c1 n') (nodeSubscriptions m)) as [nodeSet nodes1] eqn:Eg.
  unfold getOrCreate in Eg.
  destruct (nodeSubscriptions m !! String c1 n') as [set|] eqn:El;
    injection Eg as <- <-.
  - case_decide as Hin; simpl.
    + split; [by left|]. intros [?|(_ & _ & -> & ->)]; [done|].
      exists set. by split.
    + destruct (getOrCreate (String c2 s') _) as [sessionSet sessions1]. simpl.
      rewrite member_insert. unfold member. split.
      * intros [[-> Hs]|[Hne Hm]]; [|by left].
        apply elem_of_union in Hs as [Hs|Hs].
        -- apply elem_of_singleton in Hs as ->. right. by repeat split.
        -- left. eauto.
      * intros [(set' & Hl & Hs)|(_ & _ & -> & ->)].
        -- destruct (decide (N = String c1 n')) as [->|Hne].
           ++ left. split; [done|]. rewrite El in Hl. injection Hl as <-. set_solver.
           ++ right. split; [done|]. eauto.
        -- left. split; [done|]. set_solver.
  - rewrite decide_False by set_solver.
    destruct (getOrCreate (String c2 s') _) as [sessionSet sessions1]. simpl.
    rewrite insert_insert_eq, member_insert. unfold member. split.
    + intros [[-> Hs]|[Hne Hm]]; [|by left].
      right. repeat split; try done. set_solver.
    + intros [(set' & Hl & Hs)|(_ & _ & -> & ->)].
      * destruct (decide (N = String c1 n')) as [->|Hne]; [congruence|].
        right. split; [done|]. eauto.
      * left. split; [done|]. set_solver.
Qed.

Lemma unsubscribe_nodes n s m N S :
  member (nodeSubscriptions (unsubscribe n s m)) N S
  ↔ member (nodeSubscriptions m) N S
    ∧ ¬ (trim n ≠ "" ∧ trim s ≠ "" ∧ N = trim n ∧ S = trim s).
Proof.
  unfold unsubscribe.
  destruct (trim n) as [|c1 n'] eqn:En; simpl; [naive_solver|].
  destruct (trim s) as [|c2 s'] eqn:Es; simpl; [naive_solver|].
  rewrite member_deleteMember. naive_solver.
Qed.

Lemma unsubscribeAll_nodes n m N S :
  member (nodeSubscriptions (unsubscribeAll n m)) N S
  ↔ member (nodeSubscriptions m) N S ∧ N ≠ trim n.
Proof.
  unfold unsubscribeAll.
  destruct (nodeSubscriptions m !! trim n) as [nodeSet|] eqn:E; simpl.
  - rewrite member_delete. naive_solver.
  - split; [|by intros [? _]]. intros Hm. split; [done|].
    intros ->. destruct Hm as (set & Hl & _). congruence.
Qed.

(** The manager keeps a relation between nodes and sessions, readable from
    either map: [subscribe] adds the pair of the trimmed arguments when
    neither is blank, [unsubscribe] removes that pair and no other, and
    [unsubscribeAll] removes every pair of the node and no other. *)
Theorem subscription_calls_as_relation (m : Manager) (n s N S : string) :
  well_formed m →
  let pair := trim n ≠ "" ∧ trim s ≠ "" ∧ N = trim n ∧ S = trim s in
  (member (nodeSubscriptions (subscribe n s m)) N S
   ↔ member (nodeSubscriptions m) N S ∨ pair)
  ∧ (member (sessionSubscribers (subscribe n s m)) S N
     ↔ member (sessionSubscribers m) S N ∨ pair)
  ∧ (member (nodeSubscriptions (unsubscribe n s m)) N S
     ↔ member (nodeSubscriptions m) N S ∧ ¬ pair)
  ∧ (member (sessionSubscribers (unsubscribe n s m)) S N
     ↔ member (sessionSubscribers m) S N ∧ ¬ pair)
  ∧ (member (nodeSubscriptions (unsubscribeAll n m)) N S
     ↔ member (nodeSubscriptions m) N S ∧ N ≠ trim n)
  ∧ (member (sessionSubscribers (unsubscribeAll n m)) S N
     ↔ member (sessionSubscribers m) S N ∧ N ≠ trim n).
Proof.
  intros Hwf pair.
  destruct (well_formed_subscribe n s m Hwf) as [Hs _].
  destruct (well_formed_unsubscribe n s m Hwf) as [Hu _].
  destruct (well_formed_unsubscribeAll n m Hwf) as [Ha _].
  destruct Hwf as [Hm _].
  rewrite <- (Hs N S), <- (Hu N S), <- (Ha N S), <- (Hm N S).
  rewrite subscribe_nodes, unsubscribe_nodes, unsubscribeAll_nodes. done.
Qed.

Lemma subscription_calls_as_relation_witness :
  let m := serveAll [Do (Subscribe "n1" "s1"); Do (Subscribe "n2" "s1")] in
  let pair := trim " n1 " ≠ "" ∧ trim "s1" ≠ "" ∧ "n1" = trim " n1 " ∧ "s1" = trim "s1" in
  (member (nodeSubscriptions (subscribe " n1 " "s1" m)) "n1" "s1"
   ↔ member (nodeSubscriptions m) "n1" "s1" ∨ pair)
  ∧ (member (sessionSubscribers (subscribe " n1 " "s1" m)) "s1" "n1"
     ↔ member (sessionSubscribers m) "s1" "n1" ∨ pair)
  ∧ (member (nodeSubscriptions (unsubscribe " n1 " "s1" m)) "n1" "s1"
     ↔ member (nodeSubscriptions m) "n1" "s1" ∧ ¬ pair)
  ∧ (member (sessionSubscribers (unsubscribe " n1 " "s1" m)) "s1" "n1"
     ↔ member (sessionSubscribers m) "s1" "n1" ∧ ¬ pair)
  ∧ (member (nodeSubscriptions (unsubscribeAll " n1 " m)) "n1" "s1"
     ↔ member (nodeSubscriptions m) "n1" "s1" ∧ "n1" ≠ trim " n1 ")
  ∧ (member (sessionSubscribers (unsubscribeAll " n1 " m)) "s1" "n1"
     ↔ member (sessionSubscribers m) "s1" "n1" ∧ "n1" ≠ trim " n1 ").
Proof.
  exact (subscription_calls_as_relation
           (serveAll [Do (Subscribe "n1" "s1"); Do (Subscribe "n2" "s1")])
           " n1 " "s1" "n1" "s1"
           (well_formed_serveAll [Do (Subscribe "n1" "s1"); Do (Subscribe "n2" "s1")])).
Defined.

Section Sending.
Variable stringify : JsVal → string.



End Sending.

End NodeSubscriptionsSending.

(* ===================================================================== *)
(** ** Lane queue with generations: scheduling                            *)
(* ===================================================================== *)

Module CommandQueueResetScheduling.
Import Js Lanes LaneCallbacks LanesProofs LaneCallbacksProofs.
Import CommandQueueReset CommandQueueResetProofs.

Lemma started_app k tr1 tr2 : started k (tr1 ++ tr2) = started k tr1 ++ started k tr2.
Proof. apply omap_app. Qed.

Lemma started_waitEffects k name e waited ahead :
  started k (waitEffects name e waited ahead) = [].
Proof.
  unfold waitEffects. destruct (_ <=? _); [|done]. by destruct (onWait e).
Qed.

Lemma mapSet_mapSet {V} k (v1 v2 : V) m : mapSet k v2 (mapSet k v1 m) = mapSet k v2 m.
Proof.
  induction m as [|[k0 v0] m IH]; simpl.
  - by rewrite String.eqb_refl.
  - destruct (String.eqb k0 k) eqn:E; simpl; rewrite E; [done | by rewrite IH].
Qed.

(** The loop moves the head of the queue to the started tasks, records a
    start for each in its own lane, and stops on an empty queue or a full
    lane. *)
Lemma pumpLoop_started name now gen maxC q ids next k :
  q = map entry (pumpLoop name now gen maxC q ids next).1.2
      ++ (pumpLoop name now gen maxC q ids next).1.1.1.1
  ∧ started k (pumpLoop name now gen maxC q ids next).2
    = (if String.eqb name k
       then map promise (map entry (pumpLoop name now gen maxC q ids next).1.2)
       else [])
  ∧ ((pumpLoop name now gen maxC q ids next).1.1.1.1 = []
     ∨ maxC ≤ Z.of_nat (size (pumpLoop name now gen maxC q ids next).1.1.1.2)).
Proof.
  revert ids next. induction q as [|e q IH]; intros ids next; simpl.
  - split; [done|]. split; [by destruct (String.eqb name k) | by left].
  - destruct (Z.ltb_spec (Z.of_nat (size ids)) maxC) as [Hlt|Hge]; simpl.
    + specialize (IH ({[next]} ∪ ids) (S next)).
      destruct (pumpLoop name now gen maxC q ({[next]} ∪ ids) (S next))
        as [[[[q' ids'] next'] rs] es]. simpl in *.
      destruct IH as (Hq & Hs & Hstop). split; [by rewrite <- Hq|]. split; [|done].
      rewrite started_app, started_waitEffects. simpl. rewrite Hs.
      by destruct (String.eqb name k).
    + split; [done|]. split; [by destruct (String.eqb name k) | right; lia].
Qed.

(** One lane is rewritten, effects are recorded and handles may have been
    handed out: what has to be checked for the rewritten lane. *)
Lemma pending_set name st' es D D' s s' :
  pendingDrain D s →
  lanes s' = mapSet name st' (lanes s) →
  trace s' = trace s ++ es →
  (nextPromise s ≤ nextPromise s')%nat →
  (∀ k, k ≠ name → started k es = []) →
  (∀ k, k ∈ D → k ≠ name → k ∈ D') →
  draining st' = false →
  (name ∈ D' ∨ saturated st') →
  StronglySorted lt (started name (trace s ++ es) ++ map promise (queue st')) →
  Forall (fun p => (p < nextPromise s')%nat)
         (started name (trace s ++ es) ++ map promise (queue st')) →
  pendingDrain D' s'.
Proof.
  intros Hp Hl Ht Hn Hes HD Hdr Hsat Hsorted Hbound k.
  destruct (Hp k) as [[Hso Hbo] Hlane].
  unfold inOrder, queuedHandles. rewrite Hl, Ht, mapGet_mapSet.
  destruct (String.eqb_spec name k) as [<-|Hne].
  - split; [done|]. by intros st [= <-].
  - rewrite started_app, (Hes k) by done. rewrite app_nil_r.
    unfold queuedHandles in Hso, Hbo. split.
    + split; [done|]. eapply Forall_impl; [exact Hbo|]. simpl. intros p Hp'. lia.
    + intros st Hst. destruct (Hlane st Hst) as [Hd [HkD|Hs]]; [|by auto].
      split; [done|]. left. by apply HD.
Qed.

(** The lanes are left alone and nothing is started. *)
Lemma pending_emit es D s s' :
  pendingDrain D s →
  lanes s' = lanes s → trace s' = trace s ++ es → nextPromise s' = nextPromise s →
  (∀ k, started k es = []) →
  pendingDrain D s'.
Proof.
  intros Hp Hl Ht Hn Hes k. destruct (Hp k) as [Hord Hlane].
  unfold inOrder, queuedHandles in *. rewrite Hl, Ht, Hn, started_app, Hes, app_nil_r.
  done.
Qed.

Lemma pending_weaken D D' s :
  (∀ k, k ∈ D → k ∈ D') → pendingDrain D s → pendingDrain D' s.
Proof.
  intros HD Hp k. destruct (Hp k) as [Hord Hlane]. split; [done|].
  intros st Hst. destruct (Hlane st Hst) as [Hd [?|?]]; auto.
Qed.

Lemma pump_pending name now st st0 D s :
  mapGet name (lanes s) = Some st0 → queue st0 = queue st →
  pendingDrain (name :: D) s → pendingDrain D (pump name now st s).
Proof.
  intros Hg Hq Hp. unfold pump.
  pose proof (pumpLoop_started name now (generation st) (maxConcurrent st) (queue st)
                (activeTaskIds st) (nextTaskId s)) as Hloop.
  destruct (pumpLoop _ _ _ _ _ _ _) as [[[[q' ids'] next'] rs] es]. simpl in Hloop.
  destruct (Hp name) as [[Hso Hbo] _]. unfold queuedHandles in Hso, Hbo.
  rewrite Hg, Hq in Hso, Hbo.
  destruct (Hloop name) as (Hmove & Hst & Hstop). rewrite String.eqb_refl in Hst.
  assert (started name (trace s ++ es) ++ map promise q'
          = started name (trace s) ++ map promise (queue st)) as Heq.
  { rewrite started_app, Hst, <- app_assoc, <- map_app. by rewrite <- Hmove. }
  eapply (pending_set name _ es); try exact Hp; simpl; try done.
  - intros k Hk. destruct (Hloop k) as (_ & Hs & _).
    destruct (String.eqb_spec name k); [done | exact Hs].
  - intros k Hin Hk. apply elem_of_cons in Hin as [->|Hin]; done.
  - by right.
  - simpl. by rewrite Heq.
  - simpl. by rewrite Heq.
Qed.

Lemma drainLane_pending d now D s :
  pendingDrain (d :: D) s → pendingDrain D (drainLane d now s).
Proof.
  intros Hp. unfold drainLane.
  destruct (getLaneState d (lanes s)) as [st ls] eqn:Eg.
  apply getLaneState_spec in Eg as (Hget & _ & [[Hs ->]|(Hn & -> & ->)]).
  - destruct (Hp d) as [_ Hlane]. destruct (Hlane st Hs) as [-> _].
    eapply (pump_pending d now _ st); [done | done |].
    eapply pending_emit with (es := []); [exact Hp | done | by rewrite app_nil_r | done | done].
  - simpl. eapply (pump_pending d now _ (mkLane d [] ∅ 1 false 0)); [done | done |].
    destruct (Hp d) as [[Hso Hbo] _]. unfold queuedHandles in Hso, Hbo.
    rewrite Hn in Hso, Hbo.
    eapply (pending_set d _ []); try exact Hp; simpl; try done.
    + by rewrite app_nil_r.
    + left. by left.
    + by rewrite !app_nil_r in *.
    + by rewrite !app_nil_r in *.
Qed.

Lemma setCommandLaneConcurrency_pending l n now s :
  pendingDrain [] s → pendingDrain [] (setCommandLaneConcurrency l n now s).
Proof.
  intros Hp. unfold setCommandLaneConcurrency.
  destruct (getLaneState (cleanLane l) (lanes s)) as [st ls] eqn:Eg.
  apply getLaneState_spec in Eg as (Hget & _ & Hcase).
  apply drainLane_pending.
  destruct (Hp (cleanLane l)) as [[Hso Hbo] Hlane]. unfold queuedHandles in Hso, Hbo.
  destruct Hcase as [[Hs ->]|(Hn & -> & ->)].
  - rewrite Hs in Hso, Hbo. destruct (Hlane st Hs) as [Hd _].
    eapply (pending_set (cleanLane l) _ [] [] _ s);
      [exact Hp | done | simpl; by rewrite app_nil_r | done | done
      | intros k Hk; by apply elem_of_nil in Hk | done | left; by left
      | simpl; by rewrite app_nil_r | simpl; by rewrite app_nil_r].
  - rewrite Hn in Hso, Hbo. simpl. rewrite mapSet_mapSet. rewrite app_nil_r in Hso, Hbo.
    eapply (pending_set (cleanLane l) _ [] [] _ s);
      [exact Hp | done | simpl; by rewrite app_nil_r | done | done
      | intros k Hk; by apply elem_of_nil in Hk | done | left; by left
      | simpl; by rewrite !app_nil_r | simpl; by rewrite !app_nil_r].
Qed.

Lemma enqueueCommandInLane_pending l w cb now s :
  pendingDrain [] s → pendingDrain [] (enqueueCommandInLane l w cb now s).2.
Proof.
  intros Hp. unfold enqueueCommandInLane.
  destruct (getLaneState (cleanLane l) (lanes s)) as [st ls] eqn:Eg.
  apply getLaneState_spec in Eg as (Hget & _ & Hcase). simpl.
  apply drainLane_pending.
  destruct (Hp (cleanLane l)) as [[Hso Hbo] Hlane]. unfold queuedHandles in Hso, Hbo.
  assert (StronglySorted lt (started (cleanLane l) (trace s) ++ map promise (queue st))
          ∧ Forall (fun p => (p < nextPromise s)%nat)
                   (started (cleanLane l) (trace s) ++ map promise (queue st))
          ∧ draining st = false
          ∧ mapSet (cleanLane l)
              (mkLane (lane st)
                 (queue st ++ [mkEntry (nextPromise s) now (default 2000 w) cb])
                 (activeTaskIds st) (maxConcurrent st) (draining st) (generation st)) ls
            = mapSet (cleanLane l)
                (mkLane (lane st)
                   (queue st ++ [mkEntry (nextPromise s) now (default 2000 w) cb])
                   (activeTaskIds st) (maxConcurrent st) (draining st) (generation st))
                (lanes s)) as (Hso' & Hbo' & Hd & Hls).
  { destruct Hcase as [[Hs ->]|(Hn & -> & ->)].
    - rewrite Hs in Hso, Hbo. by destruct (Hlane st Hs) as [-> _].
    - rewrite Hn in Hso, Hbo. simpl. by rewrite mapSet_mapSet. }
  eapply (pending_set (cleanLane l) _ _ [] _ s);
    [exact Hp | exact Hls | done | simpl; lia | done
    | intros k Hk; by apply elem_of_nil in Hk | done | left; by left | |]; simpl.
  - rewrite started_app. simpl. rewrite app_nil_r, map_app, app_assoc. simpl.
    apply StronglySorted_app_2; [|done|repeat constructor].
    intros x1 x2 Hx1 Hx2. apply list_elem_of_singleton in Hx2 as ->.
    rewrite Forall_forall in Hbo'. by apply Hbo'.
  - rewrite started_app. simpl. rewrite app_nil_r, map_app, app_assoc. simpl.
    apply Forall_app. split; [|repeat constructor].
    eapply Forall_impl; [exact Hbo'|]. simpl. intros p Hp'. lia.
Qed.

Lemma started_rejects k (reason : Reason) (q : list QueueEntry) :
  started k (map (fun e => Reject (promise e) reason) q) = [].
Proof. by induction q. Qed.

Lemma clearCommandLane_pending l s :
  pendingDrain [] s → pendingDrain [] (clearCommandLane l s).2.
Proof.
  intros Hp. unfold clearCommandLane.
  destruct (mapGet (cleanLane l) (lanes s)) as [st|] eqn:Eg; [|done]. simpl.
  destruct (Hp (cleanLane l)) as [[Hso Hbo] Hlane]. unfold queuedHandles in Hso, Hbo.
  rewrite Eg in Hso, Hbo. destruct (Hlane st Eg) as [Hd _].
  eapply (pending_set (cleanLane l) _ _ [] [] s);
    [exact Hp | done | done | done | intros k _; apply started_rejects
    | intros k Hk; by apply elem_of_nil in Hk | done | right; by left | |]; simpl.
  - rewrite started_app, started_rejects, !app_nil_r.
    by apply StronglySorted_app_1_l in Hso.
  - rewrite started_app, started_rejects, !app_nil_r.
    by apply Forall_app in Hbo as [? _].
Qed.

Lemma taskSettles_pending p out now s :
  pendingDrain [] s → pendingDrain [] (taskSettles p out now s).
Proof.
  intros Hp. unfold taskSettles.
  destruct (takeRunning p (inflight s)) as [[r rest]|]; [|done].
  destruct (mapGet (runLane r) (lanes s)) as [st|] eqn:Eg; [|done].
  destruct (Hp (runLane r)) as [[Hso Hbo] Hlane]. unfold queuedHandles in Hso, Hbo.
  rewrite Eg in Hso, Hbo. destruct (Hlane st Eg) as [Hd Hsat].
  unfold completeTask.
  destruct (negb (taskGeneration r =? generation st)%nat); simpl.
  - (* a stale completion *)
    rewrite (mapSet_id _ _ _ Eg).
    destruct out as [value|err]; unfold emit; simpl.
    + by eapply pending_emit with (es := [Resolve (promise (entry r)) value]).
    + eapply pending_emit
        with (es := (if isProbeLane (runLane r) then []
                     else [DiagError (runLane r) (now - startTime r) err])
                    ++ [Reject (promise (entry r)) (TaskThrew err)]);
        [exact Hp | done | simpl; by rewrite app_assoc | done |].
      intros k. rewrite started_app. by destruct (isProbeLane (runLane r)).
  - (* a completion of the current generation *)
    set (st1 := mkLane (lane st) (queue st) (activeTaskIds st ∖ {[taskId r]})
                  (maxConcurrent st) (draining st) (generation st)).
    assert (∀ es, (∀ k, started k es = []) →
              pendingDrain []
                (pump (runLane r) now st1
                   (emit es (mkState (mapSet (runLane r) st1 (lanes s)) (nextTaskId s)
                               (nextPromise s) rest (trace s))))) as Hpump.
    { intros es Hes. eapply (pump_pending _ _ _ st1); [apply mapGet_mapSet_eq | done |].
      eapply (pending_set (runLane r) st1 es [] _ s);
        [exact Hp | done | done | done | intros k _; apply Hes
        | intros k Hk; by apply elem_of_nil in Hk | done | left; by left | |]; simpl;
        by rewrite started_app, Hes, app_nil_r. }
    destruct out as [value|err].
    + eapply pending_emit with (es := [Resolve (promise (entry r)) value]);
        [apply (Hpump [DiagDebug (runLane r) (now - startTime r)
                         (Z.of_nat (size (activeTaskIds st1))) (length (queue st1))]);
         by intros k
        | done | done | done | done].
    + eapply pending_emit with (es := [Reject (promise (entry r)) (TaskThrew err)]);
        [apply (Hpump (if isProbeLane (runLane r) then []
                       else [DiagError (runLane r) (now - startTime r) err]));
         intros k; by destruct (isProbeLane (runLane r))
        | done | done | done | done].
Qed.

Lemma foldl_drainLane_pending now D s :
  pendingDrain D s → pendingDrain [] (foldl (fun s' name => drainLane name now s') s D).
Proof.
  revert s. induction D as [|d D IH]; intros s Hp; simpl; [done|].
  by apply IH, drainLane_pending.
Qed.

Lemma resetAllLanes_pending now s :
  wf s → pendingDrain [] s → pendingDrain [] (resetAllLanes now s).
Proof.
  intros [[Hnd Hlanes] _] Hp. unfold resetAllLanes. apply foldl_drainLane_pending.
  intros k. destruct (Hp k) as [[Hso Hbo] Hlane].
  unfold inOrder, queuedHandles in *. simpl. rewrite mapGet_map_snd.
  destruct (mapGet k (lanes s)) as [st|] eqn:Eg; simpl; [|done].
  split; [done|]. intros st' [= <-]. split; [done|].
  destruct (queue st) as [|e q] eqn:Eq; [right; by left|]. left.
  apply list_elem_of_In, in_map_iff. exists (k, st). split.
  - simpl. by apply (Hlanes k st).
  - apply filter_In. split; [by apply list_elem_of_In, mapGet_Some_elem|].
    simpl. by rewrite Eq.
Qed.

Lemma pending_init : pendingDrain [] init.
Proof.
  intros k. split; [|done]. split; [constructor | constructor].
Qed.

Lemma step_pending s c : wf s → pendingDrain [] s → pendingDrain [] (step s c).
Proof.
  intros Hwf Hp. destruct c as [now [[l w cb|w cb|l n|l|p out]|]]; unfold step; simpl.
  - by apply enqueueCommandInLane_pending.
  - by apply enqueueCommandInLane_pending.
  - by apply setCommandLaneConcurrency_pending.
  - by apply clearCommandLane_pending.
  - by apply taskSettles_pending.
  - by apply resetAllLanes_pending.
Qed.

Lemma run_pending cs s : wf s → pendingDrain [] s → pendingDrain [] (run cs s).
Proof.
  revert s. induction cs as [|c cs IH]; intros s Hwf Hp; simpl; [done|].
  apply IH; [by apply step_wf | by apply step_pending].
Qed.

(** With callbacks that return, every call returns with no lane left in
    the draining state and no lane holding work it could start. *)
Lemma returning_lanes_saturated (history : list (Z * Call)) :
  Forall (fun kv => draining (snd kv) = false ∧ saturated (snd kv))
         (lanes (run history init)).
Proof.
  destruct (run_wf history init wf_init) as [[[Hnd _] _] _].
  pose proof (run_pending history init wf_init pending_init) as Hp.
  apply Forall_forall. intros [k st] Hin. simpl.
  destruct (Hp k) as [_ Hlane].
  destruct (Hlane st (elem_mapGet _ _ _ Hnd Hin)) as [Hd [Hk|Hs]]; [|done].
  by apply elem_of_nil in Hk.
Qed.

(** Provided no [onWait] callback throws: whatever has been called -
    [clearCommandLane] and [resetAllLanes] included - no call throws, and
    every call returns with no lane left in the draining state and no lane
    holding work it could start: a lane with queued entries counts at least
    as many active tasks as its cap allows. *)
Theorem lanes_never_idle_with_work (behaviour : OnWaitBehaviour)
    (history : list (Z * Call)) :
  (∀ cb waitedMs queuedAhead, behaviour cb waitedMs queuedAhead = None) →
  let r := CommandQueueResetCallbacks.run behaviour history init in
  Forall (fun kv => draining (snd kv) = false ∧ saturated (snd kv)) (lanes r.1)
  ∧ r.2 = map (fun _ => None) history.
Proof.
  intros Hreturn. cbv zeta. rewrite (reset_run_returning behaviour Hreturn).
  split; [apply returning_lanes_saturated | done].
Qed.

Lemma lanes_never_idle_with_work_witness :
  let history := [(0, Shared (EnqueueCommandInLane "cron" (Some 0) (Some 7%nat)));
                  (1, Shared (EnqueueCommandInLane "cron" None None));
                  (2, Shared (EnqueueCommandInLane "cron" None None));
                  (3, Shared (SetCommandLaneConcurrency "cron" 2));
                  (4, ResetAllLanes)] in
  let r := CommandQueueResetCallbacks.run returning history init in
  Forall (fun kv => draining (snd kv) = false ∧ saturated (snd kv)) (lanes r.1)
  ∧ r.2 = map (fun _ => None) history.
Proof.
  exact (lanes_never_idle_with_work returning
           [(0, Shared (EnqueueCommandInLane "cron" (Some 0) (Some 7%nat)));
            (1, Shared (EnqueueCommandInLane "cron" None None));
            (2, Shared (EnqueueCommandInLane "cron" None None));
            (3, Shared (SetCommandLaneConcurrency "cron" 2));
            (4, ResetAllLanes)] (fun _ _ _ => eq_refl)).
Defined.

(** A callback that throws on the enqueue path leaves its lane stuck: the
    entry has been shifted and is never started, its promise is rejected
    with the thrown value, the lane stays in the draining state, and later
    commands wait behind the flag - [drainLane] returns at once, also when
    called by [setCommandLaneConcurrency] - until [resetAllLanes] clears
    it. *)
Example throwing_callback_leaves_lane_draining :
  let behaviour : OnWaitBehaviour :=
    fun cb _ _ => if (cb =? 7)%nat then Some "boom" else None in
  let history := [(0, Shared (EnqueueCommand (Some 0) (Some 7%nat)));
                  (1, Shared (EnqueueCommand None None));
                  (2, Shared (SetCommandLaneConcurrency "main" 4))] in
  let r := CommandQueueResetCallbacks.run behaviour history init in
  let r' := CommandQueueResetCallbacks.run behaviour (history ++ [(3, ResetAllLanes)])
              init in
  map (fun kv => (map promise (queue (snd kv)), size (activeTaskIds (snd kv)),
                  draining (snd kv))) (lanes r.1)
  = [([1%nat], 0%nat, true)]
  ∧ trace r.1
    = [LogLaneEnqueue "main" 1; OnWait 7 0 0; Reject 0 (TaskThrew "boom");
       LogLaneEnqueue "main" 1]
  ∧ r.2 = [None; None; None]
  ∧ map (fun kv => (map promise (queue (snd kv)), size (activeTaskIds (snd kv)),
                    draining (snd kv))) (lanes r'.1)
    = [([], 1%nat, false)]
  ∧ started "main" (trace r'.1) = [1%nat].
Proof. by vm_compute. Qed.

Example lanes_never_idle_with_work_trace :
  let s := run [(0, Shared (EnqueueCommandInLane "cron" None None));
                (1, Shared (EnqueueCommandInLane "cron" None None));
                (2, Shared (EnqueueCommandInLane "cron" None None));
                (3, Shared (SetCommandLaneConcurrency "cron" 2));
                (4, ResetAllLanes)] init in
  map (fun kv => (map promise (queue (snd kv)), size (activeTaskIds (snd kv)),
                  maxConcurrent (snd kv))) (lanes s)
  = [([], 1%nat, 2)]
  ∧ started "cron" (trace s) = [0; 1; 2]%nat.
Proof. by vm_compute. Qed.

(** Handles are numbered in the order of the [enqueue] calls.  Within a
    lane, tasks start in that order, each once, and whatever is still queued
    comes after everything started - also across [clearCommandLane] and
    [resetAllLanes]. *)
Theorem lane_starts_in_enqueue_order (history : list (Z * Call)) (k : string) :
  let s := run history init in
  StronglySorted lt (started k (trace s) ++ queuedHandles k s)
  ∧ Forall (fun p => (p < nextPromise s)%nat) (started k (trace s) ++ queuedHandles k s)
  ∧ ∀ l w cb now,
      (enqueueCommandInLane l w cb now s).1 = nextPromise s
      ∧ nextPromise (enqueueCommandInLane l w cb now s).2 = S (nextPromise s).
Proof.
  intros s.
  destruct (run_pending history init wf_init pending_init k) as [[Hso Hbo] _].
  split; [done|]. split; [done|]. intros l w cb now.
  unfold enqueueCommandInLane.
  destruct (getLaneState (cleanLane l) (lanes s)) as [st ls]. simpl. split; [done|].
  match goal with |- nextPromise (drainLane _ _ ?x) = _ => set (pushed := x) end.
  unfold drainLane. destruct (getLaneState (cleanLane l) (lanes pushed)) as [st' ls'].
  destruct (draining st'); [done|]. unfold pump.
  by destruct (pumpLoop _ _ _ _ _ _ _) as [[[[q' ids'] next'] rs] es].
Qed.

Example lane_starts_in_enqueue_order_trace :
  let s := run [(0, Shared (EnqueueCommandInLane "cron" None None));
                (1, Shared (EnqueueCommandInLane "main" None None));
                (2, Shared (EnqueueCommandInLane "cron" None None));
                (3, Shared (EnqueueCommandInLane "cron" None None));
                (4, Shared (ClearCommandLane "cron"));
                (5, Shared (EnqueueCommandInLane "cron" None None));
                (6, ResetAllLanes);
                (7, Shared (TaskSettles 0 (Returned "stale")))] init in
  started "cron" (trace s) = [0; 4]%nat
  ∧ started "main" (trace s) = [1]%nat
  ∧ queuedHandles "cron" s = []
  ∧ nextPromise s = 5%nat.
Proof. by vm_compute. Qed.

(** *** The concurrency cap *)

Lemma pumpLoop_cap name now gen maxC q ids next :
  Z.of_nat (size ids) ≤ maxC →
  Z.of_nat (size (pumpLoop name now gen maxC q ids next).1.1.1.2) ≤ maxC.
Proof.
  revert ids next. induction q as [|e q IH]; intros ids next Hle; simpl; [done|].
  destruct (Z.ltb_spec (Z.of_nat (size ids)) maxC) as [Hlt|Hge]; simpl; [|done].
  specialize (IH ({[next]} ∪ ids) (S next)).
  destruct (pumpLoop name now gen maxC q ({[next]} ∪ ids) (S next))
    as [[[[q' ids'] next'] rs] es]. simpl in *. apply IH.
  pose proof (size_union_alt {[next]} ids) as Hsz. rewrite size_singleton in Hsz.
  pose proof (subseteq_size (ids ∖ {[next]}) ids ltac:(set_solver)). lia.
Qed.

Lemma cap_set name st' s s' :
  withinCap s → lanes s' = mapSet name st' (lanes s) →
  Z.of_nat (size (activeTaskIds st')) ≤ maxConcurrent st' →
  withinCap s'.
Proof.
  intros Hc Hl Hle k st. rewrite Hl, mapGet_mapSet.
  destruct (String.eqb name k); [by intros [= <-] | apply Hc].
Qed.

Lemma pump_cap name now st s :
  withinCap s → Z.of_nat (size (activeTaskIds st)) ≤ maxConcurrent st →
  withinCap (pump name now st s).
Proof.
  intros Hc Hle. unfold pump.
  pose proof (pumpLoop_cap name now (generation st) (maxConcurrent st) (queue st)
                (activeTaskIds st) (nextTaskId s) Hle) as Hloop.
  destruct (pumpLoop _ _ _ _ _ _ _) as [[[[q' ids'] next'] rs] es]. simpl in Hloop.
  by eapply (cap_set name _ s).
Qed.

Lemma getLaneState_cap name ls s :
  withinCap s → ls = lanes s →
  withinCap (withLanes (getLaneState name ls).2 s)
  ∧ Z.of_nat (size (activeTaskIds (getLaneState name ls).1))
    ≤ maxConcurrent (getLaneState name ls).1.
Proof.
  intros Hc ->. unfold getLaneState.
  destruct (mapGet name (lanes s)) as [st|] eqn:E; cbn [fst snd].
  - split; [exact Hc | by apply (Hc name)].
  - cbn [activeTaskIds maxConcurrent]. split; [|by rewrite size_empty].
    eapply (cap_set name _ s); [done | done |].
    cbn [activeTaskIds maxConcurrent]. by rewrite size_empty.
Qed.

Lemma drainLane_cap name now s : withinCap s → withinCap (drainLane name now s).
Proof.
  intros Hc. unfold drainLane.
  destruct (getLaneState_cap name (lanes s) s Hc eq_refl) as [Hc' Hle].
  destruct (getLaneState name (lanes s)) as [st ls]. simpl in *.
  destruct (draining st); [done|]. by apply pump_cap.
Qed.

Lemma step_cap s c :
  withinCap s →
  (∀ l n st, snd c = Shared (SetCommandLaneConcurrency l n) →
     mapGet (cleanLane l) (lanes s) = Some st →
     Z.of_nat (size (activeTaskIds st)) ≤ Z.max 1 n) →
  withinCap (step s c).
Proof.
  intros Hc Hset. destruct c as [now [[l w cb|w cb|l n|l|p out]|]]; unfold step; simpl.
  - unfold enqueueCommandInLane.
    destruct (getLaneState_cap (cleanLane l) (lanes s) s Hc eq_refl) as [Hc' Hle].
    destruct (getLaneState (cleanLane l) (lanes s)) as [st ls]. simpl in *.
    apply drainLane_cap. by eapply (cap_set (cleanLane l) _ (withLanes ls s)).
  - unfold enqueueCommand, enqueueCommandInLane.
    destruct (getLaneState_cap (cleanLane CommandLane_Main) (lanes s) s Hc eq_refl)
      as [Hc' Hle].
    destruct (getLaneState (cleanLane CommandLane_Main) (lanes s)) as [st ls]. simpl in *.
    apply drainLane_cap. by eapply (cap_set (cleanLane CommandLane_Main) _ (withLanes ls s)).
  - unfold setCommandLaneConcurrency.
    destruct (getLaneState_cap (cleanLane l) (lanes s) s Hc eq_refl) as [Hc' Hle].
    specialize (Hset l n). unfold getLaneState in *.
    destruct (mapGet (cleanLane l) (lanes s)) as [st|] eqn:E; simpl in *.
    + apply drainLane_cap. eapply (cap_set (cleanLane l) _ s); [done | done |].
      simpl. by apply Hset.
    + apply drainLane_cap.
      eapply (cap_set (cleanLane l) _ (withLanes (mapSet (cleanLane l)
                                                    (mkLane (cleanLane l) [] ∅ 1 false 0)
                                                    (lanes s)) s)); [done | done |].
      cbn [activeTaskIds maxConcurrent]. rewrite size_empty. lia.
  - unfold clearCommandLane.
    destruct (mapGet (cleanLane l) (lanes s)) as [st|] eqn:E; [|done]. simpl.
    eapply (cap_set (cleanLane l) _ s); [done | done |]. simpl. by apply (Hc (cleanLane l)).
  - unfold taskSettles.
    destruct (takeRunning p (inflight s)) as [[r rest]|]; [|done].
    destruct (mapGet (runLane r) (lanes s)) as [st|] eqn:E; [|done].
    pose proof (Hc _ _ E) as Hle. unfold completeTask.
    destruct (negb (taskGeneration r =? generation st)%nat); simpl.
    + rewrite (mapSet_id _ _ _ E). by destruct out.
    + set (st1 := mkLane (lane st) (queue st) (activeTaskIds st ∖ {[taskId r]})
                    (maxConcurrent st) (draining st) (generation st)).
      assert (Z.of_nat (size (activeTaskIds st1)) ≤ maxConcurrent st1) as Hle1.
      { simpl. pose proof (subseteq_size (activeTaskIds st ∖ {[taskId r]})
                             (activeTaskIds st) ltac:(set_solver)). lia. }
      destruct out as [value|err]; unfold emit; simpl;
        (apply (pump_cap (runLane r) now st1); [|exact Hle1]);
        by eapply (cap_set (runLane r) st1 s).
  - unfold resetAllLanes.
    assert (withinCap (withLanes (map (fun kv => (fst kv, resetLane (snd kv))) (lanes s)) s))
      as Hc'.
    { intros k st'. cbn [lanes withLanes]. rewrite mapGet_map_snd.
      destruct (mapGet k (lanes s)) as [st|] eqn:E; [|done]. intros [= <-].
      cbn [resetLane activeTaskIds maxConcurrent].
      rewrite size_empty. pose proof (Hc _ _ E). lia. }
    generalize dependent (withLanes (map (fun kv => (fst kv, resetLane (snd kv))) (lanes s)) s).
    induction (map _ _) as [|d D IH]; intros x Hx; simpl; [done|].
    by apply IH, drainLane_cap.
Qed.

Lemma run_cap cs s :
  withinCap s → forallb (fun c => keepsCap (snd c)) cs = true → withinCap (run cs s).
Proof.
  revert s. induction cs as [|c cs IH]; intros s Hc Hall; simpl; [done|].
  simpl in Hall. apply andb_true_iff in Hall as [Hk Hall]. apply IH; [|done].
  apply step_cap; [done|]. intros l n st Hs. by rewrite Hs in Hk.
Qed.

(** No call but a [setCommandLaneConcurrency] that lowers the cap below the
    number of active tasks makes a lane count more active tasks (the ids in
    [activeTaskIds]) than its cap allows: enqueueing, clearing, task
    completions (stale or not) and [resetAllLanes] keep every lane within
    its cap, and so does setting a cap that is not below the lane's active
    tasks.  (Tasks started before a [resetAllLanes] are no longer counted
    once it has run.) *)
Theorem lanes_stay_within_cap (s : State) (later : list (Z * Call)) :
  withinCap s →
  (forallb (fun c => keepsCap (snd c)) later = true → withinCap (run later s))
  ∧ ∀ now l n,
      (∀ st, mapGet (cleanLane l) (lanes s) = Some st →
             Z.of_nat (size (activeTaskIds st)) ≤ Z.max 1 n) →
      withinCap (step s (now, Shared (SetCommandLaneConcurrency l n))).
Proof.
  intros Hc. split; [by apply run_cap|]. intros now l n Hle.
  apply step_cap; [done|]. simpl. intros l' n' st [= <- <-]. apply Hle.
Qed.

Lemma lanes_stay_within_cap_witness :
  let later := [(0, Shared (EnqueueCommand None None));
                (1, Shared (EnqueueCommand None None)); (2, ResetAllLanes);
                (3, Shared (TaskSettles 0 (Returned "stale")))] in
  (forallb (fun c => keepsCap (snd c)) later = true → withinCap (run later init))
  ∧ ∀ now l n,
      (∀ st, mapGet (cleanLane l) (lanes init) = Some st →
             Z.of_nat (size (activeTaskIds st)) ≤ Z.max 1 n) →
      withinCap (step init (now, Shared (SetCommandLaneConcurrency l n))).
Proof.
  apply (lanes_stay_within_cap init
           [(0, Shared (EnqueueCommand None None));
            (1, Shared (EnqueueCommand None None)); (2, ResetAllLanes);
            (3, Shared (TaskSettles 0 (Returned "stale")))]).
  intros k st Hk. discriminate Hk.
Defined.

(** Lowering the cap does not stop running tasks: the lane stays above its
    cap until enough of them complete. *)
Example cap_lowered_below_running :
  let s := run [(0, Shared (SetCommandLaneConcurrency "cron" 2));
                (1, Shared (EnqueueCommandInLane "cron" None None));
                (2, Shared (EnqueueCommandInLane "cron" None None));
                (3, Shared (SetCommandLaneConcurrency "cron" 1))] init in
  map (fun kv => (size (activeTaskIds (snd kv)), maxConcurrent (snd kv))) (lanes s)
  = [(2%nat, 1)].
Proof. by vm_compute. Qed.

End CommandQueueResetScheduling.

(* ===================================================================== *)
(** ** Lane queue with generations: settling promises                     *)
(* ===================================================================== *)

Module CommandQueueResetSettling.
Import Js Lanes LaneCallbacks LanesProofs LaneCallbacksProofs.
Import CommandQueueReset CommandQueueResetProofs.
Import CommandQueueResetScheduling.

(** Permutations of lists of handles, decided by counting occurrences. *)
Ltac count_handles :=
  repeat match goal with
         | H : _ ≡ₚ _ |- _ =>
             let H' := fresh in
             pose proof (proj1 (Permutation_count_occ Nat.eq_dec _ _) H) as H'; clear H
         end;
  apply (Permutation_count_occ Nat.eq_dec);
  let x := fresh "x" in
  intros x;
  repeat match goal with
         | H : ∀ y, count_occ _ _ y = count_occ _ _ y |- _ => specialize (H x)
         end;
  repeat rewrite count_occ_app in *;
  change (count_occ Nat.eq_dec [] x) with 0%nat in *; lia.

Lemma settled_app tr1 tr2 : settled (tr1 ++ tr2) = settled tr1 ++ settled tr2.
Proof. apply omap_app. Qed.

Lemma settled_waitEffects name e waited ahead :
  settled (waitEffects name e waited ahead) = [].
Proof.
  unfold waitEffects. destruct (_ <=? _); [|done]. by destruct (onWait e).
Qed.

Lemma waiting_mapSet name st' (s : State) :
  waiting (mapSet name st' (lanes s)) ++ queuedHandles name s
  ≡ₚ waiting (lanes s) ++ map promise (queue st').
Proof.
  unfold queuedHandles, waiting. induction (lanes s) as [|[k0 v0] ls IH]; simpl.
  - by rewrite !app_nil_r.
  - destruct (String.eqb k0 name); simpl; [clear IH|destruct (mapGet name ls)];
      count_handles.
Qed.

Lemma moves_refl s : moves 0 s s.
Proof.
  split; [by rewrite Nat.add_0_r|]. exists []. by rewrite app_nil_r.
Qed.

Lemma moves_trans n1 n2 s1 s2 s3 :
  moves n1 s1 s2 → moves n2 s2 s3 → moves (n1 + n2) s1 s3.
Proof.
  intros (Hn1 & es1 & Ht1 & Hp1) (Hn2 & es2 & Ht2 & Hp2).
  split; [lia|]. exists (es1 ++ es2). split; [by rewrite Ht2, Ht1, app_assoc|].
  rewrite seq_app, settled_app, <- Hn1. count_handles.
Qed.

(** Steps that settle nothing and keep the owned handles. *)
Lemma moves_quiet es s s' :
  nextPromise s' = nextPromise s → trace s' = trace s ++ es → settled es = [] →
  owned s' ≡ₚ owned s → moves 0 s s'.
Proof.
  intros Hn Ht Hs Ho. split; [lia|]. exists es. split; [done|]. by rewrite Hs, Ho.
Qed.

Lemma pumpLoop_settled name now gen maxC q ids next :
  settled (pumpLoop name now gen maxC q ids next).2 = [].
Proof.
  revert ids next. induction q as [|e q IH]; intros ids next; simpl; [done|].
  destruct (_ <? _); simpl; [|done]. specialize (IH ({[next]} ∪ ids) (S next)).
  destruct (pumpLoop name now gen maxC q ({[next]} ∪ ids) (S next))
    as [[[[q' ids'] next'] rs] es]. simpl in *.
  by rewrite settled_app, settled_waitEffects.
Qed.

Lemma pump_moves name now st st0 s :
  mapGet name (lanes s) = Some st0 → queue st0 = queue st →
  moves 0 s (pump name now st s).
Proof.
  intros Hg Hq. unfold pump.
  pose proof (pumpLoop_started name now (generation st) (maxConcurrent st) (queue st)
                (activeTaskIds st) (nextTaskId s) name) as (Hmove & _ & _).
  pose proof (pumpLoop_settled name now (generation st) (maxConcurrent st) (queue st)
                (activeTaskIds st) (nextTaskId s)) as Hset.
  destruct (pumpLoop _ _ _ _ _ _ _) as [[[[q' ids'] next'] rs] es]. simpl in *.
  apply (moves_quiet es); [done | done | done |].
  unfold owned. simpl.
  pose proof (waiting_mapSet name
                (mkLane (lane st) q' ids' (maxConcurrent st) false (generation st)) s) as Hw.
  unfold queuedHandles in Hw. rewrite Hg, Hq in Hw. simpl in Hw.
  rewrite Hmove, map_app, map_map in Hw. rewrite map_app. count_handles.
Qed.

(** One lane is rewritten without touching the handles in its queue. *)
Lemma rewrite_moves name st' es s s' :
  lanes s' = mapSet name st' (lanes s) →
  map promise (queue st') = queuedHandles name s →
  inflight s' = inflight s → nextPromise s' = nextPromise s →
  trace s' = trace s ++ es → settled es = [] →
  moves 0 s s'.
Proof.
  intros Hl Hq Hi Hn Ht Hs. apply (moves_quiet es); [done | done | done |].
  unfold owned. rewrite Hl, Hi. pose proof (waiting_mapSet name st' s) as Hw.
  rewrite Hq in Hw. count_handles.
Qed.

Lemma getLaneState_moves name s :
  moves 0 s (withLanes (getLaneState name (lanes s)).2 s)
  ∧ mapGet name (getLaneState name (lanes s)).2 = Some (getLaneState name (lanes s)).1
  ∧ map promise (queue (getLaneState name (lanes s)).1) = queuedHandles name s.
Proof.
  unfold getLaneState, queuedHandles.
  destruct (mapGet name (lanes s)) as [st|] eqn:E; simpl.
  - split; [|done]. apply (moves_quiet []); try done. simpl. by rewrite app_nil_r.
  - split; [|split; [apply mapGet_mapSet_eq | done]].
    apply (rewrite_moves name (mkLane name [] ∅ 1 false 0) []); try done.
    + unfold queuedHandles. by rewrite E.
    + simpl. by rewrite app_nil_r.
Qed.

Lemma drainLane_moves name now s : moves 0 s (drainLane name now s).
Proof.
  unfold drainLane. destruct (getLaneState_moves name s) as (Hm & Hget & Hq).
  destruct (getLaneState name (lanes s)) as [st ls]. simpl in *.
  destruct (draining st); [done|].
  apply (moves_trans 0 0 _ _ _ Hm). by eapply (pump_moves name now _ st).
Qed.

Lemma setCommandLaneConcurrency_moves l n now s :
  moves 0 s (setCommandLaneConcurrency l n now s).
Proof.
  unfold setCommandLaneConcurrency.
  destruct (getLaneState_moves (cleanLane l) s) as (Hm & Hget & Hq).
  destruct (getLaneState (cleanLane l) (lanes s)) as [st ls]. simpl in *.
  apply (moves_trans 0 0 _ _ _ Hm).
  eapply (moves_trans 0 0); [|apply drainLane_moves].
  eapply (rewrite_moves (cleanLane l) _ []); try done; simpl.
  - unfold queuedHandles. simpl. by rewrite Hget.
  - by rewrite app_nil_r.
Qed.

Lemma enqueueCommandInLane_moves l w cb now s :
  moves 1 s (enqueueCommandInLane l w cb now s).2.
Proof.
  unfold enqueueCommandInLane.
  destruct (getLaneState_moves (cleanLane l) s) as (Hm & Hget & Hq).
  destruct (getLaneState (cleanLane l) (lanes s)) as [st ls]. simpl in *.
  apply (moves_trans 0 1 _ _ _ Hm).
  eapply (moves_trans 1 0); [|apply drainLane_moves].
  split; [simpl; lia|]. eexists. split; [reflexivity|]. simpl.
  unfold owned. simpl.
  pose proof (waiting_mapSet (cleanLane l)
                (mkLane (lane st)
                   (queue st ++ [mkEntry (nextPromise s) now (default 2000 w) cb])
                   (activeTaskIds st) (maxConcurrent st) (draining st) (generation st))
                (withLanes ls s)) as Hw.
  unfold queuedHandles in Hw. simpl in Hw. rewrite Hget, map_app in Hw. simpl in Hw.
  change (nextPromise s :: ?l) with ([nextPromise s] ++ l). count_handles.
Qed.

Lemma settled_rejects (reason : Reason) (q : list QueueEntry) :
  settled (map (fun e => Reject (promise e) reason) q) = map promise q.
Proof. induction q as [|e q IH]; simpl; [done|]. by rewrite <- IH. Qed.

Lemma clearCommandLane_moves l s : moves 0 s (clearCommandLane l s).2.
Proof.
  unfold clearCommandLane.
  destruct (mapGet (cleanLane l) (lanes s)) as [st|] eqn:E; [|apply moves_refl]. simpl.
  split; [simpl; lia|]. eexists. split; [reflexivity|]. simpl.
  rewrite settled_rejects. unfold owned. simpl.
  pose proof (waiting_mapSet (cleanLane l)
                (mkLane (lane st) [] (activeTaskIds st) (maxConcurrent st)
                   (draining st) (generation st)) s) as Hw.
  unfold queuedHandles in Hw. rewrite E in Hw. simpl in Hw. count_handles.
Qed.

Lemma takeRunning_perm p rs r rest :
  takeRunning p rs = Some (r, rest) → promise (entry r) = p ∧ rs ≡ₚ r :: rest.
Proof.
  revert r rest. induction rs as [|r0 rs IH]; intros r rest; simpl; [done|].
  destruct (Nat.eqb_spec (promise (entry r0)) p) as [Hp|Hp].
  - by intros [= <- <-].
  - destruct (takeRunning p rs) as [[r' rest']|]; [|done].
    intros [= <- <-]. destruct (IH r' rest' eq_refl) as [Hr Hperm].
    split; [done|]. rewrite Hperm. apply perm_swap.
Qed.

(** A completion settles the task's own promise, once, and the module lets
    go of it - whether the completion is stale or not. *)
Lemma taskSettles_moves p out now s : moves 0 s (taskSettles p out now s).
Proof.
  unfold taskSettles.
  destruct (takeRunning p (inflight s)) as [[r rest]|] eqn:Et; [|apply moves_refl].
  destruct (mapGet (runLane r) (lanes s)) as [st|] eqn:Eg; [|apply moves_refl].
  apply takeRunning_perm in Et as [Hp Hperm].
  assert (map (fun r => promise (entry r)) (inflight s)
          ≡ₚ [promise (entry r)] ++ map (fun r => promise (entry r)) rest) as Hin
    by (by rewrite Hperm).
  clear Hperm.
  destruct (completeTask st (taskId r) (taskGeneration r)) as [current st1] eqn:Ec.
  apply completeTask_fields in Ec as (_ & _ & _ & Hq).
  set (s1 := mkState (mapSet (runLane r) st1 (lanes s)) (nextTaskId s) (nextPromise s)
               rest (trace s)).
  assert (waiting (mapSet (runLane r) st1 (lanes s)) ≡ₚ waiting (lanes s)) as Hw.
  { pose proof (waiting_mapSet (runLane r) st1 s) as Hw.
    unfold queuedHandles in Hw. rewrite Eg, Hq in Hw. count_handles. }
  assert (∀ es, settled es = [] →
            moves 0 (emit es s1) (pump (runLane r) now st1 (emit es s1))) as Hpump.
  { intros es Hes. eapply (pump_moves _ _ _ st1); [apply mapGet_mapSet_eq | done]. }
  assert (∀ y es x,
            trace y = trace s ++ es → nextPromise y = nextPromise s →
            lanes y = mapSet (runLane r) st1 (lanes s) → inflight y = rest →
            moves 0 y x → settled es = [] →
            ∀ last, settled [last] = [promise (entry r)] →
            moves 0 s (emit [last] x)) as Hfinish.
  { intros y es x Hty Hny Hly Hiy (Hn & es' & Ht & Hperm) Hes last Hlast.
    split; [simpl; lia|]. exists (es ++ es' ++ [last]).
    split; [simpl; rewrite Ht, Hty; by rewrite <- !app_assoc|].
    rewrite !settled_app, Hes, Hlast. clear Hlast. simpl in Hperm.
    unfold owned in *. rewrite Hly, Hiy in Hperm. simpl. count_handles. }
  destruct out as [value|err]; destruct current.
  - eapply (Hfinish (emit _ s1)); [done | done | done | done | apply Hpump | |]; done.
  - eapply (Hfinish s1 []); [by rewrite app_nil_r | done | done | done
                            | apply moves_refl | done | done].
  - eapply (Hfinish (emit _ s1)); [done | done | done | done | apply Hpump | |];
      try done; by destruct (isProbeLane _).
  - eapply (Hfinish (emit (if isProbeLane (runLane r) then []
                           else [DiagError (runLane r) (now - startTime r) err]) s1));
      [done | done | done | done | apply moves_refl | by destruct (isProbeLane _) | done].
Qed.

Lemma waiting_reset ls :
  waiting (map (fun kv => (fst kv, resetLane (snd kv))) ls) = waiting ls.
Proof.
  unfold waiting. induction ls as [|[k st] ls IH]; simpl; [done|]. by rewrite IH.
Qed.

Lemma resetAllLanes_moves now s : moves 0 s (resetAllLanes now s).
Proof.
  unfold resetAllLanes.
  assert (moves 0 s (withLanes (map (fun kv => (fst kv, resetLane (snd kv))) (lanes s)) s))
    as Hm.
  { apply (moves_quiet []); try done; simpl; [by rewrite app_nil_r|].
    unfold owned. simpl. by rewrite waiting_reset. }
  generalize dependent (withLanes (map (fun kv => (fst kv, resetLane (snd kv))) (lanes s)) s).
  induction (map _ _) as [|d D IH]; intros x Hx; simpl; [done|].
  apply IH. apply (moves_trans 0 0 _ _ _ Hx), drainLane_moves.
Qed.

Lemma step_moves s c : ∃ n, moves n s (step s c).
Proof.
  destruct c as [now [[l w cb|w cb|l n|l|p out]|]]; unfold step; simpl.
  - exists 1%nat. apply enqueueCommandInLane_moves.
  - exists 1%nat. apply enqueueCommandInLane_moves.
  - exists 0%nat. apply setCommandLaneConcurrency_moves.
  - exists 0%nat. apply clearCommandLane_moves.
  - exists 0%nat. apply taskSettles_moves.
  - exists 0%nat. apply resetAllLanes_moves.
Qed.

Lemma run_moves cs s : ∃ n, moves n s (run cs s).
Proof.
  revert s. induction cs as [|c cs IH]; intros s; simpl.
  - exists 0%nat. apply moves_refl.
  - destruct (step_moves s c) as [n1 H1]. destruct (IH (step s c)) as [n2 H2].
    exists (n1 + n2)%nat. by eapply moves_trans.
Qed.

(** With callbacks that return, the handles handed out so far are, each
    once, the settled ones, the queued ones and the running ones. *)
Lemma returning_handles_accounted (history : list (Z * Call)) :
  let s := run history init in
  NoDup (settled (trace s) ++ owned s)
  ∧ Forall (fun p => (p < nextPromise s)%nat) (settled (trace s) ++ owned s)
  ∧ settled (trace s) ++ owned s ≡ₚ seq 0 (nextPromise s).
Proof.
  intros s. destruct (run_moves history init) as (n & Hn & es & Ht & Hperm).
  fold s in Hn, Ht, Hperm. simpl in Hn, Ht, Hperm. rewrite app_nil_r in Hperm.
  rewrite Ht, <- Hperm, Hn. split; [apply NoDup_seq|]. split; [|done].
  apply Forall_forall. intros p Hp. apply elem_of_seq in Hp. lia.
Qed.

(** Provided no [onWait] callback throws: whatever is called - enqueues,
    clears, resets, completions of current and of stale tasks - no promise
    is settled twice, and a settled promise is neither queued nor running: a
    command rejected by [clearCommandLane] is never started, and a completed
    one is never rejected afterwards.  Only handles that were handed out are
    settled or held, and none is lost: every handle handed out so far is
    settled, queued or running. *)
Theorem promises_settled_at_most_once (behaviour : OnWaitBehaviour)
    (history : list (Z * Call)) :
  (∀ cb waitedMs queuedAhead, behaviour cb waitedMs queuedAhead = None) →
  let s := (CommandQueueResetCallbacks.run behaviour history init).1 in
  NoDup (settled (trace s) ++ owned s)
  ∧ Forall (fun p => (p < nextPromise s)%nat) (settled (trace s) ++ owned s)
  ∧ settled (trace s) ++ owned s ≡ₚ seq 0 (nextPromise s).
Proof.
  intros Hreturn. cbv zeta. rewrite (reset_run_returning behaviour Hreturn).
  apply returning_handles_accounted.
Qed.

Lemma promises_settled_at_most_once_witness :
  let s := (CommandQueueResetCallbacks.run returning
              [(0, Shared (EnqueueCommand None None));
               (1, Shared (EnqueueCommand (Some 0) (Some 7%nat)));
               (2, Shared (EnqueueCommand None None));
               (3, Shared (ClearCommandLane "main"));
               (4, Shared (EnqueueCommand None None));
               (5, ResetAllLanes);
               (6, Shared (TaskSettles 0 (Threw "late")));
               (7, Shared (TaskSettles 1 (Returned "gone")))] init).1 in
  NoDup (settled (trace s) ++ owned s)
  ∧ Forall (fun p => (p < nextPromise s)%nat) (settled (trace s) ++ owned s)
  ∧ settled (trace s) ++ owned s ≡ₚ seq 0 (nextPromise s).
Proof.
  exact (promises_settled_at_most_once returning
           [(0, Shared (EnqueueCommand None None));
            (1, Shared (EnqueueCommand (Some 0) (Some 7%nat)));
            (2, Shared (EnqueueCommand None None));
            (3, Shared (ClearCommandLane "main"));
            (4, Shared (EnqueueCommand None None));
            (5, ResetAllLanes);
            (6, Shared (TaskSettles 0 (Threw "late")));
            (7, Shared (TaskSettles 1 (Returned "gone")))] (fun _ _ _ => eq_refl)).
Defined.

(** A callback that throws while a completed task's continuation pumps the
    lane loses a promise and fails another: command 1, whose callback threw,
    has left the queue and is neither started nor settled, and command 0,
    whose task returned, is rejected with the value the callback threw. *)
Example throwing_callback_loses_promise :
  let behaviour : OnWaitBehaviour :=
    fun cb _ _ => if (cb =? 7)%nat then Some "boom" else None in
  let s := (CommandQueueResetCallbacks.run behaviour
              [(0, Shared (EnqueueCommand None None));
               (1, Shared (EnqueueCommand (Some 5) (Some 7%nat)));
               (2, Shared (EnqueueCommand None None));
               (10, Shared (TaskSettles 0 (Returned "a")))] init).1 in
  nextPromise s = 3%nat
  ∧ settled (trace s) = [0%nat]
  ∧ owned s = [2%nat]
  ∧ List.filter (settles 0) (trace s) = [Reject 0 (TaskThrew "boom")].
Proof. by vm_compute. Qed.

Example promises_settled_at_most_once_trace :
  let s := run [(0, Shared (EnqueueCommand None None));
                (1, Shared (EnqueueCommand None None));
                (2, Shared (EnqueueCommand None None));
                (3, Shared (ClearCommandLane "main"));
                (4, Shared (EnqueueCommand None None));
                (5, ResetAllLanes);
                (6, Shared (TaskSettles 0 (Threw "late")));
                (7, Shared (TaskSettles 1 (Returned "gone")))] init in
  settled (trace s) = [1; 2; 0]%nat ∧ owned s = [3%nat] ∧ nextPromise s = 4%nat.
Proof. by vm_compute. Qed.

End CommandQueueResetSettling.

(* ===================================================================== *)
(** ** Registry store: what loading keeps, skips and writes               *)
(* ===================================================================== *)

Module StoreLoading.
Import Js LanesProofs DeliveryContext Store StoreProofs.

Lemma mapGet_rest_other (fields : list (string * JsVal)) k :
  existsb (String.eqb k) legacyKeys = false →
  mapGet k
    (List.filter (fun kv => negb (existsb (String.eqb (fst kv)) legacyKeys)) fields)
  = mapGet k fields.
Proof.
  intros Hk. induction fields as [|[k0 v0] fields IH]; [done|].
  cbn [List.filter fst]. destruct (existsb (String.eqb k0) legacyKeys) eqn:E0; simpl.
  - destruct (String.eqb_spec k0 k) as [->|Hne]; [congruence | done].
  - by destruct (String.eqb k0 k).
Qed.

Section WithNormalizers.
Context `{Normalizers}.

(** Properties other than the four legacy ones and the three the loop sets
    are carried over as they are. *)
Lemma migrateRecord_other (isLegacy : bool) (fields : list (string * JsVal)) (k : string) :
  existsb (String.eqb k)
    (legacyKeys ++ ["requesterOrigin"; "cleanupCompletedAt"; "cleanupHandled"]) = false →
  getField (migrateRecord isLegacy (JObj fields)) k = getField (JObj fields) k.
Proof.
  intros Hk. rewrite existsb_app in Hk. apply orb_false_elim in Hk as [Hleg Hset].
  simpl in Hset. rewrite orb_false_r in Hset.
  apply orb_false_elim in Hset as [H1 Hset]. apply orb_false_elim in Hset as [H2 H3].
  rewrite String.eqb_sym in H1, H2, H3.
  unfold migrateRecord. simpl getField at 1. rewrite !mapGet_mapSet, H1, H2, H3.
  unfold restOf. by rewrite mapGet_rest_other.
Qed.

Lemma loadable_object typed :
  loadable typed = true →
  ∃ fields r, typed = JObj fields ∧ mapGet "runId" fields = Some (JStr r) ∧ r ≠ "".
Proof.
  unfold loadable. destruct typed as [| |b|n|s|xs|fields]; simpl;
    rewrite ?andb_false_r; try done.
  destruct (mapGet "runId" fields) as [[| |b|n|r|xs|fs]|] eqn:E; simpl; try done.
  destruct r; [done|]. intros _. by eexists _, _.
Qed.

(** Which run ids a load returns. *)
Lemma foldl_loadStep_keys isLegacy entries acc rid :
  is_Some (mapGet rid (foldl (loadStep isLegacy) acc entries).1)
  ↔ is_Some (mapGet rid acc.1)
    ∨ ∃ typed, (rid, typed) ∈ entries ∧ loadable typed = true.
Proof.
  revert acc. induction entries as [|[k v] entries IH]; intros acc; simpl.
  - split; [by left|]. intros [?|(typed & Hin & _)]; [done|]. by apply elem_of_nil in Hin.
  - rewrite IH. unfold loadStep. simpl. destruct (loadable v) eqn:El; simpl.
    + rewrite mapGet_mapSet. destruct (String.eqb_spec k rid) as [->|Hne].
      * split; [|intros _; by left]. intros _. right. exists v.
        split; [apply elem_of_cons; by left | done].
      * split.
        -- intros [?|(typed & Hin & Hl)]; [by left|]. right. exists typed.
           split; [apply elem_of_cons; by right | done].
        -- intros [?|(typed & Hin & Hl)]; [by left|]. right. exists typed.
           apply elem_of_cons in Hin as [[= -> ->]|Hin]; [done|]. by split.
    + split.
      * intros [?|(typed & Hin & Hl)]; [by left|]. right. exists typed.
        split; [apply elem_of_cons; by right | done].
      * intros [?|(typed & Hin & Hl)]; [by left|]. right. exists typed.
        apply elem_of_cons in Hin as [[= -> ->]|Hin]; [congruence|]. by split.
Qed.

(** What a load returns, for a file of version 1 or 2 whose [runs] is an
    object. *)
Lemma load_runs (disk : Fs) (root entries : list (string * JsVal)) (isLegacy : bool) :
  file disk = JObj root →
  getField (JObj root) "version" = JNum (if isLegacy then 1 else 2) →
  getField (JObj root) "runs" = JObj entries →
  (loadSubagentRegistryFromDisk disk).1 = (foldl (loadStep isLegacy) ([], false) entries).1.
Proof.
  intros Hfile Hver Hruns. unfold loadSubagentRegistryFromDisk, loadJsonFile.
  rewrite Hfile. cbn [truthy typeof_object negb orb]. rewrite Hver, Hruns.
  destruct isLegacy; cbn [truthy typeof_object negb orb objectEntries];
    destruct (foldl _ _ entries) as [out migrated]; simpl;
    destruct migrated; try done; by destruct (saveSubagentRegistryToDisk out disk).
Qed.

(** Loading a registry file of version 1 or 2 returns a record for exactly
    those stored entries that are objects with a non-empty string [runId],
    under the key they are stored under; everything else is skipped without
    an error.  In a returned record, every property other than the four
    legacy ones, [requesterOrigin], [cleanupCompletedAt] and [cleanupHandled]
    is the stored one - [runId] among them. *)
Theorem load_keeps_wellformed_entries (disk : Fs) (root entries : list (string * JsVal))
    (isLegacy : bool) :
  file disk = JObj root →
  getField (JObj root) "version" = JNum (if isLegacy then 1 else 2) →
  getField (JObj root) "runs" = JObj entries →
  NoDup (map fst entries) →
  let loaded := (loadSubagentRegistryFromDisk disk).1 in
  (∀ rid, is_Some (mapGet rid loaded)
          ↔ ∃ typed, (rid, typed) ∈ entries ∧ loadable typed = true)
  ∧ (∀ rid typed k,
       (rid, typed) ∈ entries → loadable typed = true →
       existsb (String.eqb k)
         (legacyKeys ++ ["requesterOrigin"; "cleanupCompletedAt"; "cleanupHandled"])
       = false →
       ∃ rec, mapGet rid loaded = Some rec ∧ getField rec k = getField typed k)
  ∧ (∀ rid rec, mapGet rid loaded = Some rec →
       ∃ r, getField rec "runId" = JStr r ∧ r ≠ "").
Proof.
  intros Hfile Hver Hruns Hnd loaded. unfold loaded.
  rewrite (load_runs disk root entries isLegacy Hfile Hver Hruns).
  destruct (foldl_loadStep isLegacy entries ([], false) Hnd) as (H1 & H2 & _).
  split; [|split].
  - intros rid. rewrite foldl_loadStep_keys. simpl. split.
    + intros [[? ?]|?]; [done | done].
    + by right.
  - intros rid typed k Hin Hl Hk. exists (migrateRecord isLegacy typed).
    split; [by apply H1|].
    destruct (loadable_object typed Hl) as (fields & r & -> & _).
    by apply migrateRecord_other.
  - intros rid rec Hrec.
    assert (is_Some (mapGet rid (foldl (loadStep isLegacy) ([], false) entries).1)) as Hs
      by (by rewrite Hrec).
    apply foldl_loadStep_keys in Hs as [[? ?]|(typed & Hin & Hl)]; [done|].
    rewrite (H1 rid typed Hin Hl) in Hrec. injection Hrec as <-.
    destruct (loadable_object typed Hl) as (fields & r & -> & Hr & Hne).
    exists r. split; [|done]. rewrite migrateRecord_other by done. simpl. by rewrite Hr.
Qed.

(** Loading a version-2 file never writes it, legacy properties in it are
    not migrated - [cleanupCompletedAt] and [cleanupHandled] are the entry's
    own when they are a number and a boolean, and undefined otherwise - but
    they are still dropped from the record. *)
Theorem load_v2_reads_only (disk : Fs) (root entries : list (string * JsVal))
    (rid : string) (typed : JsVal) :
  file disk = JObj root →
  getField (JObj root) "version" = JNum 2 →
  getField (JObj root) "runs" = JObj entries →
  NoDup (map fst entries) →
  (rid, typed) ∈ entries →
  loadable typed = true →
  (loadSubagentRegistryFromDisk disk).2 = disk
  ∧ ∃ fields,
      mapGet rid (loadSubagentRegistryFromDisk disk).1 = Some (JObj fields)
      ∧ mapGet "cleanupCompletedAt" fields
        = Some match getField typed "cleanupCompletedAt" with
               | JNum n => JNum n
               | _ => JUndefined
               end
      ∧ mapGet "cleanupHandled" fields
        = Some match getField typed "cleanupHandled" with
               | JBool b => JBool b
               | _ => JUndefined
               end
      ∧ (∀ k, k ∈ legacyKeys → mapGet k fields = None).
Proof.
  intros Hfile Hver Hruns Hnd Hin Hload. split.
  - unfold loadSubagentRegistryFromDisk, loadJsonFile. rewrite Hfile.
    cbn [truthy typeof_object negb orb]. rewrite Hver, Hruns.
    cbn [truthy typeof_object negb orb objectEntries].
    destruct (foldl_loadStep false entries ([], false) Hnd) as (_ & _ & H3).
    destruct (foldl (loadStep false) ([], false) entries) as [out migrated].
    simpl in H3. by rewrite H3.
  - rewrite (load_runs disk root entries false Hfile Hver Hruns).
    destruct (foldl_loadStep false entries ([], false) Hnd) as (H1 & _ & _).
    destruct (migrateRecord_fields false typed) as (fields & Hrec & Hc & Hh & _ & Hleg).
    exists fields. rewrite (H1 rid typed Hin Hload), Hrec. split; [done|].
    split; [rewrite Hc; by destruct (getField typed "cleanupCompletedAt"),
                              (getField typed "announceCompletedAt")|].
    split; [done|]. intros k Hk. apply Hleg, existsb_exists. exists k.
    split; [by apply list_elem_of_In | apply String.eqb_refl].
Qed.

End WithNormalizers.

(** *** Writing, then reading *)







Section WithNormalizers.
Context `{Normalizers}.





End WithNormalizers.

Lemma load_keeps_wellformed_entries_witness :
  let entries := [("run-1", sampleV1Entry); ("run-2", JStr "junk");
                  ("run-3", JObj [("runId", JStr "")])] in
  let disk := mkFs (JObj [("version", JNum 1); ("runs", JObj entries)]) true in
  let loaded := (loadSubagentRegistryFromDisk (H := sampleNormalizers) disk).1 in
  map fst loaded = ["run-1"]
  ∧ (∀ rid, is_Some (mapGet rid loaded)
            ↔ ∃ typed, (rid, typed) ∈ entries ∧ loadable typed = true).
Proof.
  split; [by vm_compute|].
  exact (proj1 (load_keeps_wellformed_entries (H := sampleNormalizers)
                  (mkFs (JObj [("version", JNum 1);
                               ("runs", JObj [("run-1", sampleV1Entry);
                                              ("run-2", JStr "junk");
                                              ("run-3", JObj [("runId", JStr "")])])])
                     true)
                  [("version", JNum 1);
                   ("runs", JObj [("run-1", sampleV1Entry); ("run-2", JStr "junk");
                                  ("run-3", JObj [("runId", JStr "")])])]
                  [("run-1", sampleV1Entry); ("run-2", JStr "junk");
                   ("run-3", JObj [("runId", JStr "")])]
                  true eq_refl eq_refl eq_refl
                  ltac:(repeat constructor; vm_compute;
                        repeat setoid_rewrite elem_of_cons;
                        setoid_rewrite elem_of_nil; intuition discriminate))).
Defined.

Lemma load_v2_reads_only_witness :
  let typed := JObj [("runId", JStr "run-1"); ("announceCompletedAt", JNum 1700);
                     ("announceHandled", JBool true); ("cleanupHandled", JStr "yes")] in
  let disk := mkFs (JObj [("version", JNum 2); ("runs", JObj [("run-1", typed)])]) true in
  (loadSubagentRegistryFromDisk (H := sampleNormalizers) disk).2 = disk
  ∧ ∃ fields,
      mapGet "run-1" (loadSubagentRegistryFromDisk (H := sampleNormalizers) disk).1
      = Some (JObj fields)
      ∧ mapGet "cleanupCompletedAt" fields = Some JUndefined
      ∧ mapGet "cleanupHandled" fields = Some JUndefined
      ∧ (∀ k, k ∈ legacyKeys → mapGet k fields = None).
Proof.
  exact (load_v2_reads_only (H := sampleNormalizers)
           (mkFs (JObj [("version", JNum 2);
                        ("runs",
                         JObj [("run-1",
                                JObj [("runId", JStr "run-1");
                                      ("announceCompletedAt", JNum 1700);
                                      ("announceHandled", JBool true);
                                      ("cleanupHandled", JStr "yes")])])]) true)
           [("version", JNum 2);
            ("runs",
             JObj [("run-1",
                    JObj [("runId", JStr "run-1"); ("announceCompletedAt", JNum 1700);
                          ("announceHandled", JBool true);
                          ("cleanupHandled", JStr "yes")])])]
           [("run-1",
             JObj [("runId", JStr "run-1"); ("announceCompletedAt", JNum 1700);
                   ("announceHandled", JBool true); ("cleanupHandled", JStr "yes")])]
           "run-1"
           (JObj [("runId", JStr "run-1"); ("announceCompletedAt", JNum 1700);
                  ("announceHandled", JBool true); ("cleanupHandled", JStr "yes")])
           eq_refl eq_refl eq_refl ltac:(apply NoDup_singleton)
           ltac:(apply list_elem_of_singleton; reflexivity) eq_refl).
Defined.


Example save_then_load_record :
  migrateRecord (H := sampleNormalizers) false
    (jsonClean (JObj [("runId", JStr "run-1"); ("label", JUndefined);
                      ("cleanupHandled", JBool false)]))
  = JObj [("runId", JStr "run-1"); ("cleanupHandled", JBool false);
          ("requesterOrigin", JUndefined); ("cleanupCompletedAt", JUndefined)].
Proof. by vm_compute. Qed.

End StoreLoading.

(* ===================================================================== *)
(** ** Subagent registry: the life of a run                               *)
(* ===================================================================== *)

Module RegistryLifecycle.
Import Js DeliveryContext Store Registry RegistryProofs.

Lemma takeFlow_None rid flows :
  takeFlow rid flows = None
  ↔ length (List.filter (fun f => String.eqb (fst f) rid) flows) = 0%nat.
Proof.
  induction flows as [|[r c] flows IH]; simpl; [done|].
  destruct (String.eqb r rid); simpl; [done|].
  destruct (takeFlow rid flows) as [[c' rest]|]; [|tauto].
  split; [done|]. intros Hz. by apply IH in Hz.
Qed.

Lemma untouched_refl rid w : untouched rid w w.
Proof. done. Qed.

Lemma untouched_trans rid w1 w2 w3 :
  untouched rid w1 w2 → untouched rid w2 w3 → untouched rid w1 w3.
Proof. intros [? ?] [? ?]. split; congruence. Qed.

Lemma untouched_persist rid w : untouched rid w (persistSubagentRuns w).
Proof. split; [by rewrite persist_runs|]. unfold pending. by rewrite persist_flows. Qed.

Lemma untouched_insert rid r e w :
  r ≠ rid → untouched rid w (withRuns (<[r := e]> (subagentRuns w)) w).
Proof. intros Hne. split; [|done]. simpl. by rewrite lookup_insert_ne. Qed.

Lemma untouched_delete rid r w :
  r ≠ rid → untouched rid w (withRuns (delete r (subagentRuns w)) w).
Proof. intros Hne. split; [|done]. simpl. by rewrite lookup_delete_ne. Qed.

Lemma untouched_begin rid r w : r ≠ rid → untouched rid w (beginSubagentCleanup r w).2.
Proof.
  intros Hne. unfold beginSubagentCleanup.
  destruct (subagentRuns w !! r) as [e|]; [|done].
  destruct (num_truthy _); [done|]. destruct (bool_truthy _); [done|]. simpl.
  eapply untouched_trans; [by apply untouched_insert | apply untouched_persist].
Qed.

Lemma untouched_finalize rid r c did now w :
  r ≠ rid → untouched rid w (finalizeSubagentCleanup r c did now w).
Proof.
  intros Hne. unfold finalizeSubagentCleanup.
  destruct (subagentRuns w !! r) as [e|]; [|done].
  destruct c; [|destruct (negb did)].
  - eapply untouched_trans; [by apply untouched_delete | apply untouched_persist].
  - eapply untouched_trans; [by apply untouched_insert | apply untouched_persist].
  - eapply untouched_trans; [by apply untouched_insert | apply untouched_persist].
Qed.

(** A closed run stays closed when what the registry holds about it does
    not change beyond fields other than the completion time. *)
Lemma closed_same rid w w' :
  closed rid w → pending rid w' = pending rid w →
  (∀ e', subagentRuns w' !! rid = Some e' →
         ∃ e, subagentRuns w !! rid = Some e
              ∧ cleanupCompletedAt e' = cleanupCompletedAt e) →
  closed rid w'.
Proof.
  intros [Hp Hc] Hp' Hr. split; [congruence|]. intros e' He'.
  destruct (Hr e' He') as (e & He & ->). eauto.
Qed.

Lemma closed_untouched rid w w' : closed rid w → untouched rid w w' → closed rid w'.
Proof.
  intros Hc [Hr Hp]. eapply closed_same; [done | done |].
  intros e'. rewrite Hr. eauto.
Qed.

Lemma closed_update rid e e' w :
  closed rid w → subagentRuns w !! rid = Some e →
  cleanupCompletedAt e' = cleanupCompletedAt e →
  closed rid (withRuns (<[rid := e']> (subagentRuns w)) w).
Proof.
  intros Hc He Heq. eapply closed_same; [done | done |]. intros x. simpl.
  rewrite lookup_insert_eq. intros [= <-]. eauto.
Qed.

Lemma closed_begin rid w : closed rid w → beginSubagentCleanup rid w = (false, w).
Proof.
  intros [_ Hc]. unfold beginSubagentCleanup.
  destruct (subagentRuns w !! rid) as [e|] eqn:E; [|done]. by rewrite (Hc e eq_refl).
Qed.

Lemma absent_begin rid w :
  subagentRuns w !! rid = None → beginSubagentCleanup rid w = (false, w).
Proof. intros Hn. unfold beginSubagentCleanup. by rewrite Hn. Qed.

Section WithNormalizers.
Context `{Normalizers}.

Lemma untouched_beginAndLaunch rid r entry w :
  r ≠ rid → untouched rid w (beginAndLaunch r entry w).2.
Proof.
  intros Hne. unfold beginAndLaunch.
  pose proof (untouched_begin rid r w Hne) as Hb.
  destruct (beginSubagentCleanup r w) as [won w1]. simpl in Hb.
  destruct won; simpl; [|done]. destruct Hb as [Hr Hp]. split; [done|].
  unfold pending in *. simpl. rewrite List.filter_app, length_app. simpl.
  destruct (String.eqb_spec r rid); [done|]. simpl. lia.
Qed.

(** A trigger about one run leaves every other run as it is. *)
Lemma step_other rid w t : triggerRun t.2 ≠ rid → untouched rid w (step w t).
Proof.
  destruct t as [now [evt|r wait|r tm|r did]]; unfold step; simpl; intros Hne.
  - unfold onLifecycleEvent.
    destruct (negb (String.eqb (stream evt) "lifecycle")); [done|].
    destruct (subagentRuns w !! evRunId evt) as [entry|] eqn:E; [|done].
    destruct (phase evt) as [| | | |ph| |]; try done.
    destruct (String.eqb ph "start").
    + destruct (evStartedAt evt) as [| | |t| | |]; try done.
      destruct (negb (t =? 0)); [|done].
      eapply untouched_trans; [by apply untouched_insert | apply untouched_persist].
    + destruct (negb (String.eqb ph "end") && negb (String.eqb ph "error")); [done|].
      eapply untouched_trans; [|by apply untouched_beginAndLaunch].
      eapply untouched_trans; [by apply untouched_insert | apply untouched_persist].
  - unfold onWaitResolved. destruct (negb _ && negb _); [done|].
    destruct (subagentRuns w !! r) as [entry|] eqn:E; [|done].
    eapply untouched_trans; [|by apply untouched_beginAndLaunch].
    eapply untouched_trans; [by apply untouched_insert | apply untouched_persist].
  - unfold resumeSubagentRun.
    destruct (str_falsy r || bool_decide (r ∈ resumedRuns w)); [done|].
    destruct (subagentRuns w !! r) as [entry|] eqn:E; [|done].
    destruct (num_truthy (cleanupCompletedAt entry)); [done|].
    destruct (endedAt entry) as [t0|]; [destruct (0 <? t0)|]; try done.
    pose proof (untouched_beginAndLaunch rid r entry w Hne) as Hb.
    destruct (beginAndLaunch r entry w) as [won w1]. simpl in Hb. by destruct won.
  - unfold onFlowDone.
    pose proof (takeFlow_pending r (pendingFlows w)) as Htake.
    destruct (takeFlow r (pendingFlows w)) as [[c rest]|]; [|done].
    specialize (Htake rid). destruct (String.eqb_spec r rid); [done|]. simpl in Htake.
    eapply untouched_trans; [|by apply untouched_finalize].
    split; [done|]. unfold pending. simpl. lia.
Qed.

Lemma closed_beginAndLaunch rid entry w :
  closed rid w → (beginAndLaunch rid entry w).2 = w.
Proof. intros Hc. unfold beginAndLaunch. by rewrite closed_begin. Qed.

Lemma closed_step rid w t : closed rid w → closed rid (step w t).
Proof.
  intros Hc. destruct (decide (triggerRun t.2 = rid)) as [Heq|Hne];
    [|by eapply closed_untouched, step_other].
  destruct t as [now [evt|r wait|r tm|r did]]; unfold step; simpl in *; subst.
  - unfold onLifecycleEvent.
    destruct (negb (String.eqb (stream evt) "lifecycle")); [done|].
    destruct (subagentRuns w !! evRunId evt) as [entry|] eqn:E; [|done].
    destruct (phase evt) as [| | | |ph| |]; try done.
    destruct (String.eqb ph "start").
    + destruct (evStartedAt evt) as [| | |t| | |]; try done.
      destruct (negb (t =? 0)); [|done].
      eapply closed_untouched; [|apply untouched_persist].
      by apply (closed_update _ entry).
    + destruct (negb (String.eqb ph "end") && negb (String.eqb ph "error")); [done|].
      rewrite closed_beginAndLaunch;
        (eapply closed_untouched; [|apply untouched_persist]);
        by apply (closed_update _ entry).
  - unfold onWaitResolved. destruct (negb _ && negb _); [done|].
    destruct (subagentRuns w !! rid) as [entry|] eqn:E; [|done].
    rewrite closed_beginAndLaunch;
      (eapply closed_untouched; [|apply untouched_persist]);
      by apply (closed_update _ entry).
  - unfold resumeSubagentRun.
    destruct (str_falsy rid || bool_decide (rid ∈ resumedRuns w)); [done|].
    destruct (subagentRuns w !! rid) as [entry|] eqn:E; [|done].
    destruct Hc as [Hp Hc]. by rewrite (Hc entry E).
  - unfold onFlowDone. destruct Hc as [Hp Hc].
    by rewrite (proj2 (takeFlow_None rid (pendingFlows w)) Hp).
Qed.

Lemma closed_run rid ts w : closed rid w → closed rid (run ts w).
Proof.
  revert w. induction ts as [|t ts IH]; intros w Hc; simpl; [done|].
  by apply IH, closed_step.
Qed.

(** The completion callback of a successful announce closes the run. *)
Lemma flowDone_closes rid now w :
  pending rid w = 1%nat → now ≠ 0 → closed rid (onFlowDone rid true now w).
Proof.
  intros Hp Hnow. unfold onFlowDone.
  pose proof (takeFlow_pending rid (pendingFlows w)) as Htake.
  pose proof (takeFlow_None rid (pendingFlows w)) as Hnone.
  destruct (takeFlow rid (pendingFlows w)) as [[c rest]|];
    [|unfold pending in Hp; rewrite (proj1 Hnone eq_refl) in Hp; done].
  specialize (Htake rid). rewrite String.eqb_refl in Htake.
  unfold pending in Hp. rewrite Hp in Htake.
  set (w0 := mkWorld _ _ _ rest _).
  assert (pending rid w0 = 0%nat) as Hz by (unfold pending; simpl; lia).
  unfold finalizeSubagentCleanup.
  destruct (subagentRuns w0 !! rid) as [entry|] eqn:E.
  - destruct c; simpl.
    + split; [unfold pending; by rewrite persist_flows|].
      intros e. rewrite persist_runs. simpl. by rewrite lookup_delete_eq.
    + split; [unfold pending; by rewrite persist_flows|].
      intros e. rewrite persist_runs. simpl. rewrite lookup_insert_eq.
      intros [= <-]. simpl. by destruct (Z.eqb_spec now 0).
  - split; [done|]. intros e. by rewrite E.
Qed.

(** Without a record, a trigger about the run does nothing but take its
    finished flow off the list. *)
Lemma absent_step rid w t :
  subagentRuns w !! rid = None →
  subagentRuns (step w t) !! rid = None ∧ (pending rid (step w t) ≤ pending rid w)%nat.
Proof.
  intros Hn. destruct (decide (triggerRun t.2 = rid)) as [Heq|Hne];
    [|destruct (step_other rid w t Hne) as [-> ->]; split; [done | lia]].
  destruct t as [now [evt|r wait|r tm|r did]]; unfold step; simpl in *; subst.
  - unfold onLifecycleEvent.
    destruct (negb (String.eqb (stream evt) "lifecycle")); [by split|].
    rewrite Hn. by split.
  - unfold onWaitResolved. destruct (negb _ && negb _); [by split|]. rewrite Hn. by split.
  - unfold resumeSubagentRun.
    destruct (str_falsy rid || bool_decide (rid ∈ resumedRuns w)); [by split|].
    rewrite Hn. by split.
  - unfold onFlowDone.
    pose proof (takeFlow_pending rid (pendingFlows w)) as Htake.
    destruct (takeFlow rid (pendingFlows w)) as [[c rest]|]; [|by split].
    unfold finalizeSubagentCleanup. simpl. rewrite Hn. split; [done|].
    specialize (Htake rid). unfold pending. simpl. lia.
Qed.

Lemma absent_run rid ts w :
  subagentRuns w !! rid = None →
  subagentRuns (run ts w) !! rid = None ∧ (pending rid (run ts w) ≤ pending rid w)%nat.
Proof.
  revert w. induction ts as [|t ts IH]; intros w Hn; simpl; [by split|].
  destruct (absent_step rid w t Hn) as [Hn' Hle].
  destruct (IH _ Hn') as [Hn'' Hle']. split; [done | lia].
Qed.

(** Once the completion callback of a successful announce has run for a run
    with one flow in progress (at a time other than [0]), the run is never
    announced again: whatever lifecycle events, [agent.wait] answers,
    resumes and flow completions follow, no flow is in progress for it and
    [beginSubagentCleanup] refuses it. *)
Theorem announced_run_stays_closed (rid : string) (now : Z) (w : World)
    (later : list (Z * Trigger)) :
  pending rid w = 1%nat → now ≠ 0 →
  let w' := run later (onFlowDone rid true now w) in
  pending rid w' = 0%nat
  ∧ (beginSubagentCleanup rid w').1 = false
  ∧ (∀ e, subagentRuns w' !! rid = Some e → num_truthy (cleanupCompletedAt e) = true).
Proof.
  intros Hp Hnow w'.
  assert (closed rid w') as Hc by by apply closed_run, flowDone_closes.
  split; [apply Hc|]. split; [by rewrite closed_begin | apply Hc].
Qed.

(** A run that [releaseSubagentRun] has taken out of the registry stays out:
    no later lifecycle event, [agent.wait] answer, resume or flow completion
    registers it again or starts a flow for it, and
    [beginSubagentCleanup] refuses it.  Releasing touches no other record,
    and releasing an unknown run changes nothing (the file is not even
    written). *)
Theorem released_run_is_forgotten (rid : string) (p : Process)
    (later : list (Z * Trigger)) :
  let w := world (releaseSubagentRun rid p) in
  let w' := run later w in
  subagentRuns w' !! rid = None
  ∧ (pending rid w' ≤ pending rid (world p))%nat
  ∧ (beginSubagentCleanup rid w').1 = false
  ∧ (∀ rid', rid' ≠ rid → subagentRuns w !! rid' = subagentRuns (world p) !! rid')
  ∧ (subagentRuns (world p) !! rid = None → w = world p).
Proof.
  intros w w'.
  assert (subagentRuns w !! rid = None ∧ pending rid w = pending rid (world p)
          ∧ ∀ rid', rid' ≠ rid → subagentRuns w !! rid' = subagentRuns (world p) !! rid')
    as (Hn & Hp & Hothers).
  { subst w. unfold releaseSubagentRun. simpl.
    destruct (subagentRuns (world p) !! rid) as [e|] eqn:E; [|done].
    rewrite persist_runs. unfold pending. rewrite persist_flows. simpl.
    split; [apply lookup_delete_eq|]. split; [done|].
    intros rid' Hne. by rewrite lookup_delete_ne. }
  destruct (absent_run rid later w Hn) as [Hn' Hle].
  split; [done|]. split; [subst w'; lia|]. split; [by rewrite absent_begin|].
  split; [done|]. intros Hnone. subst w. unfold releaseSubagentRun. by rewrite Hnone.
Qed.

(** Triggers about other runs leave a run alone: its record and the number
    of its flows in progress are what they were. *)
Theorem runs_do_not_interfere (rid : string) (ts : list (Z * Trigger)) (w : World) :
  Forall (fun t => triggerRun t.2 ≠ rid) ts →
  subagentRuns (run ts w) !! rid = subagentRuns w !! rid
  ∧ pending rid (run ts w) = pending rid w.
Proof.
  intros Hall. revert w. induction Hall as [|t ts Ht _ IH]; intros w; simpl; [done|].
  destruct (IH (step w t)) as [-> ->]. by apply step_other.
Qed.

Lemma pending_persist rid w : pending rid (persistSubagentRuns w) = pending rid w.
Proof. unfold pending. by rewrite persist_flows. Qed.

Lemma effects_beginAndLaunch rid entry w :
  subagentRuns w !! rid = Some entry →
  num_truthy (cleanupCompletedAt entry) = false →
  bool_truthy (cleanupHandled entry) = false →
  let w' := (beginAndLaunch rid entry w).2 in
  pending rid w' = S (pending rid w)
  ∧ subagentRuns w' !! rid = Some (setCleanupHandled true entry)
  ∧ last (effects w') = Some (LaunchAnnounceFlow (flowParams entry)).
Proof.
  intros He Hc Hh. unfold beginAndLaunch, beginSubagentCleanup. rewrite He, Hc, Hh.
  simpl. rewrite persist_runs. simpl. rewrite lookup_insert_eq.
  split; [|by rewrite last_snoc].
  unfold pending. simpl. rewrite persist_flows. simpl.
  rewrite List.filter_app, length_app. simpl. rewrite String.eqb_refl. simpl. lia.
Qed.

(** What an [end] or [error] lifecycle event does to a registered run that
    holds no token and no completion time. *)
Lemma lifecycle_end_launches evt now entry w :
  stream evt = "lifecycle" →
  (phase evt = JStr "end" ∨ phase evt = JStr "error") →
  subagentRuns w !! evRunId evt = Some entry →
  num_truthy (cleanupCompletedAt entry) = false →
  bool_truthy (cleanupHandled entry) = false →
  let w' := onLifecycleEvent evt now w in
  pending (evRunId evt) w' = S (pending (evRunId evt) w)
  ∧ (∃ e', subagentRuns w' !! evRunId evt = Some e' ∧ cleanupHandled e' = Some true)
  ∧ ∃ ended out,
      last (effects w') = Some (LaunchAnnounceFlow (flowParams (setEnded ended out entry))).
Proof.
  intros Hs Hph He Hc Hh. unfold onLifecycleEvent. rewrite Hs, He. simpl.
  assert (∀ ended out,
            let w1 := persistSubagentRuns
                        (withRuns (<[evRunId evt := setEnded ended out entry]>
                                     (subagentRuns w)) w) in
            let w' := (beginAndLaunch (evRunId evt) (setEnded ended out entry) w1).2 in
            pending (evRunId evt) w' = S (pending (evRunId evt) w)
            ∧ (∃ e', subagentRuns w' !! evRunId evt = Some e'
                     ∧ cleanupHandled e' = Some true)
            ∧ ∃ ended out,
                last (effects w')
                = Some (LaunchAnnounceFlow (flowParams (setEnded ended out entry))))
    as Hgen.
  { intros ended out w1 w'.
    destruct (effects_beginAndLaunch (evRunId evt) (setEnded ended out entry) w1)
      as (Hp & Hr & Hl); try done.
    { subst w1. rewrite persist_runs. simpl. by rewrite lookup_insert_eq. }
    fold w' in Hp, Hr, Hl. rewrite Hp. subst w1. rewrite pending_persist.
    split; [done|]. split; [by eexists|]. by exists ended, out. }
  destruct Hph as [-> | ->]; simpl; apply Hgen.
Qed.

(** After an announce that failed, a run kept by its flow ([cleanup] of the
    flow is [keep]) is open again: the completion callback puts the token
    back, and the next [end] or [error] lifecycle event for the run launches
    a new announce flow. *)
Theorem failed_announce_is_retried (rid : string) (e : SubagentRunRecord)
    (now now' : Z) (evt : AgentEvent) (w : World) :
  pending rid w = 1%nat → (rid, Announce.Keep) ∈ pendingFlows w →
  subagentRuns w !! rid = Some e → num_truthy (cleanupCompletedAt e) = false →
  stream evt = "lifecycle" → evRunId evt = rid →
  (phase evt = JStr "end" ∨ phase evt = JStr "error") →
  let w1 := onFlowDone rid false now w in
  let w2 := onLifecycleEvent evt now' w1 in
  pending rid w1 = 0%nat
  ∧ subagentRuns w1 !! rid = Some (setCleanupHandled false e)
  ∧ pending rid w2 = 1%nat
  ∧ (∃ e2, subagentRuns w2 !! rid = Some e2 ∧ cleanupHandled e2 = Some true)
  ∧ ∃ params, last (effects w2) = Some (LaunchAnnounceFlow params).
Proof.
  intros Hp Hin He Hc Hs Hr Hph w1 w2.
  assert (pending rid w1 = 0%nat
          ∧ subagentRuns w1 !! rid = Some (setCleanupHandled false e)) as [Hp1 He1].
  { subst w1. unfold onFlowDone.
    pose proof (takeFlow_pending rid (pendingFlows w)) as Htake.
    pose proof (takeFlow_None rid (pendingFlows w)) as Hnone.
    destruct (takeFlow rid (pendingFlows w)) as [[c rest]|] eqn:Et;
      [|unfold pending in Hp; rewrite (proj1 Hnone eq_refl) in Hp; done].
    assert (c = Announce.Keep) as ->.
    { clear Hnone Htake. unfold pending in Hp. revert rest Et Hp Hin.
      generalize (pendingFlows w). intros flows.
      induction flows as [|[r c0] flows IH]; intros rest Et Hp Hin; [done|].
      simpl in Et, Hp. destruct (String.eqb_spec r rid) as [->|Hne].
      - injection Et as <- <-. apply elem_of_cons in Hin as [[= <-]|Hin]; [done|].
        simpl in Hp. exfalso.
        assert (0 < length (List.filter (fun f => String.eqb f.1 rid) flows))%nat;
          [|lia].
        clear -Hin. induction flows as [|[r1 c1] flows IH]; [by apply elem_of_nil in Hin|].
        apply elem_of_cons in Hin as [[= <- <-]|Hin]; simpl.
        + rewrite String.eqb_refl. simpl. lia.
        + specialize (IH Hin). destruct (String.eqb r1 rid); simpl; lia.
      - apply elem_of_cons in Hin as [[= <- <-]|Hin]; [done|].
        destruct (takeFlow rid flows) as [[c' rest']|] eqn:Et'; [|done].
        injection Et as <- <-. by apply (IH rest'). }
    specialize (Htake rid). rewrite String.eqb_refl in Htake.
    unfold pending in Hp. rewrite Hp in Htake.
    unfold finalizeSubagentCleanup. simpl. rewrite He. simpl.
    rewrite pending_persist, persist_runs. simpl. rewrite lookup_insert_eq.
    split; [unfold pending; simpl; lia | done]. }
  split; [done|]. split; [done|].
  destruct (lifecycle_end_launches evt now' (setCleanupHandled false e) w1)
    as (Hp2 & He2 & ended & out & Hl); try done; try (by rewrite Hr).
  fold w2 in Hp2, He2, Hl. rewrite Hr in Hp2, He2. rewrite Hp2, Hp1.
  split; [done|]. split; [done|]. by eexists.
Qed.

Lemma resume_cases rid t w :
  (resumeSubagentRun rid t w = w ∧ ∀ t', resumeSubagentRun rid t' w = w)
  ∨ rid ∈ resumedRuns (resumeSubagentRun rid t w).
Proof.
  unfold resumeSubagentRun.
  destruct (str_falsy rid || bool_decide (rid ∈ resumedRuns w)); [by left|].
  destruct (subagentRuns w !! rid) as [entry|]; [|by left].
  destruct (num_truthy (cleanupCompletedAt entry)); [by left|].
  destruct (endedAt entry) as [t0|]; [destruct (0 <? t0)|].
  - unfold beginAndLaunch. destruct (beginSubagentCleanup rid w) as [won w1] eqn:Eb.
    destruct won; simpl; [right; set_solver|]. left.
    pose proof (begin_lost rid w) as Hl. rewrite Eb in Hl. simpl in Hl.
    by rewrite (Hl eq_refl).
  - right. simpl. set_solver.
  - right. simpl. set_solver.
Qed.

(** Resuming a run twice is resuming it once: the second call changes
    nothing, whatever wait timeout the configuration gives it. *)
Theorem resume_is_idempotent (rid : string) (t t' : Z) (w : World) :
  resumeSubagentRun rid t' (resumeSubagentRun rid t w) = resumeSubagentRun rid t w.
Proof.
  destruct (resume_cases rid t w) as [[-> Hall] | Hin]; [apply Hall|].
  generalize dependent (resumeSubagentRun rid t w). intros w' Hin.
  unfold resumeSubagentRun. rewrite (bool_decide_eq_true_2 _ Hin).
  by rewrite orb_true_r.
Qed.

(** Registering a run makes it announceable, whatever the registry held
    under that id: the record is stored with the parameters given, one
    [agent.wait] watcher is started with a timeout of at least one
    millisecond, the listener is on, and the first [end] or [error]
    lifecycle event for the run launches one announce flow that carries the
    registered task, requester and cleanup policy and does not wait for
    completion. *)
Theorem registered_run_is_announced (params : RegisterParams) (minutes : option Z)
    (waitTimeoutMs now now' : Z) (evt : AgentEvent) (p : Process) :
  stream evt = "lifecycle" → evRunId evt = rpRunId params →
  (phase evt = JStr "end" ∨ phase evt = JStr "error") →
  let p' := registerSubagentRun params minutes waitTimeoutMs now p in
  let w2 := onLifecycleEvent evt now' (world p') in
  listenerStarted p' = true
  ∧ subagentRuns (world p') !! rpRunId params = Some (registeredRecord params minutes now)
  ∧ (∃ t, last (effects (world p')) = Some (AgentWait (rpRunId params) t)
          ∧ 1 ≤ t ∧ (1 ≤ waitTimeoutMs → t = waitTimeoutMs))
  ∧ pending (rpRunId params) w2 = S (pending (rpRunId params) (world p))
  ∧ ∃ ps, last (effects w2) = Some (LaunchAnnounceFlow ps)
          ∧ Announce.childRunId ps = rpRunId params
          ∧ Announce.childSessionKey ps = rpChildSessionKey params
          ∧ Announce.requesterSessionKey ps = rpRequesterSessionKey params
          ∧ Announce.task ps = rpTask params
          ∧ Announce.label ps = rpLabel params
          ∧ Announce.cleanup ps = rpCleanup params
          ∧ Announce.waitForCompletion ps = Some false.
Proof.
  intros Hs Hr Hph p' w2.
  assert (subagentRuns (world p') !! rpRunId params
          = Some (registeredRecord params minutes now)) as He.
  { subst p'. unfold registerSubagentRun. simpl. rewrite persist_runs. simpl.
    by rewrite lookup_insert_eq. }
  assert (pending (rpRunId params) (world p') = pending (rpRunId params) (world p))
    as Hp.
  { subst p'. unfold registerSubagentRun, pending. simpl. by rewrite persist_flows. }
  split; [done|]. split; [done|]. split.
  { exists (Z.max 1 waitTimeoutMs). subst p'. unfold registerSubagentRun. simpl.
    rewrite last_snoc. split; [done|]. lia. }
  destruct (lifecycle_end_launches evt now' (registeredRecord params minutes now)
              (world p')) as (Hp2 & _ & ended & out & Hl); try done;
    try (by rewrite Hr).
  fold w2 in Hp2, Hl. rewrite Hr in Hp2. rewrite Hp2, Hp. split; [done|].
  eexists. split; [exact Hl|]. done.
Qed.

End WithNormalizers.

Lemma listed q w e :
  e ∈ listSubagentRunsForRequester q w
  ↔ trim q ≠ "" ∧ requesterSessionKey e = trim q ∧ ∃ rid, subagentRuns w !! rid = Some e.
Proof.
  unfold listSubagentRunsForRequester. destruct (trim q) as [|c k] eqn:Ek; simpl.
  - split; [by intros ?%elem_of_nil | by intros [? _]].
  - rewrite list_elem_of_In, filter_In, <- list_elem_of_In, list_elem_of_fmap. split.
    + intros [([rid v] & -> & Hin%elem_of_map_to_list) Heq%String.eqb_eq].
      split; [done|]. split; [done|]. by exists rid.
    + intros (_ & Heq & rid & Hin). split; [|by apply String.eqb_eq].
      exists (rid, e). split; [done|]. by apply elem_of_map_to_list.
Qed.

(** [listSubagentRunsForRequester] returns the registered records whose
    requester key equals the trimmed query, and nothing for a blank query;
    it follows registration and release: after [registerSubagentRun] the new
    record is among them exactly when its requester key is the trimmed
    query (the key is stored as given, so a key with surrounding white space
    or an empty one matches no query), the record it replaced is not, and
    after [releaseSubagentRun] the released record is not. *)
Theorem listing_follows_registry `{Normalizers} (params : RegisterParams)
    (minutes : option Z) (waitTimeoutMs now : Z) (rid q : string) (p : Process)
    (e : SubagentRunRecord) :
  (e ∈ listSubagentRunsForRequester q (world p)
   ↔ trim q ≠ "" ∧ requesterSessionKey e = trim q
     ∧ ∃ r, subagentRuns (world p) !! r = Some e)
  ∧ (e ∈ listSubagentRunsForRequester q
           (world (registerSubagentRun params minutes waitTimeoutMs now p))
     ↔ trim q ≠ "" ∧ requesterSessionKey e = trim q
       ∧ (e = registeredRecord params minutes now
          ∨ ∃ r, r ≠ rpRunId params ∧ subagentRuns (world p) !! r = Some e))
  ∧ (e ∈ listSubagentRunsForRequester q (world (releaseSubagentRun rid p))
     ↔ trim q ≠ "" ∧ requesterSessionKey e = trim q
       ∧ ∃ r, r ≠ rid ∧ subagentRuns (world p) !! r = Some e).
Proof.
  split; [apply listed|]. split.
  - rewrite listed. unfold registerSubagentRun. simpl. rewrite persist_runs. simpl.
    split; intros (Hq & Hk & Hr); (split; [done|]; split; [done|]).
    + destruct Hr as [r Hr]. destruct (decide (r = rpRunId params)) as [->|Hne].
      * rewrite lookup_insert_eq in Hr. left. by injection Hr.
      * rewrite lookup_insert_ne in Hr by done. right. by exists r.
    + destruct Hr as [-> | (r & Hne & Hr)].
      * exists (rpRunId params). by rewrite lookup_insert_eq.
      * exists r. by rewrite lookup_insert_ne.
  - rewrite listed. unfold releaseSubagentRun. simpl.
    destruct (subagentRuns (world p) !! rid) as [e0|] eqn:E.
    + rewrite persist_runs. simpl.
      split; intros (Hq & Hk & r & Hr); (split; [done|]; split; [done|]).
      * destruct (decide (r = rid)) as [->|Hne]; [by rewrite lookup_delete_eq in Hr|].
        rewrite lookup_delete_ne in Hr by done. by exists r.
      * destruct Hr as [Hne Hr]. exists r. by rewrite lookup_delete_ne.
    + split; intros (Hq & Hk & r & Hr); (split; [done|]; split; [done|]).
      * exists r. split; [|done]. intros ->. congruence.
      * destruct Hr as [_ Hr]. by exists r.
Qed.

Lemma announced_run_stays_closed_witness :
  let w := sampleFlowWorld (sampleRecord None (Some true)) in
  let w' := run (H := sampleNormalizers)
              [(6000, LifecycleEvent sampleEndEvent); (7000, Resume "run-1" 1000)]
              (onFlowDone "run-1" true 5000 w) in
  pending "run-1" w' = 0%nat
  ∧ (beginSubagentCleanup "run-1" w').1 = false
  ∧ (∀ e, subagentRuns w' !! "run-1" = Some e → num_truthy (cleanupCompletedAt e) = true).
Proof.
  apply (announced_run_stays_closed (H := sampleNormalizers) "run-1" 5000
           (sampleFlowWorld (sampleRecord None (Some true)))
           [(6000, LifecycleEvent sampleEndEvent); (7000, Resume "run-1" 1000)]);
    done.
Defined.

Lemma runs_do_not_interfere_witness :
  let w := sampleFlowWorld (sampleRecord None (Some true)) in
  let ts := [(6000, WaitResolved "run-2" (Announce.mkWait (Some "ok") None None None));
             (7000, FlowDone "run-2" true)] in
  subagentRuns (run (H := sampleNormalizers) ts w) !! "run-1" = subagentRuns w !! "run-1"
  ∧ pending "run-1" (run (H := sampleNormalizers) ts w) = pending "run-1" w.
Proof.
  apply (runs_do_not_interfere (H := sampleNormalizers) "run-1"
           [(6000, WaitResolved "run-2" (Announce.mkWait (Some "ok") None None None));
            (7000, FlowDone "run-2" true)]
           (sampleFlowWorld (sampleRecord None (Some true)))).
  repeat constructor; done.
Defined.

Lemma failed_announce_is_retried_witness :
  let w := sampleFlowWorld (sampleRecord None (Some true)) in
  let w1 := onFlowDone "run-1" false 5000 w in
  let w2 := onLifecycleEvent (H := sampleNormalizers) sampleEndEvent 6000 w1 in
  pending "run-1" w1 = 0%nat
  ∧ subagentRuns w1 !! "run-1"
    = Some (setCleanupHandled false (sampleRecord None (Some true)))
  ∧ pending "run-1" w2 = 1%nat
  ∧ (∃ e2, subagentRuns w2 !! "run-1" = Some e2 ∧ cleanupHandled e2 = Some true)
  ∧ ∃ params, last (effects w2) = Some (LaunchAnnounceFlow params).
Proof.
  apply (failed_announce_is_retried (H := sampleNormalizers) "run-1"
           (sampleRecord None (Some true)) 5000 6000 sampleEndEvent
           (sampleFlowWorld (sampleRecord None (Some true)))); try done.
  all: try (by left).
  all: try apply list_elem_of_here.
  all: try apply lookup_singleton_eq.
Defined.

Lemma registered_run_is_announced_witness :
  let p := mkProcess (sampleWorld (sampleRecord (Some 4000) (Some true))) false false in
  let p' := registerSubagentRun (H := sampleNormalizers) sampleRegisterParams (Some 30)
              0 5000 p in
  let w2 := onLifecycleEvent (H := sampleNormalizers) sampleEndEvent 6000 (world p') in
  listenerStarted p' = true
  ∧ subagentRuns (world p') !! "run-1"
    = Some (registeredRecord (H := sampleNormalizers) sampleRegisterParams (Some 30) 5000)
  ∧ (∃ t, last (effects (world p')) = Some (AgentWait "run-1" t)
          ∧ 1 ≤ t ∧ (1 ≤ 0 → t = 0))
  ∧ pending "run-1" w2 = S (pending "run-1" (world p))
  ∧ ∃ ps, last (effects w2) = Some (LaunchAnnounceFlow ps)
          ∧ Announce.childRunId ps = "run-1"
          ∧ Announce.childSessionKey ps = "agent:main:subagent:1"
          ∧ Announce.requesterSessionKey ps = "main"
          ∧ Announce.task ps = "summarise foo"
          ∧ Announce.label ps = Some "foo"
          ∧ Announce.cleanup ps = Announce.Keep
          ∧ Announce.waitForCompletion ps = Some false.
Proof.
  apply (registered_run_is_announced (H := sampleNormalizers) sampleRegisterParams
           (Some 30) 0 5000 6000 sampleEndEvent
           (mkProcess (sampleWorld (sampleRecord (Some 4000) (Some true))) false false));
    try done.
  by left.
Defined.

End RegistryLifecycle.

(* ===================================================================== *)
(** ** Channel plugins: removing duplicates                               *)
(* ===================================================================== *)

Module ChannelPluginsProofs.
Import Js Registry.

Section Channels.
Context {ChannelPlugin : Type} (pluginId : ChannelPlugin → string).

Lemma dedupeStep_unfold seen resolved x :
  dedupeStep pluginId (seen, resolved) x
  = if str_falsy (pluginKey pluginId x) || bool_decide (pluginKey pluginId x ∈ seen)
    then (seen, resolved)
    else ({[pluginKey pluginId x]} ∪ seen, resolved ++ [x]).
Proof. done. Qed.

Lemma dedupe_loop channels : ∀ seen resolved,
  (∀ i, i ∈ seen ↔ i ∈ pluginKey pluginId <$> resolved) →
  NoDup (pluginKey pluginId <$> resolved) →
  Forall (fun pl => pluginKey pluginId pl ≠ "") resolved →
  let out := foldl (dedupeStep pluginId) (seen, resolved) channels in
  (∀ i, i ∈ out.1 ↔ i ∈ pluginKey pluginId <$> out.2)
  ∧ NoDup (pluginKey pluginId <$> out.2)
  ∧ Forall (fun pl => pluginKey pluginId pl ≠ "") out.2
  ∧ (∃ extra, out.2 = resolved ++ extra ∧ extra `sublist_of` channels)
  ∧ (∀ l1 pl l2, channels = l1 ++ pl :: l2 → pluginKey pluginId pl ≠ "" →
                 pluginKey pluginId pl ∉ seen →
                 pluginKey pluginId pl ∉ pluginKey pluginId <$> l1 → pl ∈ out.2).
Proof.
  induction channels as [|x rest IH]; intros seen resolved Hseen Hnd Hnb; simpl.
  - do 3 (split; [done|]). split; [exists []; by rewrite app_nil_r|].
    intros [|? ?] ? ? ?; done.
  - rewrite (dedupeStep_unfold seen resolved x).
    destruct (str_falsy (pluginKey pluginId x) || bool_decide (pluginKey pluginId x ∈ seen))
      eqn:Eskip.
    + destruct (IH seen resolved Hseen Hnd Hnb) as (H1 & H2 & H3 & (extra & H4 & H5) & H6).
      do 3 (split; [done|]). split; [exists extra; split; [done | by constructor]|].
      intros [|y l1] pl l2 Heq Hk Hfresh Hfirst; simpl in Heq; injection Heq as -> ->.
      * apply orb_true_iff in Eskip as [Hblank | Hin%bool_decide_eq_true]; [|done].
        by destruct (pluginKey pluginId pl).
      * apply (H6 l1 pl l2); try done. rewrite fmap_cons in Hfirst.
        by apply not_elem_of_cons in Hfirst as [_ ?].
    + apply orb_false_iff in Eskip as [Hblank Hnew%bool_decide_eq_false].
      destruct (IH ({[pluginKey pluginId x]} ∪ seen) (resolved ++ [x]))
        as (H1 & H2 & H3 & (extra & H4 & H5) & H6).
      * intros i. rewrite fmap_app, elem_of_app, elem_of_union, Hseen. simpl.
        rewrite elem_of_singleton, list_elem_of_singleton. tauto.
      * rewrite fmap_app. apply NoDup_app. split; [done|]. split.
        -- intros i Hi. simpl. rewrite list_elem_of_singleton. intros ->.
           by apply Hseen in Hi.
        -- simpl. apply NoDup_singleton.
      * apply Forall_app. split; [done|]. constructor; [|done].
        by destruct (pluginKey pluginId x).
      * do 3 (split; [done|]). split.
        -- exists (x :: extra). rewrite H4, <- app_assoc. split; [done|].
           by apply sublist_skip.
        -- intros [|y l1] pl l2 Heq Hk Hfresh Hfirst; simpl in Heq;
             injection Heq as -> ->.
           ++ rewrite H4. apply elem_of_app. left. apply elem_of_app. right.
              apply list_elem_of_here.
           ++ rewrite fmap_cons in Hfirst. apply not_elem_of_cons in Hfirst as [Hne ?].
              apply (H6 l1 pl l2); try done.
              rewrite elem_of_union, elem_of_singleton. tauto.
Qed.

(** On a list whose ids are distinct and not blank the loop keeps
    everything. *)
Lemma dedupe_distinct channels : ∀ seen resolved,
  NoDup (pluginKey pluginId <$> channels) →
  Forall (fun pl => pluginKey pluginId pl ≠ "" ∧ pluginKey pluginId pl ∉ seen) channels →
  (foldl (dedupeStep pluginId) (seen, resolved) channels).2 = resolved ++ channels.
Proof.
  induction channels as [|x rest IH]; intros seen resolved Hnd Hall; simpl;
    [by rewrite app_nil_r|].
  apply NoDup_cons in Hnd as [Hx Hnd]. apply Forall_cons in Hall as [[Hb Hs] Hall].
  rewrite (dedupeStep_unfold seen resolved x).
  rewrite (bool_decide_eq_false_2 _ Hs), orb_false_r.
  destruct (pluginKey pluginId x) as [|c k] eqn:Ek; [done|]. simpl.
  rewrite IH, <- app_assoc; [done | done |].
  apply Forall_forall. intros pl Hpl. rewrite Forall_forall in Hall.
  destruct (Hall pl Hpl) as [? ?]. split; [done|].
  rewrite elem_of_union, elem_of_singleton. intros [Heq | ?]; [|done].
  apply Hx. rewrite <- Heq. apply (list_elem_of_fmap_2 (pluginKey pluginId)). done.
Qed.

(** [dedupeChannels] keeps, in their order, the first plugin of every id
    that is not blank once trimmed: the result is a sublist of the input,
    its trimmed ids are distinct and none is blank, every plugin that is the
    first of the input with its (non-blank) trimmed id is kept, so every such
    id of the input is represented, and running it again changes nothing. *)
Theorem dedupeChannels_keeps_first (channels : list ChannelPlugin) :
  let out := dedupeChannels pluginId channels in
  out `sublist_of` channels
  ∧ NoDup (pluginKey pluginId <$> out)
  ∧ (∀ pl, pl ∈ out → pluginKey pluginId pl ≠ "")
  ∧ (∀ l1 pl l2, channels = l1 ++ pl :: l2 → pluginKey pluginId pl ≠ "" →
                 pluginKey pluginId pl ∉ pluginKey pluginId <$> l1 → pl ∈ out)
  ∧ (∀ pl, pl ∈ channels → pluginKey pluginId pl ≠ "" →
           ∃ pl', pl' ∈ out ∧ pluginKey pluginId pl' = pluginKey pluginId pl)
  ∧ dedupeChannels pluginId out = out.
Proof.
  intros out.
  destruct (dedupe_loop channels ∅ []) as (H1 & H2 & H3 & (extra & H4 & H5) & H6);
    [set_solver | constructor | constructor |].
  fold (dedupeChannels pluginId channels) in H2, H3, H4, H6. fold out in H2, H3, H4, H6.
  simpl in H4. subst extra.
  assert (∀ l1 pl l2, channels = l1 ++ pl :: l2 → pluginKey pluginId pl ≠ "" →
                      pluginKey pluginId pl ∉ pluginKey pluginId <$> l1 → pl ∈ out) as Hfirst.
  { intros l1 pl l2 Heq Hk Hf. apply (H6 l1 pl l2); try done; set_solver. }
  split; [done|]. split; [done|]. split; [by apply Forall_forall|].
  split; [done|]. split.
  - intros pl Hin Hk.
    assert (∃ l1 pl' l2, channels = l1 ++ pl' :: l2
                         ∧ pluginKey pluginId pl' = pluginKey pluginId pl
                         ∧ pluginKey pluginId pl ∉ pluginKey pluginId <$> l1)
      as (l1 & pl' & l2 & E & Ek & Hf).
    { clear -Hin. induction channels as [|x rest IH]; [by apply elem_of_nil in Hin|].
      destruct (decide (pluginKey pluginId x = pluginKey pluginId pl)) as [Heq|Hne].
      - exists [], x, rest. split; [done|]. split; [done|]. apply not_elem_of_nil.
      - apply elem_of_cons in Hin as [->|Hin]; [done|].
        destruct (IH Hin) as (l1 & pl' & l2 & -> & Ek & Hf).
        exists (x :: l1), pl', l2. split; [done|]. split; [done|].
        rewrite fmap_cons. apply not_elem_of_cons. split; [congruence | done]. }
    exists pl'. split; [|done]. apply (Hfirst l1 pl' l2); [done | congruence |].
    by rewrite Ek.
  - unfold dedupeChannels at 1. rewrite dedupe_distinct; [done | done |].
    apply Forall_forall. intros pl Hpl. rewrite Forall_forall in H3.
    split; [by apply H3 | set_solver].
Qed.

End Channels.

End ChannelPluginsProofs.

(* ===================================================================== *)
(** ** Announce flow: what one run of the flow does                       *)
(* ===================================================================== *)

Module AnnounceFlowProofs.
Import Js DeliveryContext Announce.

Lemma firstReply_not_blank reads :
  firstReply reads = None ∨ blank (firstReply reads) = false.
Proof.
  induction reads as [|latest reads IH]; simpl; [by left|].
  destruct (blank latest) eqn:Eb; [done | by right].
Qed.

Lemma not_blank_truthy reply : blank reply = false → ostr_truthy reply = true.
Proof.
  destruct reply as [[|c s]|]; [done | done | done].
Qed.

Section WithNormalizers.
Context `{Normalizers}.

Lemma finalize_elems params env b e :
  e ∈ finalize params env b ↔
  (ostr_truthy (label params) = true
   ∧ (e = GatewaySessionsPatch (childSessionKey params) (default "" (label params))
      ∨ (patchCallOk env = false ∧ e = RuntimeError "Subagent sessions.patch failed")))
  ∨ (b = true
     ∧ (e = GatewaySessionsDelete (childSessionKey params)
        ∨ (deleteCallOk env = false ∧ e = RuntimeError "Subagent sessions.delete failed"))).
Proof.
  unfold finalize.
  destruct (ostr_truthy (label params)), (patchCallOk env), b, (deleteCallOk env);
    simpl; rewrite ?elem_of_cons, ?elem_of_nil; naive_solver.
Qed.

Lemma finalize_quiet params env b : List.filter publishes (finalize params env b) = [].
Proof.
  unfold finalize.
  by destruct (ostr_truthy (label params)), (patchCallOk env), b, (deleteCallOk env).
Qed.

Lemma queue_outcome env key text summary origin :
  match maybeQueueSubagentAnnounce env key text summary origin with
  | (QNone, effs) => effs = []
  | (_, effs) => ∃ e, effs = [e] ∧ publishes e = true ∧ messageOf e = Some text
  end.
Proof.
  unfold maybeQueueSubagentAnnounce.
  destruct (negb (truthy _)); [done|].
  destruct (_ && steerAccepted env); [by eexists|].
  destruct (requesterRunActive env && _); [by eexists | done].
Qed.

(** The effects of the flow from the second reply read on: at most one
    publishing call, then the error report if the direct send threw, then
    the [finally] block. *)
Lemma announce_shape params env reply0 outcome0 started ended :
  let r := announce params env reply0 outcome0 started ended in
  ∃ publish failure b,
    r.2 = publish ++ failure ++ finalize params env b
    ∧ (publish = [] ∨ ∃ e, publish = [e] ∧ publishes e = true)
    ∧ (failure = [] ∨ failure = [RuntimeError "Subagent announce failed"])
    ∧ (r.1 = true ↔ publish ≠ [] ∧ failure = [])
    ∧ (b = true ↔ cleanup params = Delete ∧ (r.1 = true ∨ failure ≠ [])).
Proof.
  unfold announce.
  destruct (blank _ && _ && _).
  { exists [], [], false. simpl. split; [done|]. split; [by left|]. split; [by left|].
    split; [split; [done | by intros [? _]]|]. split; [done | by intros [_ [?|?]]]. }
  set (text := joinLines _).
  pose proof (queue_outcome env (requesterSessionKey params) text
                (Some (taskLabelOf params))
                (normalizeDeliveryContext (requesterOrigin params))) as Hq.
  destruct (maybeQueueSubagentAnnounce _ _ _ _ _) as [q qe].
  set (del := match cleanup params with Delete => true | Keep => false end).
  assert (∀ P : Prop, P → (del = true ↔ cleanup params = Delete ∧ P)) as Hdel.
  { intros P HP. subst del. destruct (cleanup params); naive_solver. }
  destruct q.
  - destruct Hq as (e & -> & Hp & _). exists [e], [], del. simpl.
    split; [done|]. split; [right; by exists e|]. split; [by left|].
    split; [done|]. apply Hdel. by left.
  - destruct Hq as (e & -> & Hp & _). exists [e], [], del. simpl.
    split; [done|]. split; [right; by exists e|]. split; [by left|].
    split; [done|]. apply Hdel. by left.
  - subst qe. simpl. set (send := GatewayAgent _ _ _ _ _ _).
    destruct (agentCallOk env).
    + exists [send], [], del. simpl.
      split; [done|]. split; [right; by exists send|]. split; [by left|].
      split; [done|]. apply Hdel. by left.
    + exists [send], [RuntimeError "Subagent announce failed"], del. simpl.
      split; [done|]. split; [right; by exists send|]. split; [by right|].
      split; [split; [done | by intros [_ ?]]|]. apply Hdel. by right.
Qed.

(** The same for the whole flow, with the [agent.wait] call in front. *)
Lemma flow_shape params env :
  let r := runSubagentAnnounceFlow params env in
  ∃ waitCall publish failure b,
    r.2 = waitCall ++ publish ++ failure ++ finalize params env b
    ∧ (waitCall = []
       ∨ (waitCall = [GatewayAgentWait (childRunId params)
                        (Z.min (Z.max (timeoutMs params) 1) 120000)]
          ∧ waits params = true))
    ∧ (publish = [] ∨ ∃ e, publish = [e] ∧ publishes e = true)
    ∧ (failure = [] ∨ failure = [RuntimeError "Subagent announce failed"])
    ∧ (r.1 = true ↔ publish ≠ [] ∧ failure = [])
    ∧ (b = true ↔ cleanup params = Delete ∧ (r.1 = true ∨ failure ≠ [])).
Proof.
  unfold runSubagentAnnounceFlow.
  destruct (_ && childActiveAfterSettle env).
  { exists [], [], [], false. simpl. split; [done|]. split; [by left|]. split; [by left|].
    split; [by left|]. split; [split; [done | by intros [? _]]|].
    split; [done | by intros [_ [?|?]]]. }
  destruct (waits params) eqn:Ew.
  - destruct (agentWait env) as [wait|].
    + match goal with
      | |- context [announce ?p ?e ?r ?o ?s ?t] =>
          destruct (announce_shape p e r o s t) as (publish & failure & b & Hshape);
          destruct (announce p e r o s t) as [did effs]
      end.
      simpl in Hshape. destruct Hshape as (-> & Hrest).
      eexists [_], publish, failure, b. simpl. split; [done|]. split; [by right | done].
    + set (del := match cleanup params with Delete => true | Keep => false end).
      eexists [_], [], [RuntimeError "Subagent announce failed"], del. simpl.
      split; [done|]. split; [by right|]. split; [by left|]. split; [by right|].
      split; [split; [done | by intros [? _]]|].
      subst del. destruct (cleanup params); naive_solver.
  - match goal with
    | |- context [announce ?p ?e ?r ?o ?s ?t] =>
        destruct (announce_shape p e r o s t) as (publish & failure & b & Hshape)
    end.
    exists [], publish, failure, b. simpl. split; [apply Hshape|].
    split; [by left | apply Hshape].
Qed.

(** One run of the flow publishes at most once.  When it returns [true] it
    has published exactly once (steered, queued or sent through the gateway)
    and reported no failure; when it returns [false] it has either published
    nothing or reported that the announce failed. *)
Theorem flow_publishes_at_most_once (params : Params) (env : Env) :
  let r := runSubagentAnnounceFlow params env in
  (length (List.filter publishes r.2) ≤ 1)%nat
  ∧ (r.1 = true →
     length (List.filter publishes r.2) = 1%nat
     ∧ RuntimeError "Subagent announce failed" ∉ r.2)
  ∧ (r.1 = false →
     List.filter publishes r.2 = [] ∨ RuntimeError "Subagent announce failed" ∈ r.2).
Proof.
  intros r. destruct (flow_shape params env)
    as (waitCall & publish & failure & b & Hr & Hw & Hp & Hf & Hdid & _).
  fold r in Hr, Hdid. rewrite Hr, !List.filter_app, finalize_quiet, !app_nil_r.
  assert (List.filter publishes waitCall = []) as -> by by destruct Hw as [->|[-> _]].
  assert (List.filter publishes failure = []) as -> by by destruct Hf as [->| ->].
  assert (List.filter publishes publish = publish) as ->.
  { destruct Hp as [->|(e & -> & He)]; [done|]. simpl. by rewrite He. }
  simpl. rewrite app_nil_r.
  split; [destruct Hp as [->|(e & -> & _)]; simpl; lia|]. split.
  - intros Hd. apply Hdid in Hd as [Hne ->].
    destruct Hp as [->|(e & -> & He)]; [done|]. split; [done|].
    rewrite !elem_of_app, finalize_elems, elem_of_nil, list_elem_of_singleton.
    intros [Hin|[<-|[?|Hin]]]; try done; [|naive_solver].
    destruct Hw as [->|[-> _]]; [by apply elem_of_nil in Hin|].
    by apply list_elem_of_singleton in Hin.
  - intros Hd. destruct Hf as [->| ->].
    + left. destruct Hp as [->|(e & -> & He)]; [done|].
      assert (r.1 = true) as Ht by by apply Hdid. congruence.
    + right. rewrite !elem_of_app. right. right. left. apply list_elem_of_here.
Qed.

(** What the flow does to the child session.  [sessions.delete] is called,
    for the child session only, exactly when the cleanup policy is [delete]
    and the flow either announced or failed with an error: a flow that
    defers because the child run is still active keeps the session.  The
    label, when there is one, is patched onto the child session on every
    path.  Both calls come after everything the flow publishes. *)
Theorem child_session_cleanup (params : Params) (env : Env) :
  let r := runSubagentAnnounceFlow params env in
  (∀ k, GatewaySessionsDelete k ∈ r.2
        ↔ k = childSessionKey params ∧ cleanup params = Delete
          ∧ (r.1 = true ∨ RuntimeError "Subagent announce failed" ∈ r.2))
  ∧ (∀ k l, GatewaySessionsPatch k l ∈ r.2
            ↔ k = childSessionKey params ∧ label params = Some l ∧ l ≠ "")
  ∧ ∃ before after,
      r.2 = before ++ after
      ∧ (∀ e, e ∈ after → publishes e = false)
      ∧ (∀ k l, (GatewaySessionsDelete k ∉ before) ∧ (GatewaySessionsPatch k l ∉ before)).
Proof.
  intros r. destruct (flow_shape params env)
    as (waitCall & publish & failure & b & Hr & Hw & Hp & Hf & Hdid & Hb).
  fold r in Hr, Hdid, Hb.
  assert (∀ e, e ∈ waitCall ++ publish ++ failure →
               (∀ k, e ≠ GatewaySessionsDelete k) ∧ (∀ k l, e ≠ GatewaySessionsPatch k l)
               ∧ (e = RuntimeError "Subagent announce failed" → failure ≠ []))
    as Hbody.
  { intros e. rewrite !elem_of_app. intros [Hin|[Hin|Hin]].
    - destruct Hw as [->|[-> _]]; [by apply elem_of_nil in Hin|].
      apply list_elem_of_singleton in Hin as ->. done.
    - destruct Hp as [->|(e' & -> & He)]; [by apply elem_of_nil in Hin|].
      apply list_elem_of_singleton in Hin as ->.
      split; [by intros k ->|]. split; [by intros k l ->|]. by intros ->.
    - destruct Hf as [->| ->]; [by apply elem_of_nil in Hin|].
      apply list_elem_of_singleton in Hin as ->. done. }
  assert (RuntimeError "Subagent announce failed" ∈ r.2 ↔ failure ≠ []) as Hfail.
  { rewrite Hr, !app_assoc, elem_of_app, finalize_elems, <- !app_assoc. split.
    - intros [Hin|?]; [by eapply Hbody | naive_solver].
    - intros Hne. left. destruct Hf as [->| ->]; [done|].
      rewrite !elem_of_app. right. right. apply list_elem_of_here. }
  split; [|split].
  - intros k. rewrite Hfail, Hr, !app_assoc, elem_of_app, finalize_elems, <- !app_assoc.
    split.
    + intros [Hin|[[_ [?|[_ ?]]]|[Hbt [Heq|[_ ?]]]]]; try done.
      * destruct (Hbody _ Hin) as (H1 & _). by destruct (H1 k).
      * injection Heq as ->. split; [done|]. by apply Hb.
    + intros (-> & Hc & Hd). right. right. split; [by apply Hb | by left].
  - intros k l. rewrite Hr, !app_assoc, elem_of_app, finalize_elems, <- !app_assoc.
    split.
    + intros [Hin|[[Hl [Heq|[_ ?]]]|[_ [?|[_ ?]]]]]; try done.
      * destruct (Hbody _ Hin) as (_ & H2 & _). by destruct (H2 k l).
      * injection Heq as -> ->. destruct (label params) as [[|c s]|]; done.
    + intros (-> & Hl & Hne). right. left. rewrite Hl. simpl.
      split; [by destruct l | by left].
  - exists (waitCall ++ publish ++ failure), (finalize params env b).
    split; [by rewrite Hr, <- !app_assoc|]. split.
    + intros e He. pose proof (finalize_quiet params env b) as Hq.
      destruct (publishes e) eqn:Ep; [|done].
      assert (e ∈ List.filter publishes (finalize params env b)) as Hin
        by (apply list_elem_of_In, filter_In; by rewrite <- list_elem_of_In).
      rewrite Hq in Hin. by apply elem_of_nil in Hin.
    + intros k l. split; intros Hin; apply Hbody in Hin as (H1 & H2 & _);
        [by apply (H1 k) | by apply (H2 k l)].
Qed.

(** The flow asks [agent.wait] only when it has no first-round reply and
    was not told not to wait, for the child run, and with a timeout clamped
    to between one millisecond and two minutes. *)
Theorem agent_wait_is_bounded (params : Params) (env : Env) (rid : string) (t : Z) :
  GatewayAgentWait rid t ∈ (runSubagentAnnounceFlow params env).2 →
  rid = childRunId params
  ∧ 1 ≤ t ≤ 120000
  ∧ (1 ≤ timeoutMs params ≤ 120000 → t = timeoutMs params)
  ∧ ostr_truthy (roundOneReply params) = false
  ∧ waitForCompletion params ≠ Some false.
Proof.
  destruct (flow_shape params env)
    as (waitCall & publish & failure & b & Hr & Hw & Hp & Hf & _).
  rewrite Hr, !elem_of_app, finalize_elems. intros [Hin|[Hin|[Hin|Hin]]].
  - destruct Hw as [->|[-> Hwaits]]; [by apply elem_of_nil in Hin|].
    apply list_elem_of_singleton in Hin. injection Hin as -> ->.
    split; [done|]. split; [lia|]. split; [lia|].
    unfold waits in Hwaits. apply andb_true_iff in Hwaits as [Hr1 Hw1].
    split; [by apply negb_true_iff|].
    apply negb_true_iff in Hw1. by apply bool_decide_eq_false in Hw1.
  - destruct Hp as [->|(e & -> & He)]; [by apply elem_of_nil in Hin|].
    apply list_elem_of_singleton in Hin as <-. done.
  - destruct Hf as [->| ->]; [by apply elem_of_nil in Hin|].
    by apply list_elem_of_singleton in Hin.
  - naive_solver.
Qed.

(** The reply the announcement reports is never blank: it is a text with
    something other than white space in it, or absent.  A reply in hand
    that is not blank is reported as it is, without further reads; the retry
    loop returns the first read that is not blank, and no read at all when
    its budget is not positive.  So the findings line of the message is the
    reply, or the placeholder exactly when there is none. *)
Theorem reported_reply_is_never_blank (params : Params) (env : Env)
    (reply0 : option string) :
  let reply := settleReply params env reply0 in
  (reply = None ∨ blank reply = false)
  ∧ (blank reply0 = false → reply = reply0)
  ∧ (∀ initial maxWaitMs,
       let retried := readLatestAssistantReplyWithRetry env initial maxWaitMs in
       (retried = None ∨ blank retried = false)
       ∧ (blank initial = false → retried = initial)
       ∧ (blank initial = true → maxWaitMs ≤ 0 → retried = None))
  ∧ (∀ name taskLabel outcome stats,
       triggerLines name taskLabel outcome reply stats !! 3%nat
       = Some (default "(no output)" reply)).
Proof.
  intros reply.
  assert (∀ initial maxWaitMs,
            let retried := readLatestAssistantReplyWithRetry env initial maxWaitMs in
            (retried = None ∨ blank retried = false)
            ∧ (blank initial = false → retried = initial)
            ∧ (blank initial = true → maxWaitMs ≤ 0 → retried = None)) as Hretry.
  { intros initial maxWaitMs. unfold readLatestAssistantReplyWithRetry.
    destruct (blank initial) eqn:Eb; simpl.
    - split; [|split; [done|]].
      + destruct (0 <? _); [apply firstReply_not_blank | by left].
      + intros _ Hle. destruct (Z.ltb_spec 0 (Z.max 0 (Z.min maxWaitMs 15000))); [lia|done].
    - split; [by right|]. by split. }
  assert (reply = None ∨ blank reply = false) as Hreply.
  { subst reply. unfold settleReply.
    destruct (blank (if ostr_truthy reply0 then reply0 else replySecondRead env)) eqn:Eb;
      [apply Hretry | by right]. }
  split; [done|]. split; [|split; [done|]].
  - intros Hnb. subst reply. unfold settleReply.
    rewrite (not_blank_truthy _ Hnb). by rewrite Hnb.
  - intros name taskLabel outcome stats. simpl.
    destruct Hreply as [Hn|Hnb]; [by rewrite Hn|]. rewrite (not_blank_truthy _ Hnb).
    clearbody reply. by destruct reply.
Qed.

End WithNormalizers.

Lemma agent_wait_is_bounded_witness :
  let params :=
    mkParams "agent:main:subagent:1" "run-1" "main" JUndefined "main" "summarise foo"
      500000 Keep None None (Some 1000) None (Some "foo") None None in
  GatewayAgentWait "run-1" 120000
    ∈ (runSubagentAnnounceFlow (H := Store.sampleNormalizers) params
         (sampleEnv true "done")).2
  ∧ "run-1" = childRunId params
  ∧ 1 ≤ 120000 ≤ 120000
  ∧ (1 ≤ timeoutMs params ≤ 120000 → 120000 = timeoutMs params)
  ∧ ostr_truthy (roundOneReply params) = false
  ∧ waitForCompletion params ≠ Some false.
Proof.
  assert (GatewayAgentWait "run-1" 120000
            ∈ (runSubagentAnnounceFlow (H := Store.sampleNormalizers)
                 (mkParams "agent:main:subagent:1" "run-1" "main" JUndefined "main"
                    "summarise foo" 500000 Keep None None (Some 1000) None (Some "foo")
                    None None)
                 (sampleEnv true "done")).2) as Hin by apply list_elem_of_here.
  split; [exact Hin|].
  exact (agent_wait_is_bounded (H := Store.sampleNormalizers) _ _ _ _ Hin).
Defined.

End AnnounceFlowProofs.

(* ===================================================================== *)
(** ** Delivery contexts: normal forms and merging                        *)
(* ===================================================================== *)

Module DeliveryContextProofs.
Import Js DeliveryContext.

Lemma trimStart_head s :
  trimStart s = "" ∨ ∃ c r, trimStart s = String c r ∧ is_ws c = false.
Proof.
  induction s as [|c s IH]; simpl; [by left|].
  destruct (is_ws c) eqn:Ec; [done|]. right. by exists c, s.
Qed.

Lemma trimEnd_head c s : trimEnd (String c s) = "" ∨ ∃ r, trimEnd (String c s) = String c r.
Proof.
  simpl. destruct (trimEnd s); [destruct (is_ws c)|]; eauto.
Qed.

Lemma trimEnd_idem s : trimEnd (trimEnd s) = trimEnd s.
Proof.
  induction s as [|c s IH]; simpl; [done|].
  destruct (trimEnd s) as [|c' r] eqn:Er.
  - destruct (is_ws c) eqn:Ec; simpl; [done|]. by rewrite Ec.
  - simpl in *. by rewrite IH.
Qed.

Lemma trim_idem s : trim (trim s) = trim s.
Proof.
  unfold trim. destruct (trimStart_head s) as [->|(c & r & -> & Hc)]; [done|].
  destruct (trimEnd_head c r) as [->|[r' Hr]]; [done|].
  rewrite Hr. simpl trimStart. rewrite Hc, <- Hr. apply trimEnd_idem.
Qed.

(** A field value in normal form: absent, or a string that is not empty
    and has no white space around it. *)
Lemma clean_cases (s : string) :
  (if str_falsy (trim s) then JUndefined else JStr (trim s)) = JUndefined
  ∨ ∃ t, (if str_falsy (trim s) then JUndefined else JStr (trim s)) = JStr t
         ∧ t ≠ "" ∧ trim t = t.
Proof.
  destruct (trim s) as [|c r] eqn:E; simpl; [by left|].
  right. exists (String c r). split; [done|]. split; [done|].
  by rewrite <- E, trim_idem.
Qed.

Section WithNormalizers.
Context `{Normalizers}.

(** The four fields of a normalised context. *)
Lemma normalized_fields context :
  let n := normalizeDeliveryContext context in
  (n = JUndefined ∨ ∃ fields, n = JObj fields)
  ∧ (getField n "channel" = JUndefined ∨ ∃ s, getField n "channel" = JStr s ∧ s ≠ "")
  ∧ (getField n "to" = JUndefined
     ∨ ∃ s, getField n "to" = JStr s ∧ s ≠ "" ∧ trim s = s)
  ∧ (getField n "threadId" = JUndefined
     ∨ (∃ z, getField n "threadId" = JNum z)
     ∨ ∃ s, getField n "threadId" = JStr s ∧ s ≠ "" ∧ trim s = s)
  ∧ (n ≠ JUndefined →
     truthy (getField n "channel") = true ∨ truthy (getField n "to") = true
     ∨ truthy (getField n "accountId") = true ∨ getField n "threadId" ≠ JUndefined).
Proof.
  unfold normalizeDeliveryContext.
  destruct (negb (truthy context)); [simpl; naive_solver|].
  set (channel := match getField context "channel" with
                  | JStr c => Some (default (trim c) (normalizeMessageChannel c))
                  | _ => None
                  end).
  set (accountId := normalizeAccountId (getField context "accountId")).
  assert (∃ to, match getField context "to" with
                | JStr t => Some (trim t)
                | _ => None
                end = to ∧ (to = None ∨ ∃ t, to = Some (trim t))) as (to & -> & Hto).
  { destruct (getField context "to"); eauto. }
  clearbody channel accountId.
  destruct (getField context "threadId") as [| | |n|t1| |];
    try (pose proof (trim_idem t1) as Ht1; destruct (trim t1) as [|u0 u'] eqn:Et1);
    destruct Hto as [->|[t ->]];
    try (pose proof (trim_idem t) as Ht; destruct (trim t) as [|t0 t'] eqn:Et);
    destruct channel as [[|c0 c]|], accountId as [[|a0 a]|]; simpl;
    (split; [first [by left | right; by eexists]|]);
    (split; [first [by left | right; eexists; by split]|]);
    (split; [first [by left | right; eexists; split; [done|]; split; [done | exact Ht]]|]);
    (split; [first [by left | right; left; by eexists
                   | right; right; eexists; split; [done|]; split; [done | exact Ht1]]|]);
    intros Hn;
    first [done | by left | right; by left | right; right; by left | by do 3 right].
Qed.

(** Normalising a context whose [to] and [threadId] are in normal form
    keeps them. *)
Lemma normalize_keeps channel to accountId threadId :
  (to = JUndefined ∨ ∃ s, to = JStr s ∧ s ≠ "" ∧ trim s = s) →
  (threadId = JUndefined ∨ (∃ z, threadId = JNum z)
   ∨ ∃ s, threadId = JStr s ∧ s ≠ "" ∧ trim s = s) →
  let n := normalizeDeliveryContext
             (JObj [("channel", channel); ("to", to); ("accountId", accountId);
                    ("threadId", threadId)]) in
  getField n "to" = to ∧ getField n "threadId" = threadId.
Proof.
  intros Hto Hth. unfold normalizeDeliveryContext. simpl.
  set (ch := match channel with
             | JStr c => Some (default (trim c) (normalizeMessageChannel c))
             | _ => None
             end).
  set (acc := normalizeAccountId accountId). clearbody ch acc.
  destruct Hto as [->|(t & -> & Ht & Htt)], Hth as [->|[[z ->]|(s & -> & Hs & Hts)]];
    rewrite ?Htt, ?Hts;
    try (destruct t as [|t0 t']; [done|]); try (destruct s as [|s0 s']; [done|]);
    destruct ch as [[|c0 c]|], acc as [[|a0 a]|]; done.
Qed.

Lemma coalesce_clean (P : JsVal → Prop) a b :
  P JUndefined → (a = JUndefined ∨ (a ≠ JUndefined ∧ a ≠ JNull ∧ P a)) →
  P b → P (coalesce a b).
Proof.
  intros Hu [->|(Hna & Hnn & Ha)] Hb; [done|]. by destruct a.
Qed.

(** When two contexts are merged, the primary one wins field by field for
    the recipient and the thread: the merged [to] is the primary's
    normalised [to] when it has one and the fallback's otherwise, and so is
    the merged [threadId]; nothing is merged out of two contexts that
    normalise to nothing. *)
Theorem merge_prefers_primary (primary fallback : JsVal) :
  let np := normalizeDeliveryContext primary in
  let nf := normalizeDeliveryContext fallback in
  let m := mergeDeliveryContext primary fallback in
  getField m "to" = coalesce (getField np "to") (getField nf "to")
  ∧ getField m "threadId" = coalesce (getField np "threadId") (getField nf "threadId")
  ∧ (np = JUndefined → nf = JUndefined → m = JUndefined).
Proof.
  intros np nf m.
  destruct (normalized_fields primary) as (Hp & _ & Hpt & Hph & _).
  destruct (normalized_fields fallback) as (Hf & _ & Hft & Hfh & _).
  fold np in Hp, Hpt, Hph. fold nf in Hf, Hft, Hfh.
  subst m. unfold mergeDeliveryContext. fold np nf.
  destruct (negb (truthy np) && negb (truthy nf)) eqn:Eboth.
  - apply andb_true_iff in Eboth as [Ep Ef].
    destruct Hp as [->|[fp ->]]; [|done]. destruct Hf as [->|[ff ->]]; [|done]. done.
  - split; [|split].
    + apply normalize_keeps.
      * apply (coalesce_clean (fun v => v = JUndefined ∨ ∃ s, v = JStr s ∧ _));
          [by left | | done].
        destruct Hpt as [->|(s & -> & ?)]; [by left|].
        right. split; [done|]. split; [done|]. eauto.
      * apply (coalesce_clean
                 (fun v => v = JUndefined ∨ (∃ z, v = JNum z) ∨ ∃ s, v = JStr s ∧ _));
          [by left | | done].
        destruct Hph as [->|[[z ->]|(s & -> & ?)]]; [by left | |];
          right; (split; [done|]); (split; [done|]); eauto 6.
    + apply normalize_keeps.
      * apply (coalesce_clean (fun v => v = JUndefined ∨ ∃ s, v = JStr s ∧ _));
          [by left | | done].
        destruct Hpt as [->|(s & -> & ?)]; [by left|].
        right. split; [done|]. split; [done|]. eauto.
      * apply (coalesce_clean
                 (fun v => v = JUndefined ∨ (∃ z, v = JNum z) ∨ ∃ s, v = JStr s ∧ _));
          [by left | | done].
        destruct Hph as [->|[[z ->]|(s & -> & ?)]]; [by left | |];
          right; (split; [done|]); (split; [done|]); eauto 6.
    + intros -> ->. done.
Qed.

(** A normalised delivery context is never empty and never carries blank
    text: the result is [undefined] or an object; its [channel] is absent or
    a non-empty string; its [to] and a textual [threadId] are absent or
    non-empty and trimmed; and an object has at least one of channel,
    recipient, account and thread. *)
Theorem normalized_context_is_clean (context : JsVal) :
  let n := normalizeDeliveryContext context in
  (n = JUndefined ∨ ∃ fields, n = JObj fields)
  ∧ (truthy context = false → n = JUndefined)
  ∧ (getField n "channel" = JUndefined ∨ ∃ s, getField n "channel" = JStr s ∧ s ≠ "")
  ∧ (getField n "to" = JUndefined
     ∨ ∃ s, getField n "to" = JStr s ∧ s ≠ "" ∧ trim s = s)
  ∧ (getField n "threadId" = JUndefined
     ∨ (∃ z, getField n "threadId" = JNum z)
     ∨ ∃ s, getField n "threadId" = JStr s ∧ s ≠ "" ∧ trim s = s)
  ∧ (n ≠ JUndefined →
     truthy (getField n "channel") = true ∨ truthy (getField n "to") = true
     ∨ truthy (getField n "accountId") = true ∨ getField n "threadId" ≠ JUndefined).
Proof.
  intros n. destruct (normalized_fields context) as (H1 & H2 & H3 & H4 & H5).
  split; [done|]. split; [|done].
  intros Hf. subst n. unfold normalizeDeliveryContext. by rewrite Hf.
Qed.

End WithNormalizers.

End DeliveryContextProofs.

(* ===================================================================== *)
(** ** Counter-based lane queue: the active counter                       *)
(* ===================================================================== *)

Module CommandQueueCounting.
Import Js Lanes LaneCallbacks LanesProofs LaneCallbacksProofs.
Import CommandQueue CommandQueueProofs.

Lemma running_lane k name rs :
  Forall (fun r => runLane r = name) rs →
  length (running k rs) = if String.eqb name k then length rs else 0%nat.
Proof.
  induction 1 as [|r rs Hr _ IH]; simpl; [by destruct (String.eqb name k)|].
  rewrite Hr. destruct (String.eqb name k); simpl; [by rewrite IH | done].
Qed.

Lemma pumpLoop_count name now maxC q act :
  let r := pumpLoop name now maxC q act in
  r.1.1.2 = act + Z.of_nat (length r.1.2)
  ∧ Forall (fun x => runLane x = name) r.1.2
  ∧ (r.1.1.1 = [] ∨ maxC ≤ r.1.1.2).
Proof.
  revert act. induction q as [|e q IH]; intros act; simpl.
  - split; [lia|]. split; [constructor | by left].
  - destruct (Z.ltb_spec act maxC); simpl.
    + specialize (IH (act + 1)).
      destruct (pumpLoop name now maxC q (act + 1)) as [[[q' act'] rs] es]. simpl in *.
      destruct IH as (Ha & Hl & Hs). split; [lia|]. split; [by constructor | done].
    + split; [lia|]. split; [constructor | by right].
Qed.

Lemma pump_ok name now st st0 s :
  counted s → restExcept (Some name) s →
  mapGet name (lanes s) = Some st0 → active st = active st0 →
  counted (pump name now st s) ∧ restExcept None (pump name now st s).
Proof.
  intros Hc Hr Hg Ha. unfold pump.
  destruct (pumpLoop_count name now (maxConcurrent st) (queue st) (active st))
    as (Hact & Hl & Hs).
  destruct (pumpLoop _ _ _ _ _) as [[[q' act'] rs] es]. simpl in *. split.
  - intros k. simpl. unfold running. rewrite List.filter_app, length_app.
    fold (running k (inflight s)) (running k rs).
    rewrite (running_lane k name rs Hl), Nat2Z.inj_add, (Hc k).
    destruct (String.eqb_spec name k) as [<-|Hne].
    + rewrite mapGet_mapSet_eq, Hg. simpl. lia.
    + rewrite mapGet_mapSet_ne by done. simpl. lia.
  - intros k st'. simpl. destruct (String.eqb_spec name k) as [<-|Hne].
    + rewrite mapGet_mapSet_eq. intros [= <-]. simpl. split; [done|]. by right.
    + rewrite mapGet_mapSet_ne by done. intros Hk.
      destruct (Hr k st' Hk) as [Hd [[= ->]|Hsat]]; [done|]. split; [done | by right].
Qed.

(** Replacing one lane's state without changing its counter. *)
Lemma lane_set k st' s s' :
  counted s → restExcept None s →
  lanes s' = mapSet k st' (lanes s) → inflight s' = inflight s →
  active st' = match mapGet k (lanes s) with Some st => active st | None => 0 end →
  draining st' = false →
  counted s' ∧ restExcept (Some k) s'.
Proof.
  intros Hc Hr Hl Hi Ha Hd. split.
  - intros k'. rewrite Hl, Hi, (Hc k'). destruct (String.eqb_spec k k') as [<-|Hne].
    + by rewrite mapGet_mapSet_eq, Ha.
    + by rewrite mapGet_mapSet_ne.
  - intros k' st. rewrite Hl. destruct (String.eqb_spec k k') as [<-|Hne].
    + rewrite mapGet_mapSet_eq. intros [= <-]. split; [done | by left].
    + rewrite mapGet_mapSet_ne by done. intros Hk.
      destruct (Hr k' st Hk) as [? [?|?]]; [done|]. split; [done | by right].
Qed.

Lemma rest_weaken D s : restExcept None s → restExcept D s.
Proof.
  intros Hr k st Hk. destruct (Hr k st Hk) as [? [?|?]]; [done|]. split; [done | by right].
Qed.

Lemma getLaneState_counted name s :
  counted s → restExcept None s →
  let s' := withLanes (getLaneState name (lanes s)).2 s in
  counted s' ∧ restExcept None s'
  ∧ mapGet name (lanes s') = Some (getLaneState name (lanes s)).1
  ∧ draining (getLaneState name (lanes s)).1 = false.
Proof.
  intros Hc Hr. unfold getLaneState.
  destruct (mapGet name (lanes s)) as [st|] eqn:E; simpl.
  - split; [done|]. split; [done|]. split; [done|]. by destruct (Hr name st E).
  - destruct (lane_set name (mkLane name [] 0 1 false) s
                (withLanes (mapSet name (mkLane name [] 0 1 false) (lanes s)) s))
      as [Hc' Hr']; try done; [by rewrite E|].
    split; [done|]. split; [|split; [apply mapGet_mapSet_eq | done]].
    intros k st Hk. destruct (Hr' k st Hk) as [Hd [[= ->]|Hsat]];
      [|split; [done | by right]].
    simpl in Hk. rewrite mapGet_mapSet_eq in Hk. injection Hk as <-.
    split; [done|]. right. by left.
Qed.

Lemma drainLane_ok name now s :
  counted s → restExcept (Some name) s →
  counted (drainLane name now s) ∧ restExcept None (drainLane name now s).
Proof.
  intros Hc Hr. unfold drainLane, getLaneState.
  destruct (mapGet name (lanes s)) as [st|] eqn:E.
  - destruct (Hr name st E) as [-> _].
    by apply (pump_ok _ _ _ st).
  - simpl. apply (pump_ok _ _ _ (mkLane name [] 0 1 false)); simpl; try done.
    + intros k. simpl. rewrite (Hc k). destruct (String.eqb_spec name k) as [<-|Hne].
      * by rewrite mapGet_mapSet_eq, E.
      * by rewrite mapGet_mapSet_ne.
    + intros k st. simpl. destruct (String.eqb_spec name k) as [<-|Hne].
      * rewrite mapGet_mapSet_eq. intros [= <-]. split; [done | by left].
      * rewrite mapGet_mapSet_ne by done. apply Hr.
    + apply mapGet_mapSet_eq.
Qed.

Lemma setCommandLaneConcurrency_ok l n now s :
  counted s → restExcept None s →
  counted (setCommandLaneConcurrency l n now s)
  ∧ restExcept None (setCommandLaneConcurrency l n now s).
Proof.
  intros Hc Hr. unfold setCommandLaneConcurrency.
  destruct (getLaneState_counted (cleanLane l) s Hc Hr) as (Hc1 & Hr1 & Hg & Hd).
  destruct (getLaneState (cleanLane l) (lanes s)) as [st ls]. simpl in *.
  match goal with |- context [drainLane _ _ ?x] => set (s2 := x) end.
  destruct (lane_set (cleanLane l)
              (mkLane (lane st) (queue st) (active st) (Z.max 1 n) (draining st))
              (withLanes ls s) s2) as [Hc2 Hr2]; try done; [simpl; by rewrite Hg|].
  by apply drainLane_ok.
Qed.

Lemma enqueueCommandInLane_ok l w cb now s :
  counted s → restExcept None s →
  counted (enqueueCommandInLane l w cb now s).2
  ∧ restExcept None (enqueueCommandInLane l w cb now s).2.
Proof.
  intros Hc Hr. unfold enqueueCommandInLane.
  destruct (getLaneState_counted (cleanLane l) s Hc Hr) as (Hc1 & Hr1 & Hg & Hd).
  destruct (getLaneState (cleanLane l) (lanes s)) as [st ls]. simpl in *.
  match goal with |- context [drainLane _ _ ?x] => set (s2 := x) end.
  destruct (lane_set (cleanLane l)
              (mkLane (lane st)
                 (queue st ++ [mkEntry (nextPromise s) now (default 2000 w) cb])
                 (active st) (maxConcurrent st) (draining st))
              (withLanes ls s) s2) as [Hc2 Hr2]; try done; [simpl; by rewrite Hg|].
  by apply drainLane_ok.
Qed.

Lemma clearCommandLane_ok l s :
  counted s → restExcept None s →
  counted (clearCommandLane l s).2 ∧ restExcept None (clearCommandLane l s).2.
Proof.
  intros Hc Hr. unfold clearCommandLane.
  destruct (mapGet (cleanLane l) (lanes s)) as [st|] eqn:E; [|done]. simpl.
  match goal with |- counted ?x ∧ _ => set (s2 := x) end.
  destruct (Hr _ st E) as [Hd _].
  destruct (lane_set (cleanLane l)
              (mkLane (lane st) [] (active st) (maxConcurrent st) (draining st)) s s2)
    as [Hc2 Hr2]; try done; [by rewrite E|].
  split; [done|]. intros k st' Hk. destruct (Hr2 k st' Hk) as [Hd' [[= ->]|Hsat]];
    [|split; [done | by right]].
  unfold s2 in Hk. simpl in Hk. rewrite mapGet_mapSet_eq in Hk. injection Hk as <-.
  split; [done|]. right. by left.
Qed.

Lemma takeRunning_count p rs r rest k :
  takeRunning p rs = Some (r, rest) →
  length (running k rs)
  = ((if String.eqb (runLane r) k then 1 else 0) + length (running k rest))%nat.
Proof.
  revert r rest. induction rs as [|r0 rs IH]; intros r rest; simpl; [done|].
  destruct (promise (entry r0) =? p)%nat.
  - intros [= <- <-]. by destruct (String.eqb (runLane r0) k).
  - destruct (takeRunning p rs) as [[r' rest']|]; [|done].
    intros [= <- <-]. specialize (IH r' rest' eq_refl). simpl.
    destruct (String.eqb (runLane r0) k), (String.eqb (runLane r') k); simpl in *; lia.
Qed.

Lemma taskSettles_ok p out now s :
  counted s → restExcept None s →
  counted (taskSettles p out now s) ∧ restExcept None (taskSettles p out now s).
Proof.
  intros Hc Hr. unfold taskSettles.
  destruct (takeRunning p (inflight s)) as [[r rest]|] eqn:Et; [|done].
  destruct (mapGet (runLane r) (lanes s)) as [st|] eqn:Eg; [|done].
  set (st1 := mkLane (lane st) (queue st) (active st - 1) (maxConcurrent st) (draining st)).
  set (s1 := mkState (mapSet (runLane r) st1 (lanes s)) (nextPromise s) rest (trace s)).
  destruct (Hr _ st Eg) as [Hd _].
  assert (counted s1 ∧ restExcept (Some (runLane r)) s1) as [Hc1 Hr1].
  { split.
    - intros k. simpl. pose proof (Hc k) as Hk.
      rewrite (takeRunning_count p _ r rest k Et) in Hk.
      destruct (String.eqb_spec (runLane r) k) as [Heq|Hne].
      + rewrite <- Heq in *. rewrite mapGet_mapSet_eq. rewrite Eg in Hk. simpl. lia.
      + rewrite mapGet_mapSet_ne by done. by rewrite <- Hk.
    - intros k st'. simpl. destruct (String.eqb_spec (runLane r) k) as [Heq|Hne].
      + rewrite <- Heq. rewrite mapGet_mapSet_eq. intros [= <-]. split; [done | by left].
      + rewrite mapGet_mapSet_ne by done. intros Hk.
        destruct (Hr k st' Hk) as [? [?|?]]; [done|]. split; [done | by right]. }
  assert (∀ es, counted (pump (runLane r) now st1 (emit es s1))
                ∧ restExcept None (pump (runLane r) now st1 (emit es s1))) as Hpump.
  { intros es. apply (pump_ok _ _ _ st1); try done. apply mapGet_mapSet_eq. }
  destruct out as [value|err]; apply Hpump.
Qed.

Lemma step_ok s c :
  counted s → restExcept None s → counted (step s c) ∧ restExcept None (step s c).
Proof.
  intros Hc Hr. destruct c as [now [l w cb|w cb|l n|l|p out]]; unfold step; simpl.
  - by apply enqueueCommandInLane_ok.
  - by apply enqueueCommandInLane_ok.
  - by apply setCommandLaneConcurrency_ok.
  - by apply clearCommandLane_ok.
  - by apply taskSettles_ok.
Qed.

Lemma run_ok cs s :
  counted s → restExcept None s → counted (run cs s) ∧ restExcept None (run cs s).
Proof.
  revert s. induction cs as [|c cs IH]; intros s Hc Hr; simpl; [done|].
  destruct (step_ok s c Hc Hr) as [Hc' Hr']. by apply IH.
Qed.

(** With callbacks that return, every lane's [active] counter is the number
    of its tasks that have started and not completed. *)
Lemma returning_active_counted (history : list (Z * Lanes.Call)) :
  let s := run history init in
  (∀ k st, mapGet k (lanes s) = Some st →
     active st = Z.of_nat (length (running k (inflight s)))
     ∧ draining st = false
     ∧ (queue st = [] ∨ maxConcurrent st ≤ active st))
  ∧ (∀ r, r ∈ inflight s → is_Some (mapGet (runLane r) (lanes s)))
  ∧ (∀ l, getQueueSize l s
          = Z.of_nat (length (default [] (queue <$> mapGet (cleanLane l) (lanes s))))
            + Z.of_nat (length (running (cleanLane l) (inflight s)))).
Proof.
  intros s. destruct (run_ok history init) as [Hc Hr]; [done | done |].
  fold s in Hc, Hr. split; [|split].
  - intros k st Hk. pose proof (Hc k) as Hck. rewrite Hk in Hck.
    destruct (Hr k st Hk) as [Hd [?|Hsat]]; done.
  - intros r Hin. pose proof (Hc (runLane r)) as Hck.
    destruct (mapGet (runLane r) (lanes s)) as [st|]; [done|].
    assert (r ∈ running (runLane r) (inflight s)) as Hrun.
    { apply list_elem_of_In, filter_In. split; [by apply list_elem_of_In|].
      apply String.eqb_refl. }
    destruct (running (runLane r) (inflight s)); [by apply elem_of_nil in Hrun|].
    simpl in Hck. lia.
  - intros l. unfold getQueueSize. pose proof (Hc (cleanLane l)) as Hck.
    destruct (mapGet (cleanLane l) (lanes s)) as [st|]; simpl; lia.
Qed.

(** In [src/process/command-queue.ts], provided no [onWait] callback
    throws: whatever has been called ([clearCommandLane] included), every
    lane's [active] counter is exactly the number of its tasks that have
    started and not completed, so it is never negative and [getQueueSize] is
    the number of queued plus running commands; tasks run only on lanes that
    exist; and every call returns with no lane draining and no lane holding
    work it could start. *)
Theorem active_counts_running_tasks (behaviour : OnWaitBehaviour)
    (history : list (Z * Lanes.Call)) :
  (∀ cb waitedMs queuedAhead, behaviour cb waitedMs queuedAhead = None) →
  let s := (CommandQueueCallbacks.run behaviour history init).1 in
  (∀ k st, mapGet k (lanes s) = Some st →
     active st = Z.of_nat (length (running k (inflight s)))
     ∧ draining st = false
     ∧ (queue st = [] ∨ maxConcurrent st ≤ active st))
  ∧ (∀ r, r ∈ inflight s → is_Some (mapGet (runLane r) (lanes s)))
  ∧ (∀ l, getQueueSize l s
          = Z.of_nat (length (default [] (queue <$> mapGet (cleanLane l) (lanes s))))
            + Z.of_nat (length (running (cleanLane l) (inflight s)))).
Proof.
  intros Hreturn. cbv zeta. rewrite (counter_run_returning behaviour Hreturn).
  apply returning_active_counted.
Qed.

Lemma active_counts_running_tasks_witness :
  let s := (CommandQueueCallbacks.run returning
              [(0, EnqueueCommand None None);
               (1, EnqueueCommand (Some 0) (Some 7%nat));
               (2, ClearCommandLane "main");
               (3, EnqueueCommand None None);
               (4, TaskSettles 0 (Returned "done"))] init).1 in
  (∀ k st, mapGet k (lanes s) = Some st →
     active st = Z.of_nat (length (running k (inflight s)))
     ∧ draining st = false
     ∧ (queue st = [] ∨ maxConcurrent st ≤ active st))
  ∧ (∀ r, r ∈ inflight s → is_Some (mapGet (runLane r) (lanes s)))
  ∧ (∀ l, getQueueSize l s
          = Z.of_nat (length (default [] (queue <$> mapGet (cleanLane l) (lanes s))))
            + Z.of_nat (length (running (cleanLane l) (inflight s)))).
Proof.
  exact (active_counts_running_tasks returning
           [(0, EnqueueCommand None None);
            (1, EnqueueCommand (Some 0) (Some 7%nat));
            (2, ClearCommandLane "main");
            (3, EnqueueCommand None None);
            (4, TaskSettles 0 (Returned "done"))] (fun _ _ _ => eq_refl)).
Defined.

(** A callback that throws while a completed task's continuation pumps the
    lane makes the counter drift: the [catch] block decrements [active] a
    second time, to -1, before it starts command 2, so the lane counts no
    active task while one runs, and the next command starts beside it under
    a cap of 1.  Thrown on the enqueue path instead, the callback leaves the
    lane in the draining state. *)
Example throwing_callback_miscounts :
  let behaviour : OnWaitBehaviour :=
    fun cb _ _ => if (cb =? 7)%nat then Some "boom" else None in
  let history := [(0, EnqueueCommand None None);
                  (1, EnqueueCommand (Some 5) (Some 7%nat));
                  (2, EnqueueCommand None None);
                  (10, TaskSettles 0 (Returned "a"))] in
  let s := (CommandQueueCallbacks.run behaviour history init).1 in
  let s' := (CommandQueueCallbacks.run behaviour
               (history ++ [(11, EnqueueCommand None None)]) init).1 in
  let stuck := (CommandQueueCallbacks.run behaviour
                  [(0, EnqueueCommand (Some 0) (Some 7%nat))] init).1 in
  map (fun kv => (active (snd kv), maxConcurrent (snd kv))) (lanes s) = [(0, 1)]
  ∧ map (fun r => promise (entry r)) (inflight s) = [2%nat]
  ∧ map (fun kv => (active (snd kv), maxConcurrent (snd kv))) (lanes s') = [(1, 1)]
  ∧ map (fun r => promise (entry r)) (inflight s') = [2; 3]%nat
  ∧ map (fun kv => (map promise (queue (snd kv)), draining (snd kv))) (lanes stuck)
    = [([], true)]
  ∧ trace stuck = [LogLaneEnqueue "main" 1; OnWait 7 0 0; Reject 0 (TaskThrew "boom")].
Proof. by vm_compute. Qed.

Example active_counts_running_tasks_trace :
  let s := run [(0, EnqueueCommand None None);
                (1, EnqueueCommand None None);
                (2, ClearCommandLane "main");
                (3, EnqueueCommand None None);
                (4, TaskSettles 0 (Returned "done"))] init in
  map (fun kv => (map promise (queue (snd kv)), active (snd kv))) (lanes s) = [([], 1)]
  ∧ map (fun r => promise (entry r)) (inflight s) = [2%nat]
  ∧ getQueueSize "main" s = 1.
Proof. by vm_compute. Qed.

End CommandQueueCounting.
